(** * Address manager of mako (src/node/addrman.c)

    A shallow embedding of the peer address manager and the proofs of
    its specification.

    Representation choices, shared by every definition below.

    - Bytes are integers in [0, 256); a buffer is a [list Z].  A writer
      returns the bytes it appends, a reader takes the bytes that remain
      and returns the value read with the rest, or [None] when the input
      is too short.
    - [int64_t] and [int32_t] arithmetic on timestamps and attempt
      counters is written with its two's-complement wrap-around
      ([wrap64], [wrap32]); [size_t] with its wrap-around modulo 2^64
      ([wrapsz]).  The reference count of an entry is a small signed
      counter: [add] stops it at [MAX_REFS] and the reader increments it
      once per key of the image, so that leaving the range of an [int]
      takes an image of more than 2^31 keys; its arithmetic is exact.
    - An entry is allocated once and aliased by the global index and by
      the buckets.  The global index is the store of entry objects; a
      bucket slot holds the key {raw, port} of the entry it points to,
      so a change made through one alias is seen through all of them.
      Freeing an entry is removing it from the store; following a
      reference to a freed entry makes the operation stuck ([None]),
      as does a failed [CHECK].
    - The hash table [btc_addrmap_t] is a [gmap] (a [gset] for a fresh
      bucket, whose values are the entries named by its keys); its
      iteration order is the order of [map_to_list] / [elements].
    - A used bucket, a doubly linked list with a length field, is the
      list of the keys of its nodes from head to tail.
    - The clock, the random sampler, the hash function and the address
      classifiers are collaborators outside the file: the clock reading
      and the random draws are arguments of the operations, the others
      are the fields of [Collab]. *)

From stdpp Require Import base option list gmap sets.
From Stdlib Require Import ZArith Lia.
From Stdlib Require QArith.

Local Open Scope Z_scope.
Set Warnings "-clear-no-such-hyp".

(** ** Constants *)

Definition SER_VERSION : Z := 0.
Definition HORIZON_DAYS : Z := 30.
Definition MAX_RETRIES : Z := 3.
Definition MIN_FAIL_DAYS : Z := 7.
Definition MAX_FAILURES : Z := 10.
Definition MAX_REFS : Z := 8.
Definition MAX_FRESH_BUCKETS : nat := 1024.
Definition MAX_USED_BUCKETS : nat := 256.
Definition MAX_ENTRIES : Z := 64.
Definition BTC_ADDRKEY_SIZE : Z := 18.
Definition BTC_ADDRENT_SIZE : Z := 2 * BTC_ADDRKEY_SIZE + 36.

(** ** Machine integers *)

Definition wrapsz (z : Z) : Z := z mod 2 ^ 64.
Definition wrap64 (z : Z) : Z := (z + 2 ^ 63) mod 2 ^ 64 - 2 ^ 63.
Definition wrap32 (z : Z) : Z := (z + 2 ^ 31) mod 2 ^ 32 - 2 ^ 31.

Definition add64 (a b : Z) : Z := wrap64 (a + b).
Definition sub64 (a b : Z) : Z := wrap64 (a - b).

Definition is_int64 (z : Z) : Prop := - 2 ^ 63 <= z < 2 ^ 63.
Definition is_int32 (z : Z) : Prop := - 2 ^ 31 <= z < 2 ^ 31.
Definition is_uint64 (z : Z) : Prop := 0 <= z < 2 ^ 64.
Definition is_uint16 (z : Z) : Prop := 0 <= z < 2 ^ 16.
Definition is_byte (z : Z) : Prop := 0 <= z < 256.

#[global] Instance is_byte_dec z : Decision (is_byte z).
Proof. unfold is_byte. apply _. Defined.

(** ** Little-endian primitives (bio.h) *)

Fixpoint le_bytes (n : nat) (z : Z) : list Z :=
  match n with
  | O => []
  | S n' => z mod 256 :: le_bytes n' (z / 256)
  end.

Fixpoint le_value (bs : list Z) : Z :=
  match bs with
  | [] => 0
  | b :: bs' => b + 256 * le_value bs'
  end.

Definition btc_raw_write (xs : list Z) (n : nat) : list Z := take n xs.
Definition btc_uint16_write (x : Z) : list Z := le_bytes 2 x.
Definition btc_uint32_write (x : Z) : list Z := le_bytes 4 x.
Definition btc_uint64_write (x : Z) : list Z := le_bytes 8 x.
Definition btc_int32_write (x : Z) : list Z := le_bytes 4 x.
Definition btc_int64_write (x : Z) : list Z := le_bytes 8 x.

Definition btc_raw_read (n : nat) (xs : list Z) : option (list Z * list Z) :=
  if decide (n ≤ length xs)%nat then Some (take n xs, drop n xs) else None.

Definition btc_uint_read (n : nat) (xs : list Z) : option (Z * list Z) :=
  match btc_raw_read n xs with
  | Some (bs, rest) => Some (le_value bs, rest)
  | None => None
  end.

Definition btc_uint16_read := btc_uint_read 2.
Definition btc_uint32_read := btc_uint_read 4.
Definition btc_uint64_read := btc_uint_read 8.

Definition btc_int32_read (xs : list Z) : option (Z * list Z) :=
  match btc_uint_read 4 xs with
  | Some (v, rest) => Some (wrap32 v, rest)
  | None => None
  end.

Definition btc_int64_read (xs : list Z) : option (Z * list Z) :=
  match btc_uint_read 8 xs with
  | Some (v, rest) => Some (wrap64 v, rest)
  | None => None
  end.

(** Modelled from the spec: [btc_size_size], [btc_size_write] and
    [btc_size_read] are declared in impl.h, which is not among the
    sources; the spec calls the format "the standard Bitcoin
    compact-size encoding": one byte below 0xfd, else a marker byte
    0xfd, 0xfe or 0xff followed by the value on 2, 4 or 8 little-endian
    bytes, the shortest form being the only one a reader accepts. *)
Definition btc_size_size (n : Z) : Z :=
  if decide (n < 253) then 1
  else if decide (n <= 65535) then 3
  else if decide (n <= 4294967295) then 5
  else 9.

Definition btc_size_write (n : Z) : list Z :=
  if decide (n < 253) then [n]
  else if decide (n <= 65535) then 253 :: le_bytes 2 n
  else if decide (n <= 4294967295) then 254 :: le_bytes 4 n
  else 255 :: le_bytes 8 n.

Definition btc_size_read (xs : list Z) : option (Z * list Z) :=
  match xs with
  | [] => None
  | b :: rest =>
      if decide (b = 253) then
        match btc_uint_read 2 rest with
        | Some (v, rest') => if decide (v < 253) then None else Some (v, rest')
        | None => None
        end
      else if decide (b = 254) then
        match btc_uint_read 4 rest with
        | Some (v, rest') => if decide (v <= 65535) then None else Some (v, rest')
        | None => None
        end
      else if decide (b = 255) then
        match btc_uint_read 8 rest with
        | Some (v, rest') =>
            if decide (v <= 4294967295) then None else Some (v, rest')
        | None => None
        end
      else Some (b, rest)
  end.

(** ** Network address (netaddr.h: time, services, raw[16], port) *)

Record btc_netaddr := mk_netaddr {
  time : Z;
  services : Z;
  raw : list Z;
  port : Z
}.

Abbreviation addrkey := (list Z * Z)%type.

(** Equality and hashing of the address tables are over {raw, port}. *)
Definition key_of (a : btc_netaddr) : addrkey := (raw a, port a).

Definition btc_netaddr_init : btc_netaddr :=
  {| time := 0; services := 0; raw := replicate 16 0; port := 0 |}.

Definition set_time (t : Z) (a : btc_netaddr) : btc_netaddr :=
  {| time := t; services := services a; raw := raw a; port := port a |}.
Definition set_services (s : Z) (a : btc_netaddr) : btc_netaddr :=
  {| time := time a; services := s; raw := raw a; port := port a |}.
Definition set_port (p : Z) (a : btc_netaddr) : btc_netaddr :=
  {| time := time a; services := services a; raw := raw a; port := p |}.

Definition netaddr_ok (a : btc_netaddr) : Prop :=
  is_int64 (time a) ∧ is_uint64 (services a) ∧
  length (raw a) = 16%nat ∧ is_uint16 (port a).

(** ** Address key codec *)

Definition btc_addrkey_write (x : btc_netaddr) : list Z :=
  btc_raw_write (raw x) 16 ++ btc_uint16_write (port x).

Definition btc_addrkey_read (xs : list Z) : option (btc_netaddr * list Z) :=
  match btc_raw_read 16 xs with
  | None => None
  | Some (r, xs1) =>
      match btc_uint16_read xs1 with
      | None => None
      | Some (p, xs2) =>
          Some ({| time := 0; services := 0; raw := r; port := p |}, xs2)
      end
  end.

(** ** Address entry *)

Record btc_addrent := mk_addrent {
  addr : btc_netaddr;
  src : btc_netaddr;
  used : bool;
  ref_count : Z;
  attempts : Z;
  last_success : Z;
  last_attempt : Z
}.

Definition btc_addrent_init : btc_addrent :=
  {| addr := btc_netaddr_init; src := btc_netaddr_init; used := false;
     ref_count := 0; attempts := 0; last_success := 0; last_attempt := 0 |}.

Definition set_addr (a : btc_netaddr) (e : btc_addrent) : btc_addrent :=
  {| addr := a; src := src e; used := used e; ref_count := ref_count e;
     attempts := attempts e; last_success := last_success e;
     last_attempt := last_attempt e |}.
Definition set_used (u : bool) (e : btc_addrent) : btc_addrent :=
  {| addr := addr e; src := src e; used := u; ref_count := ref_count e;
     attempts := attempts e; last_success := last_success e;
     last_attempt := last_attempt e |}.
Definition set_ref_count (r : Z) (e : btc_addrent) : btc_addrent :=
  {| addr := addr e; src := src e; used := used e; ref_count := r;
     attempts := attempts e; last_success := last_success e;
     last_attempt := last_attempt e |}.
Definition set_attempt (n t : Z) (e : btc_addrent) : btc_addrent :=
  {| addr := addr e; src := src e; used := used e; ref_count := ref_count e;
     attempts := n; last_success := last_success e; last_attempt := t |}.
Definition set_success (t : Z) (e : btc_addrent) : btc_addrent :=
  {| addr := addr e; src := src e; used := used e; ref_count := ref_count e;
     attempts := attempts e; last_success := t;
     last_attempt := last_attempt e |}.

Definition set_src (s : btc_netaddr) (e : btc_addrent) : btc_addrent :=
  {| addr := addr e; src := s; used := used e; ref_count := ref_count e;
     attempts := attempts e; last_success := last_success e;
     last_attempt := last_attempt e |}.

Definition btc_addrent_write (x : btc_addrent) : list Z :=
  btc_addrkey_write (addr x) ++
  btc_uint64_write (services (addr x)) ++
  btc_int64_write (time (addr x)) ++
  btc_addrkey_write (src x) ++
  btc_int32_write (attempts x) ++
  btc_int64_write (last_success x) ++
  btc_int64_write (last_attempt x).

(** ** Collaborators

    Declared in headers that are not part of the sources: the double
    SHA-256 of the concatenated updates, the 6-byte network group of an
    address, the reachability score, the routability test, the two
    service masks, and the size of the [port] field that [used_bucket]
    feeds to the hash. *)

Class Collab := {
  btc_hash256 : list Z → list Z;
  btc_netaddr_groupkey : btc_netaddr → list Z;
  btc_netaddr_reachability : btc_netaddr → btc_netaddr → Z;
  btc_netaddr_is_routable : btc_netaddr → bool;
  BTC_NET_DEFAULT_SERVICES : Z;
  BTC_NET_LOCAL_SERVICES : Z;
  sizeof_port : nat;
  default_services_ok : is_uint64 BTC_NET_DEFAULT_SERVICES;
  local_services_ok : is_uint64 BTC_NET_LOCAL_SERVICES
}.

(** The sampler [btc_uniform (n)] answers in [0, n); [r] is the raw
    draw of the random source for this call. *)
Definition btc_uniform (r n : Z) : Z := r mod n.

Definition btc_read32le (xs : list Z) : Z := le_value (take 4 xs).

(** ** Entry reader and selection weight *)

Definition btc_addrent_read `{Collab} (now : Z) (xs : list Z)
  : option (btc_addrent * list Z) :=
  '(a, xs1) ← btc_addrkey_read xs;
  '(sv, xs2) ← btc_uint64_read xs1;
  '(t, xs3) ← btc_int64_read xs2;
  '(s, xs4) ← btc_addrkey_read xs3;
  '(att, xs5) ← btc_int32_read xs4;
  '(ls, xs6) ← btc_int64_read xs5;
  '(la, xs7) ← btc_int64_read xs6;
  Some ({| addr := set_time t (set_services sv a);
           src := set_time now (set_services BTC_NET_DEFAULT_SERVICES s);
           used := false; ref_count := 0; attempts := att;
           last_success := ls; last_attempt := la |}, xs7).

(** The weight is a [double] in the source; it is computed here on
    exact rationals. *)
Definition btc_addrent_chance (entry : btc_addrent) (now : Z) : QArith_base.Q :=
  let att := if decide (attempts entry > 8) then 8 else attempts entry in
  let c := if decide (sub64 now (last_attempt entry) < 60 * 10)
           then QArith_base.Qmake 1 100 else QArith_base.Qmake 1 1 in
  QArith_base.Qmult c (QArith_base.Qpower (QArith_base.Qmake 66 100) att).

(** ** Local address record *)

Record btc_local := mk_local {
  laddr : btc_netaddr;
  ltype : Z;
  score : Z
}.

(** ** Address manager *)

Record btc_addrman := mk_addrman {
  man_magic : Z;
  man_port : Z;
  man_addr : btc_netaddr;
  man_services : Z;
  man_ban_time : Z;
  man_key : list Z;
  man_map : gmap addrkey btc_addrent;
  man_fresh : list (gset addrkey);
  man_total_fresh : Z;
  man_used : list (list addrkey);
  man_total_used : Z;
  man_local : gmap addrkey btc_local;
  man_banned : gmap addrkey btc_netaddr;
  man_needs_flush : bool
}.

Definition set_key (x : list Z) (m : btc_addrman) : btc_addrman :=
  mk_addrman (man_magic m) (man_port m) (man_addr m) (man_services m)
    (man_ban_time m) x (man_map m) (man_fresh m) (man_total_fresh m)
    (man_used m) (man_total_used m) (man_local m) (man_banned m)
    (man_needs_flush m).
Definition set_map (x : gmap addrkey btc_addrent) (m : btc_addrman) :=
  mk_addrman (man_magic m) (man_port m) (man_addr m) (man_services m)
    (man_ban_time m) (man_key m) x (man_fresh m) (man_total_fresh m)
    (man_used m) (man_total_used m) (man_local m) (man_banned m)
    (man_needs_flush m).
Definition set_fresh (x : list (gset addrkey)) (m : btc_addrman) :=
  mk_addrman (man_magic m) (man_port m) (man_addr m) (man_services m)
    (man_ban_time m) (man_key m) (man_map m) x (man_total_fresh m)
    (man_used m) (man_total_used m) (man_local m) (man_banned m)
    (man_needs_flush m).
Definition set_total_fresh (x : Z) (m : btc_addrman) :=
  mk_addrman (man_magic m) (man_port m) (man_addr m) (man_services m)
    (man_ban_time m) (man_key m) (man_map m) (man_fresh m) x
    (man_used m) (man_total_used m) (man_local m) (man_banned m)
    (man_needs_flush m).
Definition set_usedb (x : list (list addrkey)) (m : btc_addrman) :=
  mk_addrman (man_magic m) (man_port m) (man_addr m) (man_services m)
    (man_ban_time m) (man_key m) (man_map m) (man_fresh m) (man_total_fresh m)
    x (man_total_used m) (man_local m) (man_banned m)
    (man_needs_flush m).
Definition set_total_used (x : Z) (m : btc_addrman) :=
  mk_addrman (man_magic m) (man_port m) (man_addr m) (man_services m)
    (man_ban_time m) (man_key m) (man_map m) (man_fresh m) (man_total_fresh m)
    (man_used m) x (man_local m) (man_banned m)
    (man_needs_flush m).
Definition set_local (x : gmap addrkey btc_local) (m : btc_addrman) :=
  mk_addrman (man_magic m) (man_port m) (man_addr m) (man_services m)
    (man_ban_time m) (man_key m) (man_map m) (man_fresh m) (man_total_fresh m)
    (man_used m) (man_total_used m) x (man_banned m)
    (man_needs_flush m).
Definition set_banned (x : gmap addrkey btc_netaddr) (m : btc_addrman) :=
  mk_addrman (man_magic m) (man_port m) (man_addr m) (man_services m)
    (man_ban_time m) (man_key m) (man_map m) (man_fresh m) (man_total_fresh m)
    (man_used m) (man_total_used m) (man_local m) x
    (man_needs_flush m).
Definition set_needs_flush (x : bool) (m : btc_addrman) :=
  mk_addrman (man_magic m) (man_port m) (man_addr m) (man_services m)
    (man_ban_time m) (man_key m) (man_map m) (man_fresh m) (man_total_fresh m)
    (man_used m) (man_total_used m) (man_local m) (man_banned m) x.
Definition set_man_addr (x : btc_netaddr) (m : btc_addrman) :=
  mk_addrman (man_magic m) (man_port m) x (man_services m)
    (man_ban_time m) (man_key m) (man_map m) (man_fresh m) (man_total_fresh m)
    (man_used m) (man_total_used m) (man_local m) (man_banned m)
    (man_needs_flush m).
Definition set_ban_time (x : Z) (m : btc_addrman) :=
  mk_addrman (man_magic m) (man_port m) (man_addr m) (man_services m)
    x (man_key m) (man_map m) (man_fresh m) (man_total_fresh m)
    (man_used m) (man_total_used m) (man_local m) (man_banned m)
    (man_needs_flush m).

(** 127.0.0.1 as an IPv4-mapped address. *)
Definition loopback_raw : list Z :=
  [0; 0; 0; 0; 0; 0; 0; 0; 0; 0; 255; 255; 127; 0; 0; 1].

(** [magic] and [nport] are the two fields of the network that the
    manager reads; [rk] is the answer of [btc_getrandom]. *)
Definition btc_addrman_create `{Collab} (magic nport now : Z) (rk : list Z)
  : btc_addrman :=
  {| man_magic := magic; man_port := nport;
     man_addr := {| time := now; services := BTC_NET_LOCAL_SERVICES;
                    raw := loopback_raw; port := nport |};
     man_services := BTC_NET_LOCAL_SERVICES;
     man_ban_time := 24 * 60 * 60;
     man_key := rk;
     man_map := ∅;
     man_fresh := replicate MAX_FRESH_BUCKETS ∅;
     man_total_fresh := 0;
     man_used := replicate MAX_USED_BUCKETS [];
     man_total_used := 0;
     man_local := ∅;
     man_banned := ∅;
     man_needs_flush := false |}.

Definition btc_addrman_set_external (a : btc_netaddr) (man : btc_addrman)
  : btc_addrman :=
  if decide (raw a = replicate 16 0) then man else set_man_addr a man.

Definition btc_addrman_set_bantime (t : Z) (man : btc_addrman) : btc_addrman :=
  set_ban_time t man.

Definition btc_addrman_total (man : btc_addrman) : Z :=
  wrapsz (man_total_fresh man + man_total_used man).

Definition btc_addrman_is_full (man : btc_addrman) : bool :=
  bool_decide (man_total_fresh man >= Z.of_nat MAX_FRESH_BUCKETS * MAX_ENTRIES).

Definition btc_addrman_reset (rk : list Z) (man : btc_addrman) : btc_addrman :=
  set_key rk
    (set_total_used 0
      (set_total_fresh 0
        (set_usedb ((λ _, []) <$> man_used man)
          (set_fresh ((λ _, ∅) <$> man_fresh man)
            (set_map ∅ man))))).

(** ** Ban table *)

Definition btc_addrman_ban (man : btc_addrman) (now : Z) (a : btc_netaddr)
  : btc_addrman :=
  let entry := set_time now (set_port 0 a) in
  match man_banned man !! key_of entry with
  | Some _ => man
  | None => set_banned (<[key_of entry := entry]> (man_banned man)) man
  end.

Definition btc_addrman_unban (man : btc_addrman) (a : btc_netaddr)
  : btc_addrman :=
  set_banned (delete (key_of (set_port 0 a)) (man_banned man)) man.

Definition btc_addrman_is_banned (man : btc_addrman) (now : Z)
  (a : btc_netaddr) : btc_addrman * bool :=
  let key := set_port 0 a in
  match man_banned man !! key_of key with
  | None => (man, false)
  | Some entry =>
      if decide (now > add64 (time entry) (man_ban_time man)) then
        (set_banned (delete (key_of key) (man_banned man)) man, false)
      else (man, true)
  end.

Definition btc_addrman_clear_banned (man : btc_addrman) : btc_addrman :=
  set_banned ∅ man.

(** ** Bucket mathematics

    A bucket is returned by the source as a pointer into the vector; it
    is identified here by its index. *)

Definition fresh_bucket `{Collab} (man : btc_addrman) (entry : btc_addrent)
  : nat :=
  let hash1 := btc_hash256 (man_key man ++
                            btc_netaddr_groupkey (addr entry) ++
                            btc_netaddr_groupkey (src entry)) in
  let hash32 := btc_read32le hash1 mod 64 in
  let hash2 := btc_hash256 (man_key man ++
                            btc_netaddr_groupkey (src entry) ++
                            le_bytes 4 hash32) in
  let hash := btc_read32le hash2 in
  Z.to_nat (hash mod Z.of_nat (length (man_fresh man))).

Definition used_bucket `{Collab} (man : btc_addrman) (entry : btc_addrent)
  : nat :=
  let hash1 := btc_hash256 (man_key man ++
                            take 16 (raw (addr entry)) ++
                            le_bytes sizeof_port (port (addr entry))) in
  let hash32 := btc_read32le hash1 mod 8 in
  let hash2 := btc_hash256 (man_key man ++
                            btc_netaddr_groupkey (addr entry) ++
                            le_bytes 4 hash32) in
  let hash := btc_read32le hash2 in
  Z.to_nat (hash mod Z.of_nat (length (man_used man))).

(** ** Staleness and eviction *)

Definition is_stale (now : Z) (entry : btc_addrent) : bool :=
  if decide (last_attempt entry ≠ 0 ∧ last_attempt entry >= sub64 now 60)
  then false
  else if decide (time (addr entry) > add64 now (10 * 60)) then true
  else if decide (time (addr entry) = 0) then true
  else if decide (sub64 now (time (addr entry)) > HORIZON_DAYS * 24 * 60 * 60)
  then true
  else if decide (last_success entry = 0 ∧ attempts entry >= MAX_RETRIES)
  then true
  else if decide (sub64 now (last_success entry) > MIN_FAIL_DAYS * 24 * 60 * 60)
  then (if decide (attempts entry >= MAX_FAILURES) then true else false)
  else false.

(** The reference-decrement protocol of [evict_fresh], written twice in
    the source: delete the key from the bucket, decrement the entry's
    reference count and, when it reaches zero, delete the entry from the
    global index, free it and decrement [total_fresh]. *)
Definition fresh_unref (i : nat) (k : addrkey) (entry : btc_addrent)
  (man : btc_addrman) : btc_addrman :=
  let man1 :=
    set_fresh (alter (λ b, b ∖ {[key_of (addr entry)]}) i (man_fresh man)) man in
  if decide (ref_count entry - 1 = 0) then
    set_total_fresh (wrapsz (man_total_fresh man1 - 1))
      (set_map (delete (key_of (addr entry)) (man_map man1)) man1)
  else
    set_map (<[k := set_ref_count (ref_count entry - 1) entry]>
               (man_map man1)) man1.

(** One turn of the loop of [evict_fresh]: the state is the manager and
    [old], the oldest entry seen so far that is not stale. *)
Definition evict_fresh_step (now : Z) (i : nat)
  (st : option (btc_addrman * option addrkey)) (k : addrkey)
  : option (btc_addrman * option addrkey) :=
  '(man, old) ← st;
  entry ← man_map man !! k;
  if is_stale now entry then Some (fresh_unref i k entry man, old)
  else
    match old with
    | None => Some (man, Some k)
    | Some ko =>
        eo ← man_map man !! ko;
        if decide (time (addr entry) < time (addr eo))
        then Some (man, Some k) else Some (man, old)
    end.

Definition evict_fresh (now : Z) (man : btc_addrman) (i : nat)
  : option btc_addrman :=
  bucket ← man_fresh man !! i;
  '(man1, old) ← foldl (evict_fresh_step now i) (Some (man, None))
                   (elements bucket);
  match old with
  | None => Some man1
  | Some ko =>
      eo ← man_map man1 !! ko;
      Some (fresh_unref i ko eo man1)
  end.

(** One turn of the loop of [evict_used]; [old] starts at the head. *)
Definition evict_used_step (m : gmap addrkey btc_addrent)
  (old : option addrkey) (k : addrkey) : option addrkey :=
  ko ← old;
  eo ← m !! ko;
  entry ← m !! k;
  if decide (time (addr entry) < time (addr eo)) then Some k else Some ko.

Definition evict_used (man : btc_addrman) (bucket : list addrkey)
  : option addrkey :=
  foldl (evict_used_step (man_map man)) (head bucket) bucket.

(** ** add *)

(** The common tail of [btc_addrman_add], from the computation of the
    bucket on.  [entry] is the object as it stands; [known] tells
    whether it is already in the global index (and is then read again
    after the eviction) or newly allocated. *)
Definition add_insert `{Collab} (man : btc_addrman) (now : Z)
  (entry : btc_addrent) (known : bool) : option (btc_addrman * bool) :=
  let i := fresh_bucket man entry in
  let k := key_of (addr entry) in
  bucket ← man_fresh man !! i;
  if decide (k ∈ bucket) then Some (man, false)
  else
    man1 ← (if decide (Z.of_nat (size bucket) >= MAX_ENTRIES)
             then evict_fresh now man i else Some man);
    entry1 ← (if known then man_map man1 !! k else Some entry);
    let entry2 := set_ref_count (ref_count entry1 + 1) entry1 in
    Some (set_needs_flush true
            (set_map (<[k := entry2]> (man_map man1))
               (set_fresh (alter (λ b, {[k]} ∪ b) i (man_fresh man1)) man1)),
          true).

(** What [btc_addrman_add] does to a known entry before its tests: the
    services are merged and the time is periodically updated.  The
    result is the entry and whether the update took place. *)
Definition add_touch (now : Z) (a : btc_netaddr) (s : option btc_netaddr)
  (entry : btc_addrent) : btc_addrent * bool :=
  let penalty := if s is None then 0 else 2 * 60 * 60 in
  let entry1 :=
    set_addr (set_services (Z.lor (services (addr entry)) (services a))
                (addr entry)) entry in
  let interval :=
    if decide (sub64 now (time a) < 24 * 60 * 60)
    then 60 * 60 else 24 * 60 * 60 in
  if decide (time (addr entry1) < sub64 (sub64 (time a) interval) penalty)
  then (set_addr (set_time (time a) (addr entry1)) entry1, true)
  else (entry1, false).

(** [u] is the raw draw behind [btc_uniform (factor)]. *)
Definition btc_addrman_add `{Collab} (man : btc_addrman) (now u : Z)
  (a : btc_netaddr) (s : option btc_netaddr) : option (btc_addrman * bool) :=
  if decide (port a = 0) then None
  else
    match man_map man !! key_of a with
    | Some entry =>
        let '(entry2, upd) := add_touch now a s entry in
        let man1 :=
          set_map (<[key_of a := entry2]> (man_map man))
            (if upd then set_needs_flush true man else man) in
        if decide (time (addr entry2) ≠ 0 ∧ time a <= time (addr entry2))
        then Some (man1, false)
        else if used entry2 then Some (man1, false)
        else if decide (ref_count entry2 > 0) then
          if decide (ref_count entry2 = MAX_REFS) then Some (man1, false)
          else if decide (ref_count entry2 < MAX_REFS) then
            let factor := 2 ^ ref_count entry2 in
            if decide (btc_uniform u factor ≠ 0) then Some (man1, false)
            else add_insert man1 now entry2 true
          else None
        else None
    | None =>
        let s1 := default (man_addr man) s in
        let entry := set_src s1 (set_addr a btc_addrent_init) in
        let entry1 :=
          if decide (time (addr entry) <= 100000000 ∨
                     time (addr entry) > add64 now (10 * 60))
          then set_addr (set_time (sub64 now (5 * 24 * 60 * 60)) (addr entry))
                 entry
          else entry in
        add_insert (set_total_fresh (wrapsz (man_total_fresh man + 1)) man)
          now entry1 false
    end.

(** ** remove *)

(** [btc_addrmap_del] on every fresh bucket in turn, counting the hits
    on the reference count [rc] and remembering the last bucket hit. *)
Fixpoint fresh_del_all (k : addrkey) (fresh : list (gset addrkey)) (i : nat)
  (rc : Z) (old : option nat) : list (gset addrkey) * Z * option nat :=
  match fresh with
  | [] => ([], rc, old)
  | b :: rest =>
      if decide (k ∈ b) then
        let '(r, rc', old') := fresh_del_all k rest (S i) (rc - 1) (Some i) in
        ((b ∖ {[k]}) :: r, rc', old')
      else
        let '(r, rc', old') := fresh_del_all k rest (S i) rc old in
        (b :: r, rc', old')
  end.

(** The head reached from a node by following [prev]: the head of the
    list the node is linked in. *)
Fixpoint chain_head (k : addrkey) (used : list (list addrkey))
  : option addrkey :=
  match used with
  | [] => None
  | l :: rest => if decide (k ∈ l) then head l else chain_head k rest
  end.

(** The first bucket whose head pointer is [h]. *)
Fixpoint find_head (h : addrkey) (used : list (list addrkey)) (i : nat)
  : option nat :=
  match used with
  | [] => None
  | l :: rest => if decide (head l = Some h) then Some i
                 else find_head h rest (S i)
  end.

(** [btc_list_remove]: unlink the node. *)
Fixpoint list_unlink (k : addrkey) (l : list addrkey) : list addrkey :=
  match l with
  | [] => []
  | x :: l' => if decide (x = k) then l' else x :: list_unlink k l'
  end.

(** [btc_list_replace]: put node [k'] at the place of node [k]. *)
Fixpoint list_replace (k k' : addrkey) (l : list addrkey) : list addrkey :=
  match l with
  | [] => []
  | x :: l' => if decide (x = k) then k' :: l' else x :: list_replace k k' l'
  end.

Definition btc_addrman_remove (man : btc_addrman) (a : btc_netaddr)
  : option (btc_addrman * bool) :=
  match man_map man !! key_of a with
  | None => Some (man, false)
  | Some entry =>
      let k := key_of (addr entry) in
      man1 ← (if used entry then
                if decide (ref_count entry = 0) then
                  h ← chain_head k (man_used man);
                  i ← find_head h (man_used man) 0;
                  Some (set_total_used (wrapsz (man_total_used man - 1))
                          (set_usedb (alter (list_unlink k) i (man_used man))
                             man))
                else None
              else
                let '(fresh, rc, _) :=
                  fresh_del_all k (man_fresh man) 0 (ref_count entry) None in
                if decide (rc = 0) then
                  Some (set_total_fresh (wrapsz (man_total_fresh man - 1))
                          (set_fresh fresh man))
                else None);
      if decide (is_Some (man_map man1 !! k)) then
        Some (set_map (delete k (man_map man1)) man1, true)
      else None
  end.

(** ** mark_attempt, mark_success, mark_ack *)

Definition btc_addrman_mark_attempt (man : btc_addrman) (now : Z)
  (a : btc_netaddr) : btc_addrman :=
  match man_map man !! key_of a with
  | None => man
  | Some entry =>
      set_map (<[key_of a := set_attempt (wrap32 (attempts entry + 1)) now
                               entry]> (man_map man)) man
  end.

Definition btc_addrman_mark_success (man : btc_addrman) (now : Z)
  (a : btc_netaddr) : btc_addrman :=
  match man_map man !! key_of a with
  | None => man
  | Some entry =>
      if decide (sub64 now (time (addr entry)) > 20 * 60) then
        set_map (<[key_of a := set_addr (set_time now (addr entry)) entry]>
                   (man_map man)) man
      else man
  end.

Definition btc_addrman_mark_ack `{Collab} (man : btc_addrman) (now : Z)
  (a : btc_netaddr) (svc : Z) : option btc_addrman :=
  match man_map man !! key_of a with
  | None => Some man
  | Some entry =>
      let ka := key_of a in
      let entry1 :=
        set_attempt 0 now
          (set_success now
             (set_addr (set_services (Z.lor (services (addr entry)) svc)
                          (addr entry)) entry)) in
      let man1 := set_map (<[ka := entry1]> (man_map man)) man in
      if used entry1 then Some man1
      else if decide (ref_count entry1 > 0) then
        let k := key_of (addr entry1) in
        let '(fresh, rc, old) :=
          fresh_del_all k (man_fresh man1) 0 (ref_count entry1) None in
        match old with
        | None => None
        | Some io =>
            if decide (rc = 0) then
              let entry2 := set_ref_count rc entry1 in
              let man2 :=
                set_total_fresh (wrapsz (man_total_fresh man1 - 1))
                  (set_fresh fresh
                     (set_map (<[ka := entry2]> (man_map man1)) man1)) in
              let ib := used_bucket man2 entry2 in
              bucket ← man_used man2 !! ib;
              if decide (Z.of_nat (length bucket) < MAX_ENTRIES) then
                Some (set_total_used (wrapsz (man_total_used man2 + 1))
                        (set_usedb (alter (λ l, l ++ [k]) ib (man_used man2))
                           (set_map (<[ka := set_used true entry2]>
                                       (man_map man2)) man2)))
              else
                kv ← evict_used man2 bucket;
                evicted ← man_map man2 !! kv;
                let f0 := fresh_bucket man2 evicted in
                fb ← man_fresh man2 !! f0;
                let f := if decide (Z.of_nat (size fb) >= MAX_ENTRIES)
                         then io else f0 in
                let man3 :=
                  set_usedb (alter (list_replace kv k) ib (man_used man2))
                    (set_map (<[ka := set_used true entry2]> (man_map man2))
                       man2) in
                evicted1 ← man_map man3 !! kv;
                let evicted2 := set_used false evicted1 in
                let man4 :=
                  set_fresh (alter (λ b, {[key_of (addr evicted2)]} ∪ b) f
                               (man_fresh man3))
                    (set_map (<[kv := evicted2]> (man_map man3)) man3) in
                if decide (ref_count evicted2 = 0) then
                  Some (set_total_fresh (wrapsz (man_total_fresh man4 + 1))
                          (set_map (<[kv := set_ref_count
                                             (ref_count evicted2 + 1)
                                             evicted2]> (man_map man4)) man4))
                else None
            else None
        end
      else None
  end.

(** ** get

    [draws] are the raw draws of the random source in the order the
    calls to [btc_uniform] consume them; [fuel] bounds the number of
    turns of the selection loop.  The outer [None] means that the draws
    or the fuel ran out before the loop accepted an entry. *)

Definition accepts (num : Z) (factor : QArith_base.Q) (entry : btc_addrent)
  (now : Z) : bool :=
  if QArith_base.Qlt_le_dec (QArith_base.inject_Z num)
       (QArith_base.Qmult
          (QArith_base.Qmult factor (btc_addrent_chance entry now))
          (QArith_base.inject_Z (2 ^ 30)))
  then true else false.

Fixpoint get_loop (fuel : nat) (man : btc_addrman) (use_used : bool)
  (now : Z) (factor : QArith_base.Q) (draws : list Z)
  : option btc_addrent :=
  match fuel with
  | O => None
  | S fuel' =>
      match draws with
      | [] => None
      | r1 :: ds =>
          let pick : option (option addrkey) :=
            if use_used then
              let i := btc_uniform r1 (Z.of_nat (length (man_used man))) in
              bucket ← man_used man !! Z.to_nat i;
              if decide (length bucket = 0%nat) then Some None
              else
                r2 ← head ds;
                Some (bucket !! Z.to_nat
                                  (btc_uniform r2 (Z.of_nat (length bucket))))
            else
              let i := btc_uniform r1 (Z.of_nat (length (man_fresh man))) in
              bucket ← man_fresh man !! Z.to_nat i;
              if decide (size bucket = 0%nat) then Some None
              else
                r2 ← head ds;
                Some (elements bucket !! Z.to_nat
                                  (btc_uniform r2 (Z.of_nat (size bucket))))
          in
          match pick with
          | None => None
          | Some None => get_loop fuel' man use_used now factor ds
          | Some (Some k) =>
              entry ← man_map man !! k;
              match ds with
              | _ :: r3 :: ds' =>
                  let num := btc_uniform r3 (2 ^ 30) in
                  if accepts num factor entry now then Some entry
                  else get_loop fuel' man use_used now
                         (QArith_base.Qmult factor (QArith_base.Qmake 12 10))
                         ds'
              | _ => None
              end
          end
      end
  end.

Definition btc_addrman_get (fuel : nat) (man : btc_addrman) (now : Z)
  (draws : list Z) : option (option btc_addrent) :=
  let fresh_side := bool_decide (man_total_fresh man > 0) in
  if bool_decide (man_total_used man > 0) then
    if bool_decide (man_total_fresh man = 0) then
      Some <$> get_loop fuel man true now (QArith_base.Qmake 1 1) draws
    else
      match draws with
      | [] => None
      | r0 :: ds =>
          Some <$> get_loop fuel man (bool_decide (btc_uniform r0 2 = 0)) now
                     (QArith_base.Qmake 1 1) ds
      end
  else if fresh_side then
    Some <$> get_loop fuel man false now (QArith_base.Qmake 1 1) draws
  else Some None.

(** ** Local address table *)

Definition set_laddr (a : btc_netaddr) (l : btc_local) : btc_local :=
  {| laddr := a; ltype := ltype l; score := score l |}.
Definition set_score (s : Z) (l : btc_local) : btc_local :=
  {| laddr := laddr l; ltype := ltype l; score := s |}.

Definition btc_addrman_has_local (man : btc_addrman) (a : btc_netaddr) : bool :=
  bool_decide (is_Some (man_local man !! key_of a)).

(** A turn of the loop taken when [src == NULL]; the state is
    [best_score] and [best_dst], the latter named by the key of its
    record. *)
Definition get_local_nil_step (st : Z * option addrkey)
  (kv : addrkey * btc_local) : Z * option addrkey :=
  if decide (score kv.2 > st.1) then (score kv.2, Some kv.1) else st.

(** A turn of the loop taken for a given [src]; the state is
    [best_reach], [best_score] and [best_dst]. *)
Definition get_local_src_step `{Collab} (s : btc_netaddr)
  (st : Z * Z * option addrkey) (kv : addrkey * btc_local)
  : Z * Z * option addrkey :=
  let '(best_reach, best_score, best_dst) := st in
  let reach := btc_netaddr_reachability s (laddr kv.2) in
  if decide (reach < best_reach) then st
  else if decide (reach > best_reach ∨ score kv.2 > best_score)
  then (reach, score kv.2, Some kv.1)
  else st.

(** The result is the manager, whose record may have been touched, and
    the key of the record whose address is returned. *)
Definition btc_addrman_get_local `{Collab} (man : btc_addrman) (now : Z)
  (s : option btc_netaddr) : btc_addrman * option addrkey :=
  match s with
  | None =>
      (man, (foldl get_local_nil_step (-1, None)
               (map_to_list (man_local man))).2)
  | Some s1 =>
      let best_dst := (foldl (get_local_src_step s1) (-1, -1, None)
                         (map_to_list (man_local man))).2 in
      match best_dst with
      | Some k =>
          (set_local (alter (λ l, set_laddr (set_time now (laddr l)) l) k
                        (man_local man)) man, Some k)
      | None => (man, None)
      end
  end.

Definition btc_addrman_add_local `{Collab} (man : btc_addrman)
  (a : btc_netaddr) (sc : Z) : btc_addrman * bool :=
  if negb (btc_netaddr_is_routable a) then (man, false)
  else if decide (is_Some (man_local man !! key_of a)) then (man, false)
  else
    (set_local (<[key_of a := {| laddr := set_services (man_services man) a;
                                ltype := sc; score := sc |}]> (man_local man))
       man, true).

Definition btc_addrman_mark_local (man : btc_addrman) (a : btc_netaddr)
  : btc_addrman * bool :=
  match man_local man !! key_of a with
  | None => (man, false)
  | Some l =>
      (set_local (<[key_of a := set_score (wrap32 (score l + 1)) l]>
                    (man_local man)) man, true)
  end.

(** ** Persistence *)

Definition addsz (a b : Z) : Z := wrapsz (a + b).
Definition mulsz (a b : Z) : Z := wrapsz (a * b).

Definition btc_addrman_size (man : btc_addrman) : Z :=
  let n := Z.of_nat (size (man_map man)) in
  let size0 := addsz (addsz (addsz 0 4) 4) 32 in
  let size1 := addsz size0 (btc_size_size n) in
  let size2 := addsz size1 (mulsz n BTC_ADDRENT_SIZE) in
  let size3 :=
    foldl (λ sz (b : gset addrkey),
             addsz (addsz sz (btc_size_size (Z.of_nat (size b))))
               (mulsz (Z.of_nat (size b)) BTC_ADDRKEY_SIZE))
      size2 (take MAX_FRESH_BUCKETS (man_fresh man)) in
  foldl (λ sz (l : list addrkey),
           addsz (addsz sz (btc_size_size (Z.of_nat (length l))))
             (mulsz (Z.of_nat (length l)) BTC_ADDRKEY_SIZE))
    size3 (take MAX_USED_BUCKETS (man_used man)).

(** The key written for a bucket slot is the [addr] of the entry the
    slot points to. *)
Definition write_slot (m : gmap addrkey btc_addrent) (k : addrkey) : list Z :=
  match m !! k with
  | Some entry => btc_addrkey_write (addr entry)
  | None => []
  end.

Definition btc_addrman_write (man : btc_addrman) : list Z :=
  btc_uint32_write SER_VERSION ++
  btc_uint32_write (man_magic man) ++
  btc_raw_write (man_key man) 32 ++
  btc_size_write (Z.of_nat (size (man_map man))) ++
  concat ((λ kv, btc_addrent_write kv.2) <$> map_to_list (man_map man)) ++
  concat ((λ b : gset addrkey,
             btc_size_write (Z.of_nat (size b)) ++
             concat (write_slot (man_map man) <$> elements b))
          <$> take MAX_FRESH_BUCKETS (man_fresh man)) ++
  concat ((λ l : list addrkey,
             btc_size_write (Z.of_nat (length l)) ++
             concat (write_slot (man_map man) <$> l))
          <$> take MAX_USED_BUCKETS (man_used man)).

(** The number of bytes written: the difference of the two pointers. *)
Definition btc_addrman_export (man : btc_addrman) : Z :=
  Z.of_nat (length (btc_addrman_write man)).

Fixpoint read_entries `{Collab} (n : nat) (now : Z)
  (m : gmap addrkey btc_addrent) (xs : list Z)
  : option (gmap addrkey btc_addrent * list Z) :=
  match n with
  | O => Some (m, xs)
  | S n' =>
      '(entry, xs1) ← btc_addrent_read now xs;
      if decide (is_Some (m !! key_of (addr entry))) then None
      else read_entries n' now (<[key_of (addr entry) := entry]> m) xs1
  end.

(** The inner loop over the keys of fresh bucket [i]. *)
Fixpoint read_fresh_keys (n : nat) (i : nat) (man : btc_addrman)
  (xs : list Z) : option (btc_addrman * list Z) :=
  match n with
  | O => Some (man, xs)
  | S n' =>
      '(key, xs1) ← btc_addrkey_read xs;
      entry ← man_map man !! key_of key;
      let man1 :=
        if decide (ref_count entry = 0)
        then set_total_fresh (wrapsz (man_total_fresh man + 1)) man
        else man in
      let entry1 := set_ref_count (ref_count entry + 1) entry in
      read_fresh_keys n' i
        (set_fresh (alter (λ b, {[key_of (addr entry1)]} ∪ b) i
                      (man_fresh man1))
           (set_map (<[key_of key := entry1]> (man_map man1)) man1))
        xs1
  end.

Definition read_fresh_bucket (st : option (btc_addrman * list Z)) (i : nat)
  : option (btc_addrman * list Z) :=
  '(man, xs) ← st;
  '(len, xs1) ← btc_size_read xs;
  '(man1, xs2) ← read_fresh_keys (Z.to_nat len) i man xs1;
  bucket ← man_fresh man1 !! i;
  if decide (Z.of_nat (size bucket) > MAX_ENTRIES) then None
  else Some (man1, xs2).

(** The inner loop over the keys of used bucket [i]. *)
Fixpoint read_used_keys (n : nat) (i : nat) (man : btc_addrman)
  (xs : list Z) : option (btc_addrman * list Z) :=
  match n with
  | O => Some (man, xs)
  | S n' =>
      '(key, xs1) ← btc_addrkey_read xs;
      entry ← man_map man !! key_of key;
      if decide (ref_count entry ≠ 0 ∨ used entry = true) then None
      else
        read_used_keys n' i
          (set_usedb (alter (λ l, l ++ [key_of (addr entry)]) i (man_used man))
             (set_map (<[key_of key := set_used true entry]> (man_map man))
                (set_total_used (wrapsz (man_total_used man + 1)) man)))
          xs1
  end.

Definition read_used_bucket (st : option (btc_addrman * list Z)) (i : nat)
  : option (btc_addrman * list Z) :=
  '(man, xs) ← st;
  '(len, xs1) ← btc_size_read xs;
  '(man1, xs2) ← read_used_keys (Z.to_nat len) i man xs1;
  bucket ← man_used man1 !! i;
  if decide (Z.of_nat (length bucket) > MAX_ENTRIES) then None
  else Some (man1, xs2).

(** The body of [btc_addrman_read] between the first reset and the two
    exits; [None] is [goto fail]. *)
Definition read_body `{Collab} (man : btc_addrman) (now : Z) (xs : list Z)
  : option btc_addrman :=
  '(version, xs1) ← btc_uint32_read xs;
  '(magic, xs2) ← btc_uint32_read xs1;
  if decide (version ≠ SER_VERSION) then None
  else if decide (magic ≠ man_magic man) then None
  else
    '(key, xs3) ← btc_raw_read 32 xs2;
    '(len, xs4) ← btc_size_read xs3;
    '(m, xs5) ← read_entries (Z.to_nat len) now (man_map man) xs4;
    '(man1, xs6) ← foldl read_fresh_bucket
                     (Some (set_map m (set_key key man), xs5))
                     (seq 0 MAX_FRESH_BUCKETS);
    '(man2, xs7) ← foldl read_used_bucket (Some (man1, xs6))
                     (seq 0 MAX_USED_BUCKETS);
    if decide (xs7 ≠ []) then None
    else if decide (map_Forall (λ _ entry, ¬ (used entry = false ∧
                                              ref_count entry = 0))
                      (man_map man2))
    then Some man2
    else None.

(** [rk1] and [rk2] are the answers of [btc_getrandom] to the reset on
    entry and to the reset on failure.  A failure leaves nothing of the
    partial state but what the reset keeps, which the body never
    writes. *)
Definition btc_addrman_read `{Collab} (man : btc_addrman) (now : Z)
  (rk1 rk2 : list Z) (xs : list Z) : btc_addrman * bool :=
  let man0 := btc_addrman_reset rk1 man in
  match read_body man0 now xs with
  | Some man1 => (man1, true)
  | None => (btc_addrman_reset rk2 man0, false)
  end.

Definition btc_addrman_import `{Collab} (man : btc_addrman) (now : Z)
  (rk1 rk2 : list Z) (xs : list Z) : btc_addrman * bool :=
  btc_addrman_read man now rk1 rk2 xs.

(** ** Operations as data, and the stores they reach *)

Inductive op :=
| OpAdd (now u : Z) (a : btc_netaddr) (s : option btc_netaddr)
| OpRemove (a : btc_netaddr)
| OpMarkAttempt (now : Z) (a : btc_netaddr)
| OpMarkSuccess (now : Z) (a : btc_netaddr)
| OpMarkAck (now : Z) (a : btc_netaddr) (svc : Z)
| OpReset (rk : list Z)
| OpImport (now : Z) (rk1 rk2 : list Z) (xs : list Z)
| OpBan (now : Z) (a : btc_netaddr)
| OpUnban (a : btc_netaddr)
| OpIsBanned (now : Z) (a : btc_netaddr)
| OpClearBanned
| OpAddLocal (a : btc_netaddr) (sc : Z)
| OpMarkLocal (a : btc_netaddr)
| OpGetLocal (now : Z) (s : option btc_netaddr)
| OpSetExternal (a : btc_netaddr)
| OpSetBantime (t : Z).

(** The manager after the call, or [None] when the call aborts. *)
Definition run_op `{Collab} (man : btc_addrman) (o : op) : option btc_addrman :=
  match o with
  | OpAdd now u a s => fst <$> btc_addrman_add man now u a s
  | OpRemove a => fst <$> btc_addrman_remove man a
  | OpMarkAttempt now a => Some (btc_addrman_mark_attempt man now a)
  | OpMarkSuccess now a => Some (btc_addrman_mark_success man now a)
  | OpMarkAck now a svc => btc_addrman_mark_ack man now a svc
  | OpReset rk => Some (btc_addrman_reset rk man)
  | OpImport now rk1 rk2 xs => Some (btc_addrman_import man now rk1 rk2 xs).1
  | OpBan now a => Some (btc_addrman_ban man now a)
  | OpUnban a => Some (btc_addrman_unban man a)
  | OpIsBanned now a => Some (btc_addrman_is_banned man now a).1
  | OpClearBanned => Some (btc_addrman_clear_banned man)
  | OpAddLocal a sc => Some (btc_addrman_add_local man a sc).1
  | OpMarkLocal a => Some (btc_addrman_mark_local man a).1
  | OpGetLocal now s => Some (btc_addrman_get_local man now s).1
  | OpSetExternal a => Some (btc_addrman_set_external a man)
  | OpSetBantime t => Some (btc_addrman_set_bantime t man)
  end.

(** The arguments have the values of their C types. *)
Definition op_ok (o : op) : Prop :=
  match o with
  | OpAdd now _ a s =>
      is_int64 now ∧ netaddr_ok a ∧ from_option netaddr_ok True s
  | OpRemove a | OpUnban a | OpMarkLocal a | OpSetExternal a => netaddr_ok a
  | OpMarkAttempt now a | OpMarkSuccess now a | OpBan now a
  | OpIsBanned now a => is_int64 now ∧ netaddr_ok a
  | OpMarkAck now a svc => is_int64 now ∧ netaddr_ok a ∧ is_uint64 svc
  | OpReset rk => length rk = 32%nat
  | OpImport now rk1 rk2 xs =>
      is_int64 now ∧ length rk1 = 32%nat ∧ length rk2 = 32%nat ∧
      Forall is_byte xs
  | OpClearBanned => True
  | OpAddLocal a sc => netaddr_ok a ∧ is_int32 sc
  | OpGetLocal now s => is_int64 now ∧ from_option netaddr_ok True s
  | OpSetBantime t => is_int64 t
  end.

Definition is_import (o : op) : bool :=
  match o with OpImport _ _ _ _ => true | _ => false end.

(** The stores reached from a newly created manager by calls whose
    operations satisfy [allowed]. *)
Inductive reachable_by `{Collab} (allowed : op → Prop) : btc_addrman → Prop :=
| reach_create magic nport now rk :
    0 <= magic < 2 ^ 32 → is_uint16 nport → is_int64 now →
    length rk = 32%nat →
    reachable_by allowed (btc_addrman_create magic nport now rk)
| reach_step man o man' :
    reachable_by allowed man → allowed o → op_ok o →
    run_op man o = Some man' →
    reachable_by allowed man'.

(** Every store the public interface can produce. *)
Definition reachable `{Collab} : btc_addrman → Prop :=
  reachable_by (λ _, True).

(** The stores produced without loading an image. *)
Definition reachable_local `{Collab} : btc_addrman → Prop :=
  reachable_by (λ o, is_import o = false).

(** ** Store invariants *)

(** The number of fresh buckets that hold [k]. *)
Definition fresh_refs (k : addrkey) (fresh : list (gset addrkey)) : Z :=
  Z.of_nat (length (filter (λ b : gset addrkey, k ∈ b) fresh)).

(** The number of entries of the global index that satisfy [P]. *)
Definition count_if (P : btc_addrent → Prop) `{!∀ e, Decision (P e)}
  (m : gmap addrkey btc_addrent) : Z :=
  Z.of_nat (size (filter (λ kv : addrkey * btc_addrent, P kv.2) m)).

(** The number of entries of the global index with the given [used]. *)
Definition count_used (u : bool) (m : gmap addrkey btc_addrent) : Z :=
  count_if (λ e, used e = u) m.

(** The number of entries of the global index that some fresh bucket
    was told to hold. *)
Definition count_ref (m : gmap addrkey btc_addrent) : Z :=
  count_if (λ e, ref_count e ≠ 0) m.

Definition entry_ok (e : btc_addrent) : Prop :=
  netaddr_ok (addr e) ∧ netaddr_ok (src e) ∧ is_int32 (attempts e) ∧
  is_int64 (last_success e) ∧ is_int64 (last_attempt e).

(** The invariants of the store.  [strict] adds the bound of the
    reference counts; [zs] holds the keys of the fresh entries whose
    reference count exceeds the number of buckets that hold them (none
    in a store built by the operations alone), and [d] is the number of
    entries counted in [total_fresh] and not yet published in the
    global index (0 between calls). *)
Record store_inv (strict : bool) (zs : gset addrkey) (d : Z)
  (man : btc_addrman) : Prop := {
  inv_fresh_len : length (man_fresh man) = MAX_FRESH_BUCKETS;
  inv_used_len : length (man_used man) = MAX_USED_BUCKETS;
  inv_key_len : length (man_key man) = 32%nat;
  inv_magic : 0 <= man_magic man < 2 ^ 32;
  inv_self : netaddr_ok (man_addr man);
  inv_entry : ∀ k e, man_map man !! k = Some e →
              key_of (addr e) = k ∧ entry_ok e;
  inv_fresh_sub : ∀ i b k, man_fresh man !! i = Some b → k ∈ b →
                  ∃ e, man_map man !! k = Some e ∧ used e = false;
  inv_fresh_rc : ∀ k e, man_map man !! k = Some e → used e = false →
                 1 <= ref_count e ∧
                 fresh_refs k (man_fresh man) <= ref_count e ∧
                 (fresh_refs k (man_fresh man) < ref_count e → k ∈ zs) ∧
                 (strict = true → ref_count e <= MAX_REFS);
  inv_used_rc : ∀ k e, man_map man !! k = Some e → used e = true →
                ref_count e = 0 ∧ k ∈ concat (man_used man);
  inv_used_sub : ∀ k, k ∈ concat (man_used man) →
                 ∃ e, man_map man !! k = Some e ∧ used e = true;
  inv_used_nodup : NoDup (concat (man_used man));
  inv_total_fresh : man_total_fresh man = count_used false (man_map man) + d;
  inv_total_used : man_total_used man = count_used true (man_map man);
  inv_fresh_bound : ∀ i b, man_fresh man !! i = Some b →
                    Z.of_nat (size b) <= MAX_ENTRIES;
  inv_used_bound : ∀ i l, man_used man !! i = Some l →
                   Z.of_nat (length l) <= MAX_ENTRIES;
  inv_ghost : Z.of_nat (size zs) <= 65536;
  inv_pending : 0 <= d <= 1
}.

Arguments inv_fresh_len {_ _ _ _} _.
Arguments inv_used_len {_ _ _ _} _.
Arguments inv_key_len {_ _ _ _} _.
Arguments inv_magic {_ _ _ _} _.
Arguments inv_self {_ _ _ _} _.
Arguments inv_entry {_ _ _ _} _.
Arguments inv_fresh_sub {_ _ _ _} _.
Arguments inv_fresh_rc {_ _ _ _} _.
Arguments inv_used_rc {_ _ _ _} _.
Arguments inv_used_sub {_ _ _ _} _.
Arguments inv_used_nodup {_ _ _ _} _.
Arguments inv_total_fresh {_ _ _ _} _.
Arguments inv_total_used {_ _ _ _} _.
Arguments inv_fresh_bound {_ _ _ _} _.
Arguments inv_used_bound {_ _ _ _} _.
Arguments inv_ghost {_ _ _ _} _.
Arguments inv_pending {_ _ _ _} _.

(** The invariants of the data model (§3 of the specification). *)
Definition wf (man : btc_addrman) : Prop := store_inv true ∅ 0 man.

(** What holds of the store while [btc_addrman_read] fills the buckets:
    an entry that no bucket lists yet has a zero reference count and is
    not used. *)
Record load_inv (man : btc_addrman) : Prop := {
  ld_fresh_len : length (man_fresh man) = MAX_FRESH_BUCKETS;
  ld_used_len : length (man_used man) = MAX_USED_BUCKETS;
  ld_key_len : length (man_key man) = 32%nat;
  ld_magic : 0 <= man_magic man < 2 ^ 32;
  ld_self : netaddr_ok (man_addr man);
  ld_entry : ∀ k e, man_map man !! k = Some e →
             key_of (addr e) = k ∧ entry_ok e ∧ 0 <= ref_count e ∧
             fresh_refs k (man_fresh man) <= ref_count e ∧
             (ref_count e ≠ 0 → 1 <= fresh_refs k (man_fresh man)) ∧
             (used e = true → ref_count e = 0 ∧ k ∈ concat (man_used man));
  ld_fresh_sub : ∀ i b k, man_fresh man !! i = Some b → k ∈ b →
                 ∃ e, man_map man !! k = Some e ∧ ref_count e ≠ 0;
  ld_used_sub : ∀ k, k ∈ concat (man_used man) →
                ∃ e, man_map man !! k = Some e ∧ used e = true;
  ld_used_nodup : NoDup (concat (man_used man));
  ld_total_fresh : man_total_fresh man = count_ref (man_map man);
  ld_total_used : man_total_used man = count_used true (man_map man);
  ld_size : Z.of_nat (size (man_map man)) < 2 ^ 64
}.

Arguments ld_fresh_len {_} _.
Arguments ld_used_len {_} _.
Arguments ld_key_len {_} _.
Arguments ld_magic {_} _.
Arguments ld_self {_} _.
Arguments ld_entry {_} _.
Arguments ld_fresh_sub {_} _.
Arguments ld_used_sub {_} _.
Arguments ld_used_nodup {_} _.
Arguments ld_total_fresh {_} _.
Arguments ld_total_used {_} _.
Arguments ld_size {_} _.

(** An entry as [btc_addrent_read] leaves it. *)
Definition fresh_entry (k : addrkey) (e : btc_addrent) : Prop :=
  key_of (addr e) = k ∧ entry_ok e ∧ used e = false ∧ ref_count e = 0.

(** No entry is used: the state while the fresh buckets are read. *)
Definition no_used (man : btc_addrman) : Prop :=
  ∀ k e, man_map man !! k = Some e → used e = false.

(** Every fresh and every used bucket but those of index [i] holds at
    most [MAX_ENTRIES] keys. *)
Definition buckets_bounded (skip_fresh skip_used : option nat)
  (man : btc_addrman) : Prop :=
  (∀ j b, man_fresh man !! j = Some b → skip_fresh ≠ Some j →
          Z.of_nat (size b) <= MAX_ENTRIES) ∧
  (∀ j l, man_used man !! j = Some l → skip_used ≠ Some j →
          Z.of_nat (length l) <= MAX_ENTRIES).

(** ** The claims of the specification that the code does not meet,
    in the specification's words *)

Definition stale_conditions (now : Z) (e : btc_addrent) : Prop :=
  time (addr e) > now + 600 ∨
  time (addr e) = 0 ∨
  now - time (addr e) > 30 * 86400 ∨
  (last_success e = 0 ∧ attempts e >= 3) ∨
  (now - last_success e > 7 * 86400 ∧ attempts e >= 10).

(** "[is_stale] returns false whenever [last_attempt] lies in
    (now - 60, now], and otherwise returns true iff at least one of". *)
Definition is_stale_claimed (now : Z) (e : btc_addrent) : Prop :=
  (now - 60 < last_attempt e <= now → is_stale now e = false) ∧
  (¬ (now - 60 < last_attempt e <= now) →
   (is_stale now e = true ↔ stale_conditions now e)).

(** What the code does: the guard is [last_attempt != 0] and
    [last_attempt >= now - 60]. *)
Definition is_stale_guard (now : Z) (e : btc_addrent) : Prop :=
  last_attempt e ≠ 0 ∧ last_attempt e >= now - 60.

(** "[is_banned] returns true iff a ban record for {addr.IP, 0} exists
    with [now <= record.time + ban_duration]". *)
Definition is_banned_claimed (man : btc_addrman) (now : Z) (a : btc_netaddr)
  : Prop :=
  (btc_addrman_is_banned man now a).2 = true ↔
  ∃ r, man_banned man !! (raw a, 0) = Some r ∧
       now <= time r + man_ban_time man.

(** Timestamps far enough from the ends of [int64_t] that no sum or
    difference of two of them, or of one and a policy constant,
    overflows. *)
Definition small64 (z : Z) : Prop := - 2 ^ 62 < z < 2 ^ 62.

(** What a list of buckets adds to the image: for each bucket the
    compact size of its count and [BTC_ADDRKEY_SIZE] bytes for each of
    its keys. *)
Definition buckets_size {A} (c : A → Z) (l : list A) : Z :=
  foldr (λ x acc, btc_size_size (c x) + c x * BTC_ADDRKEY_SIZE + acc) 0 l.

(** The size of the image as an exact integer, with [entry_size] bytes
    for each entry of the global index: 40 bytes of header (version,
    magic, key), the compact size of the number of entries, the
    entries, the fresh buckets and the used buckets. *)
Definition image_size (entry_size : Z) (man : btc_addrman) : Z :=
  let n := Z.of_nat (size (man_map man)) in
  4 + 4 + 32 + btc_size_size n + entry_size * n +
  buckets_size (λ b : gset addrkey, Z.of_nat (size b)) (man_fresh man) +
  buckets_size (λ l : list addrkey, Z.of_nat (length l)) (man_used man).

(** An entry as [btc_addrent_read] returns it when it reads what
    [btc_addrent_write] wrote for [e] at time [now]: the source has the
    default services and the time of the reading. *)
Definition reloaded `{Collab} (now : Z) (e : btc_addrent) : btc_addrent :=
  set_src (set_time now (set_services BTC_NET_DEFAULT_SERVICES (src e))) e.

Definition loaded `{Collab} (now : Z) (e : btc_addrent) : btc_addrent :=
  set_used false (set_ref_count 0 (reloaded now e)).

(** The store while [btc_addrman_read] fills the buckets from the image
    of a store whose global index is [M]: each entry of [M] is there
    with its source reset, the number of fresh buckets that list it so
    far as reference count, and [used] set once a used bucket lists
    it; the two totals count the entries listed so far. *)
Definition loading `{Collab} (now : Z) (M : gmap addrkey btc_addrent)
  (st : btc_addrman) : Prop :=
  (∀ k : addrkey,
     man_map st !! k =
     (λ e, set_used (bool_decide (k ∈ concat (man_used st)))
             (set_ref_count (fresh_refs k (man_fresh st)) (reloaded now e)))
     <$> M !! k) ∧
  man_total_fresh st = count_ref (man_map st) ∧
  man_total_used st = count_used true (man_map st) ∧
  Z.of_nat (size (man_map st)) < 2 ^ 64.

(** ** Iteration over the known addresses

    The iterator of the hash table is the list of the pairs it has yet
    to visit; [btc_addrman_next] hands out the address of the next
    entry. *)
Definition btc_addrman_iterate (man : btc_addrman)
  : list (addrkey * btc_addrent) :=
  map_to_list (man_map man).

Definition btc_addrman_next (iter : list (addrkey * btc_addrent))
  : option (btc_netaddr * list (addrkey * btc_addrent)) :=
  match iter with
  | [] => None
  | kv :: rest => Some (addr kv.2, rest)
  end.

(** The addresses handed out by at most [n] calls in a row. *)
Fixpoint visit (n : nat) (iter : list (addrkey * btc_addrent))
  : list btc_netaddr :=
  match n with
  | O => []
  | S n' =>
      match btc_addrman_next iter with
      | Some (a, rest) => a :: visit n' rest
      | None => []
      end
  end.

(** A reader takes a prefix of its input: when it succeeds it has read
    at least [c] bytes, none of what it leaves, and it reads the same
    value from these bytes whatever follows them. *)
Definition reads_prefix {A} (R : list Z → option (A * list Z)) (c : nat)
  : Prop :=
  ∀ xs v rest, R xs = Some (v, rest) →
    ∃ pre, xs = pre ++ rest ∧ (c ≤ length pre)%nat ∧
           ∀ ys, R (pre ++ ys) = Some (v, ys).

(** ** Example data *)

(** Collaborators with a constant hash: every entry is assigned fresh
    bucket 0 and used bucket 0. *)
Definition toy : Collab :=
  {| btc_hash256 := λ _, replicate 32 0;
     btc_netaddr_groupkey := λ a, take 6 (raw a);
     btc_netaddr_reachability := λ _ _, 0;
     btc_netaddr_is_routable := λ _, true;
     BTC_NET_DEFAULT_SERVICES := 0;
     BTC_NET_LOCAL_SERVICES := 9;
     sizeof_port := 4;
     default_services_ok := conj (Z.le_refl 0) eq_refl;
     local_services_ok := conj (Zle_bool_imp_le 0 9 eq_refl) eq_refl |}.

Definition ip4 (a b c d : Z) : list Z :=
  [0; 0; 0; 0; 0; 0; 0; 0; 0; 0; 255; 255; a; b; c; d].

Definition now0 : Z := 1700000000.

(** 1.2.3.4:8333, last seen at 1 699 000 000, services 1 (scenario S1). *)
Definition addr1 : btc_netaddr :=
  {| time := 1699000000; services := 1; raw := ip4 1 2 3 4; port := 8333 |}.

(** 5.6.7.8:8333, never seen. *)
Definition addr2 : btc_netaddr :=
  {| time := 0; services := 1; raw := ip4 5 6 7 8; port := 8333 |}.

Definition key0 : list Z := replicate 32 7.

Definition man0 : btc_addrman := @btc_addrman_create toy 3652501241 8333 now0 key0.

(** The store of scenario S1. *)
Definition man1 : btc_addrman :=
  default man0 (@run_op toy man0 (OpAdd now0 0 addr1 None)).

(** The image of a store: the header, the entries, and for each bucket
    the keys listed for it. *)
Definition make_image (magic : Z) (key : list Z) (entries : list btc_addrent)
  (fresh used : list (list btc_netaddr)) : list Z :=
  btc_uint32_write SER_VERSION ++ btc_uint32_write magic ++ key ++
  btc_size_write (Z.of_nat (length entries)) ++
  concat (btc_addrent_write <$> entries) ++
  concat ((λ l, btc_size_write (Z.of_nat (length l)) ++
                concat (btc_addrkey_write <$> l)) <$> fresh) ++
  concat ((λ l, btc_size_write (Z.of_nat (length l)) ++
                concat (btc_addrkey_write <$> l)) <$> used).

Definition entry2 : btc_addrent :=
  set_src addr1 (set_addr addr2 btc_addrent_init).

(** An image that lists [addr2] once, in fresh bucket 1. *)
Definition image_one : list Z :=
  make_image 3652501241 key0 [entry2]
    ([] :: [addr2] :: replicate 1022 []) (replicate 256 []).

(** An image that lists [addr2] twice in fresh bucket 0. *)
Definition image_twice : list Z :=
  make_image 3652501241 key0 [entry2]
    ([addr2; addr2] :: replicate 1023 []) (replicate 256 []).

Definition man_one : btc_addrman :=
  (@btc_addrman_import toy man0 now0 key0 key0 image_one).1.

Definition man_twice : btc_addrman :=
  (@btc_addrman_import toy man0 now0 key0 key0 image_twice).1.

(** An image that lists [addr2] in each of the fresh buckets 0 to 8. *)
Definition image_nine : list Z :=
  make_image 3652501241 key0 [entry2]
    (replicate 9 [addr2] ++ replicate 1015 []) (replicate 256 []).

Definition man_nine : btc_addrman :=
  (@btc_addrman_import toy man0 now0 key0 key0 image_nine).1.

(** An entry last tried exactly 60 seconds before 1000 and never seen. *)
Definition entry_edge : btc_addrent :=
  set_attempt 0 940 (set_addr (set_time 0 addr1) btc_addrent_init).

(** An entry never tried, seen at the low end of [int64_t]. *)
Definition entry_low : btc_addrent :=
  set_addr (set_time (- 2 ^ 63 + 1) addr1) btc_addrent_init.

(** A local table with one record, of score 3, last advertised at 5. *)
Definition man_loc : btc_addrman :=
  set_local {[ key_of addr1 :=
               {| laddr := set_time 5 addr1; ltype := 3; score := 3 |} ]} man0.

(** The store of scenario S1 with its one address banned. *)
Definition man_ban1 : btc_addrman :=
  default man1 (@run_op toy man1 (OpBan now0 addr1)).

(** The store of scenario S1 with its one address banned and the
    longest ban time an [int64_t] holds. *)
Definition man_longban : btc_addrman :=
  default man_ban1 (@run_op toy man_ban1 (OpSetBantime (2 ^ 63 - 1))).

(** The store of scenario S3: the address of S1 promoted. *)
Definition man3 : btc_addrman :=
  default man1 (@run_op toy man1 (OpMarkAck now0 addr1 9)).

(** 10.0.0.i:8333, last seen [i] seconds after 1 699 000 000. *)
Definition addr_n (i : Z) : btc_netaddr :=
  {| time := 1699000000 + i; services := 1; raw := ip4 10 0 0 i;
     port := 8333 |}.

(** [n] addresses added and promoted one after the other. *)
Fixpoint promote `{Collab} (n : nat) (man : btc_addrman)
  : option btc_addrman :=
  match n with
  | O => Some man
  | S n' =>
      man1 ← promote n' man;
      man2 ← run_op man1 (OpAdd now0 0 (addr_n (Z.of_nat n)) None);
      run_op man2 (OpMarkAck now0 (addr_n (Z.of_nat n)) 1)
  end.

(** A store whose used bucket 0 is full, with one more fresh entry. *)
Definition man_full : btc_addrman :=
  default man0 (man64 ← @promote toy 64 man0;
                @run_op toy man64 (OpAdd now0 0 (addr_n 65) None)).

Definition full_bucket : list addrkey :=
  (λ i, key_of (addr_n (Z.of_nat i))) <$> seq 1 64.

Definition entry_n (i : Z) : btc_addrent :=
  set_src (set_time now0 (man_addr man0))
    (set_addr (addr_n i) (set_ref_count 1 btc_addrent_init)).

(** * Proofs *)

(** Closed range and typing side conditions, by evaluation. *)
Ltac by_eval :=
  vm_compute; repeat split; (reflexivity || discriminate || lia || done).

(** ** Machine integers *)

Lemma wrap64_small z : is_int64 z → wrap64 z = z.
Proof.
  unfold is_int64, wrap64. intros Hz.
  rewrite Z.mod_small; lia.
Qed.

Lemma wrap64_range z : is_int64 (wrap64 z).
Proof.
  unfold is_int64, wrap64.
  pose proof (Z.mod_pos_bound (z + 2 ^ 63) (2 ^ 64)). lia.
Qed.

Lemma wrap32_range z : is_int32 (wrap32 z).
Proof.
  unfold is_int32, wrap32.
  pose proof (Z.mod_pos_bound (z + 2 ^ 31) (2 ^ 32)). lia.
Qed.

Lemma wrap32_small z : is_int32 z → wrap32 z = z.
Proof.
  unfold is_int32, wrap32. intros Hz.
  rewrite Z.mod_small; lia.
Qed.

Lemma wrapsz_small z : 0 <= z < 2 ^ 64 → wrapsz z = z.
Proof. intros Hz. unfold wrapsz. rewrite Z.mod_small; lia. Qed.

Lemma small64_int64 z : small64 z → is_int64 z.
Proof. unfold small64, is_int64. lia. Qed.

Lemma sub64_small a b : small64 a → small64 b → sub64 a b = a - b.
Proof.
  unfold small64, sub64. intros Ha Hb.
  apply wrap64_small. unfold is_int64. lia.
Qed.

Lemma add64_small a b : small64 a → small64 b → add64 a b = a + b.
Proof.
  unfold small64, add64. intros Ha Hb.
  apply wrap64_small. unfold is_int64. lia.
Qed.

Lemma lor_uint64 a b : is_uint64 a → is_uint64 b → is_uint64 (Z.lor a b).
Proof.
  unfold is_uint64. intros [Ha1 Ha2] [Hb1 Hb2]. split.
  - apply Z.lor_nonneg. lia.
  - destruct (decide (a = 0)) as [->|Hna]; [by rewrite Z.lor_0_l|].
    destruct (decide (b = 0)) as [->|Hnb]; [by rewrite Z.lor_0_r|].
    apply Z.log2_lt_pow2; [|rewrite Z.log2_lor by lia].
    + assert (0 <= Z.lor a b) by (apply Z.lor_nonneg; lia).
      assert (Z.lor a b ≠ 0) by (rewrite Z.lor_eq_0_iff; lia). lia.
    + apply Z.max_lub_lt; apply Z.log2_lt_pow2; lia.
Qed.

(** ** The stores of the scenarios *)

Lemma reachable_man0 : @reachable toy man0.
Proof. apply reach_create; by_eval. Qed.

Lemma reachable_man1 : @reachable toy man1.
Proof.
  apply (reach_step _ man0 (OpAdd now0 0 addr1 None));
    [apply reachable_man0|done| |by vm_compute].
  simpl. unfold netaddr_ok. by_eval.
Qed.

(** ** Staleness (C5) *)

Lemma is_stale_guarded now e :
  small64 now → is_stale_guard now e → is_stale now e = false.
Proof.
  intros Hnow [Hne Hge]. unfold is_stale.
  rewrite sub64_small by (done || unfold small64; lia).
  by rewrite decide_True.
Qed.

(** C5, as the code has it: when none of [now - 60], [now + 600],
    [now - addr.time] and [now - last_success] leaves the range of
    [int64_t], [is_stale] returns false whenever [last_attempt] is not
    zero and at least [now - 60]; otherwise it returns true iff the
    address time is more than 600 seconds ahead of [now], or is zero,
    or is more than 30 days old, or the entry never succeeded and has
    at least 3 attempts, or its last success is more than 7 days old
    and it has at least 10 attempts. *)
Theorem is_stale_spec now e :
  is_int64 (now - 60) → is_int64 (now + 600) →
  is_int64 (now - time (addr e)) → is_int64 (now - last_success e) →
  (is_stale_guard now e → is_stale now e = false) ∧
  (¬ is_stale_guard now e →
   (is_stale now e = true ↔ stale_conditions now e)).
Proof.
  intros H60 H600 Ht Hs. unfold is_stale, is_stale_guard, stale_conditions.
  unfold sub64, add64. change (10 * 60) with 600.
  rewrite !wrap64_small by done.
  unfold HORIZON_DAYS, MAX_RETRIES, MIN_FAIL_DAYS, MAX_FAILURES.
  split.
  - intros Hg. by rewrite decide_True.
  - intros Hg. rewrite decide_False by exact Hg.
    repeat case_decide; split; intros; try done; try lia.
Qed.

Lemma is_stale_spec_witness :
  (is_stale_guard 1000 entry_edge → is_stale 1000 entry_edge = false) ∧
  (¬ is_stale_guard 1000 entry_edge →
   (is_stale 1000 entry_edge = true ↔ stale_conditions 1000 entry_edge)).
Proof.
  apply (is_stale_spec 1000 entry_edge); unfold is_int64; simpl; lia.
Defined.

(** C5 as claimed fails for an entry last tried exactly 60 seconds ago
    and never seen: the claim puts it outside the interval and calls it
    stale, the code keeps it. *)
Lemma is_stale_claimed_fails : ¬ is_stale_claimed 1000 entry_edge.
Proof.
  intros [_ Hiff].
  assert (Hout : ¬ (1000 - 60 < last_attempt entry_edge <= 1000))
    by (simpl; lia).
  apply Hiff in Hout.
  assert (Hst : is_stale 1000 entry_edge = true).
  { apply Hout. right. left. reflexivity. }
  vm_compute in Hst. discriminate.
Qed.

(** Why the ranges are assumed: for an address time at the low end of
    [int64_t] the difference [now - addr.time] does not fit, the code
    computes a negative number, and an entry that the 30-day rule
    covers is kept. *)
Lemma is_stale_overflow :
  ¬ is_stale_guard 1000 entry_low ∧ stale_conditions 1000 entry_low ∧
  is_stale 1000 entry_low = false.
Proof.
  split; [|split].
  - intros [Hne _]. by apply Hne.
  - right. right. left. by_eval.
  - by vm_compute.
Qed.

(** ** Ban table (C7) *)

Lemma is_banned_port man now a p :
  btc_addrman_is_banned man now (set_port p a) =
  btc_addrman_is_banned man now a.
Proof. reflexivity. Qed.

Lemma is_banned_expired man now a r :
  small64 (man_ban_time man) → small64 (time r) →
  man_banned man !! (raw a, 0) = Some r →
  now > time r + man_ban_time man →
  btc_addrman_is_banned man now a =
  (set_banned (delete (raw a, 0) (man_banned man)) man, false).
Proof.
  intros Hb Hr E Hnow. unfold btc_addrman_is_banned, key_of; simpl.
  rewrite E, add64_small by auto. by rewrite decide_True.
Qed.

Lemma banned_after_ban man now a :
  ∃ r, man_banned (btc_addrman_ban man now a) !! (raw a, 0) = Some r ∧
       (man_banned man !! (raw a, 0) = Some r ∨ time r = now).
Proof.
  unfold btc_addrman_ban, key_of; simpl.
  destruct (man_banned man !! (raw a, 0)) as [r|] eqn:E.
  - exists r. by split; [|left].
  - eexists. split; [apply lookup_insert_eq|by right].
Qed.

Lemma is_banned_fits man now a r :
  man_banned man !! (raw a, 0) = Some r →
  is_int64 (time r + man_ban_time man) →
  btc_addrman_is_banned man now a =
  if decide (now > time r + man_ban_time man)
  then (set_banned (delete (raw a, 0) (man_banned man)) man, false)
  else (man, true).
Proof.
  intros E Hfit. unfold btc_addrman_is_banned, key_of; simpl.
  rewrite E. unfold add64. by rewrite wrap64_small.
Qed.

(** C7, as the code has it: [is_banned] does not depend on the port.
    When the sum [record.time + ban_time] of the record stored under
    {IP, 0} fits [int64_t], it returns true iff such a record is stored
    with [now <= record.time + ban_time], and a record that has expired
    is deleted and false is returned.  So after [ban (a)] at [now],
    when [now + ban_time] fits and no record for the address is dated
    after [now], [is_banned (a)] returns false once the clock has
    passed [now + ban_time]. *)
Theorem is_banned_spec man now a :
  (∀ r, man_banned man !! (raw a, 0) = Some r →
        is_int64 (time r + man_ban_time man)) →
  (∀ a', raw a' = raw a →
         btc_addrman_is_banned man now a' = btc_addrman_is_banned man now a) ∧
  ((btc_addrman_is_banned man now a).2 = true ↔
   ∃ r, man_banned man !! (raw a, 0) = Some r ∧
        now <= time r + man_ban_time man) ∧
  (∀ r, man_banned man !! (raw a, 0) = Some r →
        now > time r + man_ban_time man →
        btc_addrman_is_banned man now a =
        (set_banned (delete (raw a, 0) (man_banned man)) man, false)) ∧
  (is_int64 (now + man_ban_time man) →
   (∀ r, man_banned man !! (raw a, 0) = Some r → time r <= now) →
   ∀ later, later > now + man_ban_time man →
            (btc_addrman_is_banned (btc_addrman_ban man now a) later a).2
            = false).
Proof.
  intros Hfit. split; [|split; [|split]].
  - intros a' Ha'. unfold btc_addrman_is_banned, key_of; simpl.
    by rewrite Ha'.
  - destruct (man_banned man !! (raw a, 0)) as [r|] eqn:E.
    + rewrite (is_banned_fits man now a r E (Hfit r eq_refl)).
      case_decide; simpl; split.
      * done.
      * intros (r' & [= <-] & ?). lia.
      * intros _. exists r. split; [done|lia].
      * done.
    + unfold btc_addrman_is_banned, key_of; simpl. rewrite E.
      split; [done|]. by intros (r & ? & _).
  - intros r E Hexp. rewrite (is_banned_fits man now a r E (Hfit r E)).
    by rewrite decide_True.
  - intros Hnow Hpast later Hlater.
    destruct (banned_after_ban man now a) as (r & E & Hor).
    assert (Hr : is_int64 (time r + man_ban_time man) ∧ time r <= now).
    { destruct Hor as [E0| ->]; [|split; [done|lia]].
      split; [by apply Hfit|by apply Hpast]. }
    destruct Hr as [Hr Hle].
    assert (Hbt : man_ban_time (btc_addrman_ban man now a) = man_ban_time man).
    { unfold btc_addrman_ban. by destruct (_ !! _). }
    rewrite (is_banned_fits _ later a r E) by (by rewrite Hbt).
    rewrite Hbt. rewrite decide_True by lia. done.
Qed.

Lemma is_banned_spec_witness :
  let man := btc_addrman_ban man0 now0 addr1 in
  let now := now0 + 10 in
  (∀ a', raw a' = raw addr1 →
         btc_addrman_is_banned man now a' =
         btc_addrman_is_banned man now addr1) ∧
  ((btc_addrman_is_banned man now addr1).2 = true ↔
   ∃ r, man_banned man !! (raw addr1, 0) = Some r ∧
        now <= time r + man_ban_time man) ∧
  (∀ r, man_banned man !! (raw addr1, 0) = Some r →
        now > time r + man_ban_time man →
        btc_addrman_is_banned man now addr1 =
        (set_banned (delete (raw addr1, 0) (man_banned man)) man, false)) ∧
  (is_int64 (now + man_ban_time man) →
   (∀ r, man_banned man !! (raw addr1, 0) = Some r → time r <= now) →
   ∀ later, later > now + man_ban_time man →
            (btc_addrman_is_banned (btc_addrman_ban man now addr1) later
               addr1).2 = false).
Proof.
  apply (is_banned_spec (btc_addrman_ban man0 now0 addr1) (now0 + 10) addr1).
  intros r E. vm_compute in E. injection E as <-. by_eval.
Defined.

(** C7 as claimed fails in a store whose ban time is the largest
    [int64_t]: the address of scenario S1 was banned ten seconds ago,
    the sum [record.time + ban_time] does not fit, the code computes a
    negative number, reports the address as not banned and deletes the
    record. *)
Lemma is_banned_claimed_fails :
  @reachable toy man_longban ∧
  ¬ is_banned_claimed man_longban (now0 + 10) addr1.
Proof.
  split.
  - apply (@reach_step toy _ man_ban1 (OpSetBantime (2 ^ 63 - 1)));
      [|done|by_eval|by vm_compute].
    apply (@reach_step toy _ man1 (OpBan now0 addr1));
      [apply reachable_man1|done| |by vm_compute].
    simpl. unfold netaddr_ok. by_eval.
  - intros [_ Hclaim].
    assert (Hb : (btc_addrman_is_banned man_longban (now0 + 10) addr1).2
                 = true).
    { apply Hclaim. eexists. split; [by vm_compute|]. by_eval. }
    vm_compute in Hb. discriminate Hb.
Qed.

(** ** Local addresses (C9) *)

Lemma get_local_nil_unchanged `{Collab} man now :
  (btc_addrman_get_local man now None).1 = man.
Proof. reflexivity. Qed.

Lemma get_local_nil_fold (l : list (addrkey * btc_local)) best k0 :
  (foldl get_local_nil_step (best, k0) l).1 >= best ∧
  (∀ kv, kv ∈ l → score kv.2 <= (foldl get_local_nil_step (best, k0) l).1) ∧
  ((foldl get_local_nil_step (best, k0) l).2 = k0 ∧
   (foldl get_local_nil_step (best, k0) l).1 = best ∨
   ∃ kv, kv ∈ l ∧ (foldl get_local_nil_step (best, k0) l).2 = Some kv.1 ∧
         (foldl get_local_nil_step (best, k0) l).1 = score kv.2).
Proof.
  revert best k0. induction l as [|x l IH]; intros best k0; simpl.
  - split; [lia|]. split; [by intros kv ?%elem_of_nil|by left].
  - unfold get_local_nil_step at 2 4 6 8 10 12. simpl.
    case_decide as Hgt.
    + destruct (IH (score x.2) (Some x.1)) as (Hge & Hall & Hor).
      split; [lia|]. split.
      * intros kv [->|Hin]%elem_of_cons; [lia|by apply Hall].
      * right. destruct Hor as [[-> ->]|(kv & Hin & E1 & E2)].
        -- exists x. split; [left|done].
        -- exists kv. split; [by right|done].
    + destruct (IH best k0) as (Hge & Hall & Hor).
      split; [lia|]. split.
      * intros kv [->|Hin]%elem_of_cons; [lia|by apply Hall].
      * destruct Hor as [[-> ->]|(kv & Hin & E1 & E2)]; [by left|].
        right. exists kv. split; [by right|done].
Qed.

(** When [src == NULL] the record returned has the maximum score. *)
Lemma get_local_nil_max `{Collab} man now k :
  (btc_addrman_get_local man now None).2 = Some k →
  ∃ l, man_local man !! k = Some l ∧
       ∀ k' l', man_local man !! k' = Some l' → score l' <= score l.
Proof.
  simpl. intros Hk.
  destruct (get_local_nil_fold (map_to_list (man_local man)) (-1) None)
    as (_ & Hall & Hor).
  destruct Hor as [[E _]|([k1 l1] & Hin & E1 & E2)]; [congruence|].
  rewrite Hk in E1. injection E1 as ->. simpl in *.
  exists l1. split; [by apply elem_of_map_to_list|].
  intros k' l' Hl'. rewrite <- E2.
  apply (Hall (k', l')). by apply elem_of_map_to_list.
Qed.

(** For a given [src] the record returned has its time set to [now]. *)
Lemma get_local_src_sets_time `{Collab} man now s k :
  (btc_addrman_get_local man now (Some s)).2 = Some k →
  ∀ l, man_local (btc_addrman_get_local man now (Some s)).1 !! k = Some l →
       time (laddr l) = now.
Proof.
  simpl. destruct (foldl _ _ _).2 as [k1|] eqn:E; simpl; [|done].
  intros [= ->] l. rewrite lookup_alter_eq.
  destruct (man_local man !! k); simpl; [|done]. by intros [= <-].
Qed.

(** C9 at its failing input: with [src == NULL] the manager, and so the
    time of the record returned, is left as it was; for a table whose
    one record was last advertised at 5, the record is returned at
    [now0] with its time still 5. *)
Theorem get_local_nil_keeps_time :
  (∀ man now, (@btc_addrman_get_local toy man now None).1 = man) ∧
  (@btc_addrman_get_local toy man_loc now0 None).2 = Some (key_of addr1) ∧
  (time ∘ laddr) <$>
    man_local (@btc_addrman_get_local toy man_loc now0 None).1 !! key_of addr1
  = Some 5.
Proof. split; [done|]. split; by vm_compute. Qed.

(** ** Selection and bans (C8) *)

(** C8, as the code has it: [get] never reads the ban table; its result
    is the same whatever the table holds. *)
Theorem get_ignores_bans fuel man now draws banned :
  btc_addrman_get fuel (set_banned banned man) now draws =
  btc_addrman_get fuel man now draws.
Proof.
  unfold btc_addrman_get. simpl.
  assert (Hloop : ∀ fuel u f ds,
    get_loop fuel (set_banned banned man) u now f ds =
    get_loop fuel man u now f ds).
  { clear. intros fuel. induction fuel as [|n IH]; intros u f ds; [done|].
    simpl. destruct ds as [|r1 ds]; [done|].
    destruct u; simpl.
    - destruct (man_used man !! _) as [b|]; simpl; [|done].
      case_decide; simpl; [apply IH|].
      destruct (head ds); simpl; [|done].
      destruct (b !! _); simpl; [|apply IH].
      destruct (man_map man !! _); simpl; [|done].
      destruct ds as [|? [|r3 ds']]; try done.
      destruct (accepts _ _ _ _); [done|apply IH].
    - destruct (man_fresh man !! _) as [b|]; simpl; [|done].
      case_decide; simpl; [apply IH|].
      destruct (head ds); simpl; [|done].
      destruct (elements b !! _); simpl; [|apply IH].
      destruct (man_map man !! _); simpl; [|done].
      destruct ds as [|? [|r3 ds']]; try done.
      destruct (accepts _ _ _ _); [done|apply IH]. }
  repeat case_bool_decide; try done; rewrite ?Hloop; try done.
  destruct draws; [done|]. by rewrite Hloop.
Qed.

(** C8 as claimed fails: in the store of scenario S1, once its address
    is banned, [get] still returns the entry. *)
Lemma get_returns_banned :
  @reachable toy man_ban1 ∧
  ∃ e, btc_addrman_get 1 man_ban1 now0 [0; 0; 0] = Some (Some e) ∧
       addr e = addr1 ∧
       (btc_addrman_is_banned man_ban1 now0 (addr e)).2 = true.
Proof.
  split.
  - apply (reach_step _ man1 (OpBan now0 addr1));
      [apply reachable_man1|done| |by vm_compute].
    simpl. unfold netaddr_ok. by_eval.
  - eexists. split; [by vm_compute|]. split; by vm_compute.
Qed.

(** ** add on a known address (C4) *)

(** C4, as the code has it: when the address is known and, after the
    services are merged and the time periodically updated, the entry's
    time is not zero and [addr.time <= entry.addr.time], [add] returns
    false, whatever the draw. *)
Theorem add_no_new_information `{Collab} man now u a s entry :
  port a ≠ 0 →
  man_map man !! key_of a = Some entry →
  time (addr (add_touch now a s entry).1) ≠ 0 →
  time a <= time (addr (add_touch now a s entry).1) →
  ∃ man', btc_addrman_add man now u a s = Some (man', false).
Proof.
  intros Hport Hin Hnz Hle. unfold btc_addrman_add.
  rewrite decide_False by done. rewrite Hin.
  destruct (add_touch now a s entry) as [entry2 upd]. simpl in *.
  rewrite decide_True by done. eauto.
Qed.

Lemma add_no_new_information_witness :
  ∃ man', @btc_addrman_add toy man1 now0 0 addr1 (Some addr2)
          = Some (man', false).
Proof.
  apply (@add_no_new_information toy man1 now0 0 addr1 (Some addr2)
           (set_ref_count 1
              (set_src (man_addr man0) (set_addr addr1 btc_addrent_init)))).
  - by_eval.
  - by vm_compute.
  - by_eval.
  - by_eval.
Defined.

Lemma reachable_man_one : @reachable toy man_one.
Proof.
  apply (reach_step _ man0 (OpImport now0 key0 key0 image_one));
    [apply reachable_man0|done| |done].
  simpl. split; [by_eval|]. split; [done|]. split; [done|].
  apply (bool_decide_unpack _). by vm_compute.
Qed.

(** C4 as claimed fails when the entry's time is zero: the store loaded
    from [image_one] knows [addr2] with time 0; [add] of the same
    address with time 0 (so [addr.time <= entry.addr.time]) passes the
    test, draws 0, finds the entry's bucket free of it, and returns
    true. *)
Lemma add_zero_time_inserts :
  @reachable toy man_one ∧
  ∃ entry man',
    man_map man_one !! key_of addr2 = Some entry ∧
    time (addr (add_touch now0 addr2 None entry).1) = 0 ∧
    time addr2 <= time (addr (add_touch now0 addr2 None entry).1) ∧
    @btc_addrman_add toy man_one now0 0 addr2 None = Some (man', true).
Proof.
  split; [apply reachable_man_one|].
  eexists _, _. split; [by vm_compute|].
  split; [by vm_compute|]. split; [by_eval|by vm_compute].
Qed.

(** ** Counting lemmas for the invariants *)

Lemma fresh_refs_cons k b l :
  fresh_refs k (b :: l) = (if decide (k ∈ b) then 1 else 0) + fresh_refs k l.
Proof.
  unfold fresh_refs. rewrite filter_cons.
  case_decide; simpl length; lia.
Qed.

Lemma fresh_refs_nonneg k l : 0 <= fresh_refs k l.
Proof. unfold fresh_refs. lia. Qed.

Lemma fresh_refs_alter (k : addrkey) (f : gset addrkey → gset addrkey)
  (i : nat) (l : list (gset addrkey)) (b : gset addrkey) :
  l !! i = Some b →
  fresh_refs k (alter f i l) =
  fresh_refs k l - (if decide (k ∈ b) then 1 else 0)
                 + (if decide (k ∈ f b) then 1 else 0).
Proof.
  revert i. induction l as [|x l IH]; intros [|i] Hi; try done; simpl in Hi.
  - injection Hi as ->.
    change (alter f 0%nat (b :: l)) with (f b :: l).
    rewrite !fresh_refs_cons. lia.
  - change (alter f (S i) (x :: l)) with (x :: alter f i l).
    rewrite !fresh_refs_cons, (IH i Hi). lia.
Qed.

Lemma fresh_refs_pos k l :
  0 < fresh_refs k l ↔ ∃ i b, l !! i = Some b ∧ k ∈ b.
Proof.
  induction l as [|x l IH].
  - split; [by vm_compute|]. by intros (i & b & ? & _).
  - rewrite fresh_refs_cons. pose proof (fresh_refs_nonneg k l).
    case_decide as Hx; split.
    + intros _. by exists 0%nat, x.
    + lia.
    + intros Hpos. destruct IH as [IH _].
      destruct IH as (i & b & ? & ?); [lia|]. by exists (S i), b.
    + intros ([|i] & b & Hi & Hb); simpl in Hi.
      * by injection Hi as ->.
      * apply Z.lt_le_trans with (fresh_refs k l); [|lia].
        apply IH. eauto.
Qed.

Lemma fresh_refs_zero k l :
  (∀ i b, l !! i = Some b → k ∉ b) → fresh_refs k l = 0.
Proof.
  intros Hno. pose proof (fresh_refs_nonneg k l).
  destruct (decide (0 < fresh_refs k l)) as [Hpos|]; [|lia].
  apply fresh_refs_pos in Hpos as (i & b & Hi & Hb). by destruct (Hno i b).
Qed.

Lemma fresh_refs_empty k n : fresh_refs k (replicate n ∅) = 0.
Proof.
  apply fresh_refs_zero. intros i b [-> _]%lookup_replicate. set_solver.
Qed.

Lemma count_if_nonneg (P : btc_addrent → Prop) `{!∀ e, Decision (P e)}
  (m : gmap addrkey btc_addrent) : 0 <= count_if P m.
Proof. unfold count_if. lia. Qed.

Lemma count_if_empty (P : btc_addrent → Prop) `{!∀ e, Decision (P e)} :
  count_if P ∅ = 0.
Proof. unfold count_if. by rewrite map_filter_empty, map_size_empty. Qed.

Lemma count_if_delete (P : btc_addrent → Prop) `{!∀ e, Decision (P e)}
  (k : addrkey) (e : btc_addrent) (m : gmap addrkey btc_addrent) :
  m !! k = Some e →
  count_if P m = count_if P (delete k m) + (if decide (P e) then 1 else 0).
Proof.
  intros Hk. unfold count_if. rewrite map_filter_delete.
  rewrite map_size_delete.
  set (F := filter (λ kv : addrkey * btc_addrent, P kv.2) m).
  destruct (F !! k) as [e'|] eqn:E.
  - apply map_lookup_filter_Some in E as [E1 E2]. simpl in E2.
    assert (e' = e) as -> by congruence. rewrite decide_True by done.
    assert (size F ≠ 0%nat).
    { intros E0%map_size_empty_inv.
      assert (F !! k = Some e) as Hl by (by apply map_lookup_filter_Some).
      by rewrite E0 in Hl. }
    lia.
  - rewrite decide_False; [simpl; lia|]. intros Hu.
    assert (F !! k = Some e) as Hl by (by apply map_lookup_filter_Some).
    congruence.
Qed.

Lemma count_if_insert (P : btc_addrent → Prop) `{!∀ e, Decision (P e)}
  (k : addrkey) (e : btc_addrent) (m : gmap addrkey btc_addrent) :
  count_if P (<[k:=e]> m) =
  count_if P (delete k m) + (if decide (P e) then 1 else 0).
Proof.
  rewrite (count_if_delete P k e (<[k:=e]> m)) by apply lookup_insert_eq.
  by rewrite delete_insert_eq.
Qed.

Lemma count_if_le_size (P : btc_addrent → Prop) `{!∀ e, Decision (P e)}
  (m : gmap addrkey btc_addrent) : count_if P m <= Z.of_nat (size m).
Proof.
  induction m as [|k e m Hk IH] using map_ind.
  - by rewrite count_if_empty, map_size_empty.
  - rewrite count_if_insert, (delete_id m k), map_size_insert_None by done.
    case_decide; lia.
Qed.

Lemma count_if_ext (P Q : btc_addrent → Prop) `{!∀ e, Decision (P e)}
  `{!∀ e, Decision (Q e)} (m : gmap addrkey btc_addrent) :
  (∀ k e, m !! k = Some e → (P e ↔ Q e)) → count_if P m = count_if Q m.
Proof.
  intros Hext. unfold count_if. f_equal. f_equal.
  apply map_filter_strong_ext_1. intros k e. specialize (Hext k e).
  simpl. naive_solver.
Qed.

Lemma count_used_nonneg u m : 0 <= count_used u m.
Proof. apply count_if_nonneg. Qed.

Lemma count_used_empty u : count_used u ∅ = 0.
Proof. apply count_if_empty. Qed.

Lemma count_used_delete u k e m :
  m !! k = Some e →
  count_used u m =
  count_used u (delete k m) + (if decide (used e = u) then 1 else 0).
Proof. intros Hk. exact (count_if_delete (λ e, used e = u) k e m Hk). Qed.

Lemma count_used_insert u k e m :
  count_used u (<[k:=e]> m) =
  count_used u (delete k m) + (if decide (used e = u) then 1 else 0).
Proof. exact (count_if_insert (λ e, used e = u) k e m). Qed.

Lemma count_used_total m :
  count_used false m + count_used true m = Z.of_nat (size m).
Proof.
  induction m as [|k e m Hk IH] using map_ind.
  - by rewrite !count_used_empty, map_size_empty.
  - rewrite !count_used_insert, (delete_id m k), map_size_insert_None by done.
    destruct (used e); simpl; lia.
Qed.

Lemma count_used_update u k e e' m :
  m !! k = Some e → used e' = used e →
  count_used u (<[k:=e']> m) = count_used u m.
Proof.
  intros Hk Hu. rewrite count_used_insert, (count_used_delete u k e m Hk).
  by rewrite Hu.
Qed.

Lemma size_union_list_bound (l : list (gset addrkey)) n :
  (∀ i b, l !! i = Some b → Z.of_nat (size b) <= n) →
  Z.of_nat (size (⋃ l)) <= Z.of_nat (length l) * n.
Proof.
  induction l as [|x l IH]; intros Hb.
  - change (⋃ []) with (∅ : gset addrkey). rewrite size_empty. simpl. lia.
  - change (⋃ (x :: l)) with (x ∪ ⋃ l). rewrite size_union_alt.
    assert (Hsz : (size (⋃ l ∖ x) ≤ size (⋃ l))%nat)
      by (apply subseteq_size; set_solver).
    specialize (Hb 0%nat x eq_refl) as Hx.
    assert (Z.of_nat (size (⋃ l)) <= Z.of_nat (length l) * n).
    { apply IH. intros i b Hi. by apply (Hb (S i)). }
    simpl length. lia.
Qed.

Lemma length_concat_bound (l : list (list addrkey)) n :
  (∀ i b, l !! i = Some b → Z.of_nat (length b) <= n) →
  Z.of_nat (length (concat l)) <= Z.of_nat (length l) * n.
Proof.
  induction l as [|x l IH]; intros Hb; simpl; [lia|].
  rewrite length_app.
  specialize (Hb 0%nat x eq_refl) as Hx.
  assert (Z.of_nat (length (concat l)) <= Z.of_nat (length l) * n).
  { apply IH. intros i b Hi. by apply (Hb (S i)). }
  lia.
Qed.

Lemma count_used_dom (u : bool) (m : gmap addrkey btc_addrent)
  (X : gset addrkey) :
  (∀ k e, m !! k = Some e → used e = u → k ∈ X) →
  count_used u m <= Z.of_nat (size X).
Proof.
  intros Hsub. unfold count_used, count_if. rewrite <- size_dom.
  apply inj_le, subseteq_size. intros k [e He]%elem_of_dom.
  apply map_lookup_filter_Some in He as [He Hu]. by apply (Hsub k e).
Qed.

(** The store holds at most 131072 fresh and 16384 used entries. *)
Lemma store_bound s zs d man :
  store_inv s zs d man →
  count_used false (man_map man) <= 131072 ∧
  count_used true (man_map man) <= 16384.
Proof.
  intros Hinv. split.
  - etrans; [apply (count_used_dom _ _ (zs ∪ ⋃ man_fresh man))|].
    + intros k e He Hu.
      destruct (inv_fresh_rc Hinv k e He Hu) as (H1 & H2 & H3 & _).
      destruct (decide (0 < fresh_refs k (man_fresh man))) as [Hpos|Hz].
      * apply fresh_refs_pos in Hpos as (i & b & Hi & Hb).
        apply elem_of_union_r, elem_of_union_list. exists b. split; [|done].
        by apply list_elem_of_lookup_2 with i.
      * apply elem_of_union_l, H3. lia.
    + rewrite size_union_alt.
      assert (Hsz : (size (⋃ man_fresh man ∖ zs) ≤ size (⋃ man_fresh man))%nat)
        by (apply subseteq_size; set_solver).
      pose proof (size_union_list_bound (man_fresh man) MAX_ENTRIES
                    (inv_fresh_bound Hinv)) as Hb.
      rewrite (inv_fresh_len Hinv) in Hb.
      pose proof (inv_ghost Hinv).
      unfold MAX_FRESH_BUCKETS, MAX_ENTRIES in Hb. lia.
  - etrans; [apply (count_used_dom _ _ (list_to_set (concat (man_used man))))|].
    + intros k e He Hu. apply elem_of_list_to_set.
      by destruct (inv_used_rc Hinv k e He Hu).
    + rewrite size_list_to_set by apply (inv_used_nodup Hinv).
      pose proof (length_concat_bound (man_used man) MAX_ENTRIES
                    (inv_used_bound Hinv)) as Hb.
      rewrite (inv_used_len Hinv) in Hb.
      unfold MAX_USED_BUCKETS, MAX_ENTRIES in Hb. lia.
Qed.

(** The invariants speak of the store alone. *)
Lemma store_inv_ext s zs d man man' :
  man_fresh man' = man_fresh man → man_used man' = man_used man →
  man_key man' = man_key man → man_magic man' = man_magic man →
  man_addr man' = man_addr man → man_map man' = man_map man →
  man_total_fresh man' = man_total_fresh man →
  man_total_used man' = man_total_used man →
  store_inv s zs d man → store_inv s zs d man'.
Proof.
  destruct man, man'. simpl. intros -> -> -> -> -> -> -> -> [].
  by constructor.
Qed.

(** ** The reference-decrement protocol keeps the invariants *)

Lemma alter_bucket_lookup (f : gset addrkey → gset addrkey) (i j : nat)
  (l : list (gset addrkey)) (b' : gset addrkey) :
  alter f i l !! j = Some b' →
  ∃ b, l !! j = Some b ∧ (b' = b ∨ (j = i ∧ b' = f b)).
Proof.
  rewrite list_lookup_alter. case_decide as Hij.
  - subst j. destruct (l !! i) as [b|]; simpl; [|done].
    intros [= <-]. exists b. auto.
  - intros Hj. exists b'. auto.
Qed.

Lemma fresh_unref_inv s zs d man i b k e :
  store_inv s zs d man →
  man_fresh man !! i = Some b → k ∈ b → man_map man !! k = Some e →
  store_inv s zs d (fresh_unref i k e man).
Proof.
  intros Hinv Hi Hkb He.
  destruct (inv_entry Hinv k e He) as [Hkey Hok].
  destruct (inv_fresh_sub Hinv i b k Hi Hkb) as (e0 & He0 & Hu).
  assert (e0 = e) as -> by congruence.
  destruct (inv_fresh_rc Hinv k e He Hu) as (Hrc1 & Hrc2 & Hrc3 & Hrc4).
  destruct (store_bound _ _ _ _ Hinv) as [Hbf Hbu].
  pose proof (inv_pending Hinv) as Hd.
  unfold fresh_unref. rewrite Hkey.
  set (fresh' := alter (λ b0 : gset addrkey, b0 ∖ {[k]}) i (man_fresh man)).
  assert (Hrk : fresh_refs k fresh' = fresh_refs k (man_fresh man) - 1).
  { unfold fresh'. rewrite (fresh_refs_alter _ _ _ _ b Hi).
    rewrite decide_True, decide_False by set_solver. lia. }
  assert (Hro : ∀ k', k' ≠ k →
            fresh_refs k' fresh' = fresh_refs k' (man_fresh man)).
  { intros k' Hne. unfold fresh'. rewrite (fresh_refs_alter _ _ _ _ b Hi).
    destruct (decide (k' ∈ b)).
    - rewrite decide_True by set_solver. lia.
    - rewrite decide_False by set_solver. lia. }
  assert (Hsub : ∀ j b' k', fresh' !! j = Some b' → k' ∈ b' →
            ∃ b0, man_fresh man !! j = Some b0 ∧ k' ∈ b0).
  { intros j b' k' Hj Hk'.
    apply alter_bucket_lookup in Hj as (b0 & Hj & [->|[-> ->]]);
      exists b0; split; try done. set_solver. }
  assert (Hsz : ∀ j b', fresh' !! j = Some b' →
            Z.of_nat (size b') <= MAX_ENTRIES).
  { intros j b' Hj.
    apply alter_bucket_lookup in Hj as (b0 & Hj & [->|[-> ->]]).
    - by apply (inv_fresh_bound Hinv j).
    - pose proof (inv_fresh_bound Hinv i b0 Hj).
      assert (size (b0 ∖ {[k]}) ≤ size b0)%nat
        by (apply subseteq_size; set_solver).
      lia. }
  assert (Hcnt : count_used false (man_map man)
                 = count_used false (delete k (man_map man)) + 1).
  { rewrite (count_used_delete false k e _ He). by rewrite decide_True. }
  assert (Hcntu : count_used true (man_map man)
                  = count_used true (delete k (man_map man))).
  { rewrite (count_used_delete true k e _ He).
    rewrite decide_False by (rewrite Hu; done). lia. }
  pose proof (count_used_nonneg false (delete k (man_map man))).
  case_decide as Hz.
  - constructor; simpl; try apply Hinv.
    + unfold fresh'. rewrite length_alter. apply Hinv.
    + intros k' e' [Hne He']%lookup_delete_Some.
      by apply (inv_entry Hinv).
    + intros j b' k' Hj Hk'.
      destruct (Hsub j b' k' Hj Hk') as (b0 & Hj0 & Hk0).
      destruct (inv_fresh_sub Hinv j b0 k' Hj0 Hk0) as (e' & He' & Hu').
      exists e'. split; [|done]. apply lookup_delete_Some. split; [|done].
      intros <-.
      assert (0 < fresh_refs k fresh')
        by (apply fresh_refs_pos; eauto).
      lia.
    + intros k' e' [Hne He']%lookup_delete_Some Hu'.
      rewrite Hro by done. by apply (inv_fresh_rc Hinv).
    + intros k' e' [Hne He']%lookup_delete_Some Hu'.
      by apply (inv_used_rc Hinv k' e').
    + intros k' Hk'.
      destruct (inv_used_sub Hinv k' Hk') as (e' & He' & Hu').
      exists e'. split; [|done]. apply lookup_delete_Some. split; [|done].
      intros <-. congruence.
    + rewrite (inv_total_fresh Hinv), Hcnt.
      rewrite wrapsz_small; lia.
    + rewrite (inv_total_used Hinv). done.
    + done.
  - assert (Hup : ∀ u, count_used u
        (<[k:=set_ref_count (ref_count e - 1) e]> (man_map man))
        = count_used u (man_map man)).
    { intros u. by apply count_used_update with e. }
    constructor; simpl; try apply Hinv.
    + unfold fresh'. rewrite length_alter. apply Hinv.
    + intros k' e' [[<- <-]|[Hne He']]%lookup_insert_Some.
      * done.
      * by apply (inv_entry Hinv).
    + intros j b' k' Hj Hk'.
      destruct (Hsub j b' k' Hj Hk') as (b0 & Hj0 & Hk0).
      destruct (inv_fresh_sub Hinv j b0 k' Hj0 Hk0) as (e' & He' & Hu').
      destruct (decide (k = k')) as [<-|Hne].
      * eexists. split; [apply lookup_insert_eq|done].
      * exists e'. by rewrite lookup_insert_ne.
    + intros k' e' [[<- <-]|[Hne He']]%lookup_insert_Some Hu'; simpl.
      * rewrite Hrk. repeat split; try lia. intros; apply Hrc3; lia.
        intros Hs. specialize (Hrc4 Hs). lia.
      * rewrite Hro by done. by apply (inv_fresh_rc Hinv).
    + intros k' e' [[<- <-]|[Hne He']]%lookup_insert_Some Hu'; simpl in *.
      * congruence.
      * by apply (inv_used_rc Hinv k' e').
    + intros k' Hk'.
      destruct (inv_used_sub Hinv k' Hk') as (e' & He' & Hu').
      exists e'. split; [|done]. rewrite lookup_insert_ne; [done|].
      intros <-. congruence.
    + rewrite Hup. apply Hinv.
    + rewrite Hup. apply Hinv.
    + done.
Qed.

Lemma fresh_unref_fresh i k e man :
  man_fresh (fresh_unref i k e man) =
  alter (λ b : gset addrkey, b ∖ {[key_of (addr e)]}) i (man_fresh man).
Proof. unfold fresh_unref. by case_decide. Qed.

Lemma fresh_unref_map i k e man k' :
  k' ≠ k → k' ≠ key_of (addr e) →
  man_map (fresh_unref i k e man) !! k' = man_map man !! k'.
Proof.
  intros Hne1 Hne2. unfold fresh_unref. case_decide; simpl.
  - by rewrite lookup_delete_ne.
  - by rewrite lookup_insert_ne.
Qed.

(** ** evict_fresh keeps the invariants and makes room *)

Lemma evict_fresh_fold (s : bool) (zs : gset addrkey) (d : Z) (now : Z) (i : nat) (b0 : gset addrkey)
  (m0 : gmap addrkey btc_addrent) (ks : list addrkey) (man : btc_addrman)
  (old : option addrkey) (b : gset addrkey) :
  store_inv s zs d man → man_fresh man !! i = Some b → b ⊆ b0 → NoDup ks →
  (∀ k, k ∈ ks → k ∈ b) →
  (∀ ko, old = Some ko → ko ∈ b ∧ ko ∉ ks) →
  (old = None → ∀ k, k ∈ b → k ∈ ks) →
  (∀ k', k' ∉ b0 → man_map man !! k' = m0 !! k') →
  ∃ man' old' (b' : gset addrkey),
    foldl (evict_fresh_step now i) (Some (man, old)) ks = Some (man', old') ∧
    store_inv s zs d man' ∧ man_fresh man' !! i = Some b' ∧ b' ⊆ b0 ∧
    (∀ ko, old' = Some ko → ko ∈ b') ∧ (old' = None → b' = ∅) ∧
    (∀ k', k' ∉ b0 → man_map man' !! k' = m0 !! k').
Proof.
  revert man old b.
  induction ks as [|k ks IH]; intros man old b Hinv Hi Hsub Hnd Hks Hold Hnone Hfr.
  - exists man, old, b. simpl.
    split; [done|]. split; [done|]. split; [done|]. split; [done|].
    split; [|split; [|done]].
    + intros ko Hko. by apply Hold.
    + intros ->. apply set_eq. intros x. split; [|set_solver].
      intros Hx. by apply Hnone, elem_of_nil in Hx.
  - apply NoDup_cons in Hnd as [Hk Hnd].
    assert (Hkb : k ∈ b) by (apply Hks; left).
    destruct (inv_fresh_sub Hinv i b k Hi Hkb) as (e & He & Hu).
    destruct (inv_entry Hinv k e He) as [Hkey _].
    simpl. rewrite He. simpl.
    destruct (is_stale now e) eqn:Hst.
    + apply (IH _ _ (b ∖ {[k]})).
      * by apply fresh_unref_inv with b.
      * rewrite fresh_unref_fresh, Hkey, list_lookup_alter_eq, Hi. done.
      * set_solver.
      * done.
      * intros k' Hk'. apply elem_of_difference. split.
        -- apply Hks. by right.
        -- intros ->%elem_of_singleton. done.
      * intros ko Hko. destruct (Hold ko Hko) as [H1 H2].
        split; [|set_solver]. apply elem_of_difference. split; [done|].
        intros ->%elem_of_singleton. apply H2. left.
      * intros Hn k' [Hk' Hne]%elem_of_difference.
        specialize (Hnone Hn k' Hk').
        apply elem_of_cons in Hnone as [->|]; [|done]. set_solver.
      * intros k' Hk'. rewrite fresh_unref_map; [by apply Hfr| |].
        -- intros ->. apply Hk'. by apply Hsub.
        -- rewrite Hkey. intros ->. apply Hk'. by apply Hsub.
    + destruct old as [ko|].
      * destruct (Hold ko eq_refl) as [Hko1 Hko2].
        destruct (inv_fresh_sub Hinv i b ko Hi Hko1) as (eo & Heo & _).
        rewrite Heo. simpl. case_decide.
        -- apply (IH _ _ b); try done.
           ++ intros k' Hk'. apply Hks. by right.
           ++ intros k' [= <-]. done.
        -- apply (IH _ _ b); try done.
           ++ intros k' Hk'. apply Hks. by right.
           ++ intros k' [= <-]. split; [done|]. set_solver.
      * apply (IH _ _ b); try done.
        -- intros k' Hk'. apply Hks. by right.
        -- intros k' [= <-]. done.
Qed.

Lemma evict_fresh_inv (s : bool) (zs : gset addrkey) (d : Z) (now : Z) (man : btc_addrman) (i : nat)
  (b0 : gset addrkey) :
  store_inv s zs d man → man_fresh man !! i = Some b0 → b0 ≠ ∅ →
  ∃ man' (b' : gset addrkey),
    evict_fresh now man i = Some man' ∧ store_inv s zs d man' ∧
    man_fresh man' !! i = Some b' ∧ b' ⊆ b0 ∧ (size b' < size b0)%nat ∧
    (∀ k', k' ∉ b0 → man_map man' !! k' = man_map man !! k').
Proof.
  intros Hinv Hi Hne. unfold evict_fresh. rewrite Hi. simpl.
  destruct (evict_fresh_fold s zs d now i b0 (man_map man) (elements b0)
              man None b0)
    as (man1 & old & b1 & -> & Hinv1 & Hi1 & Hsub1 & Hold & Hnone & Hfr);
    try done.
  { apply NoDup_elements. }
  { intros k. by rewrite elem_of_elements. }
  { intros _ k. by rewrite elem_of_elements. }
  simpl. destruct old as [ko|].
  - specialize (Hold ko eq_refl).
    destruct (inv_fresh_sub Hinv1 i b1 ko Hi1 Hold) as (eo & Heo & _).
    destruct (inv_entry Hinv1 ko eo Heo) as [Hkey _].
    rewrite Heo. simpl.
    exists (fresh_unref i ko eo man1), (b1 ∖ {[ko]}).
    split; [done|]. split; [by apply fresh_unref_inv with b1|].
    split; [by rewrite fresh_unref_fresh, Hkey, list_lookup_alter_eq, Hi1|].
    split; [set_solver|]. split.
    + apply subset_size. set_solver.
    + intros k' Hk'. rewrite fresh_unref_map; [by apply Hfr| |].
      * intros ->. apply Hk'. by apply Hsub1.
      * rewrite Hkey. intros ->. apply Hk'. by apply Hsub1.
  - exists man1, b1.
    split; [done|]. split; [done|]. split; [done|]. split; [done|].
    split; [|done].
    rewrite (Hnone eq_refl), size_empty.
    destruct (decide (size b0 = 0%nat)) as [E|]; [|lia].
    by apply size_empty_inv, leibniz_equiv in E.
Qed.

(** ** Updating an entry in place *)

Lemma store_inv_update (s : bool) (zs : gset addrkey) (d : Z)
  (man : btc_addrman) (k : addrkey) (e e' : btc_addrent) :
  store_inv s zs d man → man_map man !! k = Some e →
  key_of (addr e') = key_of (addr e) → entry_ok e' →
  used e' = used e → ref_count e' = ref_count e →
  store_inv s zs d (set_map (<[k:=e']> (man_map man)) man).
Proof.
  intros Hinv He Hkey Hok Hu Hrc.
  assert (Hup : ∀ u, count_used u (<[k:=e']> (man_map man))
                     = count_used u (man_map man)).
  { intros u. by apply count_used_update with e. }
  constructor; simpl; try apply Hinv.
  - intros k' e1 [[<- <-]|[Hne He1]]%lookup_insert_Some.
    + split; [|done]. rewrite Hkey. by apply (inv_entry Hinv).
    + by apply (inv_entry Hinv).
  - intros j b k' Hj Hk'.
    destruct (inv_fresh_sub Hinv j b k' Hj Hk') as (e1 & He1 & Hu1).
    destruct (decide (k = k')) as [<-|Hne].
    + exists e'. split; [apply lookup_insert_eq|]. congruence.
    + exists e1. by rewrite lookup_insert_ne.
  - intros k' e1 [[<- <-]|[Hne He1]]%lookup_insert_Some Hu1.
    + rewrite Hrc. apply (inv_fresh_rc Hinv k e He). congruence.
    + by apply (inv_fresh_rc Hinv).
  - intros k' e1 [[<- <-]|[Hne He1]]%lookup_insert_Some Hu1.
    + rewrite Hrc. apply (inv_used_rc Hinv k e He). congruence.
    + by apply (inv_used_rc Hinv k' e1).
  - intros k' Hk'.
    destruct (inv_used_sub Hinv k' Hk') as (e1 & He1 & Hu1).
    destruct (decide (k = k')) as [<-|Hne].
    + exists e'. split; [apply lookup_insert_eq|]. congruence.
    + exists e1. by rewrite lookup_insert_ne.
  - rewrite Hup. apply Hinv.
  - rewrite Hup. apply Hinv.
Qed.

(** ** add keeps the invariants *)

Lemma insert_fresh_inv (s : bool) (zs : gset addrkey) (d d' : Z)
  (man : btc_addrman) (i : nat) (b : gset addrkey) (k : addrkey)
  (e2 : btc_addrent) :
  store_inv s zs d man → man_fresh man !! i = Some b → k ∉ b →
  Z.of_nat (size b) < MAX_ENTRIES →
  key_of (addr e2) = k → entry_ok e2 → used e2 = false →
  match man_map man !! k with
  | Some e1 => used e1 = false ∧ ref_count e2 = ref_count e1 + 1 ∧
               (s = true → ref_count e1 < MAX_REFS) ∧ d' = d
  | None => ref_count e2 = 1 ∧ d' = d - 1 ∧ d = 1
  end →
  store_inv s zs d'
    (set_needs_flush true
       (set_map (<[k:=e2]> (man_map man))
          (set_fresh (alter (λ b0 : gset addrkey, {[k]} ∪ b0) i (man_fresh man))
             man))).
Proof.
  intros Hinv Hi Hkb Hsz Hkey Hok Hu Hcase.
  set (fresh' := alter (λ b0 : gset addrkey, {[k]} ∪ b0) i (man_fresh man)).
  assert (Hrk : fresh_refs k fresh' = fresh_refs k (man_fresh man) + 1).
  { unfold fresh'. rewrite (fresh_refs_alter _ _ _ _ b Hi).
    rewrite decide_False, decide_True by set_solver. lia. }
  assert (Hro : ∀ k', k' ≠ k →
            fresh_refs k' fresh' = fresh_refs k' (man_fresh man)).
  { intros k' Hne. unfold fresh'. rewrite (fresh_refs_alter _ _ _ _ b Hi).
    destruct (decide (k' ∈ b)).
    - rewrite decide_True by set_solver. lia.
    - rewrite decide_False by set_solver. lia. }
  assert (Hsub : ∀ j b' k', fresh' !! j = Some b' → k' ∈ b' → k' ≠ k →
            ∃ b0, man_fresh man !! j = Some b0 ∧ k' ∈ b0).
  { intros j b' k' Hj Hk' Hne.
    apply alter_bucket_lookup in Hj as (b0 & Hj & [->|[-> ->]]);
      exists b0; split; try done. set_solver. }
  destruct (store_bound _ _ _ _ Hinv) as [Hbf Hbu].
  pose proof (inv_pending Hinv) as Hd.
  assert (Hd' : 0 <= d' <= 1)
    by (destruct (man_map man !! k); lia).
  assert (Hcf : count_used false (<[k:=e2]> (man_map man)) + d'
                = count_used false (man_map man) + d).
  { rewrite count_used_insert, decide_True by done.
    destruct (man_map man !! k) as [e1|] eqn:He1.
    - rewrite (count_used_delete false k e1 _ He1).
      destruct Hcase as (-> & _ & _ & ->). rewrite decide_True by done. lia.
    - rewrite delete_id by done. lia. }
  assert (Hcu : count_used true (<[k:=e2]> (man_map man))
                = count_used true (man_map man)).
  { rewrite count_used_insert, decide_False by (rewrite Hu; done).
    destruct (man_map man !! k) as [e1|] eqn:He1.
    - rewrite (count_used_delete true k e1 _ He1).
      destruct Hcase as (-> & _). rewrite decide_False by done. lia.
    - rewrite delete_id by done. lia. }
  constructor; simpl; try apply Hinv.
  - unfold fresh'. rewrite length_alter. apply Hinv.
  - intros k' e1 [[<- <-]|[Hne He1]]%lookup_insert_Some.
    + done.
    + by apply (inv_entry Hinv).
  - intros j b' k' Hj Hk'.
    destruct (decide (k' = k)) as [->|Hne].
    + exists e2. split; [apply lookup_insert_eq|done].
    + destruct (Hsub j b' k' Hj Hk' Hne) as (b0 & Hj0 & Hk0).
      destruct (inv_fresh_sub Hinv j b0 k' Hj0 Hk0) as (e1 & He1 & Hu1).
      exists e1. by rewrite lookup_insert_ne.
  - intros k' e1 [[<- <-]|[Hne He1]]%lookup_insert_Some Hu1.
    + rewrite Hrk. destruct (man_map man !! k) as [e1|] eqn:He1.
      * destruct Hcase as (Hu0 & -> & Hs & _).
        destruct (inv_fresh_rc Hinv k e1 He1 Hu0) as (H1 & H2 & H3 & H4).
        repeat split; try lia.
        -- intros. apply H3. lia.
        -- intros Hst. specialize (Hs Hst). lia.
      * destruct Hcase as (-> & _ & _).
        assert (fresh_refs k (man_fresh man) = 0) as ->.
        { apply fresh_refs_zero. intros j b0 Hj Hk0.
          destruct (inv_fresh_sub Hinv j b0 k Hj Hk0) as (? & ? & _).
          congruence. }
        unfold MAX_REFS. repeat split; lia.
    + rewrite Hro by done. by apply (inv_fresh_rc Hinv).
  - intros k' e1 [[<- <-]|[Hne He1]]%lookup_insert_Some Hu1.
    + congruence.
    + by apply (inv_used_rc Hinv k' e1).
  - intros k' Hk'.
    destruct (inv_used_sub Hinv k' Hk') as (e1 & He1 & Hu1).
    exists e1. split; [|done]. rewrite lookup_insert_ne; [done|].
    intros <-. rewrite He1 in Hcase. destruct Hcase as (? & _). congruence.
  - rewrite (inv_total_fresh Hinv). lia.
  - rewrite Hcu. apply Hinv.
  - intros j b' Hj.
    apply alter_bucket_lookup in Hj as (b0 & Hj & [->|[-> ->]]).
    + by apply (inv_fresh_bound Hinv j).
    + assert (b0 = b) as -> by congruence.
      rewrite size_union by set_solver. rewrite size_singleton.
      unfold MAX_ENTRIES in *. lia.
  - done.
Qed.

Lemma netaddr_ok_set_time t a :
  is_int64 t → netaddr_ok a → netaddr_ok (set_time t a).
Proof. intros Ht (H1 & H2 & H3 & H4). by split. Qed.

Lemma netaddr_ok_set_services v a :
  is_uint64 v → netaddr_ok a → netaddr_ok (set_services v a).
Proof. intros Hv (H1 & H2 & H3 & H4). by split. Qed.

Lemma entry_ok_set_addr a e :
  netaddr_ok a → entry_ok e → entry_ok (set_addr a e).
Proof. intros Ha (H1 & H2). by split. Qed.

Lemma add_touch_props now a s entry :
  netaddr_ok a → entry_ok entry →
  let e2 := (add_touch now a s entry).1 in
  key_of (addr e2) = key_of (addr entry) ∧ entry_ok e2 ∧
  used e2 = used entry ∧ ref_count e2 = ref_count entry.
Proof.
  intros Ha Hok.
  assert (Hm : netaddr_ok (set_services (Z.lor (services (addr entry))
                                           (services a)) (addr entry))).
  { apply netaddr_ok_set_services; [|apply Hok].
    apply lor_uint64; [apply Hok|apply Ha]. }
  unfold add_touch. case_decide; simpl.
  - split; [done|]. split; [|done].
    apply entry_ok_set_addr; [|by apply entry_ok_set_addr].
    apply netaddr_ok_set_time; [apply Ha|done].
  - split; [done|]. split; [|done]. by apply entry_ok_set_addr.
Qed.

Lemma add_insert_inv `{Collab} (s : bool) (zs : gset addrkey) (d : Z)
  (man : btc_addrman) (now : Z) (entry : btc_addrent) (known : bool)
  (man' : btc_addrman) (r : bool) :
  store_inv s zs d man → entry_ok entry → used entry = false →
  (if known
   then man_map man !! key_of (addr entry) = Some entry ∧
        (s = true → ref_count entry < MAX_REFS) ∧ d = 0
   else man_map man !! key_of (addr entry) = None ∧
        ref_count entry = 0 ∧ d = 1) →
  add_insert man now entry known = Some (man', r) →
  store_inv s zs 0 man'.
Proof.
  intros Hinv Hok Hu Hk. unfold add_insert.
  set (i := fresh_bucket man entry). set (k := key_of (addr entry)) in *.
  destruct (man_fresh man !! i) as [b|] eqn:Hi; simpl; [|done].
  case_decide as Hkb.
  { intros [= <- <-]. destruct known.
    - by destruct Hk as (_ & _ & ->).
    - destruct Hk as (Hnone & _).
      destruct (inv_fresh_sub Hinv i b k Hi Hkb) as (? & ? & _). congruence. }
  assert (Hev : ∃ man1 (b1 : gset addrkey),
    (if decide (Z.of_nat (size b) >= MAX_ENTRIES)
     then evict_fresh now man i else Some man) = Some man1 ∧
    store_inv s zs d man1 ∧ man_fresh man1 !! i = Some b1 ∧ b1 ⊆ b ∧
    Z.of_nat (size b1) < MAX_ENTRIES ∧
    (∀ k', k' ∉ b → man_map man1 !! k' = man_map man !! k')).
  { case_decide as Hfull.
    - destruct (evict_fresh_inv s zs d now man i b Hinv Hi)
        as (man1 & b1 & E & Hinv1 & Hi1 & Hsub & Hsz & Hfr).
      { intros ->. rewrite size_empty in Hfull. unfold MAX_ENTRIES in *. lia. }
      exists man1, b1.
      split; [done|]. split; [done|]. split; [done|]. split; [done|].
      split; [|done].
      pose proof (inv_fresh_bound Hinv i b Hi). lia.
    - exists man, b.
      split; [done|]. split; [done|]. split; [done|]. split; [done|].
      split; [lia|done]. }
  destruct Hev as (man1 & b1 & -> & Hinv1 & Hi1 & Hsub & Hsz & Hfr). simpl.
  specialize (Hfr k Hkb).
  destruct known.
  - destruct Hk as (Hin & Hs & ->). rewrite Hfr, Hin. simpl.
    intros [= <- <-].
    apply insert_fresh_inv with 0 b1; try done; [set_solver|].
    rewrite Hfr, Hin. by simpl.
  - destruct Hk as (Hnone & Hrc & ->). simpl.
    intros [= <- <-].
    apply insert_fresh_inv with 1 b1; try done; [set_solver|].
    rewrite Hfr, Hnone. simpl. by rewrite Hrc.
Qed.

Lemma btc_addrman_add_inv `{Collab} (s : bool) (zs : gset addrkey)
  (man : btc_addrman) (now u : Z) (a : btc_netaddr)
  (sr : option btc_netaddr) (man' : btc_addrman) (r : bool) :
  store_inv s zs 0 man →
  is_int64 now → netaddr_ok a → from_option netaddr_ok True sr →
  btc_addrman_add man now u a sr = Some (man', r) →
  store_inv s zs 0 man'.
Proof.
  intros Hinv Hnow Ha Hsr. unfold btc_addrman_add.
  case_decide as Hport; [done|].
  destruct (man_map man !! key_of a) as [entry|] eqn:He.
  - destruct (inv_entry Hinv _ _ He) as [Hkey Hok].
    destruct (add_touch_props now a sr entry Ha Hok) as (Hk2 & Hok2 & Hu2 & Hrc2).
    destruct (add_touch now a sr entry) as [entry2 upd]. simpl in *.
    set (man1 := set_map _ _).
    assert (Hinv1 : store_inv s zs 0 man1).
    { unfold man1. destruct upd.
      - apply (store_inv_ext s zs 0
                 (set_map (<[key_of a:=entry2]> (man_map man)) man));
          try done.
        by apply (store_inv_update s zs 0 man (key_of a) entry entry2).
      - by apply (store_inv_update s zs 0 man (key_of a) entry entry2). }
    case_decide; [by intros [= <- <-]|].
    destruct (used entry2) eqn:Hused; [by intros [= <- <-]|].
    case_decide; [|done].
    case_decide; [by intros [= <- <-]|].
    case_decide as Hlt; [|done].
    case_decide; [by intros [= <- <-]|].
    apply (add_insert_inv s zs 0 man1 now entry2 true); try done.
    split; [|done]. unfold man1. simpl.
    rewrite Hk2, Hkey. apply lookup_insert_eq.
  - set (entry1 := if decide _ then _ else _).
    destruct (store_bound _ _ _ _ Hinv) as [Hbf Hbu].
    pose proof (count_used_nonneg false (man_map man)).
    apply (add_insert_inv s zs 1
             (set_total_fresh (wrapsz (man_total_fresh man + 1)) man)
             now entry1 false).
    + apply (store_inv_ext s zs 1
               (set_total_fresh (man_total_fresh man + 1) man)); try done.
      { simpl. rewrite (inv_total_fresh Hinv). apply wrapsz_small. lia. }
      constructor; simpl; try apply Hinv.
      * rewrite (inv_total_fresh Hinv). lia.
      * lia.
    + assert (Hs1 : netaddr_ok (default (man_addr man) sr)).
      { destruct sr; simpl; [done|apply Hinv]. }
      assert (Hok0 : entry_ok (set_src (default (man_addr man) sr)
                                 (set_addr a btc_addrent_init))).
      { split; [done|]. split; [done|]. by_eval. }
      unfold entry1. case_decide; [|done].
      apply entry_ok_set_addr; [|done].
      apply netaddr_ok_set_time; [apply wrap64_range|done].
    + unfold entry1. by case_decide.
    + assert (key_of (addr entry1) = key_of a) as ->
        by (unfold entry1; by case_decide).
      split; [done|]. split; [|done]. unfold entry1. by case_decide.
Qed.

(** ** Lists of keys: the used buckets *)

Lemma list_unlink_spec (k : addrkey) (l : list addrkey) :
  NoDup l → k ∈ l →
  NoDup (list_unlink k l) ∧
  (∀ k', k' ∈ list_unlink k l ↔ k' ∈ l ∧ k' ≠ k) ∧
  S (length (list_unlink k l)) = length l.
Proof.
  induction l as [|x l IH]; intros Hnd Hin; [by apply elem_of_nil in Hin|].
  apply NoDup_cons in Hnd as [Hx Hnd]. simpl. case_decide as Hxk.
  - subst x. split; [done|]. split; [|done].
    intros k'. rewrite elem_of_cons. split; [|naive_solver].
    intros Hk'. split; [by right|]. by intros ->.
  - apply elem_of_cons in Hin as [->|Hin]; [done|].
    destruct (IH Hnd Hin) as (IH1 & IH2 & IH3).
    split; [|split].
    + apply NoDup_cons. split; [|done]. rewrite IH2. naive_solver.
    + intros k'. rewrite !elem_of_cons, IH2. naive_solver.
    + simpl. by rewrite IH3.
Qed.

Lemma list_replace_spec (k k' : addrkey) (l : list addrkey) :
  NoDup l → k ∈ l → k' ∉ l →
  NoDup (list_replace k k' l) ∧
  (∀ x, x ∈ list_replace k k' l ↔ (x ∈ l ∧ x ≠ k) ∨ x = k') ∧
  length (list_replace k k' l) = length l.
Proof.
  induction l as [|y l IH]; intros Hnd Hin Hnin;
    [by apply elem_of_nil in Hin|].
  apply NoDup_cons in Hnd as [Hy Hnd].
  apply not_elem_of_cons in Hnin as [Hne Hnin]. simpl. case_decide as Hyk.
  - subst y. split; [|split; [|done]].
    + apply NoDup_cons. by split.
    + intros x. rewrite !elem_of_cons. split; [|naive_solver].
      intros [->|Hx]; [by right|]. left. split; [by right|]. by intros ->.
  - apply elem_of_cons in Hin as [->|Hin]; [done|].
    destruct (IH Hnd Hin Hnin) as (IH1 & IH2 & IH3).
    split; [|split].
    + apply NoDup_cons. split; [|done]. rewrite IH2. naive_solver.
    + intros x. rewrite !elem_of_cons, IH2. naive_solver.
    + simpl. by rewrite IH3.
Qed.

(** Changing one bucket changes one segment of the concatenation. *)
Lemma concat_alter (f : list addrkey → list addrkey) (i : nat)
  (used : list (list addrkey)) (l : list addrkey) :
  used !! i = Some l →
  ∃ pre post, concat used = pre ++ l ++ post ∧
              concat (alter f i used) = pre ++ f l ++ post.
Proof.
  revert i. induction used as [|x used IH]; intros [|i] Hi; try done;
    simpl in Hi.
  - injection Hi as ->. by exists [], (concat used).
  - destruct (IH i Hi) as (pre & post & E1 & E2).
    exists (x ++ pre), post.
    change (alter f (S i) (x :: used)) with (x :: alter f i used).
    simpl. rewrite E1, E2, <- !app_assoc. done.
Qed.

(** The effect on the whole of the used buckets of changing bucket [i]
    into a list [l'] with no duplicates, whose new keys [k'] are not in
    any bucket. *)
Lemma concat_alter_spec (f : list addrkey → list addrkey) (i : nat)
  (used : list (list addrkey)) (l : list addrkey) :
  NoDup (concat used) → used !! i = Some l → NoDup (f l) →
  (∀ x, x ∈ f l → x ∉ l → x ∉ concat used) →
  NoDup (concat (alter f i used)) ∧
  (∀ x, x ∈ concat (alter f i used) ↔
        (x ∈ concat used ∧ x ∉ l) ∨ x ∈ f l).
Proof.
  intros Hnd Hi Hfl Hnew.
  destruct (concat_alter f i used l Hi) as (pre & post & E1 & E2).
  rewrite E1 in Hnd, Hnew. rewrite E1, E2.
  apply NoDup_app in Hnd as (Hpre & Hd1 & Hnd).
  apply NoDup_app in Hnd as (Hl & Hd2 & Hpost).
  assert (Hout : ∀ x, x ∈ f l → (x ∉ pre) ∧ (x ∉ post)).
  { intros x Hx. destruct (decide (x ∈ l)) as [Hxl|Hxl].
    - split; [|by apply Hd2]. intros Hp. apply (Hd1 x Hp). set_solver.
    - specialize (Hnew x Hx Hxl). set_solver. }
  split.
  - apply NoDup_app. split; [done|]. split.
    + intros x Hx [Hf|Hp]%elem_of_app.
      * by destruct (Hout x Hf).
      * apply (Hd1 x Hx). set_solver.
    + apply NoDup_app. split; [done|]. split; [|done].
      intros x Hx. by destruct (Hout x Hx).
  - intros x. rewrite !elem_of_app. split.
    + intros [Hp|[Hf|Hp]]; [left|by right|left].
      * split; [by left|]. intros Hxl. apply (Hd1 x Hp). set_solver.
      * split; [by right; right|]. intros Hxl. by apply (Hd2 x Hxl).
    + intros [[Hin Hn]|Hf]; [|auto].
      destruct Hin as [Hp|[Hxl|Hp]]; try done; auto.
Qed.

Lemma used_bucket_sub (used : list (list addrkey)) (i : nat)
  (l : list addrkey) (k : addrkey) :
  used !! i = Some l → k ∈ l → k ∈ concat used.
Proof.
  intros Hi Hk. apply list_elem_of_In, in_concat. exists l.
  split; apply list_elem_of_In; [|done]. by apply list_elem_of_lookup_2 with i.
Qed.

Lemma used_bucket_nodup (used : list (list addrkey)) (i : nat)
  (l : list addrkey) :
  NoDup (concat used) → used !! i = Some l → NoDup l.
Proof.
  intros Hnd Hi.
  destruct (concat_alter id i used l Hi) as (pre & post & E1 & _).
  rewrite E1 in Hnd. apply NoDup_app in Hnd as (_ & _ & Hnd).
  by apply NoDup_app in Hnd as (Hl & _).
Qed.

(** With no key in two buckets, a key names its bucket. *)
Lemma used_bucket_unique (used : list (list addrkey)) (i j : nat)
  (l l' : list addrkey) (k : addrkey) :
  NoDup (concat used) → used !! i = Some l → used !! j = Some l' →
  k ∈ l → k ∈ l' → i = j.
Proof.
  revert i j. induction used as [|x used IH]; intros i j Hnd Hi Hj Hl Hl';
    [done|].
  simpl in Hnd. apply NoDup_app in Hnd as (Hx & Hd & Hnd).
  destruct i as [|i], j as [|j]; simpl in *; try done.
  - injection Hi as ->. destruct (Hd k Hl). by apply used_bucket_sub with j l'.
  - injection Hj as ->. destruct (Hd k Hl'). by apply used_bucket_sub with i l.
  - f_equal. by apply IH.
Qed.

(** ** Detaching and attaching entries *)

Lemma fresh_refs_del (k k' : addrkey) (fresh : list (gset addrkey)) :
  fresh_refs k' ((λ b : gset addrkey, b ∖ {[k]}) <$> fresh) =
  if decide (k' = k) then 0 else fresh_refs k' fresh.
Proof.
  induction fresh as [|b fresh IH].
  - by case_decide.
  - rewrite fmap_cons, !fresh_refs_cons, IH.
    case_decide as Hk.
    + subst k'. rewrite decide_False by set_solver. lia.
    + destruct (decide (k' ∈ b)).
      * rewrite decide_True by set_solver. lia.
      * rewrite decide_False by set_solver. lia.
Qed.

(** A fresh entry leaves the store: it is taken out of every fresh
    bucket and of the global index. *)
Lemma detach_fresh_inv (s : bool) (zs : gset addrkey) (d : Z)
  (man : btc_addrman) (k : addrkey) (e : btc_addrent) :
  store_inv s zs d man → man_map man !! k = Some e → used e = false →
  store_inv s zs d
    (set_total_fresh (man_total_fresh man - 1)
       (set_fresh ((λ b : gset addrkey, b ∖ {[k]}) <$> man_fresh man)
          (set_map (delete k (man_map man)) man))).
Proof.
  intros Hinv He Hu.
  assert (Hcnt : count_used false (man_map man)
                 = count_used false (delete k (man_map man)) + 1).
  { rewrite (count_used_delete false k e _ He). by rewrite decide_True. }
  assert (Hcntu : count_used true (man_map man)
                  = count_used true (delete k (man_map man))).
  { rewrite (count_used_delete true k e _ He).
    rewrite decide_False by (rewrite Hu; done). lia. }
  assert (Hsub : ∀ j (b' : gset addrkey) k',
            ((λ b : gset addrkey, b ∖ {[k]}) <$> man_fresh man) !! j = Some b' →
            k' ∈ b' →
            ∃ b0, man_fresh man !! j = Some b0 ∧ k' ∈ b0 ∧ k' ≠ k).
  { intros j b' k' Hj Hk'.
    apply list_lookup_fmap_Some in Hj as (b0 & -> & Hj).
    exists b0. set_solver. }
  constructor; simpl; try apply Hinv.
  - rewrite length_fmap. apply Hinv.
  - intros k' e' [Hne He']%lookup_delete_Some. by apply (inv_entry Hinv).
  - intros j b' k' Hj Hk'.
    destruct (Hsub j b' k' Hj Hk') as (b0 & Hj0 & Hk0 & Hne).
    destruct (inv_fresh_sub Hinv j b0 k' Hj0 Hk0) as (e' & He' & Hu').
    exists e'. by rewrite lookup_delete_ne.
  - intros k' e' [Hne He']%lookup_delete_Some Hu'.
    rewrite fresh_refs_del, decide_False by done.
    by apply (inv_fresh_rc Hinv).
  - intros k' e' [Hne He']%lookup_delete_Some Hu'.
    by apply (inv_used_rc Hinv k' e').
  - intros k' Hk'.
    destruct (inv_used_sub Hinv k' Hk') as (e' & He' & Hu').
    exists e'. split; [|done]. rewrite lookup_delete_ne; [done|].
    intros <-. congruence.
  - rewrite (inv_total_fresh Hinv). lia.
  - rewrite (inv_total_used Hinv). done.
  - intros j b' Hj.
    apply list_lookup_fmap_Some in Hj as (b0 & -> & Hj).
    pose proof (inv_fresh_bound Hinv j b0 Hj).
    assert (Hle : (size (b0 ∖ {[k]}) ≤ size b0)%nat)
      by (apply subseteq_size; set_solver).
    lia.
Qed.

(** Used bucket [i] changes from [l] to [f l], and the global index
    from [man_map man] to [m'] accordingly: the keys that leave the
    bucket leave the index, the keys that enter it are new to the
    index and name used entries. *)
Lemma used_change_inv (s : bool) (zs : gset addrkey) (d : Z)
  (man : btc_addrman) (i : nat) (l : list addrkey)
  (f : list addrkey → list addrkey) (m' : gmap addrkey btc_addrent)
  (tu' : Z) :
  store_inv s zs d man → man_used man !! i = Some l →
  NoDup (f l) → Z.of_nat (length (f l)) <= MAX_ENTRIES →
  (∀ x, x ∈ f l → x ∉ l → man_map man !! x = None) →
  (∀ x, x ∉ l → x ∉ f l → m' !! x = man_map man !! x) →
  (∀ x, x ∈ l → x ∈ f l → m' !! x = man_map man !! x) →
  (∀ x, x ∈ f l → x ∉ l →
        ∃ e, m' !! x = Some e ∧ used e = true ∧ ref_count e = 0 ∧
             key_of (addr e) = x ∧ entry_ok e) →
  (∀ x, x ∈ l → x ∉ f l → m' !! x = None) →
  count_used true m' = tu' →
  count_used false m' = count_used false (man_map man) →
  store_inv s zs d
    (set_total_used tu' (set_usedb (alter f i (man_used man))
                           (set_map m' man))).
Proof.
  intros Hinv Hi Hnd Hlen Hnew Hsame Hkeep Hin Hout Htu Htf.
  assert (Hlu : ∀ x, x ∈ l → ∃ e, man_map man !! x = Some e ∧ used e = true).
  { intros x Hx. apply (inv_used_sub Hinv). by apply used_bucket_sub with i l. }
  destruct (concat_alter_spec f i (man_used man) l
              (inv_used_nodup Hinv) Hi Hnd) as [Hnd' Hmem].
  { intros x Hx Hxl Hc. destruct (inv_used_sub Hinv x Hc) as (e & He & _).
    rewrite (Hnew x Hx Hxl) in He. done. }
  assert (Hold : ∀ x e, m' !! x = Some e →
            (x ∈ f l ∧ x ∉ l) ∨ man_map man !! x = Some e).
  { intros x e He. destruct (decide (x ∈ f l)) as [Hf|Hf];
      destruct (decide (x ∈ l)) as [Hl|Hl].
    - right. by rewrite <- Hkeep.
    - by left.
    - rewrite (Hout x Hl Hf) in He. done.
    - right. by rewrite <- Hsame. }
  constructor; simpl; try apply Hinv.
  - rewrite length_alter. apply Hinv.
  - intros k e He. destruct (Hold k e He) as [[Hf Hl]|He0].
    + destruct (Hin k Hf Hl) as (e' & He' & _ & _ & ? & ?).
      by assert (e' = e) as -> by congruence.
    + by apply (inv_entry Hinv).
  - intros j b k Hj Hk.
    destruct (inv_fresh_sub Hinv j b k Hj Hk) as (e & He & Hu).
    exists e. split; [|done].
    assert (k ∉ l).
    { intros Hl. destruct (Hlu k Hl) as (e' & He' & Hu'). congruence. }
    rewrite Hsame; [done..|].
    intros Hf. rewrite (Hnew k Hf) in He; done.
  - intros k e He Hu. destruct (Hold k e He) as [[Hf Hl]|He0].
    + destruct (Hin k Hf Hl) as (e' & He' & Hu' & _). congruence.
    + by apply (inv_fresh_rc Hinv).
  - intros k e He Hu. rewrite Hmem.
    destruct (Hold k e He) as [[Hf Hl]|He0].
    + destruct (Hin k Hf Hl) as (e' & He' & _ & Hrc & _).
      assert (e' = e) as -> by congruence. auto.
    + destruct (inv_used_rc Hinv k e He0 Hu) as [Hrc Hc].
      split; [done|]. destruct (decide (k ∈ l)) as [Hl|Hl]; [|by left].
      right. destruct (decide (k ∈ f l)); [done|].
      rewrite (Hout k Hl) in He; done.
  - intros k [[Hc Hl]|Hf]%Hmem.
    + destruct (inv_used_sub Hinv k Hc) as (e & He & Hu).
      destruct (decide (k ∈ f l)) as [Hf|Hf].
      * rewrite (Hnew k Hf Hl) in He. done.
      * exists e. by rewrite Hsame.
    + destruct (decide (k ∈ l)) as [Hl|Hl].
      * destruct (Hlu k Hl) as (e & He & Hu). exists e. by rewrite Hkeep.
      * destruct (Hin k Hf Hl) as (e & He & Hu & _). by exists e.
  - done.
  - rewrite Htf. apply Hinv.
  - done.
  - intros j l' Hj. rewrite list_lookup_alter in Hj. case_decide.
    + subst j. rewrite Hi in Hj. simpl in Hj. by injection Hj as <-.
    + by apply (inv_used_bound Hinv j).
Qed.

(** ** remove keeps the invariants *)

Lemma fresh_del_all_spec (k : addrkey) (fresh : list (gset addrkey))
  (i : nat) (rc : Z) (old : option nat) :
  ∃ old', fresh_del_all k fresh i rc old =
          ((λ b : gset addrkey, b ∖ {[k]}) <$> fresh,
           rc - fresh_refs k fresh, old') ∧
          ((fresh_refs k fresh = 0 ∧ old' = old) ∨
           (∃ j (b : gset addrkey),
              old' = Some (i + j)%nat ∧ fresh !! j = Some b ∧ k ∈ b)).
Proof.
  revert i rc old. induction fresh as [|b fresh IH]; intros i rc old.
  - exists old. split; [by rewrite Z.sub_0_r|by left].
  - simpl. rewrite fresh_refs_cons. case_decide as Hb.
    + destruct (IH (S i) (rc - 1) (Some i)) as (old' & -> & Hor).
      replace (rc - (1 + fresh_refs k fresh))
        with (rc - 1 - fresh_refs k fresh) by lia.
      exists old'. split; [done|]. right.
      destruct Hor as [[_ ->]|(j & b' & -> & Hj & Hk)].
      * exists 0%nat, b. split; [f_equal; lia|]. by split.
      * exists (S j), b'. split; [f_equal; lia|]. by split.
    + destruct (IH (S i) rc old) as (old' & -> & Hor).
      replace (rc - (0 + fresh_refs k fresh))
        with (rc - fresh_refs k fresh) by lia.
      exists old'. split.
      { rewrite ?fmap_cons. replace (b ∖ {[k]}) with b by set_solver. done. }
      destruct Hor as [[Hz ->]|(j & b' & -> & Hj & Hk)].
      * left. split; [lia|done].
      * right. exists (S j), b'. split; [f_equal; lia|]. by split.
Qed.

Lemma chain_head_spec (k h : addrkey) (used : list (list addrkey)) :
  chain_head k used = Some h →
  ∃ j l, used !! j = Some l ∧ k ∈ l ∧ h ∈ l.
Proof.
  induction used as [|l used IH]; [done|]. simpl. case_decide as Hk.
  - intros Hh. exists 0%nat, l. split; [done|]. split; [done|].
    destruct l; [done|]. injection Hh as ->. left.
  - intros (j & l' & ? & ? & ?)%IH. by exists (S j), l'.
Qed.

Lemma find_head_spec (h : addrkey) (used : list (list addrkey)) (n i : nat) :
  find_head h used n = Some i →
  ∃ l, used !! (i - n)%nat = Some l ∧ h ∈ l ∧ (n ≤ i)%nat.
Proof.
  revert n. induction used as [|l used IH]; intros n; [done|]. simpl.
  case_decide as Hh.
  - intros [= <-]. exists l. rewrite Nat.sub_diag. split; [done|].
    split; [|done]. destruct l; [done|]. injection Hh as ->. left.
  - intros (l' & Hl' & ? & ?)%IH. exists l'.
    replace (i - n)%nat with (S (i - S n)) by lia. split; [done|].
    split; [done|lia].
Qed.

Lemma used_pos (s : bool) (zs : gset addrkey) (d : Z) (man : btc_addrman)
  (k : addrkey) (e : btc_addrent) (u : bool) :
  store_inv s zs d man → man_map man !! k = Some e → used e = u →
  1 <= count_used u (man_map man) <= 131072.
Proof.
  intros Hinv He Hu. destruct (store_bound _ _ _ _ Hinv).
  pose proof (count_used_delete u k e _ He) as E.
  rewrite decide_True in E by done.
  pose proof (count_used_nonneg u (delete k (man_map man))).
  destruct u; lia.
Qed.

Lemma btc_addrman_remove_inv (s : bool) (zs : gset addrkey)
  (man : btc_addrman) (a : btc_netaddr) (man' : btc_addrman) (r : bool) :
  store_inv s zs 0 man →
  btc_addrman_remove man a = Some (man', r) →
  store_inv s zs 0 man'.
Proof.
  intros Hinv. unfold btc_addrman_remove.
  destruct (man_map man !! key_of a) as [entry|] eqn:He;
    [|by intros [= <- <-]].
  destruct (inv_entry Hinv _ _ He) as [Hkey Hok]. rewrite Hkey.
  set (k := key_of a) in *.
  destruct (used entry) eqn:Hu.
  - pose proof (used_pos _ _ _ _ _ _ _ Hinv He Hu) as Hpos.
    case_decide as Hrc; [|done].
    destruct (chain_head k (man_used man)) as [h|] eqn:Hch; [|done]. simpl.
    destruct (find_head h (man_used man) 0) as [i|] eqn:Hfh; [|done]. simpl.
    rewrite He. rewrite decide_True by eauto. intros [= <- <-].
    apply chain_head_spec in Hch as (j & l & Hj & Hkl & Hhl).
    apply find_head_spec in Hfh as (l' & Hi & Hhl' & _).
    rewrite Nat.sub_0_r in Hi.
    assert (j = i) as ->
      by (by apply (used_bucket_unique (man_used man) j i l l' h
                      (inv_used_nodup Hinv))).
    assert (l' = l) as -> by congruence.
    destruct (list_unlink_spec k l) as (Hnd & Hmem & Hlen);
      [by apply (used_bucket_nodup _ i _ (inv_used_nodup Hinv))|done|].
    apply (store_inv_ext s zs 0
             (set_total_used (man_total_used man - 1)
                (set_usedb (alter (list_unlink k) i (man_used man))
                   (set_map (delete k (man_map man)) man)))); try done.
    { simpl. rewrite (inv_total_used Hinv). apply wrapsz_small. lia. }
    apply used_change_inv with l; try done.
    + pose proof (inv_used_bound Hinv i l Hi). lia.
    + intros x Hx Hxl. apply Hmem in Hx as [? _]. done.
    + intros x Hxl Hx. rewrite lookup_delete_ne; [done|]. intros <-. done.
    + intros x Hxl Hx. apply Hmem in Hx as [_ ?]. by rewrite lookup_delete_ne.
    + intros x Hx Hxl. apply Hmem in Hx as [? _]. done.
    + intros x Hxl Hx. destruct (decide (x = k)) as [->|Hne].
      * apply lookup_delete_eq.
      * destruct Hx. by apply Hmem.
    + rewrite (inv_total_used Hinv).
      rewrite (count_used_delete true k entry _ He), decide_True by done. lia.
    + rewrite (count_used_delete false k entry _ He).
      rewrite decide_False by (rewrite Hu; done). lia.
  - pose proof (used_pos _ _ _ _ _ _ _ Hinv He Hu) as Hpos.
    destruct (fresh_del_all_spec k (man_fresh man) 0 (ref_count entry) None)
      as (old & -> & _).
    case_decide as Hrc; [|done]. simpl.
    rewrite He. rewrite decide_True by eauto. intros [= <- <-].
    apply (store_inv_ext s zs 0
             (set_total_fresh (man_total_fresh man - 1)
                (set_fresh ((λ b : gset addrkey, b ∖ {[k]}) <$> man_fresh man)
                   (set_map (delete k (man_map man)) man)))); try done.
    { simpl. rewrite (inv_total_fresh Hinv). apply wrapsz_small. lia. }
    by apply detach_fresh_inv with entry.
Qed.

(** ** mark_attempt, mark_success and mark_ack keep the invariants *)

Lemma btc_addrman_mark_attempt_inv (s : bool) (zs : gset addrkey)
  (man : btc_addrman) (now : Z) (a : btc_netaddr) :
  store_inv s zs 0 man → is_int64 now →
  store_inv s zs 0 (btc_addrman_mark_attempt man now a).
Proof.
  intros Hinv Hnow. unfold btc_addrman_mark_attempt.
  destruct (man_map man !! key_of a) as [entry|] eqn:He; [|done].
  apply store_inv_update with entry; try done.
  destruct (inv_entry Hinv _ _ He) as [_ (H1 & H2 & H3 & H4 & H5)].
  split; [done|]. split; [done|]. split; [apply wrap32_range|]. by split.
Qed.

Lemma btc_addrman_mark_success_inv (s : bool) (zs : gset addrkey)
  (man : btc_addrman) (now : Z) (a : btc_netaddr) :
  store_inv s zs 0 man → is_int64 now →
  store_inv s zs 0 (btc_addrman_mark_success man now a).
Proof.
  intros Hinv Hnow. unfold btc_addrman_mark_success.
  destruct (man_map man !! key_of a) as [entry|] eqn:He; [|done].
  case_decide; [|done].
  apply store_inv_update with entry; try done.
  destruct (inv_entry Hinv _ _ He) as [_ Hok].
  apply entry_ok_set_addr; [|done].
  apply netaddr_ok_set_time; [done|apply Hok].
Qed.

Lemma foldl_evict_used_None (m : gmap addrkey btc_addrent)
  (l : list addrkey) :
  foldl (evict_used_step m) None l = None.
Proof. by induction l. Qed.

Lemma evict_used_fold_in (m : gmap addrkey btc_addrent) (l : list addrkey)
  (old : option addrkey) (kv : addrkey) (P : addrkey → Prop) :
  (∀ k, old = Some k → P k) → (∀ k, k ∈ l → P k) →
  foldl (evict_used_step m) old l = Some kv → P kv.
Proof.
  revert old. induction l as [|k l IH]; intros old Hold Hl; simpl.
  - intros ->. by apply Hold.
  - apply IH.
    + intros k' Hk'. unfold evict_used_step in Hk'.
      destruct old as [ko|]; simpl in Hk'; [|done].
      destruct (m !! ko); simpl in Hk'; [|done].
      destruct (m !! k); simpl in Hk'; [|done].
      case_decide; injection Hk' as <-; [apply Hl; left|by apply Hold].
    + intros k' Hk'. apply Hl. by right.
Qed.

Lemma evict_used_in (man : btc_addrman) (l : list addrkey) (kv : addrkey) :
  evict_used man l = Some kv → kv ∈ l.
Proof.
  unfold evict_used.
  apply (evict_used_fold_in (man_map man) l (head l) kv (λ x, x ∈ l));
    [|done].
  intros k Hk. destruct l; [done|]. injection Hk as ->. left.
Qed.

(** An entry allocated and counted, not yet in the global index. *)
Lemma store_inv_pending (s : bool) (zs : gset addrkey) (man : btc_addrman) :
  store_inv s zs 0 man →
  store_inv s zs 1 (set_total_fresh (man_total_fresh man + 1) man).
Proof.
  intros Hinv. constructor; simpl; try apply Hinv.
  - rewrite (inv_total_fresh Hinv). lia.
  - lia.
Qed.

Lemma mark_ack_map_push (k : addrkey) (e1 e2 ue : btc_addrent)
  (m : gmap addrkey btc_addrent) :
  <[k:=ue]> (<[k:=e2]> (<[k:=e1]> m)) = <[k:=ue]> (delete k m).
Proof. by rewrite !insert_insert_eq, insert_delete_eq. Qed.

Lemma mark_ack_map_evict (k kv : addrkey) (e1 e2 ue ev2 evf : btc_addrent)
  (m : gmap addrkey btc_addrent) :
  k ≠ kv →
  <[kv:=evf]> (<[kv:=ev2]> (<[k:=ue]> (<[k:=e2]> (<[k:=e1]> m)))) =
  <[kv:=evf]> (<[k:=ue]> (delete kv (delete k m))).
Proof.
  intros Hne.
  - apply map_eq. intros x.
    destruct (decide (x = kv)) as [->|Hx1]; [by rewrite !lookup_insert_eq|].
    rewrite !(lookup_insert_ne _ kv) by done.
    destruct (decide (x = k)) as [->|Hx2]; [by rewrite !lookup_insert_eq|].
    rewrite !(lookup_insert_ne _ k) by done.
    by rewrite !lookup_delete_ne.
Qed.

Lemma btc_addrman_mark_ack_inv `{Collab} (s : bool) (zs : gset addrkey)
  (man : btc_addrman) (now : Z) (a : btc_netaddr) (svc : Z)
  (man' : btc_addrman) :
  store_inv s zs 0 man → is_int64 now → is_uint64 svc →
  btc_addrman_mark_ack man now a svc = Some man' →
  store_inv s zs 0 man'.
Proof.
  intros Hinv Hnow Hsvc. unfold btc_addrman_mark_ack.
  destruct (man_map man !! key_of a) as [entry|] eqn:He;
    [|by intros [= <-]].
  destruct (inv_entry Hinv _ _ He) as [Hkey Hok].
  cbv zeta.
  set (entry1 := set_attempt 0 now (set_success now (set_addr _ entry))).
  assert (Hok1 : entry_ok entry1).
  { destruct Hok as (H1 & H2 & H3 & H4 & H5).
    split; [|split; [done|split; [by_eval|by split]]].
    apply netaddr_ok_set_services; [|done]. apply lor_uint64; [apply H1|done]. }
  assert (Hk1 : key_of (addr entry1) = key_of a) by done.
  rewrite Hk1. set (k := key_of a) in *.
  change (used entry1) with (used entry).
  change (ref_count entry1) with (ref_count entry).
  destruct (used entry) eqn:Hu.
  { intros [= <-]. by apply store_inv_update with entry. }
  case_decide as Hrc; [|done]. simpl man_fresh.
  destruct (fresh_del_all_spec k (man_fresh man) 0 (ref_count entry) None)
    as (old & -> & Hor).
  destruct old as [io|]; [|done].
  destruct Hor as [[_ [=]]|(j & bo & [= <-] & Hio & Hkbo)].
  case_decide as Hrc0; [|done]. rewrite Hrc0.
  set (fresh' := (λ b : gset addrkey, b ∖ {[k]}) <$> man_fresh man).
  set (entry2 := set_ref_count 0 entry1).
  set (ue := set_used true entry2).
  pose proof (used_pos _ _ _ _ _ _ _ Hinv He Hu) as Hpos.
  destruct (store_bound _ _ _ _ Hinv) as [_ Hbu].
  pose proof (count_used_nonneg true (man_map man)) as Hnn.
  assert (HinvA : store_inv s zs 0
            (set_total_fresh (man_total_fresh man - 1)
               (set_fresh fresh' (set_map (delete k (man_map man)) man))))
    by (by apply detach_fresh_inv with entry).
  assert (Hcf : count_used false (man_map man)
                = count_used false (delete k (man_map man)) + 1).
  { rewrite (count_used_delete false k entry _ He). by rewrite decide_True. }
  assert (Hcu : count_used true (man_map man)
                = count_used true (delete k (man_map man))).
  { rewrite (count_used_delete true k entry _ He).
    rewrite decide_False by (rewrite Hu; done). lia. }
  assert (Hknu : k ∉ concat (man_used man)).
  { intros Hc. destruct (inv_used_sub Hinv k Hc) as (? & ? & ?). congruence. }
  set (man2 := set_total_fresh _ _).
  set (ib := used_bucket man2 entry2).
  change (man_used man2) with (man_used man).
  destruct (man_used man !! ib) as [bucket|] eqn:Hib; [|done]. simpl.
  assert (Hbnd : NoDup bucket)
    by (by apply (used_bucket_nodup _ ib _ (inv_used_nodup Hinv))).
  assert (Hkb : k ∉ bucket).
  { intros Hc. apply Hknu. by apply used_bucket_sub with ib bucket. }
  assert (Hue : used ue = true ∧ ref_count ue = 0 ∧ key_of (addr ue) = k ∧
                entry_ok ue) by done.
  set (manA := set_total_fresh (man_total_fresh man - 1)
                  (set_fresh fresh' (set_map (delete k (man_map man)) man)))
    in HinvA.
  assert (HibA : man_used manA !! ib = Some bucket) by done.
  assert (HtuA : man_total_used manA = man_total_used man) by done.
  assert (HmapA : man_map manA = delete k (man_map man)) by done.
  case_decide as Hroom.
  - intros [= <-].
    apply (store_inv_ext s zs 0
             (set_total_used (man_total_used manA + 1)
                (set_usedb (alter (λ l, l ++ [k]) ib (man_used manA))
                   (set_map (<[k:=ue]> (man_map manA)) manA))));
      try done.
    { simpl. apply mark_ack_map_push. }
    { simpl. rewrite (inv_total_fresh Hinv). apply wrapsz_small. lia. }
    { simpl. rewrite (inv_total_used Hinv). apply wrapsz_small. lia. }
    apply (used_change_inv s zs 0 manA ib bucket (λ l, l ++ [k]));
      try done; rewrite ?HmapA.
    + apply NoDup_app. split; [done|]. split; [|apply NoDup_singleton].
      intros x Hx Hx'%list_elem_of_singleton. by subst.
    + rewrite length_app. simpl. lia.
    + intros x [?|Hx%list_elem_of_singleton]%elem_of_app ?; [done|subst x].
      apply lookup_delete_eq.
    + intros x Hx1 Hx2. rewrite lookup_insert_ne; [done|].
      intros <-. apply Hx2, elem_of_app. right. left.
    + intros x Hx1 Hx2. rewrite lookup_insert_ne; [done|].
      by intros <-.
    + intros x [?|Hx%list_elem_of_singleton]%elem_of_app ?; [done|subst x].
      exists ue. split; [apply lookup_insert_eq|done].
    + intros x Hx1 Hx2. destruct Hx2. apply elem_of_app. by left.
    + rewrite count_used_insert, decide_True by done.
      rewrite delete_id by apply lookup_delete_eq.
      rewrite HtuA, (inv_total_used Hinv). lia.
    + rewrite count_used_insert, decide_False by done.
      rewrite delete_id by apply lookup_delete_eq. lia.
  - destruct (evict_used man2 bucket) as [kv|] eqn:Hev; [|done]. simpl.
    apply evict_used_in in Hev.
    assert (Hkvu : kv ∈ concat (man_used man))
      by (by apply used_bucket_sub with ib bucket).
    destruct (inv_used_sub Hinv kv Hkvu) as (ev & Hev0 & Huv).
    destruct (inv_used_rc Hinv kv ev Hev0 Huv) as [Hrcv _].
    destruct (inv_entry Hinv kv ev Hev0) as [Hkeyv Hokv].
    assert (Hne : k ≠ kv) by (by intros ->).
    rewrite !lookup_insert_ne by done. rewrite Hev0. simpl.
    set (f0 := fresh_bucket man2 ev).
    destruct (fresh' !! f0) as [fb|] eqn:Hf0; [|done]. simpl.
    set (f := if decide (Z.of_nat (size fb) >= MAX_ENTRIES) then io else f0).
    rewrite Hrcv, Hkeyv. rewrite decide_True by done.
    intros [= <-].
    set (evf := set_ref_count (0 + 1) (set_used false ev)).
    assert (Hfb : ∃ b : gset addrkey, fresh' !! f = Some b ∧
                    Z.of_nat (size b) < MAX_ENTRIES ∧ kv ∉ b).
    { assert (Hnot : ∀ i (b : gset addrkey), fresh' !! i = Some b → kv ∉ b).
      { intros i b Hi Hc. unfold fresh' in Hi.
        apply list_lookup_fmap_Some in Hi as (b0 & -> & Hi).
        destruct (inv_fresh_sub Hinv i b0 kv Hi) as (? & ? & ?);
          [set_solver|congruence]. }
      unfold f. case_decide as Hfull.
      - exists (bo ∖ {[k]}). split; [|split].
        + unfold fresh'. by rewrite list_lookup_fmap, Hio.
        + pose proof (inv_fresh_bound Hinv io bo Hio).
          rewrite size_difference by set_solver. rewrite size_singleton.
          assert (size bo ≠ 0%nat).
          { intros E%size_empty_inv. set_solver. }
          lia.
        + apply (Hnot io). unfold fresh'. by rewrite list_lookup_fmap, Hio.
      - exists fb. split; [done|]. split; [lia|]. by apply (Hnot f0). }
    destruct Hfb as (b & Hfb & Hsz & Hkvb).
    set (manB := set_total_used (man_total_used manA)
                   (set_usedb (alter (list_replace kv k) ib (man_used manA))
                      (set_map (<[k:=ue]> (delete kv (man_map manA))) manA))).
    set (manC := set_total_fresh (man_total_fresh manB + 1) manB).
    destruct (list_replace_spec kv k bucket Hbnd Hev Hkb)
      as (Hnd' & Hmem & Hlen).
    assert (HinvB : store_inv s zs 0 manB).
    { apply (used_change_inv s zs 0 manA ib bucket (list_replace kv k));
        try done; rewrite ?HmapA.
      * rewrite Hlen. by apply (inv_used_bound Hinv ib).
      * intros x [[? ?]| ->]%Hmem ?; [done|]. apply lookup_delete_eq.
      * intros x Hx1 Hx2.
        rewrite lookup_insert_ne by (intros <-; apply Hx2, Hmem; by right).
        rewrite lookup_delete_ne; [done|]. by intros <-.
      * intros x Hx1 [[_ Hx2]| ->]%Hmem; [|done].
        rewrite lookup_insert_ne by (by intros <-).
        by rewrite lookup_delete_ne.
      * intros x [[? ?]| ->]%Hmem ?; [done|].
        exists ue. split; [apply lookup_insert_eq|done].
      * intros x Hx1 Hx2. destruct (decide (x = kv)) as [->|Hxv].
        -- rewrite lookup_insert_ne by done. apply lookup_delete_eq.
        -- destruct Hx2. apply Hmem. by left.
      * rewrite count_used_insert, decide_True by done.
        rewrite (delete_id _ k)
          by (rewrite lookup_delete_ne by done; apply lookup_delete_eq).
        rewrite HtuA, (inv_total_used Hinv), Hcu.
        rewrite (count_used_delete true kv ev (delete k (man_map man)))
          by (by rewrite lookup_delete_ne).
        rewrite decide_True by done. lia.
      * rewrite count_used_insert, decide_False by done.
        rewrite (delete_id _ k)
          by (rewrite lookup_delete_ne by done; apply lookup_delete_eq).
        rewrite (count_used_delete false kv ev (delete k (man_map man)))
          by (by rewrite lookup_delete_ne).
        rewrite decide_False by (rewrite Huv; done). lia. }
    assert (HinvC : store_inv s zs 1 manC)
      by (by apply store_inv_pending).
    apply (store_inv_ext s zs 0
      (set_needs_flush true
        (set_map (<[kv:=evf]> (man_map manC))
          (set_fresh (alter (λ b0 : gset addrkey, {[kv]} ∪ b0) f
                        (man_fresh manC)) manC)))); try done.
    { simpl. by apply mark_ack_map_evict. }
    { simpl. rewrite (inv_total_fresh Hinv).
      rewrite (wrapsz_small (_ - 1)) by lia. apply wrapsz_small. lia. }
    apply (insert_fresh_inv s zs 1 0 manC f b kv evf); try done.
    simpl. rewrite lookup_insert_ne by done. rewrite lookup_delete_eq.
    unfold evf. simpl. lia.
Qed.

(** ** An empty store *)

Lemma empty_store_inv (s : bool) (man : btc_addrman) :
  length (man_fresh man) = MAX_FRESH_BUCKETS →
  length (man_used man) = MAX_USED_BUCKETS →
  length (man_key man) = 32%nat → 0 <= man_magic man < 2 ^ 32 →
  netaddr_ok (man_addr man) → man_map man = ∅ →
  (∀ i b, man_fresh man !! i = Some b → b = ∅) →
  (∀ i l, man_used man !! i = Some l → l = []) →
  man_total_fresh man = 0 → man_total_used man = 0 →
  store_inv s ∅ 0 man.
Proof.
  intros H1 H2 H3 H4 H5 Hm Hf Hu Htf Htu.
  assert (Hc : concat (man_used man) = []).
  { clear -Hu. induction (man_used man) as [|l used IH]; [done|].
    simpl. rewrite (Hu 0%nat l eq_refl). apply IH.
    intros i l' Hi. by apply (Hu (S i)). }
  constructor; try done; rewrite ?Hm, ?Hc.
  - intros k e Hk. by rewrite lookup_empty in Hk.
  - intros i b k Hi Hk. rewrite (Hf i b Hi) in Hk. set_solver.
  - intros k e Hk. by rewrite lookup_empty in Hk.
  - intros k e Hk. by rewrite lookup_empty in Hk.
  - intros k Hk. by apply elem_of_nil in Hk.
  - apply NoDup_nil_2.
  - by rewrite Htf, count_used_empty.
  - by rewrite Htu, count_used_empty.
  - intros i b Hi. rewrite (Hf i b Hi), size_empty. by_eval.
  - intros i l Hi. rewrite (Hu i l Hi). by_eval.
Qed.

Lemma btc_addrman_create_inv `{Collab} (s : bool) (magic nport now : Z)
  (rk : list Z) :
  0 <= magic < 2 ^ 32 → is_uint16 nport → is_int64 now →
  length rk = 32%nat →
  store_inv s ∅ 0 (btc_addrman_create magic nport now rk).
Proof.
  intros Hm Hp Hnow Hrk. apply empty_store_inv; try done.
  - split; [done|]. split; [apply local_services_ok|]. by split.
  - by intros i b [-> _]%lookup_replicate.
  - by intros i b [-> _]%lookup_replicate.
Qed.

Lemma btc_addrman_reset_inv (s s' : bool) (zs : gset addrkey) (d : Z)
  (man : btc_addrman) (rk : list Z) :
  store_inv s zs d man → length rk = 32%nat →
  store_inv s' ∅ 0 (btc_addrman_reset rk man).
Proof.
  intros Hinv Hrk. apply empty_store_inv; simpl; try done;
    try apply Hinv.
  - rewrite length_fmap. apply Hinv.
  - rewrite length_fmap. apply Hinv.
  - by intros i b (? & -> & _)%list_lookup_fmap_Some.
  - by intros i b (? & -> & _)%list_lookup_fmap_Some.
Qed.

(** ** Readers: what they return from well-formed bytes *)

Lemma le_value_range (bs : list Z) :
  Forall is_byte bs → 0 <= le_value bs < 256 ^ Z.of_nat (length bs).
Proof.
  induction 1 as [|b bs Hb _ IH]; simpl le_value; [simpl; lia|].
  rewrite length_cons, Nat2Z.inj_succ, Z.pow_succ_r by lia.
  unfold is_byte in Hb. lia.
Qed.

Lemma btc_raw_read_ok (n : nat) (xs bs rest : list Z) :
  btc_raw_read n xs = Some (bs, rest) → Forall is_byte xs →
  length bs = n ∧ Forall is_byte bs ∧ Forall is_byte rest ∧ xs = bs ++ rest.
Proof.
  unfold btc_raw_read. case_decide; [|done]. intros [= <- <-] Hxs.
  split; [rewrite length_take; lia|]. split; [by apply Forall_take|].
  split; [by apply Forall_drop|]. by rewrite take_drop.
Qed.

Lemma btc_uint_read_ok (n : nat) (xs rest : list Z) (v : Z) :
  btc_uint_read n xs = Some (v, rest) → Forall is_byte xs →
  0 <= v < 256 ^ Z.of_nat n ∧ Forall is_byte rest.
Proof.
  unfold btc_uint_read.
  destruct (btc_raw_read n xs) as [[bs r]|] eqn:E; [|done].
  intros [= <- <-] Hxs.
  destruct (btc_raw_read_ok _ _ _ _ E Hxs) as (Hl & Hb & Hr & _).
  split; [|done]. rewrite <- Hl. by apply le_value_range.
Qed.

Lemma btc_size_read_ok (xs rest : list Z) (v : Z) :
  btc_size_read xs = Some (v, rest) → Forall is_byte xs →
  0 <= v < 2 ^ 64 ∧ Forall is_byte rest.
Proof.
  unfold btc_size_read. destruct xs as [|b xs]; [done|].
  intros Hr Hxs. apply Forall_cons in Hxs as [Hb Hxs].
  unfold is_byte in Hb.
  repeat case_decide.
  - destruct (btc_uint_read 2 xs) as [[v' r]|] eqn:E; [|done].
    destruct (btc_uint_read_ok _ _ _ _ E Hxs) as [Hv Hrest].
    case_decide; [done|]. injection Hr as <- <-. split; [|done].
    change (256 ^ Z.of_nat 2) with 65536 in Hv. lia.
  - destruct (btc_uint_read 4 xs) as [[v' r]|] eqn:E; [|done].
    destruct (btc_uint_read_ok _ _ _ _ E Hxs) as [Hv Hrest].
    case_decide; [done|]. injection Hr as <- <-. split; [|done].
    change (256 ^ Z.of_nat 4) with 4294967296 in Hv. lia.
  - destruct (btc_uint_read 8 xs) as [[v' r]|] eqn:E; [|done].
    destruct (btc_uint_read_ok _ _ _ _ E Hxs) as [Hv Hrest].
    case_decide; [done|]. injection Hr as <- <-. split; [|done].
    change (256 ^ Z.of_nat 8) with (2 ^ 64) in Hv. lia.
  - injection Hr as <- <-. split; [lia|done].
Qed.

Lemma btc_addrkey_read_ok (xs rest : list Z) (a : btc_netaddr) :
  btc_addrkey_read xs = Some (a, rest) → Forall is_byte xs →
  netaddr_ok a ∧ Forall is_byte rest.
Proof.
  unfold btc_addrkey_read.
  destruct (btc_raw_read 16 xs) as [[r xs1]|] eqn:E1; [|done].
  destruct (btc_uint16_read xs1) as [[p xs2]|] eqn:E2; [|done].
  intros [= <- <-] Hxs.
  destruct (btc_raw_read_ok _ _ _ _ E1 Hxs) as (Hl & _ & Hxs1 & _).
  destruct (btc_uint_read_ok _ _ _ _ E2 Hxs1) as [Hp Hxs2].
  split; [|done]. split; [by_eval|]. split; [by_eval|]. by split.
Qed.

Lemma btc_addrent_read_ok `{Collab} (now : Z) (xs rest : list Z)
  (e : btc_addrent) :
  btc_addrent_read now xs = Some (e, rest) → is_int64 now →
  Forall is_byte xs →
  entry_ok e ∧ used e = false ∧ ref_count e = 0 ∧ Forall is_byte rest.
Proof.
  unfold btc_addrent_read. intros Hr Hnow Hxs.
  destruct (btc_addrkey_read xs) as [[a xs1]|] eqn:E1; [|done].
  destruct (btc_addrkey_read_ok _ _ _ E1 Hxs) as [Ha Hxs1].
  simpl in Hr.
  destruct (btc_uint64_read xs1) as [[sv xs2]|] eqn:E2; [|done].
  destruct (btc_uint_read_ok _ _ _ _ E2 Hxs1) as [Hsv Hxs2].
  simpl in Hr. unfold btc_int64_read in Hr.
  destruct (btc_uint_read 8 xs2) as [[t xs3]|] eqn:E3; [|done].
  destruct (btc_uint_read_ok _ _ _ _ E3 Hxs2) as [_ Hxs3].
  simpl in Hr.
  destruct (btc_addrkey_read xs3) as [[sr xs4]|] eqn:E4; [|done].
  destruct (btc_addrkey_read_ok _ _ _ E4 Hxs3) as [Hsr Hxs4].
  simpl in Hr. unfold btc_int32_read in Hr.
  destruct (btc_uint_read 4 xs4) as [[att xs5]|] eqn:E5; [|done].
  destruct (btc_uint_read_ok _ _ _ _ E5 Hxs4) as [_ Hxs5].
  simpl in Hr.
  destruct (btc_uint_read 8 xs5) as [[ls xs6]|] eqn:E6; [|done].
  destruct (btc_uint_read_ok _ _ _ _ E6 Hxs5) as [_ Hxs6].
  simpl in Hr.
  destruct (btc_uint_read 8 xs6) as [[la xs7]|] eqn:E7; [|done].
  destruct (btc_uint_read_ok _ _ _ _ E7 Hxs6) as [_ Hxs7].
  simpl in Hr. injection Hr as <- <-.
  split; [|done]. split; [|split; [|split; [|split]]]; simpl.
  - apply netaddr_ok_set_time; [apply wrap64_range|].
    by apply netaddr_ok_set_services.
  - apply netaddr_ok_set_time; [done|].
    apply netaddr_ok_set_services; [apply default_services_ok|done].
  - apply wrap32_range.
  - apply wrap64_range.
  - apply wrap64_range.
Qed.

(** ** Loading an image keeps the invariants *)

Lemma read_entries_ok `{Collab} (n : nat) (now : Z)
  (m m' : gmap addrkey btc_addrent) (xs rest : list Z) :
  read_entries n now m xs = Some (m', rest) → is_int64 now →
  Forall is_byte xs → (∀ k e, m !! k = Some e → fresh_entry k e) →
  (∀ k e, m' !! k = Some e → fresh_entry k e) ∧
  size m' = (size m + n)%nat ∧ Forall is_byte rest.
Proof.
  revert m xs. induction n as [|n IH]; intros m xs Hr Hnow Hxs Hm.
  - injection Hr as <- <-. split; [done|]. split; [lia|done].
  - simpl in Hr.
    destruct (btc_addrent_read now xs) as [[e xs1]|] eqn:E; [|done].
    destruct (btc_addrent_read_ok _ _ _ _ E Hnow Hxs) as (Hok & Hu & Hrc & Hxs1).
    simpl in Hr. case_decide as Hdup; [done|].
    apply eq_None_not_Some in Hdup.
    destruct (IH _ _ Hr Hnow Hxs1) as (H1 & H2 & H3).
    + intros k e' [[<- <-]|[_ ?]]%lookup_insert_Some; [done|by apply Hm].
    + split; [done|]. split; [|done].
      rewrite H2, map_size_insert_None by done. lia.
Qed.

Lemma count_if_none (P : btc_addrent → Prop) `{!∀ e, Decision (P e)}
  (m : gmap addrkey btc_addrent) :
  (∀ k e, m !! k = Some e → ¬ P e) → count_if P m = 0.
Proof.
  induction m as [|k e m Hk IH] using map_ind; intros Hno.
  - apply count_if_empty.
  - rewrite count_if_insert, (delete_id m k) by done.
    rewrite decide_False by (apply (Hno k); apply lookup_insert_eq).
    rewrite IH; [done|]. intros k' e' He'. apply (Hno k').
    rewrite lookup_insert_ne; [done|]. intros <-. congruence.
Qed.

Lemma load_inv_start (s : bool) (zs : gset addrkey) (d : Z)
  (man : btc_addrman) (m : gmap addrkey btc_addrent) (key : list Z) :
  store_inv s zs d man → man_map man = ∅ →
  (∀ i b, man_fresh man !! i = Some b → b = ∅) →
  (∀ i l, man_used man !! i = Some l → l = []) →
  man_total_fresh man = 0 → man_total_used man = 0 →
  length key = 32%nat → Z.of_nat (size m) < 2 ^ 64 →
  (∀ k e, m !! k = Some e → fresh_entry k e) →
  load_inv (set_map m (set_key key man)) ∧
  no_used (set_map m (set_key key man)) ∧
  buckets_bounded None None (set_map m (set_key key man)).
Proof.
  intros Hinv Hm Hf Hu Htf Htu Hkey Hsz Hfe.
  assert (Hc : concat (man_used man) = []).
  { clear -Hu. induction (man_used man) as [|l used IH]; [done|].
    simpl. rewrite (Hu 0%nat l eq_refl). apply IH.
    intros i l' Hi. by apply (Hu (S i)). }
  assert (Hrefs : ∀ k, fresh_refs k (man_fresh man) = 0).
  { intros k. apply fresh_refs_zero. intros i b Hi.
    rewrite (Hf i b Hi). set_solver. }
  split; [|split].
  - constructor; simpl; try apply Hinv; try done.
    + intros k e He. destruct (Hfe k e He) as (H1 & H2 & H3 & H4).
      rewrite Hrefs, H4, H3.
      split; [done|]. split; [done|]. split; [lia|]. split; [lia|].
      split; [done|]. intros [=].
    + intros i b k Hi Hk. rewrite (Hf i b Hi) in Hk. set_solver.
    + rewrite Hc. by intros k ?%elem_of_nil.
    + rewrite Htf. symmetry. apply count_if_none.
      intros k e He. destruct (Hfe k e He) as (_ & _ & _ & ->). by intros ?.
    + rewrite Htu. symmetry. apply count_if_none.
      intros k e He. destruct (Hfe k e He) as (_ & _ & -> & _). by intros ?.
  - intros k e He. by destruct (Hfe k e He) as (_ & _ & ? & _).
  - split; simpl.
    + intros j b Hj _. rewrite (Hf j b Hj), size_empty. by_eval.
    + intros j l Hj _. rewrite (Hu j l Hj). by_eval.
Qed.

Lemma load_inv_ext (man man' : btc_addrman) :
  man_fresh man' = man_fresh man → man_used man' = man_used man →
  man_key man' = man_key man → man_magic man' = man_magic man →
  man_addr man' = man_addr man → man_map man' = man_map man →
  man_total_fresh man' = man_total_fresh man →
  man_total_used man' = man_total_used man →
  load_inv man → load_inv man'.
Proof.
  destruct man, man'. simpl. intros -> -> -> -> -> -> -> -> [].
  by constructor.
Qed.

(** One key listed for fresh bucket [i]. *)
Lemma fresh_key_step (man : btc_addrman) (i : nat) (b : gset addrkey)
  (k : addrkey) (entry : btc_addrent) :
  load_inv man → no_used man → man_map man !! k = Some entry →
  man_fresh man !! i = Some b →
  load_inv
    (set_fresh (alter (λ b0 : gset addrkey, {[k]} ∪ b0) i (man_fresh man))
       (set_map (<[k:=set_ref_count (ref_count entry + 1) entry]> (man_map man))
          (set_total_fresh
             (if decide (ref_count entry = 0)
              then man_total_fresh man + 1 else man_total_fresh man) man))).
Proof.
  intros Hinv Hnu He Hi.
  destruct (ld_entry Hinv k entry He) as (Hkey & Hok & Hrc0 & Hle & Hpos & _).
  pose proof (Hnu k entry He) as Hu.
  set (fresh' := alter (λ b0 : gset addrkey, {[k]} ∪ b0) i (man_fresh man)).
  assert (Hrk : fresh_refs k fresh' =
                fresh_refs k (man_fresh man)
                - (if decide (k ∈ b) then 1 else 0) + 1).
  { unfold fresh'. rewrite (fresh_refs_alter _ _ _ _ b Hi).
    rewrite (decide_True (P := k ∈ {[k]} ∪ b)) by set_solver. done. }
  assert (Hro : ∀ k', k' ≠ k →
            fresh_refs k' fresh' = fresh_refs k' (man_fresh man)).
  { intros k' Hne. unfold fresh'. rewrite (fresh_refs_alter _ _ _ _ b Hi).
    destruct (decide (k' ∈ b)).
    - rewrite decide_True by set_solver. lia.
    - rewrite decide_False by set_solver. lia. }
  assert (Hkpos : 1 <= fresh_refs k fresh').
  { assert (0 < fresh_refs k fresh'); [|lia]. apply fresh_refs_pos.
    exists i, ({[k]} ∪ b). split; [|set_solver].
    unfold fresh'. by rewrite list_lookup_alter_eq, Hi. }
  constructor; simpl; try apply Hinv.
  - unfold fresh'. rewrite length_alter. apply Hinv.
  - intros k' e' [[<- <-]|[Hne He']]%lookup_insert_Some; simpl.
    + split; [done|]. split; [done|]. split; [lia|]. split.
      { rewrite Hrk. case_decide; lia. }
      split; [done|]. rewrite Hu. intros [=].
    + rewrite Hro by done. by apply (ld_entry Hinv).
  - intros j b' k' Hj Hk'. destruct (decide (k' = k)) as [->|Hne].
    + eexists. split; [apply lookup_insert_eq|]. simpl. lia.
    + apply alter_bucket_lookup in Hj as (b0 & Hj & Hor).
      assert (k' ∈ b0) by (destruct Hor as [->|[_ ->]]; set_solver).
      destruct (ld_fresh_sub Hinv j b0 k' Hj) as (e' & He' & Hrc'); [done|].
      exists e'. by rewrite lookup_insert_ne.
  - intros k' Hk'. destruct (ld_used_sub Hinv k' Hk') as (e' & He' & Hu').
    exists e'. split; [|done]. rewrite lookup_insert_ne; [done|].
    intros <-. congruence.
  - unfold count_ref. rewrite count_if_insert. simpl.
    rewrite (decide_True (P := ref_count entry + 1 ≠ 0)) by lia.
    rewrite (ld_total_fresh Hinv). unfold count_ref.
    rewrite (count_if_delete _ k entry _ He).
    destruct (decide (ref_count entry = 0)) as [Hz|Hz].
    + rewrite (decide_False (P := ref_count entry ≠ 0)) by (by intros ?). lia.
    + rewrite (decide_True (P := ref_count entry ≠ 0)) by done. lia.
  - rewrite (ld_total_used Hinv). rewrite count_used_insert.
    rewrite (count_used_delete true k entry _ He). simpl. done.
  - rewrite map_size_insert_Some by eauto. apply Hinv.
Qed.

(** One key listed for used bucket [i]. *)
Lemma used_key_step (man : btc_addrman) (i : nat) (l : list addrkey)
  (k : addrkey) (entry : btc_addrent) :
  load_inv man → man_map man !! k = Some entry →
  ref_count entry = 0 → used entry = false →
  man_used man !! i = Some l →
  load_inv
    (set_usedb (alter (λ l0, l0 ++ [k]) i (man_used man))
       (set_map (<[k:=set_used true entry]> (man_map man))
          (set_total_used (man_total_used man + 1) man))).
Proof.
  intros Hinv He Hrc Hu Hi.
  destruct (ld_entry Hinv k entry He) as (Hkey & Hok & Hrc0 & Hle & Hpos & _).
  assert (Hknu : k ∉ concat (man_used man)).
  { intros Hc. destruct (ld_used_sub Hinv k Hc) as (? & ? & ?). congruence. }
  assert (Hkl : k ∉ l).
  { intros Hc. apply Hknu. by apply used_bucket_sub with i l. }
  destruct (concat_alter_spec (λ l0, l0 ++ [k]) i (man_used man) l
              (ld_used_nodup Hinv) Hi) as [Hnd' Hmem].
  { apply NoDup_app. split.
    - by apply (used_bucket_nodup _ i _ (ld_used_nodup Hinv)).
    - split; [|apply NoDup_singleton].
      intros x Hx Hx'%list_elem_of_singleton. by subst. }
  { intros x [?|Hx%list_elem_of_singleton]%elem_of_app ?; [done|by subst]. }
  constructor; simpl; try apply Hinv.
  - rewrite length_alter. apply Hinv.
  - intros k' e' [[<- <-]|[Hne He']]%lookup_insert_Some; simpl.
    + split; [done|]. split; [done|]. split; [lia|]. split; [done|].
      split; [done|]. intros _. split; [done|].
      apply Hmem. right. apply elem_of_app. right. left.
    + destruct (ld_entry Hinv k' e' He') as (H1 & H2 & H3 & H4 & H5 & H6).
      split; [done|]. split; [done|]. split; [done|]. split; [done|].
      split; [done|]. intros Hu'. destruct (H6 Hu') as [H7 H8].
      split; [done|]. apply Hmem.
      destruct (decide (k' ∈ l)); [right; apply elem_of_app|]; auto.
  - intros j b k' Hj Hk'.
    destruct (ld_fresh_sub Hinv j b k' Hj Hk') as (e' & He' & Hrc').
    exists e'. split; [|done]. rewrite lookup_insert_ne; [done|].
    intros <-. congruence.
  - intros k' [[Hc Hl]|[Hl|Hx%list_elem_of_singleton]%elem_of_app]%Hmem.
    + destruct (ld_used_sub Hinv k' Hc) as (e' & He' & Hu').
      exists e'. split; [|done]. rewrite lookup_insert_ne; [done|].
      intros <-. congruence.
    + destruct (ld_used_sub Hinv k') as (e' & He' & Hu');
        [by apply used_bucket_sub with i l|].
      exists e'. split; [|done]. rewrite lookup_insert_ne; [done|].
      intros <-. congruence.
    + subst k'. eexists. split; [apply lookup_insert_eq|done].
  - done.
  - rewrite (ld_total_fresh Hinv). unfold count_ref.
    rewrite count_if_insert, (count_if_delete _ k entry _ He). simpl. done.
  - rewrite (ld_total_used Hinv), count_used_insert.
    rewrite (count_used_delete true k entry _ He). simpl.
    rewrite decide_False by (rewrite Hu; done). lia.
  - rewrite map_size_insert_Some by eauto. apply Hinv.
Qed.

Lemma read_fresh_keys_inv (n i : nat) (man man' : btc_addrman)
  (xs rest : list Z) :
  load_inv man → no_used man → buckets_bounded (Some i) None man →
  (i < MAX_FRESH_BUCKETS)%nat → Forall is_byte xs →
  read_fresh_keys n i man xs = Some (man', rest) →
  load_inv man' ∧ no_used man' ∧ buckets_bounded (Some i) None man' ∧
  Forall is_byte rest.
Proof.
  revert man xs. induction n as [|n IH]; intros man xs Hinv Hnu Hbb Hi Hxs Hr.
  - by injection Hr as <- <-.
  - simpl in Hr.
    destruct (btc_addrkey_read xs) as [[key xs1]|] eqn:E; [|done].
    destruct (btc_addrkey_read_ok _ _ _ E Hxs) as [_ Hxs1]. simpl in Hr.
    destruct (man_map man !! key_of key) as [entry|] eqn:He; [|done].
    simpl in Hr.
    destruct (ld_entry Hinv _ _ He) as (Hkey & _ & Hrc0 & _).
    destruct (lookup_lt_is_Some_2 (man_fresh man) i) as [b Hb];
      [by rewrite (ld_fresh_len Hinv)|].
    pose proof (fresh_key_step man i b _ entry Hinv Hnu He Hb) as Hstep.
    set (man1 := if decide (ref_count entry = 0) then _ else man) in Hr.
    assert (E1 : man_map man1 = man_map man) by (unfold man1; by case_decide).
    assert (E2 : man_fresh man1 = man_fresh man)
      by (unfold man1; by case_decide).
    assert (E3 : man_used man1 = man_used man)
      by (unfold man1; by case_decide).
    assert (E4 : man_key man1 = man_key man ∧ man_magic man1 = man_magic man ∧
                 man_addr man1 = man_addr man ∧
                 man_total_used man1 = man_total_used man)
      by (unfold man1; by case_decide).
    destruct E4 as (E4 & E5 & E6 & E7).
    assert (E8 : man_total_fresh man1 =
                 if decide (ref_count entry = 0)
                 then man_total_fresh man + 1 else man_total_fresh man).
    { unfold man1. case_decide; simpl; [|done].
      apply wrapsz_small.
      rewrite (ld_total_fresh Hinv).
      pose proof (count_if_nonneg (λ e, ref_count e ≠ 0) (man_map man)).
      pose proof (ld_size Hinv). unfold count_ref.
      assert (count_if (λ e, ref_count e ≠ 0) (man_map man)
              < Z.of_nat (size (man_map man))); [|lia].
      rewrite (count_if_delete (λ e, ref_count e ≠ 0) _ entry _ He).
      rewrite decide_False by (by intros ?).
      pose proof (count_if_le_size (λ e, ref_count e ≠ 0)
                    (delete (key_of key) (man_map man))) as Hle.
      rewrite map_size_delete_Some in Hle by eauto.
      assert (size (man_map man) ≠ 0%nat).
      { intros E0%map_size_empty_inv. rewrite E0 in He. done. }
      lia. }
    apply (IH _ _) in Hr; try done.
    + eapply load_inv_ext; [..|exact Hstep]; simpl;
        rewrite ?E1, ?E2, ?E3, ?E4, ?E5, ?E6, ?E7, ?E8, ?Hkey; done.
    + intros k e. simpl. rewrite E1.
      intros [[<- <-]|[Hne He']]%lookup_insert_Some; simpl.
      * by apply (Hnu _ _ He).
      * by apply (Hnu k).
    + destruct Hbb as [Hbf Hbu]. split; simpl; rewrite ?E2, ?E3.
      * intros j b' Hj Hne. apply (Hbf j); [|done].
        by rewrite list_lookup_alter_ne in Hj by congruence.
      * intros j l Hj _. by apply (Hbu j).
Qed.

Lemma foldl_read_fresh_None (l : list nat) :
  foldl read_fresh_bucket None l = None.
Proof. by induction l. Qed.

Lemma foldl_read_used_None (l : list nat) :
  foldl read_used_bucket None l = None.
Proof. by induction l. Qed.

Lemma read_fresh_bucket_inv (i : nat) (man man' : btc_addrman)
  (xs rest : list Z) :
  load_inv man → no_used man → buckets_bounded None None man →
  (i < MAX_FRESH_BUCKETS)%nat → Forall is_byte xs →
  read_fresh_bucket (Some (man, xs)) i = Some (man', rest) →
  load_inv man' ∧ no_used man' ∧ buckets_bounded None None man' ∧
  Forall is_byte rest.
Proof.
  intros Hinv Hnu [Hbf Hbu] Hi Hxs. unfold read_fresh_bucket. simpl.
  destruct (btc_size_read xs) as [[len xs1]|] eqn:E; [|done]. simpl.
  destruct (btc_size_read_ok _ _ _ E Hxs) as [_ Hxs1].
  destruct (read_fresh_keys (Z.to_nat len) i man xs1) as [[man1 xs2]|] eqn:Ek;
    [|done]. simpl.
  assert (HbbS : buckets_bounded (Some i) None man).
  { split; [intros j b Hj _; by apply (Hbf j)|done]. }
  destruct (read_fresh_keys_inv _ _ _ _ _ _ Hinv Hnu HbbS Hi Hxs1 Ek)
    as (Hinv1 & Hnu1 & [Hbf1 Hbu1] & Hxs2).
  destruct (man_fresh man1 !! i) as [b|] eqn:Hb; [|done]. simpl.
  case_decide as Hsz; [done|]. intros [= <- <-].
  split; [done|]. split; [done|]. split; [|done]. split; [|done].
  intros j b' Hj _. destruct (decide (j = i)) as [->|Hne].
  - assert (b' = b) as -> by congruence. lia.
  - apply (Hbf1 j); [done|congruence].
Qed.

Lemma read_fresh_fold_inv (l : list nat) (man man' : btc_addrman)
  (xs rest : list Z) :
  load_inv man → no_used man → buckets_bounded None None man →
  (∀ i, i ∈ l → (i < MAX_FRESH_BUCKETS)%nat) → Forall is_byte xs →
  foldl read_fresh_bucket (Some (man, xs)) l = Some (man', rest) →
  load_inv man' ∧ no_used man' ∧ buckets_bounded None None man' ∧
  Forall is_byte rest.
Proof.
  revert man xs. induction l as [|i l IH]; intros man xs Hinv Hnu Hbb Hl Hxs.
  - by intros [= <- <-].
  - change (foldl read_fresh_bucket (Some (man, xs)) (i :: l))
      with (foldl read_fresh_bucket (read_fresh_bucket (Some (man, xs)) i) l).
    destruct (read_fresh_bucket (Some (man, xs)) i) as [[man1 xs1]|] eqn:E.
    + assert (Hi : (i < MAX_FRESH_BUCKETS)%nat) by (apply Hl; left).
      destruct (read_fresh_bucket_inv _ _ _ _ _ Hinv Hnu Hbb Hi Hxs E)
        as (Hinv1 & Hnu1 & Hbb1 & Hxs1).
      apply IH; try done. intros j Hj. apply Hl. by right.
    + by rewrite foldl_read_fresh_None.
Qed.

Lemma read_used_keys_inv (n i : nat) (man man' : btc_addrman)
  (xs rest : list Z) :
  load_inv man → buckets_bounded None (Some i) man →
  (i < MAX_USED_BUCKETS)%nat → Forall is_byte xs →
  read_used_keys n i man xs = Some (man', rest) →
  load_inv man' ∧ buckets_bounded None (Some i) man' ∧ Forall is_byte rest.
Proof.
  revert man xs. induction n as [|n IH]; intros man xs Hinv Hbb Hi Hxs Hr.
  - by injection Hr as <- <-.
  - simpl in Hr.
    destruct (btc_addrkey_read xs) as [[key xs1]|] eqn:E; [|done].
    destruct (btc_addrkey_read_ok _ _ _ E Hxs) as [_ Hxs1]. simpl in Hr.
    destruct (man_map man !! key_of key) as [entry|] eqn:He; [|done].
    simpl in Hr. case_decide as Hchk; [done|].
    assert (Hrc : ref_count entry = 0)
      by (destruct (decide (ref_count entry = 0)); [done|]; destruct Hchk; auto).
    assert (Hu : used entry = false)
      by (destruct (used entry); [destruct Hchk; auto|done]).
    destruct (ld_entry Hinv _ _ He) as (Hkey & _).
    destruct (lookup_lt_is_Some_2 (man_used man) i) as [l Hl];
      [by rewrite (ld_used_len Hinv)|].
    pose proof (used_key_step man i l _ entry Hinv He Hrc Hu Hl) as Hstep.
    apply (IH _ _) in Hr; try done.
    + eapply load_inv_ext; [..|exact Hstep]; simpl; rewrite ?Hkey; try done.
      apply wrapsz_small. rewrite (ld_total_used Hinv).
      pose proof (count_used_nonneg true (man_map man)).
      pose proof (ld_size Hinv).
      assert (count_used true (man_map man) < Z.of_nat (size (man_map man)));
        [|lia].
      rewrite (count_used_delete true _ entry _ He).
      rewrite decide_False by (rewrite Hu; done).
      pose proof (count_if_le_size (λ e, used e = true)
                    (delete (key_of key) (man_map man))) as Hle.
      rewrite map_size_delete_Some in Hle by eauto.
      assert (size (man_map man) ≠ 0%nat).
      { intros E0%map_size_empty_inv. rewrite E0 in He. done. }
      unfold count_used. lia.
    + destruct Hbb as [Hbf Hbu]. split; simpl.
      * intros j b Hj _. by apply (Hbf j).
      * intros j l' Hj Hne. apply (Hbu j); [|done].
        by rewrite list_lookup_alter_ne in Hj by congruence.
Qed.

Lemma read_used_bucket_inv (i : nat) (man man' : btc_addrman)
  (xs rest : list Z) :
  load_inv man → buckets_bounded None None man →
  (i < MAX_USED_BUCKETS)%nat → Forall is_byte xs →
  read_used_bucket (Some (man, xs)) i = Some (man', rest) →
  load_inv man' ∧ buckets_bounded None None man' ∧ Forall is_byte rest.
Proof.
  intros Hinv [Hbf Hbu] Hi Hxs. unfold read_used_bucket. simpl.
  destruct (btc_size_read xs) as [[len xs1]|] eqn:E; [|done]. simpl.
  destruct (btc_size_read_ok _ _ _ E Hxs) as [_ Hxs1].
  destruct (read_used_keys (Z.to_nat len) i man xs1) as [[man1 xs2]|] eqn:Ek;
    [|done]. simpl.
  assert (HbbS : buckets_bounded None (Some i) man).
  { split; [done|intros j b Hj _; by apply (Hbu j)]. }
  destruct (read_used_keys_inv _ _ _ _ _ _ Hinv HbbS Hi Hxs1 Ek)
    as (Hinv1 & [Hbf1 Hbu1] & Hxs2).
  destruct (man_used man1 !! i) as [l|] eqn:Hl; [|done]. simpl.
  case_decide as Hsz; [done|]. intros [= <- <-].
  split; [done|]. split; [|done]. split; [done|].
  intros j l' Hj _. destruct (decide (j = i)) as [->|Hne].
  - assert (l' = l) as -> by congruence. lia.
  - apply (Hbu1 j); [done|congruence].
Qed.

Lemma read_used_fold_inv (l : list nat) (man man' : btc_addrman)
  (xs rest : list Z) :
  load_inv man → buckets_bounded None None man →
  (∀ i, i ∈ l → (i < MAX_USED_BUCKETS)%nat) → Forall is_byte xs →
  foldl read_used_bucket (Some (man, xs)) l = Some (man', rest) →
  load_inv man' ∧ buckets_bounded None None man' ∧ Forall is_byte rest.
Proof.
  revert man xs. induction l as [|i l IH]; intros man xs Hinv Hbb Hl Hxs.
  - by intros [= <- <-].
  - change (foldl read_used_bucket (Some (man, xs)) (i :: l))
      with (foldl read_used_bucket (read_used_bucket (Some (man, xs)) i) l).
    destruct (read_used_bucket (Some (man, xs)) i) as [[man1 xs1]|] eqn:E.
    + assert (Hi : (i < MAX_USED_BUCKETS)%nat) by (apply Hl; left).
      destruct (read_used_bucket_inv _ _ _ _ _ Hinv Hbb Hi Hxs E)
        as (Hinv1 & Hbb1 & Hxs1).
      apply IH; try done. intros j Hj. apply Hl. by right.
    + by rewrite foldl_read_used_None.
Qed.

(** Once every entry is listed, the store is the one of the invariants,
    short of the bound on the reference counts. *)
Lemma load_inv_finish (man : btc_addrman) :
  load_inv man → buckets_bounded None None man →
  map_Forall (λ _ e, ¬ (used e = false ∧ ref_count e = 0)) (man_map man) →
  store_inv false (⋃ man_fresh man) 0 man.
Proof.
  intros Hinv [Hbf Hbu] Hsweep.
  constructor; try apply Hinv; try done.
  - intros k e He. by destruct (ld_entry Hinv k e He) as (? & ? & _).
  - intros i b k Hi Hk.
    destruct (ld_fresh_sub Hinv i b k Hi Hk) as (e & He & Hrc).
    exists e. split; [done|].
    destruct (ld_entry Hinv k e He) as (_ & _ & _ & _ & _ & Hu).
    destruct (used e); [|done]. by destruct Hu.
  - intros k e He Hu.
    destruct (ld_entry Hinv k e He) as (_ & _ & H0 & Hle & Hpos & _).
    assert (Hnz : ref_count e ≠ 0).
    { intros Hz. by apply (Hsweep k e He). }
    split; [lia|]. split; [done|]. split; [|done].
    intros _. specialize (Hpos Hnz).
    assert (Hp : 0 < fresh_refs k (man_fresh man)) by lia.
    apply fresh_refs_pos in Hp as (i & b & Hi & Hb).
    apply elem_of_union_list. exists b. split; [|done].
    by apply list_elem_of_lookup_2 with i.
  - rewrite (ld_total_fresh Hinv), Z.add_0_r. unfold count_ref, count_used.
    apply count_if_ext. intros k e He.
    destruct (ld_entry Hinv k e He) as (_ & _ & _ & _ & _ & H6). split.
    + intros Hnz. destruct (used e); [|done]. by destruct H6.
    + intros Hu Hz. by apply (Hsweep k e He).
  - intros i b Hi. by apply (Hbf i).
  - intros i l Hi. by apply (Hbu i).
  - pose proof (size_union_list_bound (man_fresh man) MAX_ENTRIES) as Hb.
    rewrite (ld_fresh_len Hinv) in Hb. 
    etrans; [apply Hb|by_eval]. intros i b Hi. by apply (Hbf i).
Qed.

Lemma read_body_inv `{Collab} (s : bool) (zs : gset addrkey) (d : Z)
  (man man' : btc_addrman) (now : Z) (xs : list Z) :
  store_inv s zs d man → man_map man = ∅ →
  (∀ i b, man_fresh man !! i = Some b → b = ∅) →
  (∀ i l, man_used man !! i = Some l → l = []) →
  man_total_fresh man = 0 → man_total_used man = 0 →
  is_int64 now → Forall is_byte xs →
  read_body man now xs = Some man' →
  store_inv false (⋃ man_fresh man') 0 man'.
Proof.
  intros Hinv Hm Hf Hu Htf Htu Hnow Hxs. unfold read_body.
  destruct (btc_uint32_read xs) as [[version xs1]|] eqn:E1; [|done].
  destruct (btc_uint_read_ok _ _ _ _ E1 Hxs) as [_ Hxs1]. cbn [mbind option_bind].
  destruct (btc_uint32_read xs1) as [[magic xs2]|] eqn:E2; [|done].
  destruct (btc_uint_read_ok _ _ _ _ E2 Hxs1) as [_ Hxs2]. cbn [mbind option_bind].
  case_decide; [done|]. case_decide; [done|].
  destruct (btc_raw_read 32 xs2) as [[key xs3]|] eqn:E3; [|done].
  destruct (btc_raw_read_ok _ _ _ _ E3 Hxs2) as (Hkey & _ & Hxs3 & _). cbn [mbind option_bind].
  destruct (btc_size_read xs3) as [[len xs4]|] eqn:E4; [|done].
  destruct (btc_size_read_ok _ _ _ E4 Hxs3) as [Hlen Hxs4]. cbn [mbind option_bind].
  rewrite Hm.
  destruct (read_entries (Z.to_nat len) now ∅ xs4) as [[m xs5]|] eqn:E5;
    [|done].
  destruct (read_entries_ok _ _ _ _ _ _ E5 Hnow Hxs4) as (Hfe & Hsz & Hxs5).
  { intros k e Hk. by rewrite lookup_empty in Hk. }
  rewrite map_size_empty in Hsz. cbn [mbind option_bind].
  destruct (load_inv_start s zs d man m key Hinv Hm Hf Hu Htf Htu Hkey)
    as (Hl0 & Hnu0 & Hbb0); [lia|done|].
  destruct (foldl read_fresh_bucket (Some (set_map m (set_key key man), xs5))
              (seq 0 MAX_FRESH_BUCKETS)) as [[man1 xs6]|] eqn:E6; [|done].
  assert (Hseq1 : ∀ i, i ∈ seq 0 MAX_FRESH_BUCKETS →
                       (i < MAX_FRESH_BUCKETS)%nat).
  { intros i Hi%elem_of_seq. lia. }
  destruct (read_fresh_fold_inv _ _ _ _ _ Hl0 Hnu0 Hbb0 Hseq1 Hxs5 E6)
    as (Hl1 & _ & Hbb1 & Hxs6).
  cbn [mbind option_bind].
  destruct (foldl read_used_bucket (Some (man1, xs6))
              (seq 0 MAX_USED_BUCKETS)) as [[man2 xs7]|] eqn:E7; [|done].
  assert (Hseq2 : ∀ i, i ∈ seq 0 MAX_USED_BUCKETS →
                       (i < MAX_USED_BUCKETS)%nat).
  { intros i Hi%elem_of_seq. lia. }
  destruct (read_used_fold_inv _ _ _ _ _ Hl1 Hbb1 Hseq2 Hxs6 E7)
    as (Hl2 & Hbb2 & _).
  cbn [mbind option_bind]. case_decide; [done|]. case_decide as Hsweep; [|done].
  intros [= <-]. by apply load_inv_finish.
Qed.

Lemma btc_addrman_import_inv `{Collab} (s : bool) (zs : gset addrkey) (d : Z)
  (man : btc_addrman) (now : Z) (rk1 rk2 xs : list Z) :
  store_inv s zs d man → is_int64 now →
  length rk1 = 32%nat → length rk2 = 32%nat → Forall is_byte xs →
  ∃ zs', store_inv false zs' 0 (btc_addrman_import man now rk1 rk2 xs).1.
Proof.
  intros Hinv Hnow Hrk1 Hrk2 Hxs.
  unfold btc_addrman_import, btc_addrman_read.
  pose proof (btc_addrman_reset_inv s false zs d man rk1 Hinv Hrk1) as Hinv0.
  destruct (read_body _ now xs) as [man1|] eqn:E; simpl.
  - exists (⋃ man_fresh man1).
    apply (read_body_inv false ∅ 0 (btc_addrman_reset rk1 man) man1 now xs);
      try done.
    + by intros i b (? & -> & _)%list_lookup_fmap_Some.
    + by intros i b (? & -> & _)%list_lookup_fmap_Some.
  - exists ∅. by apply (btc_addrman_reset_inv false false ∅ 0).
Qed.

(** ** Every operation keeps the invariants *)

Lemma store_inv_mono (s : bool) (zs zs' : gset addrkey) (d : Z)
  (man : btc_addrman) :
  store_inv s zs d man → zs ⊆ zs' → Z.of_nat (size zs') <= 65536 →
  store_inv s zs' d man.
Proof.
  intros Hinv Hsub Hsz. constructor; try apply Hinv; try done.
  intros k e He Hu.
  destruct (inv_fresh_rc Hinv k e He Hu) as (H1 & H2 & H3 & H4).
  split; [done|]. split; [done|]. split; [|done].
  intros Hlt. by apply Hsub, H3.
Qed.

Lemma store_inv_self (s : bool) (zs : gset addrkey) (d : Z)
  (man : btc_addrman) (a : btc_netaddr) :
  store_inv s zs d man → netaddr_ok a → store_inv s zs d (set_man_addr a man).
Proof. intros Hinv Ha. constructor; try apply Hinv; done. Qed.

(** An operation other than [import] keeps the invariants as they
    are. *)
Lemma run_op_local_inv `{Collab} (s : bool) (zs : gset addrkey)
  (man man' : btc_addrman) (o : op) :
  store_inv s zs 0 man → is_import o = false → op_ok o →
  run_op man o = Some man' → store_inv s zs 0 man'.
Proof.
  intros Hinv Hloc Hok Hrun. destruct o; simpl in *; try done.
  - destruct (btc_addrman_add man now u a s0) as [[m r]|] eqn:E; [|done].
    injection Hrun as <-. destruct Hok as (? & ? & ?).
    by apply (btc_addrman_add_inv s zs man now u a s0 m r).
  - destruct (btc_addrman_remove man a) as [[m r]|] eqn:E; [|done].
    injection Hrun as <-. by apply (btc_addrman_remove_inv s zs man a m r).
  - injection Hrun as <-. destruct Hok as [? ?].
    by apply btc_addrman_mark_attempt_inv.
  - injection Hrun as <-. destruct Hok as [? ?].
    by apply btc_addrman_mark_success_inv.
  - destruct Hok as (? & ? & ?).
    by apply (btc_addrman_mark_ack_inv s zs man now a svc).
  - injection Hrun as <-.
    apply (store_inv_mono s ∅ zs); [|set_solver|apply Hinv].
    by apply (btc_addrman_reset_inv s s zs 0).
  - injection Hrun as <-. unfold btc_addrman_ban.
    destruct (_ !! _); [done|]. by apply (store_inv_ext s zs 0 man).
  - injection Hrun as <-. by apply (store_inv_ext s zs 0 man).
  - injection Hrun as <-. unfold btc_addrman_is_banned.
    destruct (_ !! _); [|done]. case_decide; [|done].
    by apply (store_inv_ext s zs 0 man).
  - injection Hrun as <-. by apply (store_inv_ext s zs 0 man).
  - injection Hrun as <-. unfold btc_addrman_add_local.
    destruct (negb _); [done|]. case_decide; [done|].
    by apply (store_inv_ext s zs 0 man).
  - injection Hrun as <-. unfold btc_addrman_mark_local.
    destruct (_ !! _); [|done]. by apply (store_inv_ext s zs 0 man).
  - injection Hrun as <-. unfold btc_addrman_get_local.
    destruct s0; [|done]. destruct (foldl _ _ _).2; [|done].
    by apply (store_inv_ext s zs 0 man).
  - injection Hrun as <-. unfold btc_addrman_set_external.
    case_decide; [done|]. by apply store_inv_self.
  - injection Hrun as <-. by apply (store_inv_ext s zs 0 man).
Qed.

Lemma run_op_inv `{Collab} (man man' : btc_addrman) (o : op) :
  (∃ zs, store_inv false zs 0 man) → op_ok o →
  run_op man o = Some man' → ∃ zs, store_inv false zs 0 man'.
Proof.
  intros [zs Hinv] Hok Hrun. destruct (is_import o) eqn:Himp.
  - destruct o; try done. simpl in *. injection Hrun as <-.
    destruct Hok as (? & ? & ? & ?).
    by apply (btc_addrman_import_inv false zs 0).
  - exists zs. by apply (run_op_local_inv false zs man man' o).
Qed.

(** Every reachable store has the invariants, short of the bound on
    the reference counts that a loaded image can exceed. *)
Lemma reachable_inv `{Collab} (man : btc_addrman) :
  reachable man → ∃ zs, store_inv false zs 0 man.
Proof.
  induction 1 as [magic nport now rk Hm Hp Hnow Hrk|man o man' _ IH _ Hok Hrun].
  - exists ∅. by apply btc_addrman_create_inv.
  - by apply (run_op_inv man man' o).
Qed.

(** Without [import], every reachable store has the invariants of the
    data model. *)
Lemma reachable_local_wf `{Collab} (man : btc_addrman) :
  reachable_local man → wf man.
Proof.
  induction 1 as [magic nport now rk Hm Hp Hnow Hrk|man o man' _ IH Hloc Hok Hrun].
  - by apply btc_addrman_create_inv.
  - by apply (run_op_local_inv true ∅ man man' o).
Qed.

(** ** Accounting (C1) *)

(** C1: in every store reached from a new manager by the public
    operations (add with its evictions, remove, the mark operations,
    reset, import and the others), [total_fresh + total_used] is the
    number of entries of the global index. *)
Theorem accounting `{Collab} (man : btc_addrman) :
  reachable man →
  man_total_fresh man + man_total_used man
  = Z.of_nat (size (man_map man)).
Proof.
  intros [zs Hinv]%reachable_inv.
  rewrite (inv_total_fresh Hinv), (inv_total_used Hinv), Z.add_0_r.
  apply count_used_total.
Qed.

Lemma accounting_witness :
  man_total_fresh man_one + man_total_used man_one
  = Z.of_nat (size (man_map man_one)).
Proof. apply (@accounting toy man_one). apply reachable_man_one. Defined.

(** ** The size of the image (C10) *)

Lemma length_le_bytes (n : nat) (z : Z) : length (le_bytes n z) = n.
Proof. revert z. induction n as [|n IH]; intros z; simpl; [done|]. by rewrite IH. Qed.

Lemma length_size_write (n : Z) :
  Z.of_nat (length (btc_size_write n)) = btc_size_size n.
Proof.
  unfold btc_size_write, btc_size_size.
  repeat case_decide; simpl; rewrite ?length_le_bytes; lia.
Qed.

Lemma length_addrkey_write (a : btc_netaddr) :
  length (raw a) = 16%nat →
  Z.of_nat (length (btc_addrkey_write a)) = BTC_ADDRKEY_SIZE.
Proof.
  intros Hr. unfold btc_addrkey_write, btc_raw_write, btc_uint16_write.
  rewrite length_app, length_take, length_le_bytes, Hr. by_eval.
Qed.

Lemma length_addrent_write (e : btc_addrent) :
  entry_ok e → Z.of_nat (length (btc_addrent_write e)) = BTC_ADDRENT_SIZE.
Proof.
  intros ((_ & _ & Ha & _) & (_ & _ & Hs & _) & _).
  unfold btc_addrent_write. rewrite !length_app, !Nat2Z.inj_add.
  rewrite !length_addrkey_write by done.
  unfold btc_uint64_write, btc_int64_write, btc_int32_write.
  rewrite !length_le_bytes. by_eval.
Qed.

Lemma length_concat_const {A} (f : A → list Z) (c : Z) (l : list A) :
  (∀ x, x ∈ l → Z.of_nat (length (f x)) = c) →
  Z.of_nat (length (concat (f <$> l))) = c * Z.of_nat (length l).
Proof.
  induction l as [|x l IH]; intros Hl; [simpl; lia|].
  rewrite fmap_cons. cbn [concat].
  rewrite length_app, Nat2Z.inj_add, (Hl x) by left.
  rewrite IH by (intros y Hy; apply Hl; by right).
  rewrite length_cons. lia.
Qed.

(** What the buckets add to the size computed in [size_t]: nothing
    wraps while the total stays below 2^64. *)
Lemma bucket_sizes {A} (c : A → Z) (l : list A) (acc : Z) :
  (∀ x, x ∈ l → 0 <= c x <= MAX_ENTRIES) →
  0 <= acc → acc + Z.of_nat (length l) * 1153 < 2 ^ 64 →
  foldl (λ sz x, addsz (addsz sz (btc_size_size (c x)))
                   (mulsz (c x) BTC_ADDRKEY_SIZE)) acc l
  = acc + buckets_size c l ∧
  0 <= buckets_size c l <= Z.of_nat (length l) * 1153.
Proof.
  revert acc. induction l as [|x l IH]; intros acc Hl Hacc Hb.
  - simpl. lia.
  - cbn [foldl]. change (buckets_size c (x :: l))
      with (btc_size_size (c x) + c x * BTC_ADDRKEY_SIZE + buckets_size c l).
    destruct (Hl x) as [Hc1 Hc2]; [left|].
    assert (Hs : btc_size_size (c x) = 1).
    { unfold btc_size_size, MAX_ENTRIES in *. rewrite decide_True; lia. }
    assert (Hk : BTC_ADDRKEY_SIZE = 18) by done.
    unfold MAX_ENTRIES in Hc2.
    rewrite length_cons, Nat2Z.inj_succ in Hb |- *.
    rewrite Hs, Hk. unfold addsz, mulsz.
    rewrite (wrapsz_small (c x * 18)) by lia.
    rewrite (wrapsz_small (acc + 1)) by lia.
    rewrite (wrapsz_small (acc + 1 + c x * 18)) by lia.
    destruct (IH (acc + 1 + c x * 18)) as [IH1 IH2];
      [intros y Hy; apply Hl; by right|lia|lia|].
    unfold addsz, mulsz in IH1. rewrite Hk in IH1. rewrite IH1. lia.
Qed.

Lemma bucket_write_length {A} (c : A → Z) (w : A → list Z) (l : list A) :
  (∀ x, x ∈ l → Z.of_nat (length (w x)) = btc_size_size (c x)
                                          + c x * BTC_ADDRKEY_SIZE) →
  Z.of_nat (length (concat (w <$> l))) = buckets_size c l.
Proof.
  induction l as [|x l IH]; intros Hl; [done|].
  rewrite fmap_cons. cbn [concat].
  change (buckets_size c (x :: l))
    with (btc_size_size (c x) + c x * BTC_ADDRKEY_SIZE + buckets_size c l).
  rewrite length_app, Nat2Z.inj_add, (Hl x) by left.
  rewrite IH by (intros y Hy; apply Hl; by right). lia.
Qed.

(** C10, as the code has it: for every reachable store the number of
    bytes that [btc_addrman_export] writes is [btc_addrman_size], which
    is 40 bytes of header, the compact size of each section and 72
    bytes for each entry of the global index, 18 for each key of a
    bucket. *)
Theorem export_size `{Collab} (man : btc_addrman) :
  reachable man →
  btc_addrman_export man = btc_addrman_size man ∧
  btc_addrman_size man = image_size 72 man.
Proof.
  intros [zs Hinv]%reachable_inv.
  destruct (store_bound _ _ _ _ Hinv) as [Hbf Hbu].
  pose proof (count_used_total (man_map man)) as Htot.
  pose proof (count_used_nonneg false (man_map man)).
  pose proof (count_used_nonneg true (man_map man)).
  unfold btc_addrman_export, btc_addrman_size, btc_addrman_write, image_size.
  rewrite !take_ge by (rewrite ?(inv_fresh_len Hinv), ?(inv_used_len Hinv);
                        done).
  remember (Z.of_nat (size (man_map man))) as n eqn:Hn in *.
  assert (Hss : 1 <= btc_size_size n <= 9).
  { unfold btc_size_size. repeat case_decide; lia. }
  set (size2 := addsz (addsz (addsz (addsz (addsz 0 4) 4) 32)
                         (btc_size_size n)) (mulsz n BTC_ADDRENT_SIZE)).
  assert (Hsize2 : size2 = 40 + btc_size_size n + 72 * n).
  { unfold size2, addsz, mulsz, BTC_ADDRENT_SIZE, BTC_ADDRKEY_SIZE.
    change (wrapsz (wrapsz (wrapsz (0 + 4) + 4) + 32)) with 40.
    assert (Hn1 : 0 <= n * (2 * 18 + 36) < 2 ^ 64) by lia.
    assert (Hn2 : 0 <= 40 + btc_size_size n < 2 ^ 64) by lia.
    rewrite (wrapsz_small _ Hn1), (wrapsz_small _ Hn2).
    rewrite wrapsz_small; lia. }
  destruct (bucket_sizes (λ b : gset addrkey, Z.of_nat (size b))
              (man_fresh man) size2) as [HF1 HF2].
  { intros b [i Hi]%list_elem_of_lookup.
    pose proof (inv_fresh_bound Hinv i b Hi). lia. }
  { lia. }
  { rewrite (inv_fresh_len Hinv). unfold MAX_FRESH_BUCKETS. lia. }
  rewrite (inv_fresh_len Hinv) in HF2. unfold MAX_FRESH_BUCKETS in HF2.
  rewrite HF1.
  destruct (bucket_sizes (λ l : list addrkey, Z.of_nat (length l))
              (man_used man)
              (size2 + buckets_size (λ b : gset addrkey, Z.of_nat (size b))
                         (man_fresh man)))
    as [HU1 HU2].
  { intros l [i Hi]%list_elem_of_lookup.
    pose proof (inv_used_bound Hinv i l Hi). lia. }
  { lia. }
  { rewrite (inv_used_len Hinv). unfold MAX_USED_BUCKETS. lia. }
  rewrite HU1, Hsize2. split; [|lia].
  rewrite !length_app, !Nat2Z.inj_add.
  unfold btc_uint32_write, btc_raw_write.
  rewrite !length_le_bytes, length_take, (inv_key_len Hinv).
  rewrite length_size_write.
  rewrite (length_concat_const _ BTC_ADDRENT_SIZE).
  2:{ intros [k e] Hk%elem_of_map_to_list. simpl.
      apply length_addrent_write. by apply (inv_entry Hinv k e). }
  rewrite (bucket_write_length (λ b : gset addrkey, Z.of_nat (size b))).
  2:{ intros b [i Hi]%list_elem_of_lookup.
      rewrite length_app, Nat2Z.inj_add, length_size_write.
      rewrite (length_concat_const _ BTC_ADDRKEY_SIZE).
      - unfold size, set_size. simpl. lia.
      - intros k Hk%elem_of_elements. unfold write_slot.
        destruct (inv_fresh_sub Hinv i b k Hi Hk) as (e & He & _). rewrite He.
        apply length_addrkey_write.
        destruct (inv_entry Hinv k e He) as [_ ((_ & _ & Hr & _) & _)].
        done. }
  rewrite (bucket_write_length (λ l : list addrkey, Z.of_nat (length l))).
  2:{ intros l [i Hi]%list_elem_of_lookup.
      rewrite length_app, Nat2Z.inj_add, length_size_write.
      rewrite (length_concat_const _ BTC_ADDRKEY_SIZE); [lia|].
      intros k Hk. unfold write_slot.
      destruct (inv_used_sub Hinv k) as (e & He & _);
        [by apply used_bucket_sub with i l|]. rewrite He.
      apply length_addrkey_write.
      destruct (inv_entry Hinv k e He) as [_ ((_ & _ & Hr & _) & _)]. done. }
  rewrite length_map_to_list, <- Hn.
  unfold BTC_ADDRENT_SIZE, BTC_ADDRKEY_SIZE. lia.
Qed.

Lemma export_size_witness :
  btc_addrman_export man_one = btc_addrman_size man_one ∧
  btc_addrman_size man_one = image_size 72 man_one.
Proof. apply (@export_size toy man_one). apply reachable_man_one. Defined.

(** C10 as claimed fails in the store of scenario S1: with 54 bytes for
    its one entry the image would have 1393 bytes; [export] writes
    1411. *)
Lemma export_size_54_fails :
  @reachable toy man1 ∧ image_size 54 man1 = 1393 ∧
  btc_addrman_export man1 = 1411 ∧ btc_addrman_size man1 = 1411.
Proof.
  split; [apply reachable_man1|]. split; [by vm_compute|].
  split; by vm_compute.
Qed.

(** ** Promotion (C6) *)

Lemma reachable_local_man1 : @reachable_local toy man1.
Proof.
  apply (@reach_step toy _ man0 (OpAdd now0 0 addr1 None)).
  - apply reach_create; by_eval.
  - done.
  - by_eval.
  - by vm_compute.
Qed.

(** X31: in a store that has the invariants of the data model, for a
    known fresh entry whose used bucket (that of its address with the
    services merged) has fewer than 64 entries,
    [btc_addrman_mark_ack] returns, and in the store it leaves the
    entry has the bitwise OR of its services and the given ones,
    [last_success] and [last_attempt] equal to [now], no attempts, the
    [used] flag, and is the last of its used bucket; [total_fresh] is
    one less and [total_used] one more. *)
Theorem mark_ack_promotes `{Collab} (man : btc_addrman) (now : Z)
  (a : btc_netaddr) (svc : Z) (entry : btc_addrent) (bucket : list addrkey) :
  wf man →
  man_map man !! key_of a = Some entry →
  used entry = false →
  let merged := set_addr (set_services (Z.lor (services (addr entry)) svc)
                            (addr entry)) entry in
  man_used man !! used_bucket man merged = Some bucket →
  Z.of_nat (length bucket) < MAX_ENTRIES →
  ∃ man' entry',
    btc_addrman_mark_ack man now a svc = Some man' ∧
    man_map man' !! key_of a = Some entry' ∧
    services (addr entry') = Z.lor (services (addr entry)) svc ∧
    last_success entry' = now ∧ last_attempt entry' = now ∧
    attempts entry' = 0 ∧ used entry' = true ∧
    man_used man' !! used_bucket man merged = Some (bucket ++ [key_of a]) ∧
    man_total_fresh man' = man_total_fresh man - 1 ∧
    man_total_used man' = man_total_used man + 1.
Proof.
  intros Hinv He Hu merged Hib Hroom. unfold btc_addrman_mark_ack. rewrite He.
  destruct (inv_entry Hinv _ _ He) as [Hkey Hok].
  destruct (inv_fresh_rc Hinv _ _ He Hu) as (Hrc1 & Hrc2 & Hrc3 & _).
  assert (Hrc : ref_count entry = fresh_refs (key_of a) (man_fresh man)).
  { destruct (decide (fresh_refs (key_of a) (man_fresh man) < ref_count entry))
      as [Hlt|]; [|lia]. apply Hrc3 in Hlt. set_solver. }
  cbv zeta.
  set (entry1 := set_attempt 0 now (set_success now (set_addr _ entry))).
  assert (Hk1 : key_of (addr entry1) = key_of a) by done.
  rewrite Hk1. set (k := key_of a) in *.
  change (used entry1) with (used entry).
  change (ref_count entry1) with (ref_count entry).
  rewrite Hu. rewrite decide_True by lia. simpl man_fresh.
  destruct (fresh_del_all_spec k (man_fresh man) 0 (ref_count entry) None)
    as (old & -> & Hor).
  destruct Hor as [[Hz _]|(j & bo & -> & Hio & Hkbo)]; [lia|].
  rewrite decide_True by lia.
  set (entry2 := set_ref_count _ entry1).
  set (man2 := set_total_fresh _ _).
  assert (Hub : used_bucket man2 entry2 = used_bucket man merged) by done.
  rewrite Hub. change (man_used man2) with (man_used man). rewrite Hib.
  simpl. rewrite decide_True by done.
  pose proof (used_pos _ _ _ _ _ _ _ Hinv He Hu) as Hpos.
  destruct (store_bound _ _ _ _ Hinv) as [_ Hbu].
  pose proof (count_used_nonneg true (man_map man)) as Hnn.
  eexists _, _. split; [done|]. simpl.
  split; [apply lookup_insert_eq|].
  split; [done|]. split; [done|]. split; [done|]. split; [done|].
  split; [done|].
  split.
  { rewrite list_lookup_alter_eq, Hib. done. }
  rewrite (inv_total_fresh Hinv), (inv_total_used Hinv).
  split; apply wrapsz_small; lia.
Qed.

Lemma mark_ack_promotes_witness :
  ∃ man' entry',
    @btc_addrman_mark_ack toy man1 now0 addr1 9 = Some man' ∧
    man_map man' !! key_of addr1 = Some entry' ∧
    services (addr entry') = Z.lor 1 9 ∧
    last_success entry' = now0 ∧ last_attempt entry' = now0 ∧
    attempts entry' = 0 ∧ used entry' = true ∧
    man_used man' !! 0%nat = Some ([] ++ [key_of addr1]) ∧
    man_total_fresh man' = man_total_fresh man1 - 1 ∧
    man_total_used man' = man_total_used man1 + 1.
Proof.
  apply (@mark_ack_promotes toy man1 now0 addr1 9
           (set_src (set_time now0 (man_addr man0))
              (set_addr addr1 (set_ref_count 1 btc_addrent_init))) []).
  - apply (@reachable_local_wf toy), reachable_local_man1.
  - by vm_compute.
  - reflexivity.
  - by vm_compute.
  - by vm_compute.
Defined.

Lemma reachable_man_twice : @reachable toy man_twice.
Proof.
  apply (reach_step _ man0 (OpImport now0 key0 key0 image_twice));
    [apply reachable_man0|done| |done].
  simpl. split; [by_eval|]. split; [done|]. split; [done|].
  apply (bool_decide_unpack _). by vm_compute.
Qed.

(** C6 fails in the store that [btc_addrman_import] leaves when it
    accepts the image that lists one address twice in fresh bucket 0:
    the entry is known and not used and its used bucket is empty, yet
    [btc_addrman_mark_ack] takes the key out of the one bucket that
    holds it, is left with a reference count of 1, and stops at its
    check that the count is zero. *)
Theorem mark_ack_aborts_after_import :
  @reachable toy man_twice ∧
  (∃ e, man_map man_twice !! key_of addr2 = Some e ∧ used e = false ∧
        man_used man_twice !!
          @used_bucket toy man_twice
            (set_addr (set_services (Z.lor (services (addr e)) 1) (addr e)) e)
        = Some []) ∧
  @btc_addrman_mark_ack toy man_twice now0 addr2 1 = None.
Proof.
  split; [apply reachable_man_twice|]. split; [|by vm_compute].
  eexists. split; [by vm_compute|]. split; by vm_compute.
Qed.

(** ** Loading an image that lists a key too often (C3) *)

(** C3 fails: [btc_addrman_import] accepts the image that lists one
    address twice in fresh bucket 0, and leaves its entry with a
    reference count of 2 in one bucket, after which
    [btc_addrman_remove] and [btc_addrman_mark_ack] stop at their
    checks of the reference count; it also accepts the image that lists
    one address in nine fresh buckets, and leaves its entry with a
    reference count of 9. *)
Theorem import_accepts_bad_refs :
  ((@btc_addrman_import toy man0 now0 key0 key0 image_twice).2 = true ∧
   (∃ e, man_map man_twice !! key_of addr2 = Some e ∧ used e = false ∧
         ref_count e = 2 ∧
         fresh_refs (key_of addr2) (man_fresh man_twice) = 1) ∧
   btc_addrman_remove man_twice addr2 = None ∧
   @btc_addrman_mark_ack toy man_twice now0 addr2 1 = None) ∧
  ((@btc_addrman_import toy man0 now0 key0 key0 image_nine).2 = true ∧
   (∃ e, man_map man_nine !! key_of addr2 = Some e ∧ used e = false ∧
         ref_count e = 9 ∧
         fresh_refs (key_of addr2) (man_fresh man_nine) = 9)).
Proof.
  split; (split; [by vm_compute|]).
  - split; [|split; by vm_compute].
    eexists. split; [by vm_compute|]. by vm_compute.
  - eexists. split; [by vm_compute|]. by vm_compute.
Qed.

(** ** Reading what was written (C2) *)

Lemma le_value_le_bytes (n : nat) (z : Z) :
  le_value (le_bytes n z) = z mod 256 ^ Z.of_nat n.
Proof.
  revert z. induction n as [|n IH]; intros z.
  - simpl. by rewrite Z.mod_1_r.
  - cbn [le_bytes le_value]. rewrite IH.
    rewrite Nat2Z.inj_succ, Z.pow_succ_r by lia.
    rewrite (Z.rem_mul_r z 256 (256 ^ Z.of_nat n)) by lia. lia.
Qed.

Lemma btc_raw_read_app (n : nat) (bs rest : list Z) :
  length bs = n → btc_raw_read n (bs ++ rest) = Some (bs, rest).
Proof.
  intros Hn. unfold btc_raw_read.
  rewrite decide_True by (rewrite length_app; lia).
  rewrite take_app_length', drop_app_length' by done. done.
Qed.

Lemma btc_uint_read_write (n : nat) (z : Z) (rest : list Z) :
  btc_uint_read n (le_bytes n z ++ rest) = Some (z mod 256 ^ Z.of_nat n, rest).
Proof.
  unfold btc_uint_read. rewrite btc_raw_read_app by apply length_le_bytes.
  by rewrite le_value_le_bytes.
Qed.

Lemma btc_size_read_write (n : Z) (rest : list Z) :
  0 <= n < 2 ^ 64 →
  btc_size_read (btc_size_write n ++ rest) = Some (n, rest).
Proof.
  intros Hn. unfold btc_size_write.
  repeat case_decide; cbn [app btc_size_read].
  - by rewrite !decide_False by lia.
  - rewrite decide_True by done. rewrite btc_uint_read_write.
    change (256 ^ Z.of_nat 2) with 65536. rewrite Z.mod_small by lia.
    by rewrite decide_False by lia.
  - rewrite decide_False, decide_True by done. rewrite btc_uint_read_write.
    change (256 ^ Z.of_nat 4) with 4294967296. rewrite Z.mod_small by lia.
    by rewrite decide_False by lia.
  - rewrite !decide_False, decide_True by done. rewrite btc_uint_read_write.
    change (256 ^ Z.of_nat 8) with (2 ^ 64). rewrite Z.mod_small by lia.
    by rewrite decide_False by lia.
Qed.

Lemma btc_addrkey_read_write (a : btc_netaddr) (rest : list Z) :
  length (raw a) = 16%nat → is_uint16 (port a) →
  btc_addrkey_read (btc_addrkey_write a ++ rest)
  = Some ({| time := 0; services := 0; raw := raw a; port := port a |}, rest).
Proof.
  intros Hr Hp. unfold btc_addrkey_read, btc_addrkey_write, btc_raw_write.
  rewrite take_ge by lia. rewrite <- app_assoc.
  rewrite btc_raw_read_app by done.
  unfold btc_uint16_read, btc_uint16_write. rewrite btc_uint_read_write.
  change (256 ^ Z.of_nat 2) with 65536. unfold is_uint16 in Hp.
  change (2 ^ 16) with 65536 in Hp. by rewrite Z.mod_small by lia.
Qed.

Lemma wrap64_mod (z : Z) : is_int64 z → wrap64 (z mod 2 ^ 64) = z.
Proof.
  unfold is_int64, wrap64. intros Hz.
  destruct (decide (0 <= z)).
  - rewrite (Z.mod_small z) by lia. rewrite Z.mod_small; lia.
  - replace (z mod 2 ^ 64) with (z + 2 ^ 64).
    2:{ apply Z.mod_unique with (-1); lia. }
    replace (z + 2 ^ 64 + 2 ^ 63) with (z + 2 ^ 63 + 1 * 2 ^ 64) by lia.
    rewrite Z.mod_add by lia. rewrite Z.mod_small; lia.
Qed.

Lemma wrap32_mod (z : Z) : is_int32 z → wrap32 (z mod 2 ^ 32) = z.
Proof.
  unfold is_int32, wrap32. intros Hz.
  destruct (decide (0 <= z)).
  - rewrite (Z.mod_small z) by lia. rewrite Z.mod_small; lia.
  - replace (z mod 2 ^ 32) with (z + 2 ^ 32).
    2:{ apply Z.mod_unique with (-1); lia. }
    replace (z + 2 ^ 32 + 2 ^ 31) with (z + 2 ^ 31 + 1 * 2 ^ 32) by lia.
    rewrite Z.mod_add by lia. rewrite Z.mod_small; lia.
Qed.

Lemma btc_addrent_read_write `{Collab} (now : Z) (e : btc_addrent)
  (rest : list Z) :
  entry_ok e →
  btc_addrent_read now (btc_addrent_write e ++ rest)
  = Some (loaded now e, rest).
Proof.
  intros ((Ht & Hs & Hr & Hp) & (_ & _ & Hsr & Hsp) & Hat & Hls & Hla).
  unfold btc_addrent_read, btc_addrent_write.
  rewrite <- !app_assoc.
  rewrite btc_addrkey_read_write by done. cbn [mbind option_bind].
  unfold btc_uint64_read, btc_uint64_write. rewrite btc_uint_read_write.
  cbn [mbind option_bind].
  unfold btc_int64_read, btc_int64_write. rewrite btc_uint_read_write.
  cbn [mbind option_bind].
  rewrite btc_addrkey_read_write by done. cbn [mbind option_bind].
  unfold btc_int32_read, btc_int32_write. rewrite btc_uint_read_write.
  cbn [mbind option_bind].
  repeat (rewrite btc_uint_read_write; cbn [mbind option_bind]).
  change (256 ^ Z.of_nat 8) with (2 ^ 64).
  change (256 ^ Z.of_nat 4) with (2 ^ 32).
  rewrite !wrap64_mod, wrap32_mod by done.
  unfold is_uint64 in Hs. rewrite Z.mod_small by done.
  unfold loaded, reloaded. by destruct e as [[] [] ? ? ? ? ?].
Qed.

Lemma read_entries_export `{Collab} (now : Z) (l : list (addrkey * btc_addrent))
  (m : gmap addrkey btc_addrent) (rest : list Z) :
  NoDup l.*1 →
  (∀ k e, (k, e) ∈ l → key_of (addr e) = k ∧ entry_ok e ∧ m !! k = None) →
  read_entries (length l) now m
    (concat ((λ kv, btc_addrent_write kv.2) <$> l) ++ rest)
  = Some (list_to_map (prod_map id (loaded now) <$> l) ∪ m, rest).
Proof.
  revert m. induction l as [|[k e] l IH]; intros m Hnd Hl.
  - simpl. by rewrite (left_id_L ∅ (∪)).
  - apply NoDup_cons in Hnd as [Hk Hnd].
    destruct (Hl k e) as (Hkey & Hok & Hm); [left|].
    rewrite fmap_cons. cbn [length read_entries concat snd].
    rewrite <- app_assoc, btc_addrent_read_write by done.
    cbn [mbind option_bind].
    change (key_of (addr (loaded now e))) with (key_of (addr e)).
    rewrite Hkey, decide_False by (rewrite Hm; by intros [? ?]).
    rewrite IH; [|done|].
    + f_equal. f_equal. rewrite fmap_cons. cbn [prod_map fst snd id].
      rewrite list_to_map_cons, <- insert_union_l.
      symmetry. apply insert_union_r.
      apply not_elem_of_list_to_map_1.
      rewrite <- list_fmap_compose.
      by replace (fst ∘ prod_map id (loaded now)) with (@fst addrkey btc_addrent).
    + intros k' e' Hin. destruct (Hl k' e') as (? & ? & ?); [by right|].
      split; [done|]. split; [done|]. rewrite lookup_insert_ne; [done|].
      intros <-. apply Hk. apply list_elem_of_fmap. by exists (k, e').
Qed.

Lemma alter_as_insert {A} (f : A → A) (i : nat) (l : list A) (x : A) :
  l !! i = Some x → alter f i l = <[i := f x]> l.
Proof.
  intros Hi. apply list_eq. intros j. destruct (decide (i = j)) as [<-|Hne].
  - rewrite list_lookup_alter_eq, Hi.
    rewrite list_lookup_insert_eq by (by apply lookup_lt_Some with x). done.
  - by rewrite list_lookup_alter_ne, list_lookup_insert_ne.
Qed.

(** One key of a fresh bucket. *)
Lemma read_fresh_key_export `{Collab} (now : Z)
  (M : gmap addrkey btc_addrent) (k : addrkey) (e : btc_addrent) (i n : nat)
  (st : btc_addrman) (bi : gset addrkey) (xs : list Z) :
  M !! k = Some e → key_of (addr e) = k → entry_ok e →
  man_fresh st !! i = Some bi → k ∉ bi → loading now M st →
  ∃ st1,
    read_fresh_keys (S n) i st (write_slot M k ++ xs)
    = read_fresh_keys n i st1 xs ∧
    man_fresh st1 = <[i := {[k]} ∪ bi]> (man_fresh st) ∧
    loading now M st1 ∧
    man_used st1 = man_used st ∧ man_key st1 = man_key st.
Proof.
  intros HM Hkey ((_ & _ & Hr & Hp) & _) Hbi Hk (Hmap & Htf & Htu & Hsz).
  unfold write_slot. rewrite HM. cbn [read_fresh_keys].
  rewrite btc_addrkey_read_write by done. cbn [mbind option_bind].
  change (key_of {| time := 0; services := 0; raw := raw (addr e);
                    port := port (addr e) |}) with (key_of (addr e)).
  rewrite Hkey. rewrite (Hmap k), HM. cbn [fmap option_fmap option_map mbind option_bind].
  set (u := bool_decide (k ∈ concat (man_used st))).
  set (rc := fresh_refs k (man_fresh st)).
  set (entry := set_used u (set_ref_count rc (reloaded now e))).
  change (ref_count entry) with rc.
  set (st0 := if decide (rc = 0) then _ else st).
  assert (Hst0 : man_map st0 = man_map st ∧ man_fresh st0 = man_fresh st ∧
                 man_used st0 = man_used st ∧ man_key st0 = man_key st ∧
                 man_total_used st0 = man_total_used st ∧
                 man_total_fresh st0 = if decide (rc = 0)
                                       then wrapsz (man_total_fresh st + 1)
                                       else man_total_fresh st).
  { unfold st0. by case_decide. }
  destruct Hst0 as (E1 & E2 & E3 & E4 & E5 & E6).
  change (key_of (addr (set_ref_count (rc + 1) entry))) with (key_of (addr e)).
  rewrite Hkey, E1, E2.
  eexists. split; [reflexivity|].
  split; [by apply alter_as_insert|]. split; [|done].
  unfold loading.
  cbn [man_map man_fresh man_used man_total_fresh man_total_used
       set_fresh set_map].
  rewrite E3, E5, E6.
  pose proof (fresh_refs_nonneg k (man_fresh st)) as Hrc0. fold rc in Hrc0.
  assert (Hlk : man_map st !! k = Some entry) by (by rewrite (Hmap k), HM).
  split; [|split; [|split]].
  - intros k'. destruct (decide (k' = k)) as [->|Hne].
    + rewrite lookup_insert_eq, HM. cbn. f_equal.
      rewrite (fresh_refs_alter k _ i _ bi Hbi).
      rewrite decide_False by done. rewrite decide_True by set_solver.
      fold rc. fold u. replace (rc - 0 + 1) with (rc + 1) by lia. done.
    + rewrite lookup_insert_ne by done. rewrite (Hmap k').
      rewrite (fresh_refs_alter k' _ i _ bi Hbi).
      destruct (decide (k' ∈ bi)).
      * rewrite decide_True by set_solver.
        by replace (fresh_refs k' (man_fresh st) - 1 + 1)
          with (fresh_refs k' (man_fresh st)) by lia.
      * rewrite decide_False by set_solver.
        by replace (fresh_refs k' (man_fresh st) - 0 + 0)
          with (fresh_refs k' (man_fresh st)) by lia.
  - unfold count_ref in *. rewrite count_if_insert.
    rewrite (count_if_delete _ k entry _ Hlk) in Htf.
    change (ref_count (set_ref_count (rc + 1) entry)) with (rc + 1).
    change (ref_count entry) with rc in Htf.
    rewrite (decide_True (P := rc + 1 ≠ 0)) by lia.
    pose proof (count_if_le_size (λ e, ref_count e ≠ 0)
                  (delete k (man_map st))) as Hle.
    rewrite map_size_delete_Some in Hle by done.
    assert (0 < size (man_map st))%nat.
    { destruct (decide (size (man_map st) = 0%nat)) as [Hz|]; [|lia].
      apply map_size_empty_inv in Hz. rewrite Hz in Hlk. done. }
    pose proof (count_if_nonneg (λ e, ref_count e ≠ 0)
                  (delete k (man_map st))).
    destruct (decide (rc = 0)).
    + rewrite decide_False in Htf by lia. rewrite wrapsz_small; lia.
    + rewrite decide_True in Htf by done. lia.
  - unfold count_used in *. rewrite count_if_insert.
    rewrite (count_if_delete _ k entry _ Hlk) in Htu.
    change (used (set_ref_count (rc + 1) entry)) with (used entry). done.
  - by rewrite map_size_insert_Some.
Qed.

Lemma read_fresh_keys_export `{Collab} (now : Z)
  (M : gmap addrkey btc_addrent) (ks : list addrkey) (i : nat)
  (st : btc_addrman) (bi : gset addrkey) (rest : list Z) :
  (∀ k e, M !! k = Some e → key_of (addr e) = k ∧ entry_ok e) →
  (∀ k, k ∈ ks → is_Some (M !! k)) →
  NoDup ks → (∀ k, k ∈ ks → k ∉ bi) →
  man_fresh st !! i = Some bi → loading now M st →
  ∃ st',
    read_fresh_keys (length ks) i st (concat (write_slot M <$> ks) ++ rest)
    = Some (st', rest) ∧
    man_fresh st' = <[i := list_to_set ks ∪ bi]> (man_fresh st) ∧
    loading now M st' ∧
    man_used st' = man_used st ∧ man_key st' = man_key st.
Proof.
  intros HM. revert st bi.
  induction ks as [|k ks IH]; intros st bi Hks Hnd Hdis Hbi Hld.
  - exists st. split; [done|]. split; [|done].
    rewrite list_to_set_nil, (left_id_L ∅ (∪)). by rewrite list_insert_id.
  - apply NoDup_cons in Hnd as [Hk Hnd].
    destruct (Hks k) as [e He]; [left|]. destruct (HM k e He) as [Hkey Hok].
    rewrite fmap_cons. cbn [concat length]. rewrite <- app_assoc.
    destruct (read_fresh_key_export now M k e i (length ks) st bi
                (concat (write_slot M <$> ks) ++ rest) He Hkey Hok Hbi)
      as (st1 & -> & Hf1 & Hld1 & Hu1 & Hk1); [apply Hdis; left|done|].
    destruct (IH st1 ({[k]} ∪ bi)) as (st' & Hr & Hf & Hld' & Hu & Hk');
      [intros; apply Hks; by right|done| | |done|].
    { intros k' Hk'. pose proof (Hdis k' ltac:(by right)).
      assert (k' ≠ k) by (by intros ->). set_solver. }
    { rewrite Hf1. apply list_lookup_insert_eq. by apply lookup_lt_Some with bi. }
    exists st'. split; [done|]. split; [|by rewrite Hu, Hk', Hu1, Hk1].
    rewrite Hf, Hf1, list_insert_insert_eq. f_equal.
    rewrite list_to_set_cons. set_solver.
Qed.

Lemma read_fresh_bucket_export `{Collab} (now : Z)
  (M : gmap addrkey btc_addrent) (b : gset addrkey) (i : nat)
  (st : btc_addrman) (rest : list Z) :
  (∀ k e, M !! k = Some e → key_of (addr e) = k ∧ entry_ok e) →
  (∀ k, k ∈ b → is_Some (M !! k)) →
  Z.of_nat (size b) <= MAX_ENTRIES →
  man_fresh st !! i = Some ∅ → loading now M st →
  ∃ st',
    read_fresh_bucket
      (Some (st, (btc_size_write (Z.of_nat (size b)) ++
                  concat (write_slot M <$> elements b)) ++ rest)) i
    = Some (st', rest) ∧
    man_fresh st' = <[i := b]> (man_fresh st) ∧
    loading now M st' ∧
    man_used st' = man_used st ∧ man_key st' = man_key st.
Proof.
  intros HM Hb Hsz Hi Hld. unfold read_fresh_bucket.
  cbn [mbind option_bind]. rewrite <- app_assoc.
  unfold MAX_ENTRIES in Hsz.
  rewrite btc_size_read_write by lia. cbn [mbind option_bind].
  rewrite Nat2Z.id. change (size b) with (length (elements b)).
  destruct (read_fresh_keys_export now M (elements b) i st ∅ rest HM)
    as (st' & -> & Hf & Hld' & Hu & Hk); [|apply NoDup_elements| |done|done|].
  { intros k Hk. apply Hb. by apply elem_of_elements. }
  { set_solver. }
  rewrite (right_id_L ∅ (∪)), list_to_set_elements_L in Hf.
  cbn [mbind option_bind]. rewrite Hf.
  rewrite list_lookup_insert_eq by (by apply lookup_lt_Some with ∅).
  cbn [mbind option_bind].
  rewrite decide_False by (unfold MAX_ENTRIES; lia).
  exists st'. by rewrite Hf.
Qed.

Lemma read_fresh_export `{Collab} (now : Z) (M : gmap addrkey btc_addrent)
  (Fs : list (gset addrkey)) (i : nat) (st : btc_addrman) (rest : list Z) :
  (∀ k e, M !! k = Some e → key_of (addr e) = k ∧ entry_ok e) →
  (∀ b k, b ∈ Fs → k ∈ b → is_Some (M !! k)) →
  (∀ b, b ∈ Fs → Z.of_nat (size b) <= MAX_ENTRIES) →
  (∀ j, (j < length Fs)%nat → man_fresh st !! (i + j)%nat = Some ∅) →
  loading now M st →
  ∃ st',
    foldl read_fresh_bucket
      (Some (st, concat ((λ b : gset addrkey,
                            btc_size_write (Z.of_nat (size b)) ++
                            concat (write_slot M <$> elements b)) <$> Fs)
                 ++ rest))
      (seq i (length Fs))
    = Some (st', rest) ∧
    man_fresh st' = take i (man_fresh st) ++ Fs ++
                    drop (i + length Fs) (man_fresh st) ∧
    loading now M st' ∧
    man_used st' = man_used st ∧ man_key st' = man_key st.
Proof.
  intros HM. revert i st.
  induction Fs as [|b Fs IH]; intros i st HFs Hsz Hemp Hld.
  - exists st. split; [done|]. split; [|done].
    cbn [length app]. by rewrite Nat.add_0_r, take_drop.
  - rewrite fmap_cons. cbn [concat length seq foldl]. rewrite <- app_assoc.
    pose proof (Hemp 0%nat ltac:(simpl; lia)) as Hi. rewrite Nat.add_0_r in Hi.
    destruct (read_fresh_bucket_export now M b i st
                (concat ((λ b : gset addrkey,
                            btc_size_write (Z.of_nat (size b)) ++
                            concat (write_slot M <$> elements b)) <$> Fs)
                 ++ rest) HM)
      as (st1 & -> & Hf1 & Hld1 & Hu1 & Hk1);
      [intros k Hk; apply (HFs b); [left|done]|apply Hsz; left|done|done|].
    destruct (IH (S i) st1) as (st' & Hr & Hf & Hld' & Hu & Hk');
      [intros b' k ? ?; apply (HFs b'); [by right|done]
      |intros b' ?; apply Hsz; by right| |done|].
    { intros j Hj. rewrite Hf1, list_lookup_insert_ne by lia.
      replace (S i + j)%nat with (i + S j)%nat by lia.
      apply Hemp. simpl. lia. }
    exists st'. split; [done|]. split; [|by rewrite Hu, Hk', Hu1, Hk1].
    rewrite Hf, Hf1.
    assert (i < length (man_fresh st))%nat by (by apply lookup_lt_Some with ∅).
    rewrite (take_S_r _ _ b) by (by apply list_lookup_insert_eq).
    rewrite take_insert_ge by lia. rewrite drop_insert_lt by lia.
    rewrite <- app_assoc. cbn [app].
    by replace (S i + length Fs)%nat with (i + S (length Fs))%nat by lia.
Qed.

Lemma elem_of_concat_extend (used : list (list addrkey)) (i : nat)
  (li l : list addrkey) (x : addrkey) :
  used !! i = Some li →
  x ∈ concat (<[i := li ++ l]> used) ↔ x ∈ l ∨ x ∈ concat used.
Proof.
  intros Hi. rewrite <- (alter_as_insert (λ l0, l0 ++ l) i used li Hi).
  destruct (concat_alter (λ l0, l0 ++ l) i used li Hi)
    as (pre & post & -> & ->).
  rewrite !elem_of_app. tauto.
Qed.

(** One key of a used bucket. *)
Lemma read_used_key_export `{Collab} (now : Z)
  (M : gmap addrkey btc_addrent) (k : addrkey) (e : btc_addrent) (i n : nat)
  (st : btc_addrman) (li : list addrkey) (xs : list Z) :
  M !! k = Some e → key_of (addr e) = k → entry_ok e →
  man_used st !! i = Some li → k ∉ concat (man_used st) →
  fresh_refs k (man_fresh st) = 0 → loading now M st →
  ∃ st1,
    read_used_keys (S n) i st (write_slot M k ++ xs)
    = read_used_keys n i st1 xs ∧
    man_used st1 = <[i := li ++ [k]]> (man_used st) ∧
    loading now M st1 ∧
    man_fresh st1 = man_fresh st ∧ man_key st1 = man_key st.
Proof.
  intros HM Hkey ((_ & _ & Hr & Hp) & _) Hli Hk Hrc (Hmap & Htf & Htu & Hsz).
  unfold write_slot. rewrite HM. cbn [read_used_keys].
  rewrite btc_addrkey_read_write by done. cbn [mbind option_bind].
  change (key_of {| time := 0; services := 0; raw := raw (addr e);
                    port := port (addr e) |}) with (key_of (addr e)).
  rewrite Hkey. rewrite (Hmap k), HM.
  cbn [fmap option_fmap option_map mbind option_bind].
  rewrite Hrc, bool_decide_eq_false_2 by done.
  set (entry := set_used false (set_ref_count 0 (reloaded now e))).
  assert (Hlk : man_map st !! k = Some entry).
  { by rewrite (Hmap k), HM, Hrc, bool_decide_eq_false_2. }
  rewrite decide_False by (intros [?|?]; done).
  change (key_of (addr entry)) with (key_of (addr e)). rewrite Hkey.
  eexists. split; [reflexivity|].
  split; [by apply (alter_as_insert (λ l, l ++ [k]))|]. split; [|done].
  unfold loading.
  cbn [man_map man_fresh man_used man_total_fresh man_total_used
       set_usedb set_map set_total_used].
  rewrite (alter_as_insert (λ l, l ++ [k]) _ _ _ Hli).
  split; [|split; [|split]].
  - intros k'. destruct (decide (k' = k)) as [->|Hne].
    + rewrite lookup_insert_eq, HM. cbn. f_equal.
      rewrite bool_decide_eq_true_2
        by (apply elem_of_concat_extend; [done|left; left]).
      by rewrite Hrc.
    + rewrite lookup_insert_ne by done. rewrite (Hmap k').
      destruct (M !! k') as [e'|]; [|done]. cbn. f_equal. f_equal.
      apply bool_decide_ext. rewrite elem_of_concat_extend by done.
      rewrite list_elem_of_singleton. tauto.
  - unfold count_ref in *. rewrite count_if_insert.
    rewrite (count_if_delete _ k entry _ Hlk) in Htf. done.
  - unfold count_used in *. rewrite count_if_insert.
    rewrite (count_if_delete _ k entry _ Hlk) in Htu.
    change (used (set_used true entry)) with true.
    change (used entry) with false in Htu.
    rewrite decide_True by done. rewrite decide_False in Htu by done.
    pose proof (count_if_le_size (λ e, used e = true)
                  (delete k (man_map st))) as Hle.
    rewrite map_size_delete_Some in Hle by done.
    assert (0 < size (man_map st))%nat.
    { destruct (decide (size (man_map st) = 0%nat)) as [Hz|]; [|lia].
      apply map_size_empty_inv in Hz. rewrite Hz in Hlk. done. }
    pose proof (count_if_nonneg (λ e, used e = true)
                  (delete k (man_map st))).
    rewrite wrapsz_small; lia.
  - by rewrite map_size_insert_Some.
Qed.

Lemma read_used_keys_export `{Collab} (now : Z)
  (M : gmap addrkey btc_addrent) (ks : list addrkey) (i : nat)
  (st : btc_addrman) (li : list addrkey) (rest : list Z) :
  (∀ k e, M !! k = Some e → key_of (addr e) = k ∧ entry_ok e) →
  (∀ k, k ∈ ks → is_Some (M !! k) ∧ (k ∉ concat (man_used st)) ∧
                 fresh_refs k (man_fresh st) = 0) →
  NoDup ks → man_used st !! i = Some li → loading now M st →
  ∃ st',
    read_used_keys (length ks) i st (concat (write_slot M <$> ks) ++ rest)
    = Some (st', rest) ∧
    man_used st' = <[i := li ++ ks]> (man_used st) ∧
    loading now M st' ∧
    man_fresh st' = man_fresh st ∧ man_key st' = man_key st.
Proof.
  intros HM. revert st li.
  induction ks as [|k ks IH]; intros st li Hks Hnd Hli Hld.
  - exists st. split; [done|]. split; [|done].
    rewrite app_nil_r. by rewrite list_insert_id.
  - apply NoDup_cons in Hnd as [Hk Hnd].
    destruct (Hks k) as ([e He] & Hnu & Hrc); [left|].
    destruct (HM k e He) as [Hkey Hok].
    rewrite fmap_cons. cbn [concat length]. rewrite <- app_assoc.
    destruct (read_used_key_export now M k e i (length ks) st li
                (concat (write_slot M <$> ks) ++ rest) He Hkey Hok Hli)
      as (st1 & -> & Hu1 & Hld1 & Hf1 & Hk1); [done..|].
    destruct (IH st1 (li ++ [k])) as (st' & Hr & Hu & Hld' & Hf & Hk');
      [|done| |done|].
    { intros k' Hk'. destruct (Hks k') as (? & ? & ?); [by right|].
      split; [done|]. split; [|by rewrite Hf1].
      rewrite Hu1, elem_of_concat_extend by done.
      rewrite list_elem_of_singleton. intros [->|?]; done. }
    { rewrite Hu1. apply list_lookup_insert_eq. by apply lookup_lt_Some with li. }
    exists st'. split; [done|]. split; [|by rewrite Hf, Hk', Hf1, Hk1].
    rewrite Hu, Hu1, list_insert_insert_eq. by rewrite <- app_assoc.
Qed.

Lemma read_used_bucket_export `{Collab} (now : Z)
  (M : gmap addrkey btc_addrent) (l : list addrkey) (i : nat)
  (st : btc_addrman) (rest : list Z) :
  (∀ k e, M !! k = Some e → key_of (addr e) = k ∧ entry_ok e) →
  (∀ k, k ∈ l → is_Some (M !! k) ∧ (k ∉ concat (man_used st)) ∧
                fresh_refs k (man_fresh st) = 0) →
  NoDup l → Z.of_nat (length l) <= MAX_ENTRIES →
  man_used st !! i = Some [] → loading now M st →
  ∃ st',
    read_used_bucket
      (Some (st, (btc_size_write (Z.of_nat (length l)) ++
                  concat (write_slot M <$> l)) ++ rest)) i
    = Some (st', rest) ∧
    man_used st' = <[i := l]> (man_used st) ∧
    loading now M st' ∧
    man_fresh st' = man_fresh st ∧ man_key st' = man_key st.
Proof.
  intros HM Hl Hnd Hsz Hi Hld. unfold read_used_bucket.
  cbn [mbind option_bind]. rewrite <- app_assoc.
  unfold MAX_ENTRIES in Hsz.
  rewrite btc_size_read_write by lia. cbn [mbind option_bind].
  rewrite Nat2Z.id.
  destruct (read_used_keys_export now M l i st [] rest HM)
    as (st' & -> & Hu & Hld' & Hf & Hk); [done..|].
  cbn [app] in Hu.
  cbn [mbind option_bind]. rewrite Hu.
  rewrite list_lookup_insert_eq by (by apply lookup_lt_Some with []).
  cbn [mbind option_bind].
  rewrite decide_False by (unfold MAX_ENTRIES; lia).
  exists st'. by rewrite Hu.
Qed.

Lemma read_used_export `{Collab} (now : Z) (M : gmap addrkey btc_addrent)
  (Us : list (list addrkey)) (i : nat) (st : btc_addrman) (rest : list Z) :
  (∀ k e, M !! k = Some e → key_of (addr e) = k ∧ entry_ok e) →
  (∀ k, k ∈ concat Us → is_Some (M !! k) ∧ (k ∉ concat (man_used st)) ∧
                        fresh_refs k (man_fresh st) = 0) →
  NoDup (concat Us) →
  (∀ l, l ∈ Us → Z.of_nat (length l) <= MAX_ENTRIES) →
  (∀ j, (j < length Us)%nat → man_used st !! (i + j)%nat = Some []) →
  loading now M st →
  ∃ st',
    foldl read_used_bucket
      (Some (st, concat ((λ l : list addrkey,
                            btc_size_write (Z.of_nat (length l)) ++
                            concat (write_slot M <$> l)) <$> Us)
                 ++ rest))
      (seq i (length Us))
    = Some (st', rest) ∧
    man_used st' = take i (man_used st) ++ Us ++
                   drop (i + length Us) (man_used st) ∧
    loading now M st' ∧
    man_fresh st' = man_fresh st ∧ man_key st' = man_key st.
Proof.
  intros HM. revert i st.
  induction Us as [|l Us IH]; intros i st HUs Hnd Hsz Hemp Hld.
  - exists st. split; [done|]. split; [|done].
    cbn [length app]. by rewrite Nat.add_0_r, take_drop.
  - rewrite fmap_cons. cbn [concat length seq foldl]. rewrite <- app_assoc.
    cbn [concat] in HUs, Hnd. apply NoDup_app in Hnd as (Hndl & Hdis & Hnd).
    pose proof (Hemp 0%nat ltac:(simpl; lia)) as Hi. rewrite Nat.add_0_r in Hi.
    destruct (read_used_bucket_export now M l i st
                (concat ((λ l : list addrkey,
                            btc_size_write (Z.of_nat (length l)) ++
                            concat (write_slot M <$> l)) <$> Us)
                 ++ rest) HM)
      as (st1 & -> & Hu1 & Hld1 & Hf1 & Hk1);
      [intros k Hk; apply HUs, elem_of_app; by left|done
      |apply Hsz; left|done|done|].
    destruct (IH (S i) st1) as (st' & Hr & Hu & Hld' & Hf & Hk');
      [|done|intros l' ?; apply Hsz; by right| |done|].
    { intros k Hk. destruct (HUs k) as (? & ? & ?);
        [apply elem_of_app; by right|].
      split; [done|]. split; [|by rewrite Hf1].
      rewrite Hu1. change l with ([] ++ l).
      rewrite elem_of_concat_extend by done.
      intros [Hkl|?]; [|done]. by apply (Hdis k). }
    { intros j Hj. rewrite Hu1, list_lookup_insert_ne by lia.
      replace (S i + j)%nat with (i + S j)%nat by lia.
      apply Hemp. simpl. lia. }
    exists st'. split; [done|]. split; [|by rewrite Hf, Hk', Hf1, Hk1].
    rewrite Hu, Hu1.
    assert (i < length (man_used st))%nat by (by apply lookup_lt_Some with []).
    rewrite (take_S_r _ _ l) by (by apply list_lookup_insert_eq).
    rewrite take_insert_ge by lia. rewrite drop_insert_lt by lia.
    rewrite <- app_assoc. cbn [app].
    by replace (S i + length Us)%nat with (i + S (length Us))%nat by lia.
Qed.

Lemma concat_all_nil {A} (l : list (list A)) :
  (∀ i x, l !! i = Some x → x = []) → concat l = [].
Proof.
  induction l as [|x l IH]; intros Hl; [done|].
  cbn [concat]. rewrite (Hl 0%nat x) by done.
  apply IH. intros i y Hi. by apply (Hl (S i)).
Qed.

Lemma count_if_fmap (P : btc_addrent → Prop) `{!∀ e, Decision (P e)}
  (f : btc_addrent → btc_addrent) (m : gmap addrkey btc_addrent) :
  count_if P (f <$> m) = count_if (λ e, P (f e)) m.
Proof.
  unfold count_if. by rewrite map_filter_fmap, map_size_fmap.
Qed.

(** In a store with the invariants of the data model the reference
    count of an entry is the number of fresh buckets that hold it, and
    it is used exactly when a used bucket lists it. *)
Lemma wf_entry (man : btc_addrman) (k : addrkey) (e : btc_addrent) :
  wf man → man_map man !! k = Some e →
  ref_count e = fresh_refs k (man_fresh man) ∧
  used e = bool_decide (k ∈ concat (man_used man)) ∧
  (used e = false → 1 <= ref_count e).
Proof.
  intros Hinv He. destruct (used e) eqn:Hu.
  - destruct (inv_used_rc Hinv k e He Hu) as [Hrc Hin].
    split; [|split; [by rewrite bool_decide_eq_true_2|done]].
    rewrite Hrc. symmetry. apply fresh_refs_zero. intros i b Hi Hk.
    destruct (inv_fresh_sub Hinv i b k Hi Hk) as (e' & He' & Hu').
    congruence.
  - destruct (inv_fresh_rc Hinv k e He Hu) as (H1 & H2 & H3 & _).
    split; [|split; [|done]].
    + destruct (decide (fresh_refs k (man_fresh man) < ref_count e))
        as [Hlt|]; [|lia]. apply H3 in Hlt. set_solver.
    + rewrite bool_decide_eq_false_2; [done|]. intros Hin.
      destruct (inv_used_sub Hinv k Hin) as (e' & He' & Hu'). congruence.
Qed.

(** The body of [btc_addrman_read] on the image of [man], started in an
    empty store of the same network. *)
Lemma read_body_export `{Collab} (man st0 : btc_addrman) (now : Z) :
  wf man → man_magic st0 = man_magic man →
  man_map st0 = ∅ →
  length (man_fresh st0) = MAX_FRESH_BUCKETS →
  length (man_used st0) = MAX_USED_BUCKETS →
  (∀ i b, man_fresh st0 !! i = Some b → b = ∅) →
  (∀ i l, man_used st0 !! i = Some l → l = []) →
  man_total_fresh st0 = 0 → man_total_used st0 = 0 →
  ∃ st',
    read_body st0 now (btc_addrman_write man) = Some st' ∧
    man_map st' = reloaded now <$> man_map man ∧
    man_fresh st' = man_fresh man ∧
    man_used st' = man_used man ∧
    man_key st' = man_key man ∧
    man_total_fresh st' = man_total_fresh man ∧
    man_total_used st' = man_total_used man.
Proof.
  intros Hinv Hmagic Hmap0 Hfl Hul Hf0 Hu0 Htf0 Htu0.
  destruct (store_bound _ _ _ _ Hinv) as [Hbf Hbu].
  pose proof (count_used_total (man_map man)) as Htot.
  pose proof (count_used_nonneg false (man_map man)).
  pose proof (count_used_nonneg true (man_map man)).
  assert (HM : ∀ k e, man_map man !! k = Some e →
                      key_of (addr e) = k ∧ entry_ok e)
    by apply (inv_entry Hinv).
  unfold read_body, btc_addrman_write.
  rewrite !take_ge by (rewrite ?(inv_fresh_len Hinv), ?(inv_used_len Hinv);
                        done).
  unfold btc_uint32_read, btc_uint32_write.
  rewrite btc_uint_read_write. cbn [mbind option_bind].
  rewrite btc_uint_read_write. cbn [mbind option_bind].
  change (SER_VERSION mod 256 ^ Z.of_nat 4) with SER_VERSION.
  change (256 ^ Z.of_nat 4) with (2 ^ 32).
  rewrite (Z.mod_small (man_magic man)) by apply (inv_magic Hinv).
  rewrite decide_False by (by intros []).
  rewrite decide_False by (by rewrite Hmagic; intros []).
  unfold btc_raw_write.
  rewrite (take_ge (man_key man)) by (by rewrite (inv_key_len Hinv)).
  rewrite btc_raw_read_app by apply (inv_key_len Hinv).
  cbn [mbind option_bind].
  rewrite btc_size_read_write by lia. cbn [mbind option_bind].
  rewrite Nat2Z.id, <- length_map_to_list, Hmap0.
  rewrite read_entries_export.
  2:{ apply NoDup_fst_map_to_list. }
  2:{ intros k e Hin%elem_of_map_to_list.
      destruct (HM k e Hin). split; [done|]. split; [done|apply lookup_empty]. }
  cbn [mbind option_bind].
  rewrite list_to_map_fmap, list_to_map_to_list, (right_id_L ∅ (∪)).
  set (stE := set_map _ _).
  assert (HldE : loading now (man_map man) stE).
  { split; [|split; [|split]].
    - intros k. unfold stE. cbn [man_map man_used man_fresh set_map set_key].
      rewrite lookup_fmap. destruct (man_map man !! k) as [e|]; [|done].
      cbn. f_equal.
      rewrite (concat_all_nil _ Hu0), bool_decide_eq_false_2 by (by inversion 1).
      rewrite fresh_refs_zero; [done|].
      intros i b Hb. rewrite (Hf0 i b Hb). set_solver.
    - unfold stE. cbn [man_map man_total_fresh set_map set_key].
      rewrite Htf0. symmetry. apply count_if_none.
      intros k e (e' & <- & _)%lookup_fmap_Some. by intros [].
    - unfold stE. cbn [man_map man_total_used set_map set_key].
      rewrite Htu0. symmetry. apply count_if_none.
      intros k e (e' & <- & _)%lookup_fmap_Some. done.
    - unfold stE. cbn [man_map set_map]. rewrite map_size_fmap. lia. }
  replace (seq 0 MAX_FRESH_BUCKETS) with (seq 0 (length (man_fresh man)))
    by (by rewrite (inv_fresh_len Hinv)).
  destruct (read_fresh_export now (man_map man) (man_fresh man) 0 stE
              (concat ((λ l : list addrkey,
                          btc_size_write (Z.of_nat (length l)) ++
                          concat (write_slot (man_map man) <$> l))
                       <$> man_used man)) HM)
    as (st1 & -> & Hf1 & Hld1 & Hu1 & Hk1); [| | |done|].
  { intros b k [i Hi]%list_elem_of_lookup Hk.
    destruct (inv_fresh_sub Hinv i b k Hi Hk) as (e & -> & _). by eexists. }
  { intros b [i Hi]%list_elem_of_lookup. by apply (inv_fresh_bound Hinv i). }
  { intros j Hj. cbn [Nat.add].
    destruct (lookup_lt_is_Some_2 (man_fresh st0) j) as [b Hb];
      [rewrite Hfl, <- (inv_fresh_len Hinv); done|].
    change (man_fresh stE) with (man_fresh st0).
    by rewrite Hb, (Hf0 j b Hb). }
  cbn [mbind option_bind].
  change (man_fresh stE) with (man_fresh st0) in Hf1.
  change (man_used stE) with (man_used st0) in Hu1.
  rewrite take_0, drop_ge, app_nil_r in Hf1
    by (rewrite Hfl, (inv_fresh_len Hinv); done).
  cbn [app] in Hf1.
  replace (seq 0 MAX_USED_BUCKETS) with (seq 0 (length (man_used man)))
    by (by rewrite (inv_used_len Hinv)).
  rewrite <- (app_nil_r (concat (_ <$> man_used man))).
  destruct (read_used_export now (man_map man) (man_used man) 0 st1 [] HM)
    as (st2 & -> & Hu2 & Hld2 & Hf2 & Hk2); [| | | |done|].
  { intros k Hk. destruct (inv_used_sub Hinv k Hk) as (e & He & Hu).
    split; [by eexists|]. split.
    - rewrite Hu1, (concat_all_nil _ Hu0). by inversion 1.
    - rewrite Hf1. destruct (wf_entry man k e Hinv He) as (<- & _ & _).
      apply (inv_used_rc Hinv k e He Hu). }
  { apply (inv_used_nodup Hinv). }
  { intros l [i Hi]%list_elem_of_lookup. by apply (inv_used_bound Hinv i). }
  { intros j Hj. cbn [Nat.add]. rewrite Hu1.
    destruct (lookup_lt_is_Some_2 (man_used st0) j) as [l Hl];
      [rewrite Hul, <- (inv_used_len Hinv); done|].
    by rewrite Hl, (Hu0 j l Hl). }
  cbn [mbind option_bind].
  rewrite Hu1, take_0, drop_ge, app_nil_r in Hu2
    by (rewrite Hul, (inv_used_len Hinv); done).
  cbn [app] in Hu2.
  rewrite Hf1 in Hf2.
  destruct Hld2 as (Hmap2 & Htf2 & Htu2 & _).
  rewrite Hu2, Hf2 in Hmap2.
  assert (Hfin : man_map st2 = reloaded now <$> man_map man).
  { apply map_eq. intros k. rewrite Hmap2, lookup_fmap.
    destruct (man_map man !! k) as [e|] eqn:He; [|done]. cbn. f_equal.
    destruct (wf_entry man k e Hinv He) as (<- & <- & _).
    by destruct e. }
  rewrite decide_False by (by intros []).
  rewrite decide_True.
  2:{ rewrite Hfin. intros k x (e & <- & He)%lookup_fmap_Some [Hu Hrc].
      destruct (wf_entry man k e Hinv He) as (_ & _ & Hpos).
      change (ref_count (reloaded now e)) with (ref_count e) in Hrc.
      specialize (Hpos Hu). lia. }
  exists st2. split; [done|]. split; [done|]. split; [done|].
  split; [done|]. split.
  { rewrite Hk2, Hk1. done. }
  rewrite Htf2, Htu2, Hfin, (inv_total_fresh Hinv), (inv_total_used Hinv).
  unfold count_ref, count_used. rewrite !count_if_fmap. split.
  - rewrite Z.add_0_r. apply count_if_ext. intros k e He.
    destruct (wf_entry man k e Hinv He) as (_ & _ & Hpos).
    change (ref_count (reloaded now e)) with (ref_count e).
    destruct (used e) eqn:Hu.
    + destruct (inv_used_rc Hinv k e He Hu) as [-> _]. split; done.
    + specialize (Hpos eq_refl). split; [done|lia].
  - apply count_if_ext. by intros k e He.
Qed.

(** C2, as the code has it: loading the image of a store that has the
    invariants of the data model, into a manager of the same network,
    succeeds and gives a store with the same key, the same fresh and
    used buckets, the same totals, and the same global index but for the
    source of each entry, whose services are the default ones and
    whose time is the time of the loading. *)
Theorem export_import_round_trip `{Collab} (man dst : btc_addrman) (now : Z)
  (rk1 rk2 : list Z) :
  wf man → man_magic dst = man_magic man →
  length (man_fresh dst) = MAX_FRESH_BUCKETS →
  length (man_used dst) = MAX_USED_BUCKETS →
  let r := btc_addrman_import dst now rk1 rk2 (btc_addrman_write man) in
  r.2 = true ∧
  man_map r.1 = reloaded now <$> man_map man ∧
  man_fresh r.1 = man_fresh man ∧
  man_used r.1 = man_used man ∧
  man_key r.1 = man_key man ∧
  man_total_fresh r.1 = man_total_fresh man ∧
  man_total_used r.1 = man_total_used man.
Proof.
  intros Hinv Hmagic Hfl Hul. unfold btc_addrman_import, btc_addrman_read.
  destruct (read_body_export man (btc_addrman_reset rk1 dst) now Hinv)
    as (st' & -> & Hres); try done.
  - cbn. by rewrite length_fmap.
  - cbn. by rewrite length_fmap.
  - cbn. by intros i b (? & -> & _)%list_lookup_fmap_Some.
  - cbn. by intros i b (? & -> & _)%list_lookup_fmap_Some.
Qed.

Lemma export_import_round_trip_witness :
  let r := @btc_addrman_import toy man0 (now0 + 100) key0 key0
             (btc_addrman_write man1) in
  r.2 = true ∧
  man_map r.1 = @reloaded toy (now0 + 100) <$> man_map man1 ∧
  man_fresh r.1 = man_fresh man1 ∧
  man_used r.1 = man_used man1 ∧
  man_key r.1 = man_key man1 ∧
  man_total_fresh r.1 = man_total_fresh man1 ∧
  man_total_used r.1 = man_total_used man1.
Proof.
  apply (@export_import_round_trip toy man1 man0 (now0 + 100) key0 key0).
  - apply (@reachable_local_wf toy), reachable_local_man1.
  - reflexivity.
  - by vm_compute.
  - by vm_compute.
Defined.

(** C2 as claimed fails on the store of scenario S1: the entry was
    added with the services 9 of its source, at 1 700 000 000; after
    the image is loaded 100 seconds later the services of the source
    are 0 and its time is that of the loading, so the global index is
    not the one that was written. *)
Lemma export_import_resets_src :
  @reachable toy man1 ∧
  let r := @btc_addrman_import toy man0 (now0 + 100) key0 key0
             (btc_addrman_write man1) in
  r.2 = true ∧
  (∃ e e', man_map man1 !! key_of addr1 = Some e ∧
           man_map r.1 !! key_of addr1 = Some e' ∧
           services (src e) = 9 ∧ time (src e) = now0 ∧
           services (src e') = 0 ∧ time (src e') = now0 + 100) ∧
  man_map r.1 ≠ man_map man1.
Proof.
  split; [apply reachable_man1|]. cbv zeta.
  split; [by vm_compute|]. split.
  - eexists _, _. split; [by vm_compute|]. split; [by vm_compute|].
    by vm_compute.
  - intros Heq.
    assert (E : (λ e, services (src e)) <$>
                man_map (@btc_addrman_import toy man0 (now0 + 100) key0 key0
                           (btc_addrman_write man1)).1 !! key_of addr1
              = (λ e, services (src e)) <$> man_map man1 !! key_of addr1)
      by (by rewrite Heq).
    vm_compute in E. discriminate.
Qed.

(** The store left by the image that lists one address twice in a
    bucket is reachable, and the round trip does not give it back: the
    reference count 2 of its entry becomes 1. *)
Lemma export_import_after_duplicate :
  let r := @btc_addrman_import toy man0 now0 key0 key0
             (btc_addrman_write man_twice) in
  r.2 = true ∧
  ref_count <$> man_map man_twice !! key_of addr2 = Some 2 ∧
  ref_count <$> man_map r.1 !! key_of addr2 = Some 1.
Proof. cbv zeta. split; [by vm_compute|]. split; by vm_compute. Qed.

(** * Further properties of the code *)

(** ** What the operations keep *)

(** The entry that scenario S1 leaves in the store. *)
Lemma man1_entry :
  man_map man1 !! key_of addr1 =
  Some (set_src (set_time now0 (man_addr man0))
          (set_addr addr1 (set_ref_count 1 btc_addrent_init))).
Proof. by vm_compute. Qed.

Lemma reachable_local_reachable `{Collab} (man : btc_addrman) :
  reachable_local man → reachable man.
Proof.
  induction 1 as [magic nport now rk Hm Hp Hnow Hrk|man o man' _ IH _ Hok Hrun].
  - by apply reach_create.
  - by apply (reach_step _ man o man').
Qed.

(** X1: in every store the public operations can reach (loading an
    image included) there are 1024 fresh and 256 used buckets, and no
    bucket holds more than 64 keys. *)
Theorem reachable_bucket_capacity `{Collab} (man : btc_addrman) :
  reachable man →
  length (man_fresh man) = MAX_FRESH_BUCKETS ∧
  length (man_used man) = MAX_USED_BUCKETS ∧
  (∀ i b, man_fresh man !! i = Some b → Z.of_nat (size b) <= MAX_ENTRIES) ∧
  (∀ i l, man_used man !! i = Some l → Z.of_nat (length l) <= MAX_ENTRIES).
Proof.
  intros [zs Hinv]%reachable_inv.
  split; [apply (inv_fresh_len Hinv)|]. split; [apply (inv_used_len Hinv)|].
  split; [apply (inv_fresh_bound Hinv)|apply (inv_used_bound Hinv)].
Qed.

Lemma reachable_bucket_capacity_witness :
  length (man_fresh man_one) = MAX_FRESH_BUCKETS ∧
  length (man_used man_one) = MAX_USED_BUCKETS ∧
  (∀ i b, man_fresh man_one !! i = Some b →
          Z.of_nat (size b) <= MAX_ENTRIES) ∧
  (∀ i l, man_used man_one !! i = Some l →
          Z.of_nat (length l) <= MAX_ENTRIES).
Proof.
  apply (@reachable_bucket_capacity toy man_one). apply reachable_man_one.
Defined.

(** X2: in every reachable store no bucket slot dangles: a key of a
    fresh bucket names an entry of the global index that is not used, a
    key of a used bucket names one that is used and has no fresh
    reference, and each entry is indexed by the key of its own
    address. *)
Theorem reachable_no_dangling `{Collab} (man : btc_addrman) :
  reachable man →
  (∀ i b k, man_fresh man !! i = Some b → k ∈ b →
            ∃ e, man_map man !! k = Some e ∧ key_of (addr e) = k ∧
                 used e = false) ∧
  (∀ i l k, man_used man !! i = Some l → k ∈ l →
            ∃ e, man_map man !! k = Some e ∧ key_of (addr e) = k ∧
                 used e = true ∧ ref_count e = 0).
Proof.
  intros [zs Hinv]%reachable_inv. split.
  - intros i b k Hi Hk.
    destruct (inv_fresh_sub Hinv i b k Hi Hk) as (e & He & Hu).
    exists e. split; [done|]. split; [|done].
    apply (inv_entry Hinv k e He).
  - intros i l k Hi Hk.
    destruct (inv_used_sub Hinv k) as (e & He & Hu);
      [by apply used_bucket_sub with i l|].
    exists e. split; [done|]. split; [apply (inv_entry Hinv k e He)|].
    split; [done|]. apply (inv_used_rc Hinv k e He Hu).
Qed.

Lemma reachable_no_dangling_witness :
  (∀ i b k, man_fresh man_one !! i = Some b → k ∈ b →
            ∃ e, man_map man_one !! k = Some e ∧ key_of (addr e) = k ∧
                 used e = false) ∧
  (∀ i l k, man_used man_one !! i = Some l → k ∈ l →
            ∃ e, man_map man_one !! k = Some e ∧ key_of (addr e) = k ∧
                 used e = true ∧ ref_count e = 0).
Proof.
  apply (@reachable_no_dangling toy man_one). apply reachable_man_one.
Defined.

Lemma elem_of_concat_lookup (used : list (list addrkey)) (k : addrkey) :
  k ∈ concat used → ∃ i l, used !! i = Some l ∧ k ∈ l.
Proof.
  induction used as [|l used IH]; [by inversion 1|].
  cbn [concat]. intros [Hl|Hr]%elem_of_app.
  - by exists 0%nat, l.
  - destruct (IH Hr) as (i & l' & Hi & Hk). by exists (S i), l'.
Qed.

Lemma filter_eq_absent (k : addrkey) (l : list addrkey) :
  k ∉ l → filter (λ x, x = k) l = [].
Proof.
  induction l as [|x l IH]; [done|].
  intros Hk. rewrite filter_cons.
  rewrite decide_False by (intros ->; apply Hk; left).
  apply IH. intros ?. apply Hk. by right.
Qed.

Lemma filter_eq_once (k : addrkey) (l : list addrkey) :
  NoDup l → k ∈ l → length (filter (λ x, x = k) l) = 1%nat.
Proof.
  induction 1 as [|x l Hx Hnd IH]; [by inversion 1|].
  intros Hk. rewrite filter_cons. case_decide as Hxk.
  - subst x. cbn [length]. by rewrite filter_eq_absent.
  - apply IH. by apply elem_of_cons in Hk as [->|?].
Qed.

(** X3: in every reachable store an entry marked used is linked in
    exactly one used bucket, once. *)
Theorem reachable_used_once `{Collab} (man : btc_addrman) (k : addrkey)
  (e : btc_addrent) :
  reachable man → man_map man !! k = Some e → used e = true →
  ∃ i l, man_used man !! i = Some l ∧
         length (filter (λ x, x = k) l) = 1%nat ∧
         ∀ j l', man_used man !! j = Some l' → k ∈ l' → j = i.
Proof.
  intros [zs Hinv]%reachable_inv He Hu.
  destruct (inv_used_rc Hinv k e He Hu) as [_ Hin].
  apply elem_of_concat_lookup in Hin as (i & l & Hi & Hkl).
  exists i, l. split; [done|]. split.
  - apply filter_eq_once; [|done].
    by apply (used_bucket_nodup _ i l (inv_used_nodup Hinv)).
  - intros j l' Hj Hk'. symmetry.
    by apply (used_bucket_unique _ i j l l' k (inv_used_nodup Hinv)).
Qed.

(** X4: in a store built without loading an image, the reference count
    of an entry that is not used is the number of fresh buckets that
    hold its key, and lies between 1 and 8. *)
Theorem local_fresh_ref_integrity `{Collab} (man : btc_addrman) (k : addrkey)
  (e : btc_addrent) :
  reachable_local man → man_map man !! k = Some e → used e = false →
  ref_count e = fresh_refs k (man_fresh man) ∧
  1 <= ref_count e <= MAX_REFS.
Proof.
  intros Hinv%reachable_local_wf He Hu.
  destruct (wf_entry man k e Hinv He) as (Hrc & _ & Hpos).
  split; [done|]. split; [by apply Hpos|].
  by apply (inv_fresh_rc Hinv k e He Hu).
Qed.

Lemma local_fresh_ref_integrity_witness :
  ref_count (set_src (set_time now0 (man_addr man0))
               (set_addr addr1 (set_ref_count 1 btc_addrent_init)))
  = fresh_refs (key_of addr1) (man_fresh man1) ∧
  1 <= ref_count (set_src (set_time now0 (man_addr man0))
                    (set_addr addr1 (set_ref_count 1 btc_addrent_init)))
    <= MAX_REFS.
Proof.
  apply (@local_fresh_ref_integrity toy man1 (key_of addr1)).
  - apply reachable_local_man1.
  - apply man1_entry.
  - reflexivity.
Defined.

(** X5: a store built without loading an image holds at most
    1024 * 64 entries that are not used and 256 * 64 used ones, and
    [btc_addrman_total] is the number of entries of the global index. *)
Theorem local_totals_bounded `{Collab} (man : btc_addrman) :
  reachable_local man →
  0 <= man_total_fresh man <= Z.of_nat MAX_FRESH_BUCKETS * MAX_ENTRIES ∧
  0 <= man_total_used man <= Z.of_nat MAX_USED_BUCKETS * MAX_ENTRIES ∧
  btc_addrman_total man = Z.of_nat (size (man_map man)).
Proof.
  intros Hinv%reachable_local_wf.
  destruct (store_bound _ _ _ _ Hinv) as [_ Hbu].
  pose proof (count_used_nonneg false (man_map man)).
  pose proof (count_used_nonneg true (man_map man)).
  pose proof (count_used_total (man_map man)) as Htot.
  assert (Hbf : count_used false (man_map man) <= 65536).
  { etrans; [apply (count_used_dom _ _ (⋃ man_fresh man))|].
    - intros k e He Hu.
      destruct (wf_entry man k e Hinv He) as (Hrc & _ & Hpos).
      specialize (Hpos Hu).
      assert (Hp : 0 < fresh_refs k (man_fresh man)) by lia.
      apply fresh_refs_pos in Hp as (i & b & Hi & Hb).
      apply elem_of_union_list. exists b. split; [|done].
      by apply list_elem_of_lookup_2 with i.
    - pose proof (size_union_list_bound (man_fresh man) MAX_ENTRIES
                    (inv_fresh_bound Hinv)) as Hb.
      rewrite (inv_fresh_len Hinv) in Hb.
      unfold MAX_FRESH_BUCKETS, MAX_ENTRIES in Hb. lia. }
  unfold btc_addrman_total.
  rewrite (inv_total_fresh Hinv), (inv_total_used Hinv), Z.add_0_r.
  unfold MAX_FRESH_BUCKETS, MAX_USED_BUCKETS, MAX_ENTRIES.
  split; [lia|]. split; [lia|]. rewrite wrapsz_small; lia.
Qed.

Lemma local_totals_bounded_witness :
  0 <= man_total_fresh man1 <= Z.of_nat MAX_FRESH_BUCKETS * MAX_ENTRIES ∧
  0 <= man_total_used man1 <= Z.of_nat MAX_USED_BUCKETS * MAX_ENTRIES ∧
  btc_addrman_total man1 = Z.of_nat (size (man_map man1)).
Proof.
  apply (@local_totals_bounded toy man1). apply reachable_local_man1.
Defined.

(** ** The two codecs *)

(** X6: what [btc_addrkey_write] writes for an address with a 16-byte
    [raw] and a 16-bit port is 18 bytes long, and [btc_addrkey_read]
    reads from it, whatever follows, an address with the same [raw] and
    port, time 0 and no services, leaving what follows. *)
Theorem addrkey_round_trip (a : btc_netaddr) (rest : list Z) :
  length (raw a) = 16%nat → is_uint16 (port a) →
  length (btc_addrkey_write a) = 18%nat ∧
  ∃ a', btc_addrkey_read (btc_addrkey_write a ++ rest) = Some (a', rest) ∧
        raw a' = raw a ∧ port a' = port a ∧ time a' = 0 ∧ services a' = 0.
Proof.
  intros Hr Hp. split.
  - apply Nat2Z.inj. by rewrite length_addrkey_write.
  - eexists. split; [by apply btc_addrkey_read_write|]. done.
Qed.

Lemma addrkey_round_trip_witness :
  length (btc_addrkey_write addr1) = 18%nat ∧
  ∃ a', btc_addrkey_read (btc_addrkey_write addr1 ++ [1; 2; 3])
        = Some (a', [1; 2; 3]) ∧
        raw a' = raw addr1 ∧ port a' = port addr1 ∧ time a' = 0 ∧
        services a' = 0.
Proof. apply (addrkey_round_trip addr1 [1; 2; 3]); by_eval. Defined.

(** X7: [btc_addrent_read] gives back the entry that
    [btc_addrent_write] wrote, but for what the record does not hold:
    the source keeps its [raw] and port and gets the default services
    and the time of the reading, and the entry is neither used nor
    referenced. *)
Theorem addrent_round_trip `{Collab} (now : Z) (e : btc_addrent)
  (rest : list Z) :
  entry_ok e →
  ∃ e', btc_addrent_read now (btc_addrent_write e ++ rest) = Some (e', rest) ∧
        addr e' = addr e ∧
        raw (src e') = raw (src e) ∧ port (src e') = port (src e) ∧
        services (src e') = BTC_NET_DEFAULT_SERVICES ∧ time (src e') = now ∧
        used e' = false ∧ ref_count e' = 0 ∧
        attempts e' = attempts e ∧ last_success e' = last_success e ∧
        last_attempt e' = last_attempt e.
Proof.
  intros Hok. exists (loaded now e).
  split; [by apply btc_addrent_read_write|]. by destruct e as [[] [] ? ? ? ? ?].
Qed.

Lemma addrent_round_trip_witness :
  ∃ e', @btc_addrent_read toy now0 (btc_addrent_write entry2 ++ [])
        = Some (e', []) ∧
        addr e' = addr entry2 ∧
        raw (src e') = raw (src entry2) ∧ port (src e') = port (src entry2) ∧
        services (src e') = 0 ∧ time (src e') = now0 ∧
        used e' = false ∧ ref_count e' = 0 ∧
        attempts e' = attempts entry2 ∧
        last_success e' = last_success entry2 ∧
        last_attempt e' = last_attempt entry2.
Proof.
  apply (@addrent_round_trip toy now0 entry2 []).
  unfold entry_ok, netaddr_ok. by_eval.
Defined.

Lemma btc_uint_read_Some (n : nat) (xs : list Z) :
  (n ≤ length xs)%nat →
  btc_uint_read n xs = Some (le_value (take n xs), drop n xs).
Proof.
  intros Hn. unfold btc_uint_read, btc_raw_read. by rewrite decide_True.
Qed.

Lemma btc_uint_read_None (n : nat) (xs : list Z) :
  (length xs < n)%nat → btc_uint_read n xs = None.
Proof.
  intros Hn. unfold btc_uint_read, btc_raw_read. by rewrite decide_False by lia.
Qed.

Lemma btc_addrkey_read_Some (xs : list Z) :
  (18 ≤ length xs)%nat →
  ∃ a, btc_addrkey_read xs = Some (a, drop 18 xs).
Proof.
  intros Hn. unfold btc_addrkey_read, btc_raw_read, btc_uint16_read.
  rewrite decide_True by lia.
  rewrite btc_uint_read_Some by (rewrite length_drop; lia).
  rewrite drop_drop. by eexists.
Qed.

Lemma btc_addrkey_read_None (xs : list Z) :
  (length xs < 18)%nat → btc_addrkey_read xs = None.
Proof.
  intros Hn. unfold btc_addrkey_read, btc_raw_read, btc_uint16_read.
  case_decide; [|done].
  by rewrite btc_uint_read_None by (rewrite length_drop; lia).
Qed.

(** X8: [btc_addrent_read] fails on fewer than 72 bytes and succeeds on
    any 72 bytes or more, of which it takes the first 72. *)
Theorem addrent_read_length `{Collab} (now : Z) (xs : list Z) :
  ((length xs < 72)%nat → btc_addrent_read now xs = None) ∧
  ((72 ≤ length xs)%nat →
   ∃ e, btc_addrent_read now xs = Some (e, drop 72 xs)).
Proof.
  unfold btc_addrent_read, btc_uint64_read, btc_int64_read, btc_int32_read.
  split; intros Hn.
  - destruct (decide (18 ≤ length xs)%nat) as [H1|H1];
      [|by rewrite btc_addrkey_read_None by lia].
    destruct (btc_addrkey_read_Some xs H1) as [a ->]. cbn [mbind option_bind].
    destruct (decide (8 ≤ length (drop 18 xs))%nat) as [H2|H2];
      [|by rewrite btc_uint_read_None by lia].
    rewrite btc_uint_read_Some by done. cbn [mbind option_bind].
    rewrite drop_drop.
    destruct (decide (8 ≤ length (drop (18 + 8) xs))%nat) as [H3|H3];
      [|by rewrite btc_uint_read_None by lia].
    rewrite btc_uint_read_Some by done. cbn [mbind option_bind].
    rewrite drop_drop.
    destruct (decide (18 ≤ length (drop (18 + 8 + 8) xs))%nat) as [H4|H4];
      [|by rewrite btc_addrkey_read_None by lia].
    destruct (btc_addrkey_read_Some _ H4) as [s ->]. cbn [mbind option_bind].
    rewrite drop_drop.
    destruct (decide (4 ≤ length (drop (18 + 8 + 8 + 18) xs))%nat) as [H5|H5];
      [|by rewrite btc_uint_read_None by lia].
    rewrite btc_uint_read_Some by done. cbn [mbind option_bind].
    rewrite drop_drop.
    destruct (decide (8 ≤ length (drop (18 + 8 + 8 + 18 + 4) xs))%nat)
      as [H6|H6]; [|by rewrite btc_uint_read_None by lia].
    rewrite btc_uint_read_Some by done. cbn [mbind option_bind].
    rewrite drop_drop.
    rewrite btc_uint_read_None; [done|]. rewrite length_drop. lia.
  - destruct (btc_addrkey_read_Some xs) as [a ->]; [lia|].
    cbn [mbind option_bind].
    rewrite btc_uint_read_Some by (rewrite length_drop; lia).
    cbn [mbind option_bind]. rewrite drop_drop.
    rewrite btc_uint_read_Some by (rewrite length_drop; lia).
    cbn [mbind option_bind]. rewrite drop_drop.
    destruct (btc_addrkey_read_Some (drop (18 + 8 + 8) xs)) as [s ->];
      [rewrite length_drop; lia|].
    cbn [mbind option_bind]. rewrite drop_drop.
    rewrite btc_uint_read_Some by (rewrite length_drop; lia).
    cbn [mbind option_bind]. rewrite drop_drop.
    rewrite btc_uint_read_Some by (rewrite length_drop; lia).
    cbn [mbind option_bind]. rewrite drop_drop.
    rewrite btc_uint_read_Some by (rewrite length_drop; lia).
    cbn [mbind option_bind]. rewrite drop_drop.
    by eexists.
Qed.

(** ** Loading an image *)

Lemma reads_prefix_bind {A B} (R1 : list Z → option (A * list Z))
  (R2 : A → list Z → option (B * list Z)) (c1 c2 : nat) :
  reads_prefix R1 c1 → (∀ v, reads_prefix (R2 v) c2) →
  reads_prefix (λ xs, '(v, xs1) ← R1 xs; R2 v xs1) (c1 + c2).
Proof.
  intros H1 H2 xs v rest Hr.
  destruct (R1 xs) as [[v1 xs1]|] eqn:E; [|done]. cbn in Hr.
  destruct (H1 _ _ _ E) as (pre1 & -> & Hc1 & Hx1).
  destruct (H2 v1 _ _ _ Hr) as (pre2 & -> & Hc2 & Hx2).
  exists (pre1 ++ pre2). split; [by rewrite app_assoc|].
  split; [rewrite length_app; lia|].
  intros ys. rewrite <- app_assoc, Hx1. cbn. apply Hx2.
Qed.

Lemma reads_prefix_map {A B} (R : list Z → option (A * list Z)) (f : A → B)
  (c : nat) :
  reads_prefix R c →
  reads_prefix (λ xs, match R xs with
                      | Some (v, rest) => Some (f v, rest)
                      | None => None
                      end) c.
Proof.
  intros H1 xs v rest Hr.
  destruct (R xs) as [[v1 xs1]|] eqn:E; [|done]. injection Hr as <- <-.
  destruct (H1 _ _ _ E) as (pre & -> & Hc & Hx).
  exists pre. split; [done|]. split; [done|]. intros ys. by rewrite Hx.
Qed.

Lemma reads_prefix_ret {A} (v : A) : reads_prefix (λ xs, Some (v, xs)) 0.
Proof.
  intros xs v' rest [= <- <-]. exists []. split; [done|]. split; [simpl; lia|].
  done.
Qed.

Lemma reads_prefix_fail {A} (c : nat) :
  reads_prefix (λ _ : list Z, @None (A * list Z)) c.
Proof. by intros xs v rest. Qed.

Lemma reads_prefix_le {A} (R : list Z → option (A * list Z)) (c c' : nat) :
  reads_prefix R c → (c' ≤ c)%nat → reads_prefix R c'.
Proof.
  intros H1 Hc xs v rest Hr. destruct (H1 _ _ _ Hr) as (pre & ? & ? & ?).
  exists pre. split; [done|]. split; [lia|done].
Qed.

Lemma reads_prefix_raw (n : nat) : reads_prefix (btc_raw_read n) n.
Proof.
  intros xs v rest. unfold btc_raw_read. case_decide as Hn; [|done].
  intros [= <- <-]. exists (take n xs).
  split; [by rewrite take_drop|]. split; [rewrite length_take; lia|].
  intros ys. rewrite decide_True by (rewrite length_app, length_take; lia).
  assert (Hl : length (take n xs) = n) by (rewrite length_take; lia).
  rewrite take_app_length', drop_app_length' by done. done.
Qed.

Lemma reads_prefix_uint (n : nat) : reads_prefix (btc_uint_read n) n.
Proof. apply (reads_prefix_map _ le_value), reads_prefix_raw. Qed.

Lemma reads_prefix_int64 : reads_prefix btc_int64_read 8.
Proof. apply (reads_prefix_map _ wrap64), reads_prefix_uint. Qed.

Lemma reads_prefix_int32 : reads_prefix btc_int32_read 4.
Proof. apply (reads_prefix_map _ wrap32), reads_prefix_uint. Qed.

Lemma reads_prefix_size : reads_prefix btc_size_read 1.
Proof.
  intros xs v rest. destruct xs as [|b xs]; [done|]. cbn [btc_size_read].
  repeat case_decide.
  - destruct (btc_uint_read 2 xs) as [[v' r]|] eqn:E; [|done].
    case_decide; [done|]. intros [= <- <-].
    destruct (reads_prefix_uint 2 _ _ _ E) as (pre & -> & Hc & Hx).
    exists (b :: pre). split; [done|]. split; [simpl; lia|].
    intros ys. cbn [app btc_size_read]. rewrite decide_True by done.
    rewrite Hx. by rewrite decide_False by done.
  - destruct (btc_uint_read 4 xs) as [[v' r]|] eqn:E; [|done].
    case_decide; [done|]. intros [= <- <-].
    destruct (reads_prefix_uint 4 _ _ _ E) as (pre & -> & Hc & Hx).
    exists (b :: pre). split; [done|]. split; [simpl; lia|].
    intros ys. cbn [app btc_size_read].
    rewrite decide_False, decide_True by done.
    rewrite Hx. by rewrite decide_False by done.
  - destruct (btc_uint_read 8 xs) as [[v' r]|] eqn:E; [|done].
    case_decide; [done|]. intros [= <- <-].
    destruct (reads_prefix_uint 8 _ _ _ E) as (pre & -> & Hc & Hx).
    exists (b :: pre). split; [done|]. split; [simpl; lia|].
    intros ys. cbn [app btc_size_read].
    rewrite !decide_False, decide_True by done.
    rewrite Hx. by rewrite decide_False by done.
  - intros [= <- <-]. exists [b]. split; [done|]. split; [simpl; lia|].
    intros ys. cbn [app btc_size_read]. by rewrite !decide_False by done.
Qed.

Lemma reads_prefix_addrkey : reads_prefix btc_addrkey_read 18.
Proof.
  intros xs v rest. unfold btc_addrkey_read.
  destruct (btc_raw_read 16 xs) as [[r xs1]|] eqn:E1; [|done].
  destruct (btc_uint16_read xs1) as [[p xs2]|] eqn:E2; [|done].
  intros [= <- <-].
  destruct (reads_prefix_raw 16 _ _ _ E1) as (pre1 & -> & Hc1 & Hx1).
  destruct (reads_prefix_uint 2 _ _ _ E2) as (pre2 & -> & Hc2 & Hx2).
  exists (pre1 ++ pre2). split; [by rewrite app_assoc|].
  split; [rewrite length_app; lia|].
  intros ys. rewrite <- app_assoc, Hx1.
  unfold btc_uint16_read. by rewrite Hx2.
Qed.

Lemma reads_prefix_addrent `{Collab} (now : Z) :
  reads_prefix (btc_addrent_read now) 72.
Proof.
  unfold btc_addrent_read.
  apply (reads_prefix_bind _ _ 18 54); [apply reads_prefix_addrkey|].
  intros a. apply (reads_prefix_bind _ _ 8 46); [apply reads_prefix_uint|].
  intros sv. apply (reads_prefix_bind _ _ 8 38); [apply reads_prefix_int64|].
  intros t. apply (reads_prefix_bind _ _ 18 20); [apply reads_prefix_addrkey|].
  intros s. apply (reads_prefix_bind _ _ 4 16); [apply reads_prefix_int32|].
  intros att. apply (reads_prefix_bind _ _ 8 8); [apply reads_prefix_int64|].
  intros ls. apply (reads_prefix_bind _ _ 8 0); [apply reads_prefix_int64|].
  intros la. apply reads_prefix_ret.
Qed.

Lemma reads_prefix_entries `{Collab} (n : nat) (now : Z)
  (m : gmap addrkey btc_addrent) :
  reads_prefix (read_entries n now m) 0.
Proof.
  revert m. induction n as [|n IH]; intros m; [apply reads_prefix_ret|].
  cbn [read_entries].
  apply (reads_prefix_bind _ _ 0 0);
    [apply reads_prefix_le with 72%nat; [apply reads_prefix_addrent|lia]|].
  intros e. case_decide; [apply reads_prefix_fail|apply IH].
Qed.

Lemma reads_prefix_fresh_keys (n i : nat) (man : btc_addrman) :
  reads_prefix (read_fresh_keys n i man) 0.
Proof.
  revert man. induction n as [|n IH]; intros man; [apply reads_prefix_ret|].
  cbn [read_fresh_keys].
  apply (reads_prefix_bind _ _ 0 0);
    [apply reads_prefix_le with 18%nat; [apply reads_prefix_addrkey|lia]|].
  intros key. destruct (man_map man !! key_of key) as [entry|];
    [apply IH|apply reads_prefix_fail].
Qed.

Lemma reads_prefix_used_keys (n i : nat) (man : btc_addrman) :
  reads_prefix (read_used_keys n i man) 0.
Proof.
  revert man. induction n as [|n IH]; intros man; [apply reads_prefix_ret|].
  cbn [read_used_keys].
  apply (reads_prefix_bind _ _ 0 0);
    [apply reads_prefix_le with 18%nat; [apply reads_prefix_addrkey|lia]|].
  intros key. destruct (man_map man !! key_of key) as [entry|];
    [|apply reads_prefix_fail].
  cbn [mbind option_bind]. case_decide; [apply reads_prefix_fail|apply IH].
Qed.

Lemma reads_prefix_fresh_bucket (i : nat) (man : btc_addrman) :
  reads_prefix (λ xs, read_fresh_bucket (Some (man, xs)) i) 1.
Proof.
  unfold read_fresh_bucket. cbn [mbind option_bind].
  apply (reads_prefix_bind _ _ 1 0); [apply reads_prefix_size|].
  intros len. apply (reads_prefix_bind _ _ 0 0);
    [apply reads_prefix_fresh_keys|].
  intros man1. destruct (man_fresh man1 !! i) as [b|];
    [|apply reads_prefix_fail].
  cbn [mbind option_bind]. case_decide;
    [apply reads_prefix_fail|apply reads_prefix_ret].
Qed.

Lemma reads_prefix_used_bucket (i : nat) (man : btc_addrman) :
  reads_prefix (λ xs, read_used_bucket (Some (man, xs)) i) 1.
Proof.
  unfold read_used_bucket. cbn [mbind option_bind].
  apply (reads_prefix_bind _ _ 1 0); [apply reads_prefix_size|].
  intros len. apply (reads_prefix_bind _ _ 0 0);
    [apply reads_prefix_used_keys|].
  intros man1. destruct (man_used man1 !! i) as [b|];
    [|apply reads_prefix_fail].
  cbn [mbind option_bind]. case_decide;
    [apply reads_prefix_fail|apply reads_prefix_ret].
Qed.

Lemma reads_prefix_fresh_fold (l : list nat) (man : btc_addrman) :
  reads_prefix (λ xs, foldl read_fresh_bucket (Some (man, xs)) l) (length l).
Proof.
  revert man. induction l as [|i l IH]; intros man; [apply reads_prefix_ret|].
  intros xs v rest. cbn [foldl].
  destruct (read_fresh_bucket (Some (man, xs)) i) as [[man1 xs1]|] eqn:E;
    [|by rewrite foldl_read_fresh_None].
  intros Hr.
  destruct (reads_prefix_fresh_bucket i man _ _ _ E) as (pre1 & -> & Hc1 & Hx1).
  destruct (IH man1 _ _ _ Hr) as (pre2 & -> & Hc2 & Hx2).
  exists (pre1 ++ pre2). split; [by rewrite app_assoc|].
  split; [rewrite length_app; simpl; lia|].
  intros ys. rewrite <- app_assoc, Hx1. apply Hx2.
Qed.

Lemma reads_prefix_used_fold (l : list nat) (man : btc_addrman) :
  reads_prefix (λ xs, foldl read_used_bucket (Some (man, xs)) l) (length l).
Proof.
  revert man. induction l as [|i l IH]; intros man; [apply reads_prefix_ret|].
  intros xs v rest. cbn [foldl].
  destruct (read_used_bucket (Some (man, xs)) i) as [[man1 xs1]|] eqn:E;
    [|by rewrite foldl_read_used_None].
  intros Hr.
  destruct (reads_prefix_used_bucket i man _ _ _ E) as (pre1 & -> & Hc1 & Hx1).
  destruct (IH man1 _ _ _ Hr) as (pre2 & -> & Hc2 & Hx2).
  exists (pre1 ++ pre2). split; [by rewrite app_assoc|].
  split; [rewrite length_app; simpl; lia|].
  intros ys. rewrite <- app_assoc, Hx1. apply Hx2.
Qed.

Lemma btc_uint_read_inv (n : nat) (xs rest : list Z) (v : Z) :
  btc_uint_read n xs = Some (v, rest) →
  v = le_value (take n xs) ∧ rest = drop n xs ∧ (n ≤ length xs)%nat.
Proof.
  unfold btc_uint_read, btc_raw_read. case_decide; [|done].
  by intros [= <- <-].
Qed.

(** What an image that [btc_addrman_read] accepts is like. *)
Lemma read_body_reads `{Collab} (man man' : btc_addrman) (now : Z)
  (xs : list Z) :
  read_body man now xs = Some man' →
  (1321 ≤ length xs)%nat ∧
  le_value (take 4 xs) = SER_VERSION ∧
  le_value (take 4 (drop 4 xs)) = man_magic man ∧
  ∀ ys, ys ≠ [] → read_body man now (xs ++ ys) = None.
Proof.
  unfold read_body.
  destruct (btc_uint32_read xs) as [[version xs1]|] eqn:E1; [|done].
  cbn [mbind option_bind].
  destruct (btc_uint32_read xs1) as [[magic xs2]|] eqn:E2; [|done].
  cbn [mbind option_bind].
  case_decide as Hv; [done|]. case_decide as Hm; [done|].
  destruct (btc_raw_read 32 xs2) as [[key xs3]|] eqn:E3; [|done].
  cbn [mbind option_bind].
  destruct (btc_size_read xs3) as [[len xs4]|] eqn:E4; [|done].
  cbn [mbind option_bind].
  destruct (read_entries (Z.to_nat len) now (man_map man) xs4)
    as [[m xs5]|] eqn:E5; [|done].
  cbn [mbind option_bind].
  destruct (foldl read_fresh_bucket (Some (set_map m (set_key key man), xs5))
              (seq 0 MAX_FRESH_BUCKETS)) as [[man1 xs6]|] eqn:E6; [|done].
  cbn [mbind option_bind].
  destruct (foldl read_used_bucket (Some (man1, xs6))
              (seq 0 MAX_USED_BUCKETS)) as [[man2 xs7]|] eqn:E7; [|done].
  cbn [mbind option_bind].
  case_decide as Hrest; [done|]. subst xs7.
  case_decide as Hall; [|done]. intros [= <-].
  destruct (btc_uint_read_inv _ _ _ _ E1) as (Hver & Hxs1 & _).
  pose proof E2 as E2'. rewrite Hxs1 in E2'.
  destruct (btc_uint_read_inv _ _ _ _ E2') as (Hmag & _ & _).
  destruct (reads_prefix_uint 4 _ _ _ E1) as (p1 & -> & Hc1 & Hx1).
  destruct (reads_prefix_uint 4 _ _ _ E2) as (p2 & -> & Hc2 & Hx2).
  destruct (reads_prefix_raw 32 _ _ _ E3) as (p3 & -> & Hc3 & Hx3).
  destruct (reads_prefix_size _ _ _ E4) as (p4 & -> & Hc4 & Hx4).
  destruct (reads_prefix_entries _ _ _ _ _ _ E5) as (p5 & -> & Hc5 & Hx5).
  destruct (reads_prefix_fresh_fold _ _ _ _ _ E6) as (p6 & -> & Hc6 & Hx6).
  destruct (reads_prefix_used_fold _ _ _ _ _ E7) as (p7 & -> & Hc7 & Hx7).
  rewrite length_seq in Hc6, Hc7.
  split.
  { rewrite !length_app. unfold MAX_FRESH_BUCKETS, MAX_USED_BUCKETS in *. lia. }
  split; [by rewrite <- Hver|]. split; [by rewrite <- Hmag|].
  intros ys Hys. rewrite app_nil_r.
  rewrite <- !app_assoc. unfold btc_uint32_read in *.
  rewrite Hx1. cbn [mbind option_bind]. rewrite Hx2. cbn [mbind option_bind].
  rewrite decide_False by (by intros []).
  rewrite decide_False by (by intros []).
  rewrite Hx3. cbn [mbind option_bind]. rewrite Hx4. cbn [mbind option_bind].
  rewrite Hx5. cbn [mbind option_bind]. rewrite Hx6. cbn [mbind option_bind].
  rewrite Hx7. cbn [mbind option_bind]. by rewrite decide_True.
Qed.

(** X9: when [btc_addrman_import] fails it leaves an empty store: no
    entry, every bucket empty, both totals zero and a new key; the ban
    table and the local addresses are not touched. *)
Theorem import_failure_empties `{Collab} (man : btc_addrman) (now : Z)
  (rk1 rk2 xs : list Z) :
  (btc_addrman_import man now rk1 rk2 xs).2 = false →
  let r := (btc_addrman_import man now rk1 rk2 xs).1 in
  man_map r = ∅ ∧ man_total_fresh r = 0 ∧ man_total_used r = 0 ∧
  (∀ i b, man_fresh r !! i = Some b → b = ∅) ∧
  (∀ i l, man_used r !! i = Some l → l = []) ∧
  man_key r = rk2 ∧
  man_banned r = man_banned man ∧ man_local r = man_local man.
Proof.
  unfold btc_addrman_import, btc_addrman_read.
  destruct (read_body _ now xs) as [man1|]; [done|]. intros _. cbn.
  split; [done|]. split; [done|]. split; [done|].
  split; [by intros i b (? & -> & _)%list_lookup_fmap_Some|].
  split; [by intros i b (? & -> & _)%list_lookup_fmap_Some|]. done.
Qed.

Lemma import_failure_empties_witness :
  let r := (@btc_addrman_import toy man1 now0 key0 key0 []).1 in
  man_map r = ∅ ∧ man_total_fresh r = 0 ∧ man_total_used r = 0 ∧
  (∀ i b, man_fresh r !! i = Some b → b = ∅) ∧
  (∀ i l, man_used r !! i = Some l → l = []) ∧
  man_key r = key0 ∧
  man_banned r = man_banned man1 ∧ man_local r = man_local man1.
Proof.
  apply (@import_failure_empties toy man1 now0 key0 key0 []). reflexivity.
Defined.

(** X10: an image that [btc_addrman_import] accepts has at least 1321
    bytes (the header, the count of entries and one count for each of
    the 1280 buckets), starts with the version 0 and carries the magic
    of the manager's network. *)
Theorem import_accepts_header `{Collab} (man : btc_addrman) (now : Z)
  (rk1 rk2 xs : list Z) :
  (btc_addrman_import man now rk1 rk2 xs).2 = true →
  (1321 ≤ length xs)%nat ∧
  le_value (take 4 xs) = SER_VERSION ∧
  le_value (take 4 (drop 4 xs)) = man_magic man.
Proof.
  unfold btc_addrman_import, btc_addrman_read.
  destruct (read_body _ now xs) as [man1|] eqn:E; [|done]. intros _.
  destruct (read_body_reads _ _ _ _ E) as (H1 & H2 & H3 & _). done.
Qed.

Lemma import_accepts_header_witness :
  (1321 ≤ length image_one)%nat ∧
  le_value (take 4 image_one) = SER_VERSION ∧
  le_value (take 4 (drop 4 image_one)) = man_magic man0.
Proof.
  apply (@import_accepts_header toy man0 now0 key0 key0 image_one).
  by vm_compute.
Defined.

(** X11: an image is accepted as a whole: when [btc_addrman_import]
    accepts an image it rejects the same image followed by any further
    byte. *)
Theorem import_rejects_trailing `{Collab} (man : btc_addrman) (now : Z)
  (rk1 rk2 xs ys : list Z) :
  (btc_addrman_import man now rk1 rk2 xs).2 = true → ys ≠ [] →
  (btc_addrman_import man now rk1 rk2 (xs ++ ys)).2 = false.
Proof.
  unfold btc_addrman_import, btc_addrman_read.
  destruct (read_body _ now xs) as [man1|] eqn:E; [|done]. intros _ Hys.
  destruct (read_body_reads _ _ _ _ E) as (_ & _ & _ & Hext).
  by rewrite (Hext ys Hys).
Qed.

Lemma import_rejects_trailing_witness :
  (@btc_addrman_import toy man0 now0 key0 key0 (image_one ++ [0])).2 = false.
Proof.
  apply (@import_rejects_trailing toy man0 now0 key0 key0 image_one [0]);
    [by vm_compute|done].
Defined.

(** ** The ban table *)

Lemma ban_twice (man : btc_addrman) (t1 t2 : Z) (a : btc_netaddr) (p : Z) :
  btc_addrman_ban (btc_addrman_ban man t1 a) t2 (set_port p a)
  = btc_addrman_ban man t1 a.
Proof.
  unfold btc_addrman_ban at 1.
  change (key_of (set_time t2 (set_port 0 (set_port p a)))) with (raw a, 0).
  destruct (banned_after_ban man t1 a) as (r & -> & _). done.
Qed.

(** X12: a ban is not extended by banning the address again: when an
    address that was not banned is banned at [t1] and again at [t2]
    (under any port), [btc_addrman_is_banned] answers no as soon as the
    clock passes [t1] plus the ban time. *)
Theorem reban_does_not_extend (man : btc_addrman) (t1 t2 now p : Z)
  (a : btc_netaddr) :
  small64 (man_ban_time man) → small64 t1 →
  man_banned man !! (raw a, 0) = None →
  now > t1 + man_ban_time man →
  (btc_addrman_is_banned
     (btc_addrman_ban (btc_addrman_ban man t1 a) t2 (set_port p a)) now a).2
  = false.
Proof.
  intros Hb Ht Hnone Hnow. rewrite ban_twice.
  assert (Hl : man_banned (btc_addrman_ban man t1 a) !! (raw a, 0)
               = Some (set_time t1 (set_port 0 a))).
  { unfold btc_addrman_ban.
    change (key_of (set_time t1 (set_port 0 a))) with (raw a, 0).
    rewrite Hnone. cbn. apply lookup_insert_eq. }
  assert (Hbt : man_ban_time (btc_addrman_ban man t1 a) = man_ban_time man).
  { unfold btc_addrman_ban. by destruct (man_banned man !! _). }
  rewrite (is_banned_expired (btc_addrman_ban man t1 a) now a
             (set_time t1 (set_port 0 a))); [done| |done|done|].
  - by rewrite Hbt.
  - by rewrite Hbt.
Qed.

Lemma reban_does_not_extend_witness :
  (btc_addrman_is_banned
     (btc_addrman_ban (btc_addrman_ban man0 now0 addr1) (now0 + 86000)
        (set_port 1 addr1)) (now0 + 86401) addr1).2 = false.
Proof.
  apply (reban_does_not_extend man0 now0 (now0 + 86000) (now0 + 86401) 1 addr1);
    by_eval.
Defined.

(** X13: after [btc_addrman_unban] the address is not banned under any
    port, and the answer for an address with other [raw] bytes is what
    it was; after [btc_addrman_clear_banned] no address is banned. *)
Theorem unban_lifts_ban (man : btc_addrman) (now p : Z) (a a' : btc_netaddr) :
  (btc_addrman_is_banned (btc_addrman_unban man a) now (set_port p a)).2
  = false ∧
  (raw a' ≠ raw a →
   (btc_addrman_is_banned (btc_addrman_unban man a) now a').2
   = (btc_addrman_is_banned man now a').2) ∧
  (btc_addrman_is_banned (btc_addrman_clear_banned man) now a').2 = false.
Proof.
  unfold btc_addrman_is_banned, btc_addrman_unban, btc_addrman_clear_banned.
  cbn [man_banned set_banned man_ban_time].
  change (key_of (set_port 0 (set_port p a))) with (raw a, 0).
  change (key_of (set_port 0 a)) with (raw a, 0).
  change (key_of (set_port 0 a')) with (raw a', 0).
  split; [by rewrite lookup_delete_eq|]. split.
  - intros Hne. rewrite lookup_delete_ne by congruence.
    destruct (man_banned man !! (raw a', 0)); [|done]. by case_decide.
  - by rewrite lookup_empty.
Qed.

(** ** The local addresses *)

(** X14: [btc_addrman_add_local] refuses an address that is not
    routable; it records a routable one that is not yet in the table,
    with the services of the manager and the given score, after which
    [btc_addrman_has_local] finds it and a second
    [btc_addrman_add_local] of it is refused. *)
Theorem add_local_once `{Collab} (man : btc_addrman) (a : btc_netaddr)
  (sc sc' : Z) :
  (btc_netaddr_is_routable a = false →
   btc_addrman_add_local man a sc = (man, false)) ∧
  (btc_netaddr_is_routable a = true →
   btc_addrman_has_local man a = false →
   let r := btc_addrman_add_local man a sc in
   r.2 = true ∧
   man_local r.1 !! key_of a =
     Some {| laddr := set_services (man_services man) a;
             ltype := sc; score := sc |} ∧
   btc_addrman_has_local r.1 a = true ∧
   btc_addrman_add_local r.1 a sc' = (r.1, false)).
Proof.
  unfold btc_addrman_add_local, btc_addrman_has_local. split.
  - by intros ->.
  - intros -> Hno%bool_decide_eq_false. cbn [negb].
    rewrite decide_False by done. cbn.
    split; [done|]. split; [apply lookup_insert_eq|].
    split; [apply bool_decide_eq_true; by rewrite lookup_insert_eq|].
    rewrite decide_True; [done|]. by rewrite lookup_insert_eq.
Qed.

Lemma get_local_src_fold `{Collab} (s : btc_netaddr)
  (l : list (addrkey * btc_local)) (st : Z * Z * option addrkey) :
  let st' := foldl (get_local_src_step s) st l in
  (∀ kv, kv ∈ l →
     btc_netaddr_reachability s (laddr kv.2) < st'.1.1 ∨
     (btc_netaddr_reachability s (laddr kv.2) = st'.1.1 ∧
      score kv.2 <= st'.1.2)) ∧
  (st'.1.1 > st.1.1 ∨ (st'.1.1 = st.1.1 ∧ st'.1.2 >= st.1.2)) ∧
  (st' = st ∨
   ∃ kv, kv ∈ l ∧ st' = (btc_netaddr_reachability s (laddr kv.2),
                          score kv.2, Some kv.1)).
Proof.
  revert st. induction l as [|kv l IH]; intros st.
  - cbn. split; [by intros kv Hkv; inversion Hkv|]. split; [right; lia|by left].
  - cbn [foldl]. cbv zeta in IH.
    destruct (IH (get_local_src_step s st kv)) as (IH1 & IH2 & IH3).
    set (st' := foldl (get_local_src_step s) (get_local_src_step s st kv) l)
      in *.
    cbv zeta.
    assert (Hstep :
      let s1 := get_local_src_step s st kv in
      (btc_netaddr_reachability s (laddr kv.2) < s1.1.1 ∨
       (btc_netaddr_reachability s (laddr kv.2) = s1.1.1 ∧
        score kv.2 <= s1.1.2)) ∧
      (s1.1.1 > st.1.1 ∨ (s1.1.1 = st.1.1 ∧ s1.1.2 >= st.1.2)) ∧
      (s1 = st ∨ s1 = (btc_netaddr_reachability s (laddr kv.2),
                       score kv.2, Some kv.1))).
    { destruct st as [[br bs] bd]. unfold get_local_src_step. cbn.
      repeat case_decide; cbn; split; try split; try lia; auto. }
    cbv zeta in Hstep. destruct Hstep as (S1 & S2 & S3).
    split; [|split].
    + intros kv' [Heq|Hin]%elem_of_cons; [subst kv'|by apply IH1]. lia.
    + lia.
    + destruct IH3 as [->|(kv' & Hin & ->)].
      * destruct S3 as [-> | ->]; [by left|]. right. exists kv.
        split; [left|done].
      * right. exists kv'. split; [by right|done].
Qed.

(** X15: for a given source, [btc_addrman_get_local] answers with the
    record of best reachability from that source and, among those, of
    best score: no record of the table is better on either count. *)
Theorem get_local_src_best `{Collab} (man : btc_addrman) (now : Z)
  (s : btc_netaddr) (k : addrkey) :
  (btc_addrman_get_local man now (Some s)).2 = Some k →
  ∃ l, man_local man !! k = Some l ∧
       ∀ k' l', man_local man !! k' = Some l' →
         btc_netaddr_reachability s (laddr l')
           < btc_netaddr_reachability s (laddr l) ∨
         (btc_netaddr_reachability s (laddr l')
            = btc_netaddr_reachability s (laddr l) ∧
          score l' <= score l).
Proof.
  unfold btc_addrman_get_local.
  destruct (get_local_src_fold s (map_to_list (man_local man)) (-1, -1, None))
    as (H1 & _ & H3).
  cbv zeta in H1, H3.
  set (st' := foldl (get_local_src_step s) (-1, -1, None)
                (map_to_list (man_local man))) in *.
  destruct H3 as [Heq|([k0 l0] & Hin & Heq)].
  { rewrite Heq. done. }
  rewrite Heq in H1 |- *. cbn. intros [= <-].
  exists l0. split; [by apply elem_of_map_to_list|].
  intros k' l' Hl'. apply (H1 (k', l')). by apply elem_of_map_to_list.
Qed.

Lemma get_local_src_best_witness :
  ∃ l, man_local man_loc !! key_of addr1 = Some l ∧
       ∀ k' l', man_local man_loc !! k' = Some l' →
         @btc_netaddr_reachability toy addr2 (laddr l')
           < @btc_netaddr_reachability toy addr2 (laddr l) ∨
         (@btc_netaddr_reachability toy addr2 (laddr l')
            = @btc_netaddr_reachability toy addr2 (laddr l) ∧
          score l' <= score l).
Proof.
  apply (@get_local_src_best toy man_loc now0 addr2 (key_of addr1)).
  by vm_compute.
Defined.

(** ** No check of the code fails in a store built by the operations *)

Lemma fresh_bucket_lt `{Collab} (man : btc_addrman) (e : btc_addrent) :
  length (man_fresh man) = MAX_FRESH_BUCKETS →
  (fresh_bucket man e < length (man_fresh man))%nat.
Proof.
  intros Hl. unfold fresh_bucket. cbv zeta. rewrite Hl.
  set (h := btc_read32le _). unfold MAX_FRESH_BUCKETS.
  pose proof (Z.mod_pos_bound h (Z.of_nat 1024) ltac:(lia)). lia.
Qed.

Lemma used_bucket_lt `{Collab} (man : btc_addrman) (e : btc_addrent) :
  length (man_used man) = MAX_USED_BUCKETS →
  (used_bucket man e < length (man_used man))%nat.
Proof.
  intros Hl. unfold used_bucket. cbv zeta. rewrite Hl.
  set (h := btc_read32le _). unfold MAX_USED_BUCKETS.
  pose proof (Z.mod_pos_bound h (Z.of_nat 256) ltac:(lia)). lia.
Qed.

Lemma add_insert_total `{Collab} (s : bool) (zs : gset addrkey) (d : Z)
  (man : btc_addrman) (now : Z) (entry : btc_addrent) (known : bool) :
  store_inv s zs d man →
  (if known then man_map man !! key_of (addr entry) = Some entry
   else True) →
  is_Some (add_insert man now entry known).
Proof.
  intros Hinv Hk. unfold add_insert.
  set (i := fresh_bucket man entry). set (k := key_of (addr entry)) in *.
  destruct (lookup_lt_is_Some_2 (man_fresh man) i) as [b Hi];
    [apply fresh_bucket_lt, (inv_fresh_len Hinv)|].
  rewrite Hi. cbn [mbind option_bind].
  case_decide as Hkb; [done|].
  case_decide as Hfull.
  - destruct (evict_fresh_inv s zs d now man i b Hinv Hi)
      as (man1 & b1 & -> & Hinv1 & Hi1 & Hsub & Hsz & Hfr).
    { intros ->. rewrite size_empty in Hfull. unfold MAX_ENTRIES in *. lia. }
    cbn [mbind option_bind]. destruct known; [|done].
    by rewrite (Hfr k Hkb), Hk.
  - cbn [mbind option_bind]. destruct known; [|done]. by rewrite Hk.
Qed.

Lemma btc_addrman_add_total `{Collab} (man : btc_addrman) (now u : Z)
  (a : btc_netaddr) (sr : option btc_netaddr) :
  wf man → netaddr_ok a → port a ≠ 0 →
  is_Some (btc_addrman_add man now u a sr).
Proof.
  intros Hinv Ha Hport. unfold btc_addrman_add.
  rewrite decide_False by done.
  destruct (man_map man !! key_of a) as [entry|] eqn:He.
  - destruct (inv_entry Hinv _ _ He) as [Hkey Hok].
    destruct (add_touch_props now a sr entry Ha Hok) as (Hk2 & Hok2 & Hu2 & Hrc2).
    destruct (add_touch now a sr entry) as [entry2 upd]. simpl in *.
    set (man1 := set_map _ _).
    assert (Hinv1 : wf man1).
    { unfold man1. destruct upd.
      - apply (store_inv_ext true ∅ 0
                 (set_map (<[key_of a:=entry2]> (man_map man)) man));
          try done.
        by apply (store_inv_update true ∅ 0 man (key_of a) entry entry2).
      - by apply (store_inv_update true ∅ 0 man (key_of a) entry entry2). }
    case_decide; [done|].
    rewrite Hu2. destruct (used entry) eqn:Hused; [done|].
    destruct (inv_fresh_rc Hinv _ _ He Hused) as (Hr1 & _ & _ & Hr2).
    specialize (Hr2 eq_refl). rewrite <- Hrc2 in Hr1, Hr2.
    rewrite decide_True by lia.
    case_decide; [done|]. rewrite decide_True by lia.
    case_decide; [done|].
    apply (add_insert_total true ∅ 0); [done|].
    unfold man1. simpl. rewrite Hk2, Hkey. apply lookup_insert_eq.
  - apply (add_insert_total true ∅ 1); [|done].
    destruct (store_bound _ _ _ _ Hinv) as [Hbf Hbu].
    pose proof (count_used_nonneg false (man_map man)).
    apply (store_inv_ext true ∅ 1
             (set_total_fresh (man_total_fresh man + 1) man)); try done.
    { simpl. rewrite (inv_total_fresh Hinv). apply wrapsz_small. lia. }
    by apply store_inv_pending.
Qed.

Lemma chain_head_total (k : addrkey) (used : list (list addrkey)) :
  k ∈ concat used → is_Some (chain_head k used).
Proof.
  induction used as [|l used IH]; [by inversion 1|].
  cbn [concat chain_head]. intros Hk. case_decide as Hl.
  - destruct l; [by inversion Hl|]. by eexists.
  - apply IH. by apply elem_of_app in Hk as [?|?].
Qed.

Lemma find_head_total (k h : addrkey) (used : list (list addrkey)) (n : nat) :
  chain_head k used = Some h → is_Some (find_head h used n).
Proof.
  revert n. induction used as [|l used IH]; intros n; [done|].
  cbn [chain_head find_head]. case_decide as Hl.
  - intros ->. by rewrite decide_True.
  - intros Hc. case_decide; [done|]. by apply IH.
Qed.

Lemma btc_addrman_remove_total (man : btc_addrman) (a : btc_netaddr) :
  wf man → is_Some (btc_addrman_remove man a).
Proof.
  intros Hinv. unfold btc_addrman_remove.
  destruct (man_map man !! key_of a) as [e|] eqn:He; [|done].
  destruct (inv_entry Hinv _ _ He) as [Hkey _]. rewrite Hkey.
  destruct (wf_entry man _ e Hinv He) as (Hrc & _ & _).
  destruct (used e) eqn:Hu.
  - destruct (inv_used_rc Hinv _ _ He Hu) as [Hz Hin].
    rewrite decide_True by done.
    destruct (chain_head_total _ _ Hin) as [h Hh]. rewrite Hh.
    cbn [mbind option_bind].
    destruct (find_head_total _ _ _ 0 Hh) as [i Hfi]. rewrite Hfi.
    cbn [mbind option_bind]. cbn [man_map set_total_used set_usedb].
    by rewrite decide_True by (by rewrite He).
  - destruct (fresh_del_all_spec (key_of a) (man_fresh man) 0 (ref_count e)
                None) as (old & -> & _).
    rewrite decide_True by lia. cbn [mbind option_bind].
    cbn [man_map set_total_fresh set_fresh].
    by rewrite decide_True by (by rewrite He).
Qed.

Lemma evict_used_fold_min (m : gmap addrkey btc_addrent) (l : list addrkey)
  (ko : addrkey) (eo : btc_addrent) :
  m !! ko = Some eo → (∀ k, k ∈ l → is_Some (m !! k)) →
  ∃ kv ev, foldl (evict_used_step m) (Some ko) l = Some kv ∧
           m !! kv = Some ev ∧ (kv = ko ∨ kv ∈ l) ∧
           time (addr ev) <= time (addr eo) ∧
           ∀ k e, k ∈ l → m !! k = Some e → time (addr ev) <= time (addr e).
Proof.
  revert ko eo. induction l as [|k l IH]; intros ko eo Hko Hl.
  - exists ko, eo. split; [done|]. split; [done|]. split; [by left|].
    split; [lia|]. by intros k e Hk; inversion Hk.
  - destruct (Hl k) as [e He]; [left|].
    cbn [foldl]. unfold evict_used_step at 2. cbn [mbind option_bind].
    rewrite Hko. cbn [mbind option_bind]. rewrite He. cbn [mbind option_bind].
    case_decide as Hlt.
    + destruct (IH k e He) as (kv & ev & -> & Hev & Hin & Hle & Hmin);
        [intros; apply Hl; by right|].
      exists kv, ev. split; [done|]. split; [done|].
      split; [right; destruct Hin as [->|?]; [left|by right]|].
      split; [lia|].
      intros k' e' [Heq|Hk']%elem_of_cons He'; [|by apply (Hmin k')].
      subst k'. assert (e' = e) as -> by congruence. done.
    + destruct (IH ko eo Hko) as (kv & ev & -> & Hev & Hin & Hle & Hmin);
        [intros; apply Hl; by right|].
      exists kv, ev. split; [done|]. split; [done|].
      split; [destruct Hin as [->|?]; [by left|right; by right]|].
      split; [done|].
      intros k' e' [Heq|Hk']%elem_of_cons He'; [|by apply (Hmin k')].
      subst k'. assert (e' = e) as -> by congruence. lia.
Qed.

Lemma evict_used_min (man : btc_addrman) (bucket : list addrkey) :
  bucket ≠ [] → (∀ k, k ∈ bucket → is_Some (man_map man !! k)) →
  ∃ kv ev, evict_used man bucket = Some kv ∧ kv ∈ bucket ∧
           man_map man !! kv = Some ev ∧
           ∀ k e, k ∈ bucket → man_map man !! k = Some e →
                  time (addr ev) <= time (addr e).
Proof.
  intros Hne Hl. destruct bucket as [|h t]; [done|].
  destruct (Hl h) as [eh Heh]; [left|].
  unfold evict_used. cbn [head].
  destruct (evict_used_fold_min (man_map man) (h :: t) h eh Heh Hl)
    as (kv & ev & -> & Hev & Hin & _ & Hmin).
  exists kv, ev. split; [done|].
  split; [destruct Hin as [->|?]; [left|done]|]. done.
Qed.

(** X16: [evict_used] answers with an entry of the bucket whose
    address was seen longest ago: no entry of the bucket has a smaller
    [addr.time]. *)
Theorem evict_used_oldest (man : btc_addrman) (bucket : list addrkey) :
  bucket ≠ [] → (∀ k, k ∈ bucket → is_Some (man_map man !! k)) →
  ∃ kv ev, evict_used man bucket = Some kv ∧ kv ∈ bucket ∧
           man_map man !! kv = Some ev ∧
           ∀ k e, k ∈ bucket → man_map man !! k = Some e →
                  time (addr ev) <= time (addr e).
Proof. apply evict_used_min. Qed.

(** [btc_addrman_mark_ack] on a fresh entry whose used bucket is full. *)
Lemma mark_ack_full_result `{Collab} (man : btc_addrman) (now : Z)
  (a : btc_netaddr) (svc : Z) (entry : btc_addrent) (bucket : list addrkey) :
  wf man →
  man_map man !! key_of a = Some entry →
  used entry = false →
  let merged := set_addr (set_services (Z.lor (services (addr entry)) svc)
                            (addr entry)) entry in
  man_used man !! used_bucket man merged = Some bucket →
  ¬ Z.of_nat (length bucket) < MAX_ENTRIES →
  ∃ man' kv ev,
    btc_addrman_mark_ack man now a svc = Some man' ∧
    kv ∈ bucket ∧ man_map man !! kv = Some ev ∧
    (∀ k e, k ∈ bucket → man_map man !! k = Some e →
            time (addr ev) <= time (addr e)) ∧
    man_map man' !! key_of a =
      Some (set_used true
              (set_ref_count 0 (set_attempt 0 now (set_success now merged)))) ∧
    man_map man' !! kv = Some (set_ref_count 1 (set_used false ev)) ∧
    man_used man' !! used_bucket man merged
      = Some (list_replace kv (key_of a) bucket) ∧
    (∃ f b, man_fresh man' !! f = Some b ∧ kv ∈ b) ∧
    man_total_fresh man' = man_total_fresh man ∧
    man_total_used man' = man_total_used man.
Proof.
  intros Hinv He Hu merged Hib Hfull. unfold btc_addrman_mark_ack. rewrite He.
  destruct (inv_entry Hinv _ _ He) as [Hkey Hok].
  destruct (wf_entry man _ entry Hinv He) as (Hrc & _ & Hpos).
  specialize (Hpos Hu).
  cbv zeta.
  set (entry1 := set_attempt 0 now (set_success now (set_addr _ entry))).
  assert (Hk1 : key_of (addr entry1) = key_of a) by done.
  rewrite Hk1. set (k := key_of a) in *.
  change (used entry1) with (used entry).
  change (ref_count entry1) with (ref_count entry).
  rewrite Hu. rewrite decide_True by lia. simpl man_fresh.
  destruct (fresh_del_all_spec k (man_fresh man) 0 (ref_count entry) None)
    as (old & -> & Hor).
  destruct Hor as [[Hz _]|(j & bo & -> & Hio & Hkbo)]; [lia|].
  rewrite decide_True by lia.
  set (entry2 := set_ref_count _ entry1).
  set (man2 := set_total_fresh _ _).
  assert (Hub : used_bucket man2 entry2 = used_bucket man merged) by done.
  rewrite Hub. change (man_used man2) with (man_used man). rewrite Hib.
  cbn [mbind option_bind]. rewrite decide_False by done.
  assert (Hknu : k ∉ concat (man_used man)).
  { intros Hc. destruct (inv_used_sub Hinv k Hc) as (? & ? & ?). congruence. }
  assert (Hkb : k ∉ bucket).
  { intros Hc. apply Hknu.
    by apply used_bucket_sub with (used_bucket man merged) bucket. }
  assert (Hm2 : ∀ x, x ≠ k → man_map man2 !! x = man_map man !! x).
  { intros x Hx. unfold man2. cbn [man_map set_total_fresh set_fresh set_map].
    by rewrite !lookup_insert_ne. }
  assert (Hbm : ∀ x, x ∈ bucket →
                ∃ e, man_map man !! x = Some e ∧ used e = true).
  { intros x Hx. apply (inv_used_sub Hinv).
    by apply used_bucket_sub with (used_bucket man merged) bucket. }
  destruct (evict_used_min man2 bucket) as (kv & ev & -> & Hkv & Hev & Hmin).
  { intros ->. simpl in Hfull. unfold MAX_ENTRIES in Hfull. lia. }
  { intros x Hx. destruct (Hbm x Hx) as (e & Hex & _).
    rewrite Hm2 by (by intros ->). by eexists. }
  cbn [mbind option_bind].
  assert (Hkvk : kv ≠ k) by (by intros ->).
  rewrite Hev. cbn [mbind option_bind].
  rewrite Hm2 in Hev by done.
  destruct (Hbm kv Hkv) as (ev' & Hev' & Huv).
  assert (ev' = ev) as -> by congruence.
  destruct (inv_used_rc Hinv kv ev Hev Huv) as [Hrcv _].
  destruct (inv_entry Hinv kv ev Hev) as [Hkeyv _].
  assert (Hfl : length (man_fresh man2) = MAX_FRESH_BUCKETS).
  { unfold man2. cbn [man_fresh set_total_fresh set_fresh].
    by rewrite length_fmap, (inv_fresh_len Hinv). }
  destruct (lookup_lt_is_Some_2 (man_fresh man2) (fresh_bucket man2 ev))
    as [fb Hfb]; [by apply fresh_bucket_lt|].
  change (man_fresh man2)
    with ((λ b : gset addrkey, b ∖ {[k]}) <$> man_fresh man) in Hfb.
  rewrite Hfb. cbn [mbind option_bind].
  set (f := if decide (Z.of_nat (size fb) >= MAX_ENTRIES) then _ else _).
  assert (Hf : (f < length (man_fresh man2))%nat).
  { unfold f. case_decide.
    - rewrite Hfl, <- (inv_fresh_len Hinv). cbn [Nat.add].
      by apply lookup_lt_Some with bo.
    - by apply lookup_lt_Some with fb. }
  cbn [man_map set_usedb set_map].
  rewrite lookup_insert_ne by done. rewrite Hm2 by done. rewrite Hev.
  cbn [mbind option_bind].
  change (ref_count (set_used false ev)) with (ref_count ev).
  rewrite decide_True by done.
  pose proof (used_pos _ _ _ _ _ _ _ Hinv He Hu) as Hposc.
  destruct (store_bound _ _ _ _ Hinv) as [_ Hbu].
  pose proof (count_used_nonneg true (man_map man)) as Hnn.
  eexists _, kv, ev. split; [reflexivity|].
  split; [done|]. split; [done|]. split.
  { intros x e Hx Hxe. apply (Hmin x e Hx). rewrite Hm2; [done|].
    by intros ->. }
  cbn [man_map man_used man_fresh man_total_fresh man_total_used
       set_total_fresh set_map set_fresh set_usedb].
  split.
  { rewrite !lookup_insert_ne by done. rewrite lookup_insert_eq.
    unfold entry2, entry1, merged.
    replace (ref_count entry - fresh_refs k (man_fresh man)) with 0 by lia.
    done. }
  split.
  { rewrite lookup_insert_eq. rewrite Hrcv. done. }
  split.
  { rewrite list_lookup_alter_eq, Hib. done. }
  split.
  { destruct (lookup_lt_is_Some_2 (man_fresh man2) f Hf) as [b Hb].
    unfold man2 in Hb. cbn [man_fresh set_total_fresh set_fresh] in Hb.
    eexists f, _. rewrite list_lookup_alter_eq, Hb. cbn.
    split; [done|]. change (key_of (addr (set_used false ev)))
      with (key_of (addr ev)). rewrite Hkeyv. set_solver. }
  unfold man2. cbn [man_total_fresh man_total_used set_total_fresh set_map
                    set_fresh].
  rewrite (inv_total_fresh Hinv), Z.add_0_r.
  split; [|done].
  rewrite (wrapsz_small (count_used false (man_map man) - 1)) by lia.
  rewrite wrapsz_small; lia.
Qed.

Lemma btc_addrman_mark_ack_total `{Collab} (man : btc_addrman) (now : Z)
  (a : btc_netaddr) (svc : Z) :
  wf man → is_Some (btc_addrman_mark_ack man now a svc).
Proof.
  intros Hinv.
  destruct (man_map man !! key_of a) as [entry|] eqn:He;
    [|unfold btc_addrman_mark_ack; by rewrite He].
  destruct (used entry) eqn:Hu.
  { unfold btc_addrman_mark_ack. rewrite He. cbv zeta.
    change (used (set_attempt 0 now (set_success now (set_addr _ entry))))
      with (used entry). by rewrite Hu. }
  set (merged := set_addr (set_services (Z.lor (services (addr entry)) svc)
                             (addr entry)) entry).
  destruct (lookup_lt_is_Some_2 (man_used man) (used_bucket man merged))
    as [bucket Hib]; [apply used_bucket_lt, (inv_used_len Hinv)|].
  destruct (decide (Z.of_nat (length bucket) < MAX_ENTRIES)) as [Hroom|Hfull].
  - unfold btc_addrman_mark_ack. rewrite He.
    destruct (wf_entry man _ entry Hinv He) as (Hrc & _ & Hpos).
    specialize (Hpos Hu). cbv zeta.
    set (entry1 := set_attempt 0 now (set_success now (set_addr _ entry))).
    assert (Hk1 : key_of (addr entry1) = key_of (addr entry)) by done.
    rewrite Hk1. destruct (inv_entry Hinv _ _ He) as [-> _].
    change (used entry1) with (used entry).
    change (ref_count entry1) with (ref_count entry).
    rewrite Hu. rewrite decide_True by lia. simpl man_fresh.
    destruct (fresh_del_all_spec (key_of a) (man_fresh man) 0
                (ref_count entry) None) as (old & -> & Hor).
    destruct Hor as [[Hz _]|(j & bo & -> & Hio & Hkbo)]; [lia|].
    rewrite decide_True by lia.
    set (entry2 := set_ref_count _ entry1).
    set (man2 := set_total_fresh _ _).
    assert (Hub : used_bucket man2 entry2 = used_bucket man merged) by done.
    rewrite Hub. change (man_used man2) with (man_used man). rewrite Hib.
    cbn [mbind option_bind]. by rewrite decide_True by done.
  - destruct (mark_ack_full_result man now a svc entry bucket Hinv He Hu Hib
                Hfull) as (man' & kv & ev & -> & _). done.
Qed.

(** X17: in a store that has the invariants of the data model, when
    the used bucket of a fresh entry is full, [btc_addrman_mark_ack]
    swaps the entry with the oldest entry of that bucket: the entry
    takes the place of the oldest one in the list and becomes used, the
    oldest one becomes a fresh entry with one reference, held by a
    fresh bucket, and the two totals are what they were. *)
Theorem mark_ack_swaps_when_full `{Collab} (man : btc_addrman) (now : Z)
  (a : btc_netaddr) (svc : Z) (entry : btc_addrent) (bucket : list addrkey) :
  wf man →
  man_map man !! key_of a = Some entry →
  used entry = false →
  let merged := set_addr (set_services (Z.lor (services (addr entry)) svc)
                            (addr entry)) entry in
  man_used man !! used_bucket man merged = Some bucket →
  Z.of_nat (length bucket) >= MAX_ENTRIES →
  ∃ man' kv ev,
    btc_addrman_mark_ack man now a svc = Some man' ∧
    kv ∈ bucket ∧ man_map man !! kv = Some ev ∧
    (∀ k e, k ∈ bucket → man_map man !! k = Some e →
            time (addr ev) <= time (addr e)) ∧
    man_map man' !! key_of a =
      Some (set_used true
              (set_ref_count 0 (set_attempt 0 now (set_success now merged)))) ∧
    man_map man' !! kv = Some (set_ref_count 1 (set_used false ev)) ∧
    man_used man' !! used_bucket man merged
      = Some (list_replace kv (key_of a) bucket) ∧
    (∃ f b, man_fresh man' !! f = Some b ∧ kv ∈ b) ∧
    man_total_fresh man' = man_total_fresh man ∧
    man_total_used man' = man_total_used man.
Proof.
  intros Hinv He Hu merged Hib Hfull.
  apply mark_ack_full_result; first [done|lia].
Qed.

(** X18: in a store built without loading an image no operation stops
    at a failed check: every call returns, but [btc_addrman_add] of an
    address whose port is 0. *)
Theorem local_ops_never_abort `{Collab} (man : btc_addrman) (o : op) :
  reachable_local man → op_ok o →
  (∀ now u a s, o = OpAdd now u a s → port a ≠ 0) →
  is_Some (run_op man o).
Proof.
  intros Hinv%reachable_local_wf Hok Hport.
  destruct o; cbn [run_op]; try done.
  - destruct Hok as (_ & Ha & _).
    destruct (btc_addrman_add_total man now u a s Hinv Ha) as [r ->];
      [by apply (Hport now u a s)|]. done.
  - destruct (btc_addrman_remove_total man a Hinv) as [r ->]. done.
  - by apply btc_addrman_mark_ack_total.
Qed.

Lemma local_ops_never_abort_witness :
  is_Some (@run_op toy man1 (OpAdd now0 0 addr2 None)).
Proof.
  apply (@local_ops_never_abort toy man1 (OpAdd now0 0 addr2 None)).
  - apply reachable_local_man1.
  - unfold op_ok, netaddr_ok. by_eval.
  - intros now u a s [= _ _ <- _]. by_eval.
Defined.

Lemma addr_n_ok (i : Z) : 0 <= i < 256 → netaddr_ok (addr_n i).
Proof.
  intros Hi. unfold netaddr_ok, is_int64, is_uint64, is_uint16, addr_n.
  cbn [time services raw port]. split; [lia|]. split; [lia|]. split; [done|lia].
Qed.

Lemma promote_reachable `{Collab} (n : nat) (man man' : btc_addrman) :
  reachable_local man → (n ≤ 255)%nat → promote n man = Some man' →
  reachable_local man'.
Proof.
  revert man'. induction n as [|n IH]; intros man' Hr Hn.
  - by intros [= <-].
  - cbn [promote].
    destruct (promote n man) as [man1|]; [|done]. cbn [mbind option_bind].
    destruct (run_op man1 _) as [man2|] eqn:E2; [|done].
    cbn [mbind option_bind]. intros E3.
    assert (Hok : netaddr_ok (addr_n (Z.of_nat (S n))))
      by (apply addr_n_ok; lia).
    apply (reach_step _ man2 (OpMarkAck now0 (addr_n (Z.of_nat (S n))) 1));
      [|done| |done].
    + apply (reach_step _ man1 (OpAdd now0 0 (addr_n (Z.of_nat (S n))) None));
        [apply IH; [done|lia|done]|done| |done].
      split; [by_eval|]. by split.
    + split; [by_eval|]. split; [done|by_eval].
Qed.

Lemma reachable_local_man0 : @reachable_local toy man0.
Proof. apply reach_create; by_eval. Qed.

Lemma reachable_local_man_full : @reachable_local toy man_full.
Proof.
  unfold man_full.
  destruct (@promote toy 64 man0) as [m64|] eqn:E64;
    [|apply reachable_local_man0].
  cbn [mbind option_bind].
  destruct (@run_op toy m64 _) as [m65|] eqn:E65;
    [|apply reachable_local_man0].
  apply (@reach_step toy _ m64 (OpAdd now0 0 (addr_n 65) None));
    [|done| |done].
  - apply (@promote_reachable toy 64 man0); [apply reachable_local_man0|lia|done].
  - split; [by_eval|]. split; [|done]. apply addr_n_ok. lia.
Qed.

Lemma mark_ack_swaps_when_full_witness :
  ∃ man' kv ev,
    @btc_addrman_mark_ack toy man_full now0 (addr_n 65) 1 = Some man' ∧
    kv ∈ full_bucket ∧ man_map man_full !! kv = Some ev ∧
    (∀ k e, k ∈ full_bucket → man_map man_full !! k = Some e →
            time (addr ev) <= time (addr e)) ∧
    man_map man' !! key_of (addr_n 65) =
      Some (set_used true
              (set_ref_count 0
                 (set_attempt 0 now0
                    (set_success now0
                       (set_addr
                          (set_services
                             (Z.lor (services (addr (entry_n 65))) 1)
                             (addr (entry_n 65))) (entry_n 65)))))) ∧
    man_map man' !! kv = Some (set_ref_count 1 (set_used false ev)) ∧
    man_used man' !!
      @used_bucket toy man_full
        (set_addr (set_services (Z.lor (services (addr (entry_n 65))) 1)
                     (addr (entry_n 65))) (entry_n 65))
      = Some (list_replace kv (key_of (addr_n 65)) full_bucket) ∧
    (∃ f b, man_fresh man' !! f = Some b ∧ kv ∈ b) ∧
    man_total_fresh man' = man_total_fresh man_full ∧
    man_total_used man' = man_total_used man_full.
Proof.
  apply (@mark_ack_swaps_when_full toy man_full now0 (addr_n 65) 1
           (entry_n 65) full_bucket).
  - apply (@reachable_local_wf toy), reachable_local_man_full.
  - by vm_compute.
  - reflexivity.
  - by vm_compute.
  - by vm_compute.
Defined.

Lemma reachable_local_man3 : @reachable_local toy man3.
Proof.
  apply (@reach_step toy _ man1 (OpMarkAck now0 addr1 9)).
  - apply reachable_local_man1.
  - done.
  - by_eval.
  - by vm_compute.
Qed.

Lemma evict_used_oldest_witness :
  ∃ kv ev, evict_used man3 [key_of addr1] = Some kv ∧
           kv ∈ [key_of addr1] ∧
           man_map man3 !! kv = Some ev ∧
           ∀ k e, k ∈ [key_of addr1] → man_map man3 !! k = Some e →
                  time (addr ev) <= time (addr e).
Proof.
  apply (evict_used_oldest man3 [key_of addr1]).
  - discriminate.
  - intros k Hk%list_elem_of_singleton. subst k. eexists. by vm_compute.
Defined.

Lemma reachable_used_once_witness :
  ∃ i l, man_used man3 !! i = Some l ∧
         length (filter (λ x, x = key_of addr1) l) = 1%nat ∧
         ∀ j l', man_used man3 !! j = Some l' → key_of addr1 ∈ l' → j = i.
Proof.
  apply (@reachable_used_once toy man3 (key_of addr1)
           (set_used true
              (set_ref_count 0
                 (set_attempt 0 now0
                    (set_success now0
                       (set_addr (set_services (Z.lor 1 9) addr1)
                          (set_src (set_time now0 (man_addr man0))
                             (set_addr addr1 btc_addrent_init)))))))).
  - apply (@reachable_local_reachable toy), reachable_local_man3.
  - by vm_compute.
  - reflexivity.
Defined.

(** ** add and remove *)

(** [btc_addrman_add] of an unknown address whose fresh bucket has
    room. *)
Lemma add_new_result `{Collab} (st : bool) (zs : gset addrkey)
  (man : btc_addrman) (now u : Z)
  (a : btc_netaddr) (s : option btc_netaddr) (b : gset addrkey) :
  store_inv st zs 0 man → port a ≠ 0 → man_map man !! key_of a = None →
  let entry := set_src (default (man_addr man) s)
                 (set_addr a btc_addrent_init) in
  let entry1 :=
    if decide (time a <= 100000000 ∨ time a > add64 now (10 * 60))
    then set_addr (set_time (sub64 now (5 * 24 * 60 * 60)) a) entry
    else entry in
  man_fresh man !! fresh_bucket man entry1 = Some b →
  Z.of_nat (size b) < MAX_ENTRIES →
  btc_addrman_add man now u a s =
  Some (set_needs_flush true
          (set_map (<[key_of a := set_ref_count 1 entry1]> (man_map man))
             (set_fresh (<[fresh_bucket man entry1 := {[key_of a]} ∪ b]>
                           (man_fresh man))
                (set_total_fresh (man_total_fresh man + 1) man))), true).
Proof.
  intros Hinv Hport Hnone entry entry1 Hb Hroom.
  unfold btc_addrman_add. rewrite decide_False by done. rewrite Hnone.
  cbv zeta. fold entry.
  change (time (addr entry)) with (time a).
  change (addr entry) with a. fold entry1.
  unfold add_insert. cbv zeta.
  set (man1 := set_total_fresh _ man).
  assert (Hfb : fresh_bucket man1 entry1 = fresh_bucket man entry1) by done.
  rewrite Hfb. change (man_fresh man1) with (man_fresh man). rewrite Hb.
  cbn [mbind option_bind].
  assert (Hk : key_of (addr entry1) = key_of a).
  { unfold entry1. by case_decide. }
  rewrite Hk.
  rewrite decide_False.
  2:{ intros Hin.
      destruct (inv_fresh_sub Hinv _ b _ Hb Hin) as (? & ? & _). congruence. }
  rewrite decide_False by lia. cbn [mbind option_bind].
  assert (Hrc : ref_count entry1 = 0).
  { unfold entry1. by case_decide. }
  rewrite Hrc.
  destruct (store_bound _ _ _ _ Hinv) as [Hbf _].
  pose proof (count_used_nonneg false (man_map man)).
  f_equal. f_equal. unfold man1.
  cbn [man_map man_fresh set_total_fresh].
  rewrite (alter_as_insert _ _ _ _ Hb).
  rewrite wrapsz_small by (rewrite (inv_total_fresh Hinv); lia).
  done.
Qed.

(** X19: in every reachable store, [btc_addrman_add] of an unknown
    address with a port, whose fresh bucket has room, returns true: the
    global index gets an entry
    for it with one reference, the address as given but for a time that
    is reset to five days ago when it is not after 100000000 or more
    than ten minutes ahead, and the given source or else the manager's
    own address; the key joins the bucket and [total_fresh] grows by
    one; the used buckets are not touched. *)
Theorem add_new_address `{Collab} (man : btc_addrman) (now u : Z)
  (a : btc_netaddr) (s : option btc_netaddr) (b : gset addrkey) :
  reachable man → port a ≠ 0 → man_map man !! key_of a = None →
  let entry := set_src (default (man_addr man) s)
                 (set_addr a btc_addrent_init) in
  let entry1 :=
    if decide (time a <= 100000000 ∨ time a > add64 now (10 * 60))
    then set_addr (set_time (sub64 now (5 * 24 * 60 * 60)) a) entry
    else entry in
  man_fresh man !! fresh_bucket man entry1 = Some b →
  Z.of_nat (size b) < MAX_ENTRIES →
  ∃ man',
    btc_addrman_add man now u a s = Some (man', true) ∧
    man_map man' = <[key_of a := set_ref_count 1 entry1]> (man_map man) ∧
    man_fresh man' = <[fresh_bucket man entry1 := {[key_of a]} ∪ b]>
                       (man_fresh man) ∧
    man_total_fresh man' = man_total_fresh man + 1 ∧
    man_used man' = man_used man ∧
    man_total_used man' = man_total_used man ∧
    man_needs_flush man' = true.
Proof.
  intros [zs Hinv]%reachable_inv Hport Hnone entry entry1 Hb Hroom.
  eexists. split; [by apply (add_new_result false zs)|]. done.
Qed.

Lemma add_new_address_witness :
  ∃ man',
    @btc_addrman_add toy man0 now0 0 addr1 None = Some (man', true) ∧
    man_map man' =
      <[key_of addr1 :=
          set_ref_count 1
            (if decide (time addr1 <= 100000000 ∨
                        time addr1 > add64 now0 (10 * 60))
             then set_addr (set_time (sub64 now0 (5 * 24 * 60 * 60)) addr1)
                    (set_src (default (man_addr man0) None)
                       (set_addr addr1 btc_addrent_init))
             else set_src (default (man_addr man0) None)
                    (set_addr addr1 btc_addrent_init))]> (man_map man0) ∧
    man_fresh man' =
      <[@fresh_bucket toy man0
          (if decide (time addr1 <= 100000000 ∨
                      time addr1 > add64 now0 (10 * 60))
           then set_addr (set_time (sub64 now0 (5 * 24 * 60 * 60)) addr1)
                  (set_src (default (man_addr man0) None)
                     (set_addr addr1 btc_addrent_init))
           else set_src (default (man_addr man0) None)
                  (set_addr addr1 btc_addrent_init))
        := {[key_of addr1]} ∪ ∅]> (man_fresh man0) ∧
    man_total_fresh man' = man_total_fresh man0 + 1 ∧
    man_used man' = man_used man0 ∧
    man_total_used man' = man_total_used man0 ∧
    man_needs_flush man' = true.
Proof.
  apply (@add_new_address toy man0 now0 0 addr1 None ∅).
  - apply reachable_man0.
  - by_eval.
  - reflexivity.
  - by vm_compute.
  - by_eval.
Defined.

(** [btc_addrman_remove] of a known address. *)
Lemma remove_result (man : btc_addrman) (a : btc_netaddr) (e : btc_addrent) :
  wf man → man_map man !! key_of a = Some e →
  ∃ man',
    btc_addrman_remove man a = Some (man', true) ∧ wf man' ∧
    man_map man' = delete (key_of a) (man_map man) ∧
    if used e then
      man_fresh man' = man_fresh man ∧
      man_total_fresh man' = man_total_fresh man ∧
      man_total_used man' = man_total_used man - 1 ∧
      ∃ i l, man_used man !! i = Some l ∧ key_of a ∈ l ∧
             man_used man' = <[i := list_unlink (key_of a) l]> (man_used man)
    else
      man_fresh man' = (λ b : gset addrkey, b ∖ {[key_of a]}) <$> man_fresh man ∧
      man_used man' = man_used man ∧
      man_total_fresh man' = man_total_fresh man - 1 ∧
      man_total_used man' = man_total_used man.
Proof.
  intros Hinv He.
  destruct (btc_addrman_remove_total man a Hinv) as [[man' r] Hrem].
  pose proof (btc_addrman_remove_inv true ∅ man a man' r Hinv Hrem) as Hinv'.
  revert Hrem. unfold btc_addrman_remove. rewrite He.
  destruct (inv_entry Hinv _ _ He) as [Hkey Hok]. rewrite Hkey.
  set (k := key_of a) in *.
  destruct (used e) eqn:Hu.
  - pose proof (used_pos _ _ _ _ _ _ _ Hinv He Hu) as Hpos.
    case_decide as Hrc; [|done].
    destruct (chain_head k (man_used man)) as [h|] eqn:Hch; [|done].
    cbn [mbind option_bind].
    destruct (find_head h (man_used man) 0) as [i|] eqn:Hfh; [|done].
    cbn [mbind option_bind]. cbn [man_map set_total_used set_usedb].
    rewrite He. rewrite decide_True by eauto. intros [= <- <-].
    apply chain_head_spec in Hch as (j & l & Hj & Hkl & Hhl).
    apply find_head_spec in Hfh as (l' & Hi & Hhl' & _).
    rewrite Nat.sub_0_r in Hi.
    assert (j = i) as ->
      by (by apply (used_bucket_unique (man_used man) j i l l' h
                      (inv_used_nodup Hinv))).
    assert (l' = l) as -> by congruence.
    exists (set_map (delete k (man_map man))
              (set_total_used (wrapsz (man_total_used man - 1))
                 (set_usedb (alter (list_unlink k) i (man_used man)) man))).
    split; [done|]. split; [done|]. split; [done|].
    split; [done|]. split; [done|]. split.
    { cbn. rewrite (inv_total_used Hinv). apply wrapsz_small. lia. }
    exists i, l. split; [done|]. split; [done|]. cbn.
    by apply alter_as_insert.
  - pose proof (used_pos _ _ _ _ _ _ _ Hinv He Hu) as Hpos.
    destruct (fresh_del_all_spec k (man_fresh man) 0 (ref_count e) None)
      as (old & -> & _).
    case_decide as Hrc; [|done]. cbn [mbind option_bind].
    cbn [man_map set_total_fresh set_fresh].
    rewrite He. rewrite decide_True by eauto. intros [= <- <-].
    eexists. split; [reflexivity|]. split; [done|]. split; [done|].
    split; [done|]. split; [done|]. split; [|done].
    cbn. rewrite (inv_total_fresh Hinv). apply wrapsz_small. lia.
Qed.

(** [btc_addrman_remove] of an entry that is not used and is held by
    as many fresh buckets as its reference count says. *)
Lemma remove_fresh_result (st : bool) (zs : gset addrkey)
  (man : btc_addrman) (a : btc_netaddr) (e : btc_addrent) :
  store_inv st zs 0 man → man_map man !! key_of a = Some e →
  used e = false → fresh_refs (key_of a) (man_fresh man) = ref_count e →
  ∃ man',
    btc_addrman_remove man a = Some (man', true) ∧
    man_map man' = delete (key_of a) (man_map man) ∧
    man_fresh man' = (λ b : gset addrkey, b ∖ {[key_of a]}) <$> man_fresh man ∧
    man_used man' = man_used man ∧
    man_total_fresh man' = man_total_fresh man - 1 ∧
    man_total_used man' = man_total_used man.
Proof.
  intros Hinv He Hu Hrc. unfold btc_addrman_remove. rewrite He.
  destruct (inv_entry Hinv _ _ He) as [Hkey Hok]. rewrite Hkey.
  set (k := key_of a) in *. rewrite Hu.
  pose proof (used_pos _ _ _ _ _ _ _ Hinv He Hu) as Hpos.
  destruct (fresh_del_all_spec k (man_fresh man) 0 (ref_count e) None)
    as (old & -> & _).
  rewrite decide_True by lia. cbn [mbind option_bind].
  cbn [man_map set_total_fresh set_fresh].
  rewrite He. rewrite decide_True by eauto.
  eexists. split; [reflexivity|]. split; [done|].
  split; [done|]. split; [done|]. split; [|done].
  cbn. rewrite (inv_total_fresh Hinv). apply wrapsz_small. lia.
Qed.

(** X20: in a store that has the invariants of the data model,
    [btc_addrman_remove] of a known address returns true and leaves a
    store that has them too, in which
    the address is neither in the global index nor in any bucket, and
    whose total for the kind of the entry, fresh or used, is one
    less. *)
Theorem remove_known_address (man : btc_addrman) (a : btc_netaddr)
  (e : btc_addrent) :
  wf man → man_map man !! key_of a = Some e →
  ∃ man',
    btc_addrman_remove man a = Some (man', true) ∧ wf man' ∧
    man_map man' = delete (key_of a) (man_map man) ∧
    (∀ i b, man_fresh man' !! i = Some b → key_of a ∉ b) ∧
    (key_of a ∉ concat (man_used man')) ∧
    man_total_fresh man' =
      man_total_fresh man - (if used e then 0 else 1) ∧
    man_total_used man' =
      man_total_used man - (if used e then 1 else 0).
Proof.
  intros Hinv He.
  destruct (remove_result man a e Hinv He) as (man' & Hr & Hinv' & Hm & Hrest).
  exists man'. split; [done|]. split; [done|]. split; [done|].
  split; [|split].
  - intros i b Hi Hk.
    destruct (inv_fresh_sub Hinv' i b _ Hi Hk) as (e' & He' & _).
    by rewrite Hm, lookup_delete_eq in He'.
  - intros Hk. destruct (inv_used_sub Hinv' _ Hk) as (e' & He' & _).
    by rewrite Hm, lookup_delete_eq in He'.
  - destruct (used e).
    + destruct Hrest as (_ & -> & -> & _). lia.
    + destruct Hrest as (_ & _ & -> & ->). lia.
Qed.

Lemma remove_known_address_witness :
  ∃ man',
    btc_addrman_remove man1 addr1 = Some (man', true) ∧ wf man' ∧
    man_map man' = delete (key_of addr1) (man_map man1) ∧
    (∀ i b, man_fresh man' !! i = Some b → key_of addr1 ∉ b) ∧
    (key_of addr1 ∉ concat (man_used man')) ∧
    man_total_fresh man' =
      man_total_fresh man1 -
      (if used (set_src (set_time now0 (man_addr man0))
                  (set_addr addr1 (set_ref_count 1 btc_addrent_init)))
       then 0 else 1) ∧
    man_total_used man' =
      man_total_used man1 -
      (if used (set_src (set_time now0 (man_addr man0))
                  (set_addr addr1 (set_ref_count 1 btc_addrent_init)))
       then 1 else 0).
Proof.
  apply (remove_known_address man1 addr1
           (set_src (set_time now0 (man_addr man0))
              (set_addr addr1 (set_ref_count 1 btc_addrent_init)))).
  - apply (@reachable_local_wf toy), reachable_local_man1.
  - apply man1_entry.
Defined.

(** X21: in every reachable store, adding an unknown address whose
    fresh bucket has room and removing it again gives back the global
    index, the buckets and the totals as they were. *)
Theorem add_then_remove `{Collab} (man : btc_addrman) (now u : Z)
  (a : btc_netaddr) (s : option btc_netaddr) (b : gset addrkey) :
  reachable man → is_int64 now → netaddr_ok a →
  from_option netaddr_ok True s →
  port a ≠ 0 → man_map man !! key_of a = None →
  let entry := set_src (default (man_addr man) s)
                 (set_addr a btc_addrent_init) in
  let entry1 :=
    if decide (time a <= 100000000 ∨ time a > add64 now (10 * 60))
    then set_addr (set_time (sub64 now (5 * 24 * 60 * 60)) a) entry
    else entry in
  man_fresh man !! fresh_bucket man entry1 = Some b →
  Z.of_nat (size b) < MAX_ENTRIES →
  ∃ man1 man2,
    btc_addrman_add man now u a s = Some (man1, true) ∧
    btc_addrman_remove man1 a = Some (man2, true) ∧
    man_map man2 = man_map man ∧ man_fresh man2 = man_fresh man ∧
    man_used man2 = man_used man ∧
    man_total_fresh man2 = man_total_fresh man ∧
    man_total_used man2 = man_total_used man.
Proof.
  intros [zs Hinv]%reachable_inv Hnow Ha Hs Hport Hnone entry entry1 Hb Hroom.
  pose proof (add_new_result false zs man now u a s b Hinv Hport Hnone Hb
                Hroom) as Hadd.
  fold entry entry1 in Hadd.
  set (man1 := set_needs_flush true _) in Hadd.
  assert (Hinv1 : store_inv false zs 0 man1)
    by (by apply (btc_addrman_add_inv false zs man now u a s man1 true)).
  assert (He1 : man_map man1 !! key_of a = Some (set_ref_count 1 entry1))
    by apply lookup_insert_eq.
  assert (Hu1 : used (set_ref_count 1 entry1) = false).
  { unfold entry1. by case_decide. }
  assert (Hrefs : fresh_refs (key_of a) (man_fresh man1)
                  = ref_count (set_ref_count 1 entry1)).
  { destruct (inv_fresh_rc Hinv1 _ _ He1 Hu1) as (_ & Hle & _).
    assert (Hpos : 0 < fresh_refs (key_of a) (man_fresh man1)).
    { apply fresh_refs_pos.
      exists (fresh_bucket man entry1), ({[key_of a]} ∪ b). split.
      - unfold man1. cbn [man_fresh set_needs_flush set_map set_fresh].
        apply list_lookup_insert_eq. by apply lookup_lt_Some with b.
      - set_solver. }
    change (ref_count (set_ref_count 1 entry1)) with 1 in *. lia. }
  destruct (remove_fresh_result false zs man1 a _ Hinv1 He1 Hu1 Hrefs)
    as (man2 & Hr & Hm & Hf & Hus & Htf & Htu).
  exists man1, man2. split; [done|]. split; [done|].
  split; [|split; [|split; [|split]]].
  - rewrite Hm. unfold man1. cbn [man_map set_needs_flush set_map].
    by rewrite delete_insert_eq, delete_id.
  - rewrite Hf. unfold man1. cbn [man_fresh set_needs_flush set_map set_fresh].
    apply list_eq. intros j. rewrite list_lookup_fmap.
    destruct (decide (j = fresh_bucket man entry1)) as [->|Hne].
    + rewrite list_lookup_insert_eq by (by apply lookup_lt_Some with b).
      rewrite Hb. cbn. f_equal.
      assert (key_of a ∉ b); [|set_solver].
      intros Hin.
      destruct (inv_fresh_sub Hinv _ b _ Hb Hin) as (? & ? & _). congruence.
    + rewrite list_lookup_insert_ne by done.
      destruct (man_fresh man !! j) as [bj|] eqn:Hj; [|done]. cbn. f_equal.
      assert (key_of a ∉ bj); [|set_solver].
      intros Hin.
      destruct (inv_fresh_sub Hinv _ bj _ Hj Hin) as (? & ? & _). congruence.
  - by rewrite Hus.
  - rewrite Htf. unfold man1. cbn. lia.
  - by rewrite Htu.
Qed.

Lemma add_then_remove_witness :
  ∃ m1 m2,
    @btc_addrman_add toy man0 now0 0 addr1 None = Some (m1, true) ∧
    btc_addrman_remove m1 addr1 = Some (m2, true) ∧
    man_map m2 = man_map man0 ∧ man_fresh m2 = man_fresh man0 ∧
    man_used m2 = man_used man0 ∧
    man_total_fresh m2 = man_total_fresh man0 ∧
    man_total_used m2 = man_total_used man0.
Proof.
  apply (@add_then_remove toy man0 now0 0 addr1 None ∅).
  - apply reachable_man0.
  - by_eval.
  - unfold netaddr_ok. by_eval.
  - done.
  - by_eval.
  - reflexivity.
  - by vm_compute.
  - by_eval.
Defined.

(** ** What add leaves alone *)

Lemma fresh_unref_used (i : nat) (k : addrkey) (e : btc_addrent)
  (man : btc_addrman) :
  man_used (fresh_unref i k e man) = man_used man ∧
  man_total_used (fresh_unref i k e man) = man_total_used man ∧
  man_banned (fresh_unref i k e man) = man_banned man ∧
  man_local (fresh_unref i k e man) = man_local man.
Proof. unfold fresh_unref. by case_decide. Qed.

Lemma foldl_evict_fresh_None (now : Z) (i : nat) (ks : list addrkey) :
  foldl (evict_fresh_step now i) None ks = None.
Proof. by induction ks. Qed.

Lemma evict_fresh_fold_used (now : Z) (i : nat) (ks : list addrkey)
  (man man' : btc_addrman) (old old' : option addrkey) :
  foldl (evict_fresh_step now i) (Some (man, old)) ks = Some (man', old') →
  man_used man' = man_used man ∧ man_total_used man' = man_total_used man ∧
  man_banned man' = man_banned man ∧ man_local man' = man_local man.
Proof.
  revert man old. induction ks as [|k ks IH]; intros man old.
  - by intros [= <- <-].
  - cbn [foldl].
    destruct (evict_fresh_step now i (Some (man, old)) k) as [[m1 o1]|] eqn:E;
      [|by rewrite foldl_evict_fresh_None].
    intros Hr. destruct (IH _ _ Hr) as (-> & -> & -> & ->).
    revert E. unfold evict_fresh_step. cbn [mbind option_bind].
    destruct (man_map man !! k) as [e|]; [|done]. cbn [mbind option_bind].
    destruct (is_stale now e).
    + intros [= <- <-]. apply fresh_unref_used.
    + destruct old as [ko|]; [|by intros [= <- <-]].
      destruct (man_map man !! ko) as [eo|]; [|done]. cbn [mbind option_bind].
      by case_decide; intros [= <- <-].
Qed.

Lemma evict_fresh_used (now : Z) (man man' : btc_addrman) (i : nat) :
  evict_fresh now man i = Some man' →
  man_used man' = man_used man ∧ man_total_used man' = man_total_used man ∧
  man_banned man' = man_banned man ∧ man_local man' = man_local man.
Proof.
  unfold evict_fresh.
  destruct (man_fresh man !! i) as [b|]; [|done]. cbn [mbind option_bind].
  destruct (foldl _ _ _) as [[m1 old]|] eqn:E; [|done].
  cbn [mbind option_bind].
  destruct (evict_fresh_fold_used _ _ _ _ _ _ _ E) as (E1 & E2 & E3 & E4).
  destruct old as [ko|]; [|intros [= <-]; done].
  destruct (man_map m1 !! ko) as [eo|]; [|done]. cbn [mbind option_bind].
  intros [= <-].
  destruct (fresh_unref_used i ko eo m1) as (-> & -> & -> & ->). done.
Qed.

Lemma add_insert_used `{Collab} (man man' : btc_addrman) (now : Z)
  (entry : btc_addrent) (known r : bool) :
  add_insert man now entry known = Some (man', r) →
  man_used man' = man_used man ∧ man_total_used man' = man_total_used man ∧
  man_banned man' = man_banned man ∧ man_local man' = man_local man.
Proof.
  unfold add_insert. cbv zeta.
  destruct (man_fresh man !! _) as [b|]; [|done]. cbn [mbind option_bind].
  case_decide; [by intros [= <- <-]|].
  destruct (if decide (Z.of_nat (size b) >= MAX_ENTRIES) then _ else _)
    as [m1|] eqn:E; [|done].
  cbn [mbind option_bind].
  assert (Hm1 : man_used m1 = man_used man ∧
                man_total_used m1 = man_total_used man ∧
                man_banned m1 = man_banned man ∧ man_local m1 = man_local man).
  { revert E. case_decide; [apply evict_fresh_used|by intros [= <-]]. }
  destruct Hm1 as (<- & <- & <- & <-).
  destruct (if known then _ else _) as [e1|]; [|done].
  cbn [mbind option_bind]. by intros [= <- <-].
Qed.

(** X22: [btc_addrman_add] never touches the used table, the ban table
    or the local addresses: whatever it returns, the used buckets, the
    used total, the bans and the local addresses are what they were. *)
Theorem add_keeps_used `{Collab} (man man' : btc_addrman) (now u : Z)
  (a : btc_netaddr) (s : option btc_netaddr) (r : bool) :
  btc_addrman_add man now u a s = Some (man', r) →
  man_used man' = man_used man ∧ man_total_used man' = man_total_used man ∧
  man_banned man' = man_banned man ∧ man_local man' = man_local man.
Proof.
  unfold btc_addrman_add. case_decide; [done|].
  destruct (man_map man !! key_of a) as [entry|].
  - destruct (add_touch now a s entry) as [entry2 upd].
    set (man1 := set_map _ _).
    assert (Hm1 : man_used man1 = man_used man ∧
                  man_total_used man1 = man_total_used man ∧
                  man_banned man1 = man_banned man ∧
                  man_local man1 = man_local man)
      by (unfold man1; by destruct upd).
    destruct Hm1 as (<- & <- & <- & <-).
    case_decide; [by intros [= <- <-]|].
    destruct (used entry2); [by intros [= <- <-]|].
    case_decide; [|done].
    case_decide; [by intros [= <- <-]|].
    case_decide; [|done].
    case_decide; [by intros [= <- <-]|].
    apply add_insert_used.
  - intros Hr. by destruct (add_insert_used _ _ _ _ _ _ Hr) as (-> & -> & -> & ->).
Qed.

Lemma add_keeps_used_witness :
  man_used man1 = man_used man0 ∧ man_total_used man1 = man_total_used man0 ∧
  man_banned man1 = man_banned man0 ∧ man_local man1 = man_local man0.
Proof.
  apply (@add_keeps_used toy man0 man1 now0 0 addr1 None true).
  by vm_compute.
Defined.

(** ** get *)

Lemma get_loop_sound (fuel : nat) (man : btc_addrman) (use_used : bool)
  (now : Z) (factor : QArith_base.Q) (draws : list Z) (e : btc_addrent) :
  get_loop fuel man use_used now factor draws = Some e →
  ∃ k, man_map man !! k = Some e ∧
       if use_used then ∃ i l, man_used man !! i = Some l ∧ k ∈ l
       else ∃ i b, man_fresh man !! i = Some b ∧ k ∈ b.
Proof.
  revert factor draws. induction fuel as [|fuel IH]; intros factor draws;
    [done|].
  cbn [get_loop]. destruct draws as [|r1 ds]; [done|]. cbv zeta.
  set (pick := if use_used then _ else _).
  destruct pick as [[k|]|] eqn:Hpick; [| apply IH | done].
  assert (Hk : if use_used then ∃ i l, man_used man !! i = Some l ∧ k ∈ l
               else ∃ i b, man_fresh man !! i = Some b ∧ k ∈ b).
  { revert Hpick. unfold pick. destruct use_used.
    - destruct (man_used man !! _) as [l|] eqn:Hl; [|done].
      cbn [mbind option_bind]. case_decide; [done|].
      destruct (head ds) as [r2|]; [|done]. cbn [mbind option_bind].
      intros [= Hlk]. eexists _, l. split; [done|].
      by apply list_elem_of_lookup_2 in Hlk.
    - destruct (man_fresh man !! _) as [b|] eqn:Hb; [|done].
      cbn [mbind option_bind]. case_decide; [done|].
      destruct (head ds) as [r2|]; [|done]. cbn [mbind option_bind].
      intros [= Hlk]. eexists _, b. split; [done|].
      apply list_elem_of_lookup_2 in Hlk. by apply elem_of_elements in Hlk. }
  destruct (man_map man !! k) as [entry|] eqn:He; [|done].
  cbn [mbind option_bind].
  destruct ds as [|r2 [|r3 ds']]; [done|done|].
  destruct (accepts _ factor entry now).
  - intros [= <-]. by exists k.
  - apply IH.
Qed.

(** X23: [btc_addrman_get] answers null when both totals are zero, and
    an entry it returns is an entry of the global index whose key is in
    one of the buckets. *)
Theorem get_returns_indexed_entry (fuel : nat) (man : btc_addrman) (now : Z)
  (draws : list Z) :
  (man_total_fresh man = 0 → man_total_used man = 0 →
   btc_addrman_get fuel man now draws = Some None) ∧
  (∀ e, btc_addrman_get fuel man now draws = Some (Some e) →
        ∃ k, man_map man !! k = Some e ∧
             ((∃ i l, man_used man !! i = Some l ∧ k ∈ l) ∨
              (∃ i b, man_fresh man !! i = Some b ∧ k ∈ b))).
Proof.
  unfold btc_addrman_get. split.
  - intros -> ->. done.
  - intros e.
    assert (Hl : ∀ u f ds, Some <$> get_loop fuel man u now f ds = Some (Some e) →
              ∃ k, man_map man !! k = Some e ∧
                   ((∃ i l, man_used man !! i = Some l ∧ k ∈ l) ∨
                    (∃ i b, man_fresh man !! i = Some b ∧ k ∈ b))).
    { intros u f ds Hr.
      destruct (get_loop fuel man u now f ds) as [e'|] eqn:E; [|done].
      injection Hr as ->.
      destruct (get_loop_sound _ _ _ _ _ _ _ E) as (k & He & Hk).
      exists k. split; [done|]. destruct u; [by left|by right]. }
    repeat case_bool_decide; try (by apply Hl); try done.
    destruct draws as [|r0 ds]; [done|apply Hl].
Qed.

(** ** Iteration *)

Lemma visit_all (n : nat) (iter : list (addrkey * btc_addrent)) :
  (length iter ≤ n)%nat → visit n iter = (λ kv, addr kv.2) <$> iter.
Proof.
  revert iter. induction n as [|n IH]; intros [|kv iter] Hn; try done.
  - simpl in Hn. lia.
  - cbn [visit btc_addrman_next]. rewrite IH by (simpl in Hn; lia). done.
Qed.

(** X24: in a reachable store, calling [btc_addrman_next] until it
    answers 0 hands out [btc_addrman_total] addresses, no two with the
    same key, and the keys handed out are those of the global index. *)
Theorem iterate_visits_each_once `{Collab} (man : btc_addrman) :
  reachable man →
  let l := visit (S (size (man_map man))) (btc_addrman_iterate man) in
  Z.of_nat (length l) = btc_addrman_total man ∧
  NoDup (key_of <$> l) ∧
  ∀ k, k ∈ key_of <$> l ↔ is_Some (man_map man !! k).
Proof.
  intros Hr. destruct (reachable_inv man Hr) as [zs Hinv]. cbv zeta.
  unfold btc_addrman_iterate.
  rewrite visit_all by (rewrite length_map_to_list; lia).
  assert (Hkeys : key_of <$> ((λ kv : addrkey * btc_addrent, addr kv.2)
                              <$> map_to_list (man_map man))
                  = (map_to_list (man_map man)).*1).
  { rewrite <- list_fmap_compose. apply list_fmap_ext.
    intros i [k e] Hi. cbn.
    apply list_elem_of_lookup_2, elem_of_map_to_list in Hi.
    apply (inv_entry Hinv k e Hi). }
  rewrite Hkeys. split; [|split].
  - rewrite length_fmap, length_map_to_list.
    destruct (store_bound _ _ _ _ Hinv) as [Hbf Hbu].
    pose proof (count_used_nonneg false (man_map man)).
    pose proof (count_used_nonneg true (man_map man)).
    pose proof (count_used_total (man_map man)).
    unfold btc_addrman_total.
    rewrite (inv_total_fresh Hinv), (inv_total_used Hinv), Z.add_0_r.
    rewrite wrapsz_small; lia.
  - apply NoDup_fst_map_to_list.
  - intros k. rewrite list_elem_of_fmap. split.
    + intros ([k' e] & -> & Hin%elem_of_map_to_list). by eexists.
    + intros [e He]. exists (k, e). split; [done|].
      by apply elem_of_map_to_list.
Qed.

Lemma iterate_visits_each_once_witness :
  let l := visit (S (size (man_map man1))) (btc_addrman_iterate man1) in
  Z.of_nat (length l) = btc_addrman_total man1 ∧
  NoDup (key_of <$> l) ∧
  ∀ k, k ∈ key_of <$> l ↔ is_Some (man_map man1 !! k).
Proof.
  apply (@iterate_visits_each_once toy man1). apply reachable_man1.
Defined.

(** ** Staleness after an attempt *)

(** X25: an entry is not stale for the minute that follows an attempt:
    after [btc_addrman_mark_attempt] at a time [now] other than 0,
    [is_stale] answers no at every time up to [now + 60]. *)
Theorem attempted_not_stale (man : btc_addrman) (now now' : Z)
  (a : btc_netaddr) (e : btc_addrent) :
  man_map man !! key_of a = Some e →
  now ≠ 0 → small64 now' → now' - 60 <= now →
  ∃ e', man_map (btc_addrman_mark_attempt man now a) !! key_of a = Some e' ∧
        last_attempt e' = now ∧
        attempts e' = wrap32 (attempts e + 1) ∧
        is_stale now' e' = false.
Proof.
  intros He Hnow Hsmall Hle. unfold btc_addrman_mark_attempt. rewrite He.
  eexists. split; [apply lookup_insert_eq|]. split; [done|]. split; [done|].
  apply is_stale_guarded; [done|]. split; cbn; lia.
Qed.

Lemma attempted_not_stale_witness :
  ∃ e', man_map (btc_addrman_mark_attempt man1 now0 addr1) !! key_of addr1
        = Some e' ∧
        last_attempt e' = now0 ∧
        attempts e' = wrap32 (attempts (entry_n 0) + 1) ∧
        is_stale (now0 + 60) e' = false.
Proof.
  apply (attempted_not_stale man1 now0 (now0 + 60) addr1
           (set_src (set_time now0 (man_addr man0))
              (set_addr addr1 (set_ref_count 1 btc_addrent_init)))).
  - apply man1_entry.
  - by_eval.
  - by_eval.
  - by_eval.
Defined.

(** X26: when [evict_fresh] is given a fresh bucket of a reachable
    store that is not empty it returns, the bucket has lost at least
    one key and gained none, and the entries whose keys were not in the
    bucket are untouched, as are the used buckets. *)
Theorem evict_fresh_makes_room `{Collab} (man : btc_addrman) (now : Z)
  (i : nat) (b0 : gset addrkey) :
  reachable man → man_fresh man !! i = Some b0 → b0 ≠ ∅ →
  ∃ man' b',
    evict_fresh now man i = Some man' ∧
    man_fresh man' !! i = Some b' ∧ b' ⊆ b0 ∧ (size b' < size b0)%nat ∧
    (∀ k, k ∉ b0 → man_map man' !! k = man_map man !! k) ∧
    man_used man' = man_used man.
Proof.
  intros [zs Hinv]%reachable_inv Hi Hne.
  destruct (evict_fresh_inv false zs 0 now man i b0 Hinv Hi Hne)
    as (man' & b' & E & _ & Hi' & Hsub & Hsz & Hfr).
  exists man', b'. split; [done|]. split; [done|]. split; [done|].
  split; [done|]. split; [done|]. apply (evict_fresh_used _ _ _ _ E).
Qed.

Lemma evict_fresh_makes_room_witness :
  ∃ man' b',
    evict_fresh now0 man1 0 = Some man' ∧
    man_fresh man' !! 0%nat = Some b' ∧
    b' ⊆ default ∅ (man_fresh man1 !! 0%nat) ∧
    (size b' < size (default ∅ (man_fresh man1 !! 0%nat)))%nat ∧
    (∀ k, k ∉ default ∅ (man_fresh man1 !! 0%nat) →
          man_map man' !! k = man_map man1 !! k) ∧
    man_used man' = man_used man1.
Proof.
  apply (@evict_fresh_makes_room toy man1 now0 0
           (default ∅ (man_fresh man1 !! 0%nat))).
  - apply reachable_man1.
  - destruct (@reachable_inv toy man1 reachable_man1) as [zs Hinv].
    destruct (lookup_lt_is_Some_2 (man_fresh man1) 0) as [b ->]; [|done].
    rewrite (inv_fresh_len Hinv). unfold MAX_FRESH_BUCKETS. lia.
  - intros Heq.
    assert (Hs : size (default ∅ (man_fresh man1 !! 0%nat))
                 = size (∅ : gset addrkey)) by (by rewrite Heq).
    vm_compute in Hs. discriminate Hs.
Defined.

(** ** add on an address that is already in its bucket *)

(** X27: in a store that has the invariants of the data model, a
    second [btc_addrman_add] of a known address that is not used and
    sits in the fresh bucket computed for its entry returns
    false whatever the time, the source and the draw: the bucket is
    computed from the source stored in the entry, not from the source
    given, so the entry gets no further reference and no bucket
    changes.  The group of an address is taken to depend on its [raw]
    bytes alone. *)
Theorem add_known_no_second_bucket `{Collab} (man : btc_addrman) (now u : Z)
  (a : btc_netaddr) (s : option btc_netaddr) (e : btc_addrent)
  (b : gset addrkey) :
  (∀ x y : btc_netaddr,
     raw x = raw y → btc_netaddr_groupkey x = btc_netaddr_groupkey y) →
  wf man → netaddr_ok a → port a ≠ 0 →
  man_map man !! key_of a = Some e → used e = false →
  man_fresh man !! fresh_bucket man e = Some b → key_of a ∈ b →
  ∃ man',
    btc_addrman_add man now u a s = Some (man', false) ∧
    man_fresh man' = man_fresh man ∧
    man_total_fresh man' = man_total_fresh man ∧
    ∃ e', man_map man' = <[key_of a := e']> (man_map man) ∧
          ref_count e' = ref_count e ∧ src e' = src e.
Proof.
  intros Hgk Hinv Ha Hport He Hu Hb Hkb. unfold btc_addrman_add.
  rewrite decide_False by done. rewrite He.
  destruct (inv_entry Hinv _ _ He) as [Hkey Hok].
  destruct (add_touch_props now a s e Ha Hok) as (Hk2 & Hok2 & Hu2 & Hrc2).
  assert (Hsrc : src (add_touch now a s e).1 = src e)
    by (unfold add_touch; by case_decide).
  assert (Hraw : raw (addr (add_touch now a s e).1) = raw (addr e))
    by (unfold add_touch; by case_decide).
  destruct (add_touch now a s e) as [entry2 upd]. simpl in *.
  set (man1 := set_map _ _).
  assert (Hm1 : man_fresh man1 = man_fresh man ∧
                man_total_fresh man1 = man_total_fresh man ∧
                man_map man1 = <[key_of a := entry2]> (man_map man) ∧
                man_key man1 = man_key man)
    by (unfold man1; by destruct upd).
  destruct Hm1 as (Hf1 & Ht1 & Hmap1 & Hkey1).
  assert (Hres : ∃ man', Some (man1, false) = Some (man', false) ∧
            man_fresh man' = man_fresh man ∧
            man_total_fresh man' = man_total_fresh man ∧
            ∃ e', man_map man' = <[key_of a := e']> (man_map man) ∧
                  ref_count e' = ref_count e ∧ src e' = src e).
  { exists man1. split; [done|]. split; [done|]. split; [done|].
    by exists entry2. }
  case_decide; [done|].
  rewrite Hu2, Hu.
  destruct (inv_fresh_rc Hinv _ _ He Hu) as (Hr1 & _ & _ & Hr2).
  specialize (Hr2 eq_refl). rewrite <- Hrc2 in Hr1, Hr2.
  rewrite decide_True by lia.
  case_decide; [done|]. rewrite decide_True by lia.
  case_decide; [done|].
  unfold add_insert. cbv zeta.
  assert (Hfb : fresh_bucket man1 entry2 = fresh_bucket man e).
  { unfold fresh_bucket. cbv zeta.
    by rewrite Hkey1, Hf1, Hsrc, (Hgk (addr entry2) (addr e) Hraw). }
  rewrite Hfb, Hf1, Hb. cbn [mbind option_bind].
  rewrite Hk2, Hkey. by rewrite decide_True.
Qed.

Lemma add_known_no_second_bucket_witness :
  ∃ man',
    @btc_addrman_add toy man1 (now0 + 100000) 0
      (set_time (now0 + 99999) addr1) (Some addr2) = Some (man', false) ∧
    man_fresh man' = man_fresh man1 ∧
    man_total_fresh man' = man_total_fresh man1 ∧
    ∃ e', man_map man' =
            <[key_of (set_time (now0 + 99999) addr1) := e']> (man_map man1) ∧
          ref_count e' =
            ref_count (set_src (set_time now0 (man_addr man0))
                         (set_addr addr1 (set_ref_count 1 btc_addrent_init))) ∧
          src e' =
            src (set_src (set_time now0 (man_addr man0))
                   (set_addr addr1 (set_ref_count 1 btc_addrent_init))).
Proof.
  apply (@add_known_no_second_bucket toy man1 (now0 + 100000) 0
           (set_time (now0 + 99999) addr1) (Some addr2)
           (set_src (set_time now0 (man_addr man0))
              (set_addr addr1 (set_ref_count 1 btc_addrent_init)))
           (default ∅ (man_fresh man1 !! 0%nat))).
  - intros x y Hxy. cbn. by rewrite Hxy.
  - apply (@reachable_local_wf toy), reachable_local_man1.
  - unfold netaddr_ok. by_eval.
  - by_eval.
  - apply man1_entry.
  - reflexivity.
  - destruct (@reachable_inv toy man1 reachable_man1) as [zs Hinv].
    change (@fresh_bucket toy man1 _) with 0%nat.
    destruct (lookup_lt_is_Some_2 (man_fresh man1) 0) as [b ->]; [|done].
    rewrite (inv_fresh_len Hinv). unfold MAX_FRESH_BUCKETS. lia.
  - apply (bool_decide_unpack _). by vm_compute.
Defined.

(** ** Which entries evict_fresh evicts *)

(** The loop of [evict_fresh] over the keys [ks] that are left, started
    with [old]: the keys of [ks] whose entries are stale leave the
    bucket, and [old'] is the oldest of [old] and of the entries of
    [ks] that are not stale.  [m0] is the global index before the
    loop. *)
Lemma evict_fresh_fold_policy (now : Z) (i : nat)
  (m0 : gmap addrkey btc_addrent) (ks : list addrkey)
  (man man' : btc_addrman) (old old' : option addrkey) (b : gset addrkey) :
  foldl (evict_fresh_step now i) (Some (man, old)) ks = Some (man', old') →
  man_fresh man !! i = Some b → NoDup ks →
  (∀ k, k ∈ ks → man_map man !! k = m0 !! k) →
  (∀ k e, m0 !! k = Some e → key_of (addr e) = k) →
  (∀ ko, old = Some ko → (ko ∉ ks) ∧ man_map man !! ko = m0 !! ko) →
  ∃ b' : gset addrkey,
    man_fresh man' !! i = Some b' ∧
    (∀ k, k ∈ b' ↔
          k ∈ b ∧ ¬ (k ∈ ks ∧ ∃ e, m0 !! k = Some e ∧ is_stale now e = true)) ∧
    (∀ ko', old' = Some ko' →
       man_map man' !! ko' = m0 !! ko' ∧
       (old = Some ko' ∨
        (ko' ∈ ks ∧ ∃ e, m0 !! ko' = Some e ∧ is_stale now e = false))) ∧
    (∀ ko' eo', old' = Some ko' → m0 !! ko' = Some eo' →
       (∀ ko eo, old = Some ko → m0 !! ko = Some eo →
                 time (addr eo') <= time (addr eo)) ∧
       (∀ k e, k ∈ ks → m0 !! k = Some e → is_stale now e = false →
               time (addr eo') <= time (addr e))) ∧
    (old' = None →
     old = None ∧
     ∀ k e, k ∈ ks → m0 !! k = Some e → is_stale now e = true).
Proof.
  intros Hfold Hb Hnd Hks Hkey Hold.
  revert man old b Hfold Hb Hks Hold.
  induction ks as [|k ks IH]; intros man old b Hfold Hb Hks Hold.
  - injection Hfold as <- <-. exists b. split; [done|]. split.
    { intros k. split; [|by intros [? _]].
      intros Hk. split; [done|]. intros [Hin _]. by inversion Hin. }
    split.
    { intros ko' ->. split; [apply (Hold ko' eq_refl)|by left]. }
    split.
    { intros ko' eo' -> Heo'. split.
      - intros ko eo [= <-] Heo. assert (eo = eo') as -> by congruence. lia.
      - intros k e Hk. by inversion Hk. }
    intros ->. split; [done|]. intros k e Hk. by inversion Hk.
  - apply NoDup_cons in Hnd as [Hkks Hnd].
    cbn [foldl] in Hfold.
    destruct (evict_fresh_step now i (Some (man, old)) k) as [[m1 o1]|] eqn:E;
      [|by rewrite foldl_evict_fresh_None in Hfold].
    revert E. unfold evict_fresh_step. cbn [mbind option_bind].
    rewrite (Hks k) by left.
    destruct (m0 !! k) as [e|] eqn:He; [|done]. cbn [mbind option_bind].
    pose proof (Hkey k e He) as Hke.
    destruct (is_stale now e) eqn:Hst.
    + intros [= <- <-].
      destruct (IH Hnd (fresh_unref i k e man) old (b ∖ {[k]}) Hfold)
        as (b' & Hb' & Hmem & Ho1 & Ho2 & Ho3).
      { rewrite fresh_unref_fresh, list_lookup_alter_eq, Hb, Hke. done. }
      { intros k' Hk'. rewrite fresh_unref_map; [by apply Hks; right| |].
        - by intros ->.
        - rewrite Hke. by intros ->. }
      { intros ko Hko. destruct (Hold ko Hko) as [Hnin Hlk].
        split; [intros ?; apply Hnin; by right|].
        rewrite fresh_unref_map; [done| |].
        - intros ->. apply Hnin. left.
        - rewrite Hke. intros ->. apply Hnin. left. }
      exists b'. split; [done|]. split.
      { intros k'. rewrite Hmem. split.
        - intros [[Hkb Hne]%elem_of_difference Hns]. split; [done|].
          intros [[Heq|Hin]%elem_of_cons Hs]; [|by apply Hns].
          subst k'. apply Hne. by apply elem_of_singleton.
        - intros [Hkb Hns]. split.
          + apply elem_of_difference. split; [done|].
            intros ->%elem_of_singleton. apply Hns. split; [left|].
            by exists e.
          + intros [Hin Hs]. apply Hns. split; [by right|done]. }
      split.
      { intros ko' Hko'. destruct (Ho1 ko' Hko') as [Hlk Hor].
        split; [done|]. destruct Hor as [?|[Hin Hs]]; [by left|].
        right. split; [by right|done]. }
      split.
      { intros ko' eo' Hko' Heo'. destruct (Ho2 ko' eo' Hko' Heo') as [H1 H2].
        split; [done|].
        intros k' e' [Heq|Hin]%elem_of_cons He' Hs'; [|by apply (H2 k' e')].
        subst k'. congruence. }
      intros Hnone. destruct (Ho3 Hnone) as [H1 H2]. split; [done|].
      intros k' e' [Heq|Hin]%elem_of_cons He'; [|by apply (H2 k' e')].
      subst k'. congruence.
    + assert (Hcase : ∃ o1' : option addrkey,
        (match old with
         | None => Some (man, Some k)
         | Some ko =>
             man_map man !! ko ≫= λ eo,
               if decide (time (addr e) < time (addr eo))
               then Some (man, Some k) else Some (man, old)
         end = Some (m1, o1) → m1 = man ∧ o1 = o1') ∧
        (o1' = Some k ∧
         (∀ ko eo, old = Some ko → m0 !! ko = Some eo →
                   time (addr e) <= time (addr eo)) ∨
         (o1' = old ∧ ∃ ko eo, old = Some ko ∧ m0 !! ko = Some eo ∧
                               time (addr eo) <= time (addr e)))).
      { destruct old as [ko|].
        - destruct (Hold ko eq_refl) as [_ Hlk]. rewrite Hlk.
          destruct (m0 !! ko) as [eo|] eqn:Heo.
          + cbn [mbind option_bind]. case_decide as Hlt.
            * exists (Some k). split; [by intros [= <- <-]|]. left.
              split; [done|]. intros ko' eo' [= <-] Heo''.
              assert (eo' = eo) as -> by congruence. lia.
            * exists (Some ko). split; [by intros [= <- <-]|]. right.
              split; [done|]. exists ko, eo. split; [done|]. split; [done|lia].
          + exists (Some k). split; [by cbn|]. left. split; [done|].
            intros ko' eo' [= <-] Heo'. congruence.
        - exists (Some k). split; [by intros [= <- <-]|]. left. split; [done|].
          by intros ko eo. }
      destruct Hcase as (o1' & Hres & Hor).
      intros E. destruct (Hres E) as [-> ->]. clear Hres E.
      destruct Hor as [[-> Hmin]|(-> & ko & eo & -> & Heo & Hle)].
      * destruct (IH Hnd man (Some k) b Hfold Hb)
          as (b' & Hb' & Hmem & Ho1 & Ho2 & Ho3).
        { intros k' Hk'. apply Hks. by right. }
        { intros ko' [= <-]. split; [done|]. apply Hks. left. }
        exists b'. split; [done|]. split.
        { intros k'. rewrite Hmem. split.
          - intros [Hkb Hns]. split; [done|].
            intros [[Heq|Hin]%elem_of_cons (e' & He' & Hs')]; [|apply Hns; eauto].
            subst k'. congruence.
          - intros [Hkb Hns]. split; [done|].
            intros [Hin Hs]. apply Hns. split; [by right|done]. }
        split.
        { intros ko' Hko'. destruct (Ho1 ko' Hko') as [Hlk Hor].
          split; [done|]. right. destruct Hor as [[= <-]|[Hin Hs]].
          - split; [left|]. by exists e.
          - split; [by right|done]. }
        split.
        { intros ko' eo' Hko' Heo'.
          destruct (Ho2 ko' eo' Hko' Heo') as [H1 H2].
          pose proof (H1 k e eq_refl He) as Hk1.
          split.
          - intros ko eo Hko Heo. pose proof (Hmin ko eo Hko Heo). lia.
          - intros k' e' [Heq|Hin]%elem_of_cons He' Hs';
              [|by apply (H2 k' e')].
            subst k'. assert (e' = e) as -> by congruence. done. }
        intros Hnone. by destruct (Ho3 Hnone) as [? _].
      * destruct (IH Hnd man (Some ko) b Hfold Hb)
          as (b' & Hb' & Hmem & Ho1 & Ho2 & Ho3).
        { intros k' Hk'. apply Hks. by right. }
        { intros ko' [= <-]. destruct (Hold ko eq_refl) as [Hnin Hlk].
          split; [|done]. intros ?. apply Hnin. by right. }
        exists b'. split; [done|]. split.
        { intros k'. rewrite Hmem. split.
          - intros [Hkb Hns]. split; [done|].
            intros [[Heq|Hin]%elem_of_cons (e' & He' & Hs')]; [|apply Hns; eauto].
            subst k'. congruence.
          - intros [Hkb Hns]. split; [done|].
            intros [Hin Hs]. apply Hns. split; [by right|done]. }
        split.
        { intros ko' Hko'. destruct (Ho1 ko' Hko') as [Hlk Hor].
          split; [done|]. destruct Hor as [?|[Hin Hs]]; [by left|].
          right. split; [by right|done]. }
        split.
        { intros ko' eo' Hko' Heo'.
          destruct (Ho2 ko' eo' Hko' Heo') as [H1 H2].
          pose proof (H1 ko eo eq_refl Heo) as Hk1.
          split; [done|].
          intros k' e' [Heq|Hin]%elem_of_cons He' Hs'; [|by apply (H2 k' e')].
          subst k'. assert (e' = e) as -> by congruence. lia. }
        intros Hnone. by destruct (Ho3 Hnone) as [? _].
Qed.

(** X29: [evict_fresh] on a fresh bucket of a reachable store that is
    not empty evicts from the bucket every entry that [is_stale] and,
    of the entries that are not stale, one with the smallest
    [addr.time] and no other.  So either every entry of the bucket is
    stale and the bucket is left empty, or some entry [eo] of the
    bucket is not stale, no entry of the bucket that is not stale has
    a smaller [addr.time], and the keys that stay are those of the
    entries that are not stale, [eo] excepted. *)
Theorem evict_fresh_policy `{Collab} (man : btc_addrman) (now : Z) (i : nat)
  (b0 : gset addrkey) :
  reachable man → man_fresh man !! i = Some b0 → b0 ≠ ∅ →
  ∃ man' b',
    evict_fresh now man i = Some man' ∧ man_fresh man' !! i = Some b' ∧
    ((b' = ∅ ∧
      ∀ k e, k ∈ b0 → man_map man !! k = Some e → is_stale now e = true) ∨
     (∃ ko eo,
        ko ∈ b0 ∧ man_map man !! ko = Some eo ∧ is_stale now eo = false ∧
        (∀ k e, k ∈ b0 → man_map man !! k = Some e →
                is_stale now e = false → time (addr eo) <= time (addr e)) ∧
        (∀ k, k ∈ b' ↔
              k ∈ b0 ∧ k ≠ ko ∧
              ∃ e, man_map man !! k = Some e ∧ is_stale now e = false))).
Proof.
  intros [zs Hinv]%reachable_inv Hi Hne.
  destruct (evict_fresh_inv false zs 0 now man i b0 Hinv Hi Hne)
    as (man' & b'' & E & _ & Hi'' & _).
  exists man', b''. split; [done|]. split; [done|].
  revert E. unfold evict_fresh. rewrite Hi. cbn [mbind option_bind].
  destruct (foldl _ _ _) as [[m1 old]|] eqn:Ef; [|done].
  cbn [mbind option_bind].
  destruct (evict_fresh_fold_policy now i (man_map man) (elements b0)
              man m1 None old b0 Ef Hi)
    as (b1 & Hb1 & Hmem & Ho1 & Ho2 & Ho3);
    [apply NoDup_elements|done| |done|].
  { intros k e He. apply (inv_entry Hinv k e He). }
  assert (Hb1' : ∀ k, k ∈ b1 ↔
            k ∈ b0 ∧ ∃ e, man_map man !! k = Some e ∧ is_stale now e = false).
  { intros k. rewrite Hmem. split.
    - intros [Hk0 Hns]. split; [done|].
      destruct (inv_fresh_sub Hinv i b0 k Hi Hk0) as (e & He & _).
      exists e. split; [done|]. destruct (is_stale now e) eqn:Hs; [|done].
      destruct Hns. split; [by apply elem_of_elements|]. by exists e.
    - intros [Hk0 (e & He & Hs)]. split; [done|].
      intros [_ (e' & He' & Hs')]. congruence. }
  destruct old as [ko|].
  - destruct (Ho1 ko eq_refl) as [Hlk [?|[Hkin (eo & Heo & Hso)]]]; [done|].
    rewrite Hlk, Heo. cbn [mbind option_bind]. intros [= <-].
    assert (Hb'' : b'' = b1 ∖ {[ko]}).
    { rewrite fresh_unref_fresh, list_lookup_alter_eq, Hb1 in Hi''.
      injection Hi'' as <-. by rewrite (proj1 (inv_entry Hinv ko eo Heo)). }
    subst b''. right. exists ko, eo.
    split; [by apply elem_of_elements in Hkin|]. split; [done|].
    split; [done|]. split.
    + intros k e Hk0 He Hs.
      destruct (Ho2 ko eo eq_refl Heo) as [_ H2].
      apply (H2 k e); [by apply elem_of_elements|done|done].
    + intros k. rewrite elem_of_difference, elem_of_singleton, Hb1'.
      naive_solver.
  - intros [= <-].
    assert (b'' = b1) as -> by congruence.
    left. destruct (Ho3 eq_refl) as [_ Hall]. split.
    + apply set_eq. intros k. rewrite Hb1'. split; [|set_solver].
      intros [Hk0 (e & He & Hs)].
      assert (is_stale now e = true); [|congruence].
      apply (Hall k e); [by apply elem_of_elements|done].
    + intros k e Hk0 He. apply (Hall k e); [by apply elem_of_elements|done].
Qed.

Lemma evict_fresh_policy_witness :
  ∃ man' b',
    evict_fresh now0 man1 0 = Some man' ∧
    man_fresh man' !! 0%nat = Some b' ∧
    ((b' = ∅ ∧
      ∀ k e, k ∈ default ∅ (man_fresh man1 !! 0%nat) →
             man_map man1 !! k = Some e → is_stale now0 e = true) ∨
     (∃ ko eo,
        ko ∈ default ∅ (man_fresh man1 !! 0%nat) ∧
        man_map man1 !! ko = Some eo ∧ is_stale now0 eo = false ∧
        (∀ k e, k ∈ default ∅ (man_fresh man1 !! 0%nat) →
                man_map man1 !! k = Some e →
                is_stale now0 e = false → time (addr eo) <= time (addr e)) ∧
        (∀ k, k ∈ b' ↔
              k ∈ default ∅ (man_fresh man1 !! 0%nat) ∧ k ≠ ko ∧
              ∃ e, man_map man1 !! k = Some e ∧ is_stale now0 e = false))).
Proof.
  apply (@evict_fresh_policy toy man1 now0 0
           (default ∅ (man_fresh man1 !! 0%nat))).
  - apply reachable_man1.
  - destruct (@reachable_inv toy man1 reachable_man1) as [zs Hinv].
    destruct (lookup_lt_is_Some_2 (man_fresh man1) 0) as [b ->]; [|done].
    rewrite (inv_fresh_len Hinv). unfold MAX_FRESH_BUCKETS. lia.
  - intros Heq.
    assert (Hs : size (default ∅ (man_fresh man1 !! 0%nat))
                 = size (∅ : gset addrkey)) by (by rewrite Heq).
    vm_compute in Hs. discriminate Hs.
Defined.

(** ** What a loaded store does have *)

(** X30: what [btc_addrman_import] does establish when it accepts an
    image: every entry that is not used is held by at least one fresh
    bucket, and its reference count is at least the number of fresh
    buckets that hold it (it is larger when the image lists the address
    twice in one bucket). *)
Theorem import_success_integrity `{Collab} (man : btc_addrman) (now : Z)
  (rk1 rk2 xs : list Z) (k : addrkey) (e : btc_addrent) :
  reachable man → is_int64 now → length rk1 = 32%nat → Forall is_byte xs →
  (btc_addrman_import man now rk1 rk2 xs).2 = true →
  man_map (btc_addrman_import man now rk1 rk2 xs).1 !! k = Some e →
  used e = false →
  1 <= fresh_refs k (man_fresh (btc_addrman_import man now rk1 rk2 xs).1)
    <= ref_count e.
Proof.
  intros [zs Hinv]%reachable_inv Hnow Hrk1 Hxs.
  unfold btc_addrman_import, btc_addrman_read.
  pose proof (btc_addrman_reset_inv false false zs 0 man rk1 Hinv Hrk1)
    as Hinv0.
  destruct (read_body _ now xs) as [man1|] eqn:E; [|done].
  cbn [fst snd]. intros _ He Hu.
  assert (Hinv1 : store_inv false (⋃ man_fresh man1) 0 man1).
  { apply (read_body_inv false ∅ 0 (btc_addrman_reset rk1 man) man1 now xs);
      try done.
    - by intros i b (? & -> & _)%list_lookup_fmap_Some.
    - by intros i b (? & -> & _)%list_lookup_fmap_Some. }
  destruct (inv_fresh_rc Hinv1 k e He Hu) as (H1 & H2 & H3 & _).
  split; [|done].
  destruct (decide (fresh_refs k (man_fresh man1) < ref_count e)) as [Hlt|];
    [|lia].
  apply H3, elem_of_union_list in Hlt as (b & [i Hi]%list_elem_of_lookup & Hkb).
  assert (Hp : 0 < fresh_refs k (man_fresh man1))
    by (apply fresh_refs_pos; by exists i, b).
  lia.
Qed.

Lemma import_success_integrity_witness :
  1 <= fresh_refs (key_of addr2)
         (man_fresh (@btc_addrman_import toy man0 now0 key0 key0
                       image_twice).1)
    <= ref_count (set_ref_count 2 (@loaded toy now0 entry2)).
Proof.
  apply (@import_success_integrity toy man0 now0 key0 key0 image_twice
           (key_of addr2) (set_ref_count 2 (@loaded toy now0 entry2))).
  - apply reachable_man0.
  - by_eval.
  - reflexivity.
  - apply (bool_decide_unpack _). by vm_compute.
  - by vm_compute.
  - by vm_compute.
  - reflexivity.
Defined.
